(** * MyST rendering pipeline of [src/utils/markdown.ts]

    A shallow embedding of the text transformations of the blog renderer:
    the math resolver ([parseMystMath]), the figure resolver
    ([parseMystFigures]), the directive engine ([parseMystDirectives] and
    [generateDirectiveHtml]), the role engine ([parseMystRoles]) and the
    path rewriter at the end of [renderMarkdownContent].

    Text is a Rocq [string]; a character stands for one code unit in the
    range 0..255.  Every regular expression of the source is embedded as a
    deterministic matcher built from a few combinators; the comment above
    each matcher quotes the expression and says why the greedy and lazy
    quantifiers of that expression leave a single candidate.  Where an
    expression is quoted in a comment, a blank is written between a star
    and a closing parenthesis. *)

From Stdlib Require Import Strings.String Strings.Ascii Lists.List.
From Stdlib Require Import Arith.PeanoNat Bool.Bool micromega.Lia.
From Stdlib Require Import Numbers.DecimalString ZArith.ZArith.
From Stdlib Require Floats.PrimFloat Numbers.Cyclic.Int63.Uint63.
Import ListNotations.

Local Open Scope list_scope.
Local Open Scope string_scope.

(** ** Characters *)

Definition chr (n : nat) : ascii := ascii_of_nat n.
Definition code (c : ascii) : nat := nat_of_ascii c.

Definition LF : ascii := chr 10.
Definition CR : ascii := chr 13.
Definition nl : string := String LF "".
(** The double quote, used to spell HTML attributes. *)
Definition dq : string := String (chr 34) "".
Definition quoted (s : string) : string := dq ++ s ++ dq.

Definition inRange (lo hi : nat) (c : ascii) : bool :=
  (lo <=? code c)%nat && (code c <=? hi)%nat.

(** [\s] of ECMAScript on code units below 256: TAB, LF, VT, FF, CR, SPACE
    and NBSP. [String.prototype.trim] strips the same set. *)
Definition isSpace (c : ascii) : bool :=
  inRange 9 13 c || (code c =? 32)%nat || (code c =? 160)%nat.

Definition isDigit (c : ascii) : bool := inRange 48 57 c.
Definition isLower (c : ascii) : bool := inRange 97 122 c.
Definition isUpper (c : ascii) : bool := inRange 65 90 c.

(** [\w] is [A-Za-z0-9_]. *)
Definition isWord (c : ascii) : bool :=
  isUpper c || isLower c || isDigit c || (code c =? 95)%nat.

(** [.] matches everything but a line terminator. *)
Definition isLineTerminator (c : ascii) : bool :=
  (code c =? 10)%nat || (code c =? 13)%nat.

Definition isNot (d : ascii) (c : ascii) : bool := negb (Ascii.eqb c d).

(** [toUpperCase] and [toLowerCase] on one code unit below 256 that stays
    below 256: the ASCII letters and the Latin-1 letters. *)
Definition toLowerChar (c : ascii) : ascii :=
  if isUpper c || ((inRange 192 222 c) && negb (code c =? 215)%nat)
  then chr (code c + 32) else c.

Definition toUpperChar (c : ascii) : ascii :=
  if isLower c || ((inRange 224 254 c) && negb (code c =? 247)%nat)
  then chr (code c - 32) else c.

(** ** Strings *)

Fixpoint mapStr (f : ascii -> ascii) (s : string) : string :=
  match s with
  | "" => ""
  | String c r => String (f c) (mapStr f r)
  end.

Definition toLowerCase : string -> string := mapStr toLowerChar.

Definition isEmpty (s : string) : bool :=
  match s with "" => true | _ => false end.

(** JavaScript truthiness of a string. *)
Definition truthy (s : string) : bool := negb (isEmpty s).

(** [a || b] on strings. *)
Definition orElse (a b : string) : string := if truthy a then a else b.

Fixpoint dropStr (n : nat) (s : string) : string :=
  match n, s with
  | O, _ => s
  | S k, "" => ""
  | S k, String _ r => dropStr k r
  end.

Fixpoint takeStr (n : nat) (s : string) : string :=
  match n, s with
  | O, _ => ""
  | S k, "" => ""
  | S k, String c r => String c (takeStr k r)
  end.

(** [stripPrefix p s] is the rest of [s] after the literal [p], when [s]
    starts with [p]. *)
Fixpoint stripPrefix (p s : string) : option string :=
  match p with
  | "" => Some s
  | String a p' =>
      match s with
      | "" => None
      | String b s' => if Ascii.eqb a b then stripPrefix p' s' else None
      end
  end.

Definition startsWith (p s : string) : bool :=
  match stripPrefix p s with Some _ => true | None => false end.

(** The longest prefix whose characters all satisfy [f], and the rest. *)
Fixpoint span (f : ascii -> bool) (s : string) : string * string :=
  match s with
  | "" => ("", "")
  | String c r =>
      if f c then let '(a, b) := span f r in (String c a, b) else ("", s)
  end.

Definition dropWhile (f : ascii -> bool) (s : string) : string := snd (span f s).

(** [findFirst k s] scans the start positions of [s] from the left, the end
    of the text included, and stops at the first one where [k] succeeds: it
    gives the text skipped, the result of [k] and what [k] left.  This is a
    lazy [[\s\S]*?] followed by the pattern [k]. *)
Fixpoint findFirst {A : Type} (k : string -> option (A * string)) (s : string)
  : option (string * A * string) :=
  match k s with
  | Some (a, rest) => Some ("", a, rest)
  | None =>
      match s with
      | "" => None
      | String c r =>
          match findFirst k r with
          | Some (pre, a, rest) => Some (String c pre, a, rest)
          | None => None
          end
      end
  end.

Definition litK (lit : string) (s : string) : option (unit * string) :=
  match stripPrefix lit s with Some r => Some (tt, r) | None => None end.

(** The text before and after the first occurrence of [needle]. *)
Definition findSub (needle s : string) : option (string * string) :=
  match findFirst (litK needle) s with
  | Some (pre, _, rest) => Some (pre, rest)
  | None => None
  end.

Definition includes (needle s : string) : bool :=
  match findSub needle s with Some _ => true | None => false end.

(** [s.replace(pat, rep)] with a string pattern and a replacement without
    [$]: only the first occurrence is replaced. *)
Definition replaceFirstStr (pat rep s : string) : string :=
  match findSub pat s with
  | Some (pre, post) => pre ++ rep ++ post
  | None => s
  end.

Fixpoint allStr (f : ascii -> bool) (s : string) : bool :=
  match s with
  | "" => true
  | String c r => f c && allStr f r
  end.

Definition trimStart (s : string) : string := dropWhile isSpace s.

Fixpoint trimEnd (s : string) : string :=
  match s with
  | "" => ""
  | String c r =>
      let r' := trimEnd r in
      if isSpace c && isEmpty r' then "" else String c r'
  end.

Definition trim (s : string) : string := trimEnd (trimStart s).

Fixpoint endsWith (suffix s : string) : bool :=
  if String.eqb suffix s then true
  else match s with
       | "" => false
       | String _ r => endsWith suffix r
       end.

(** [s.split(c)] for a separator of one character: never the empty list. *)
Fixpoint splitChar (sep : ascii) (s : string) : list string :=
  match s with
  | "" => [""]
  | String c r =>
      if Ascii.eqb c sep then "" :: splitChar sep r
      else match splitChar sep r with
           | h :: t => String c h :: t
           | [] => [String c ""]
           end
  end.

Definition lines (s : string) : list string := splitChar LF s.

(** [l.join(sep)]. *)
Definition join (sep : string) (l : list string) : string := String.concat sep l.

(** Decimal rendering of a number, as a template literal prints it. *)
Definition natToString (n : nat) : string :=
  NilEmpty.string_of_uint (Nat.to_uint n).

(** ** Global regular-expression replacement

    [s.replace(re, callback)] with the [g] flag: the text is scanned from
    the left; where the matcher succeeds the callback's text replaces the
    match and the scan goes on after it, elsewhere the character is copied.
    A matcher gives its capture groups and the text left after the match.
    The callbacks of the math resolver update the equation counter and the
    registry, so the callback is a state transformer. *)

Section Replace.
Context {C St : Type}.
Variable m : string -> option (C * string).
Variable f : C -> St -> string * St.

Fixpoint replaceGo (skip : nat) (s : string) (st : St) {struct s} : string * St :=
  match skip with
  | S k =>
      match s with
      | "" => ("", st)
      | String _ r => replaceGo k r st
      end
  | O =>
      match m s with
      | Some (c, rest) =>
          let '(out, st1) := f c st in
          match String.length s - String.length rest with
          | O =>
              (* an empty match: the replacement, then the scan moves on *)
              match s with
              | "" => (out, st1)
              | String a r =>
                  let '(o, st2) := replaceGo 0 r st1 in (out ++ String a o, st2)
              end
          | S k =>
              match s with
              | "" => (out, st1)
              | String _ r =>
                  let '(o, st2) := replaceGo k r st1 in (out ++ o, st2)
              end
          end
      | None =>
          match s with
          | "" => ("", st)
          | String a r =>
              let '(o, st2) := replaceGo 0 r st in (String a o, st2)
          end
      end
  end.

Definition replaceSt (s : string) (st : St) : string * St := replaceGo 0 s st.

End Replace.

(** The same with a callback that has no state. *)
Definition replaceAll {C : Type} (m : string -> option (C * string))
  (f : C -> string) (s : string) : string :=
  fst (replaceSt m (fun c (st : unit) => (f c, st)) s tt).

(** ** Plain objects used as tables

    [const t: Record<string, V> = {}] is an ordinary object: a read of a key
    that was never assigned falls through to [Object.prototype], and
    assigning to [__proto__] replaces the prototype instead of creating a
    property.  A table is kept as the list of its assignments, oldest
    first; a read gives the value assigned last. *)

Inductive lookupResult (V : Type) : Type :=
| Undefined : lookupResult V
| Own : V -> lookupResult V
  (* a truthy value found on the prototype chain; it has none of the
     fields of the records kept in the table *)
| Inherited : lookupResult V.
Arguments Undefined {V}.
Arguments Own {V} _.
Arguments Inherited {V}.

Definition objectPrototypeNames : list string :=
  [ "constructor"; "hasOwnProperty"; "isPrototypeOf"; "propertyIsEnumerable";
    "toLocaleString"; "toString"; "valueOf"; "__defineGetter__";
    "__defineSetter__"; "__lookupGetter__"; "__lookupSetter__"; "__proto__" ].

Fixpoint assocLast {V : Type} (k : string) (o : list (string * V)) : option V :=
  match o with
  | [] => None
  | (k', v) :: rest =>
      match assocLast k rest with
      | Some w => Some w
      | None => if String.eqb k' k then Some v else None
      end
  end.

Definition memStr (k : string) (l : list string) : bool :=
  existsb (String.eqb k) l.

(** [fields v] lists the fields of a stored record with their truthiness:
    after an assignment to [__proto__] they are inherited by the table. *)
Definition objGet {V : Type} (fields : V -> list (string * bool))
  (o : list (string * V)) (k : string) : lookupResult V :=
  match assocLast k o with
  | Some v => Own v
  | None =>
      if memStr k objectPrototypeNames then Inherited
      else match assocLast "__proto__" o with
           | Some p =>
               match assocLast k (fields p) with
               | Some true => Inherited
               | _ => Undefined
               end
           | None => Undefined
           end
  end.

Definition objSet {V : Type} (o : list (string * V)) (k : string) (v : V)
  : list (string * V) := (o ++ [(k, v)])%list.

(** Option tables ([options[key] = value]) are only ever read at fixed keys
    that are no property of [Object.prototype], and hold strings, which the
    [__proto__] setter ignores: a read is the value assigned last, or
    [undefined], which the callers only test for truth. *)
Definition optGet (options : list (string * string)) (k : string) : string :=
  match assocLast k options with Some v => v | None => "" end.

(** ** Math resolver: [parseMystMath] *)

Record Equation : Type := { number : nat; id : string }.

Record MathState : Type :=
  { eqCounter : nat; equations : list (string * Equation) }.

Definition equationFields (e : Equation) : list (string * bool) :=
  [ ("number", negb (number e =? 0)%nat); ("id", truthy (id e)) ].

(** [eqCounter++; equations[label] = { number: eqCounter, id: label }] *)
Definition register (label : string) (st : MathState) : MathState :=
  let n := S (eqCounter st) in
  {| eqCounter := n;
     equations := objSet (equations st) label {| number := n; id := label |} |}.

(** [escapeMath]: every backslash is doubled. *)
Fixpoint escapeMath (math : string) : string :=
  match math with
  | "" => ""
  | String c r =>
      if Ascii.eqb c "\" then String "\" (String "\" (escapeMath r))
      else String c (escapeMath r)
  end.

Definition numberedBlock (label mathContent : string) (n : nat) : string :=
  "<div class=" ++ quoted "equation-block" ++ " id=" ++ quoted label ++ ">" ++
  "\[" ++ mathContent ++ "\]" ++
  "<span class=" ++ quoted "equation-number" ++ ">(" ++ natToString n ++ ")</span>" ++
  "</div>".

Definition plainBlock (mathContent : string) : string :=
  "<div class=" ++ quoted "equation-block" ++ ">" ++
  "\[" ++ mathContent ++ "\]" ++
  "</div>".

(** [\s*\n]: the greedy run of white space is given back down to its last
    line feed; what follows in every pattern of this file is a lazy
    [[\s\S]*?], so an earlier line feed could not succeed where the last one
    fails. *)
Fixpoint afterLastLF (ws : string) : option string :=
  match ws with
  | "" => None
  | String c r =>
      match afterLastLF r with
      | Some t => Some t
      | None => if Ascii.eqb c LF then Some r else None
      end
  end.

Definition spacesThenLF (s : string) : option string :=
  let '(ws, rest) := span isSpace s in
  match afterLastLF ws with
  | Some t => Some (t ++ rest)
  | None => None
  end.

(** A fenced block [open \s*\n ([\s\S]*?) close]: the body ends at the
    first [close]. *)
Definition matchFenced (open close : string) (s : string)
  : option (string * string) :=
  match stripPrefix open s with
  | None => None
  | Some s1 =>
      match spacesThenLF s1 with
      | None => None
      | Some s2 => findSub close s2
      end
  end.

(** [/^:(\w+):\s*(.* )$/] on a trimmed line: the run of word characters is
    maximal because a colon must follow it; the last group has to reach the
    end of the text, so the line matches when no line terminator is left
    after the white space. *)
Definition matchOption (trimmed : string) : option (string * string) :=
  match stripPrefix ":" trimmed with
  | None => None
  | Some s1 =>
      let '(key, s2) := span isWord s1 in
      if isEmpty key then None
      else match stripPrefix ":" s2 with
           | None => None
           | Some s3 =>
               let value := dropWhile isSpace s3 in
               if allStr (fun c => negb (isLineTerminator c)) value
               then Some (key, value) else None
           end
  end.

(** *** Pass 1: the backtick [math] directive (lines 64-94)

    [/```\{math\}\s*\n([\s\S]*?)```/g] *)

Definition matchBacktickMath : string -> option (string * string) :=
  matchFenced "```{math}" "```".

(** The loop over the lines of the body: option lines fill [options], the
    others are kept as math. *)
Fixpoint mathDirectiveLines (ls : list string)
  (options : list (string * string)) (mathLines : list string)
  : list (string * string) * list string :=
  match ls with
  | [] => (options, mathLines)
  | line :: rest =>
      match matchOption (trim line) with
      | Some (k, v) => mathDirectiveLines rest (options ++ [(k, v)])%list mathLines
      | None => mathDirectiveLines rest options (mathLines ++ [line])%list
      end
  end.

Definition backtickMathBlock (fullBody : string) (st : MathState)
  : string * MathState :=
  let '(options, mathLines) := mathDirectiveLines (lines fullBody) [] [] in
  let mathContent := trim (join nl mathLines) in
  let label := optGet options "label" in
  if truthy label then
    let st1 := register label st in
    (numberedBlock label mathContent (eqCounter st1), st1)
  else (plainBlock mathContent, st).

(** *** Pass 2: [$$ ... $$ (label)] (lines 97-104)

    [/\$\$\s*([\s\S]*?)\$\$\s*\(([^)]+)\)/g].  The white space after the
    opening dollars is taken whole (a body may start anywhere after it, and
    no closing [$$] starts inside white space); the lazy body stops at the
    first [$$] that is followed by a parenthesised label. *)

Definition labelSuffix (s : string) : option (string * string) :=
  match stripPrefix "$$" s with
  | None => None
  | Some s1 =>
      match stripPrefix "(" (dropWhile isSpace s1) with
      | None => None
      | Some s2 =>
          let '(label, s3) := span (isNot ")") s2 in
          if isEmpty label then None
          else match stripPrefix ")" s3 with
               | Some s4 => Some (label, s4)
               | None => None
               end
      end
  end.

Definition matchDollarLabel (s : string) : option ((string * string) * string) :=
  match stripPrefix "$$" s with
  | None => None
  | Some s1 =>
      match findFirst labelSuffix (dropWhile isSpace s1) with
      | Some (math, label, rest) => Some ((math, label), rest)
      | None => None
      end
  end.

Definition dollarLabelBlock (c : string * string) (st : MathState)
  : string * MathState :=
  let '(math, label) := c in
  let st1 := register label st in
  (numberedBlock label (trim math) (eqCounter st1), st1).

(** *** Pass 3: AMS environments (lines 107-129) *)

Definition amsEnvs : list string :=
  [ "equation"; "equation\*"; "align"; "align\*"; "gather"; "gather\*";
    "multline"; "multline\*"; "alignat"; "alignat\*"; "split" ].

(** [env.replace('\\*', '*')]; it is also the text that [env], read as a
    regular expression, matches. *)
Definition cleanEnv (env : string) : string := replaceFirstStr "\*" "*" env.

Definition beginEnv (env : string) : string := "\begin{" ++ cleanEnv env ++ "}".
Definition endEnv (env : string) : string := "\end{" ++ cleanEnv env ++ "}".

(** [\\begin\{env\}([\s\S]*?)\\end\{env\}] *)
Definition matchAms (env : string) (s : string) : option (string * string) :=
  match stripPrefix (beginEnv env) s with
  | None => None
  | Some s1 => findSub (endEnv env) s1
  end.

(** [\\label] then [sep] then [\{([^}]+)\}], tried at one position. *)
Definition labelCommand (spaces : bool) (s : string) : option (string * string) :=
  match stripPrefix "\label" s with
  | None => None
  | Some s1 =>
      match stripPrefix "{" (if spaces then dropWhile isSpace s1 else s1) with
      | None => None
      | Some s2 =>
          let '(label, s3) := span (isNot "}") s2 in
          if isEmpty label then None
          else match stripPrefix "}" s3 with
               | Some s4 => Some (label, s4)
               | None => None
               end
      end
  end.

Definition amsBlock (env : string) (envContent : string) (st : MathState)
  : string * MathState :=
  (* content.replace(/\\label\{([^}]+)\}/, ...): the first match only; the
     callback writes the command back and records the label *)
  let '(id, content, st1) :=
    match findFirst (labelCommand false) envContent with
    | Some (pre, label, post) =>
        (label, pre ++ ("\label{" ++ label ++ "}") ++ post, register label st)
    | None => ("", envContent, st)
    end in
  let idAttr := if truthy id then " id=" ++ quoted id else "" in
  let numberSpan :=
    if truthy id
    then "<span class=" ++ quoted "equation-number" ++ ">(" ++
         natToString (eqCounter st1) ++ ")</span>"
    else "" in
  ("<div class=" ++ quoted "equation-block ams-env" ++ idAttr ++ ">" ++
   "\[" ++ beginEnv env ++ content ++ endEnv env ++ "\]" ++
   numberSpan ++
   "</div>", st1).

Definition amsPass (env : string) : string -> MathState -> string * MathState :=
  replaceSt (matchAms env) (amsBlock env).

(** *** Pass 4: the remaining [$$ ... $$] (lines 132-151)

    [/\$\$\s*([\s\S]*?)\$\$/g] *)

Definition matchDollar (s : string) : option (string * string) :=
  match stripPrefix "$$" s with
  | None => None
  | Some s1 => findSub "$$" (dropWhile isSpace s1)
  end.

Definition dollarBlock (math : string) (st : MathState) : string * MathState :=
  (* math.replace(/\\label\s*\{([^}]+)\}/, ...): the command is removed *)
  let '(label, cleanMath) :=
    match findFirst (labelCommand true) math with
    | Some (pre, l, post) => (l, pre ++ post)
    | None => ("", math)
    end in
  if truthy label then
    let st1 := register label st in
    (numberedBlock label (trim cleanMath) (eqCounter st1), st1)
  else (plainBlock (trim cleanMath), st).

(** *** Passes 5 and 6: the two reference forms (lines 154-169) *)

(** [/\{eq\}`([^`]+)`/g] and [/\[\]\(#([^)]+)\)/g]: a literal, a non-empty
    run of characters other than the closing one, the closing character. *)
Definition matchDelimited (open : string) (close : ascii) (s : string)
  : option (string * string) :=
  match stripPrefix open s with
  | None => None
  | Some s1 =>
      let '(body, s2) := span (isNot close) s1 in
      if isEmpty body then None
      else match s2 with
           | String c s3 => if Ascii.eqb c close then Some (body, s3) else None
           | "" => None
           end
  end.

Definition matchEqRole : string -> option (string * string) :=
  matchDelimited "{eq}`" "`".

Definition matchEmptyLink : string -> option (string * string) :=
  matchDelimited "[](#" ")".

(** [eq.number] printed in a template: a number, or [undefined] when [eq]
    is a value inherited from the prototype chain. *)
Definition eqReference (label : string) (st : MathState) : string * MathState :=
  match objGet equationFields (equations st) label with
  | Own eq =>
      ("<a href=" ++ quoted ("#" ++ label) ++ " class=" ++ quoted "eq-ref" ++ ">(" ++
       natToString (number eq) ++ ")</a>", st)
  | Inherited =>
      ("<a href=" ++ quoted ("#" ++ label) ++ " class=" ++ quoted "eq-ref" ++ ">(" ++
       "undefined" ++ ")</a>", st)
  | Undefined =>
      ("<a href=" ++ quoted ("#" ++ label) ++ " class=" ++ quoted "eq-ref eq-pending" ++
       " data-label=" ++ quoted label ++ ">(?)</a>", st)
  end.

(** *** Passes 7 and 8: inline math (lines 172-179) *)

(** [/\{math(?:\s+[^}]+)?\}`([^`]+)`/g].  The optional group needs a white
    space and then at least one more character before the closing brace,
    none of them a brace; the characters up to the first closing brace are
    therefore either none (group absent) or a run of two or more that
    starts with white space. *)
Definition matchMathRole (s : string) : option (string * string) :=
  match stripPrefix "{math" s with
  | None => None
  | Some s1 =>
      let '(arg, s2) := span (isNot "}") s1 in
      let argOk :=
        match arg with
        | "" => true
        | String c "" => false
        | String c _ => isSpace c
        end in
      if argOk then matchDelimited "}`" "`" s2 else None
  end.

(** [/\$([^$\n]+)\$/g] *)
Definition matchInlineDollar (s : string) : option (string * string) :=
  match stripPrefix "$" s with
  | None => None
  | Some s1 =>
      let '(math, s2) := span (fun c => isNot "$" c && isNot LF c) s1 in
      if isEmpty math then None
      else match stripPrefix "$" s2 with
           | Some s3 => Some (math, s3)
           | None => None
           end
  end.

Definition inlineMath (math : string) (st : MathState) : string * MathState :=
  ("\\(" ++ escapeMath math ++ "\\)", st).

(** *** Pass 9: the colon-fenced [math] directive (lines 182-216)

    [/:::\{math\}\s*\n([\s\S]*?):::/g] *)

Definition matchColonMath : string -> option (string * string) :=
  matchFenced ":::{math}" ":::".

(** [/^:label:\s*(\S+)/] *)
Definition matchLabelOption (trimmed : string) : option string :=
  match stripPrefix ":label:" trimmed with
  | None => None
  | Some s1 =>
      let label := fst (span (fun c => negb (isSpace c)) (dropWhile isSpace s1)) in
      if isEmpty label then None else Some label
  end.

(** [/^:enumerated:\s*(true|false)/] *)
Definition matchEnumeratedOption (trimmed : string) : option bool :=
  match stripPrefix ":enumerated:" trimmed with
  | None => None
  | Some s1 =>
      let v := dropWhile isSpace s1 in
      if startsWith "true" v then Some true
      else if startsWith "false" v then Some false
      else None
  end.

(** The loop of lines 188-200, with its three variables. *)
Fixpoint colonMathLines (ls : list string)
  (mathContent label : string) (enumerated : bool) : string * string * bool :=
  match ls with
  | [] => (mathContent, label, enumerated)
  | line :: rest =>
      let trimmed := trim line in
      match matchLabelOption trimmed with
      | Some l => colonMathLines rest mathContent l enumerated
      | None =>
          match matchEnumeratedOption trimmed with
          | Some e => colonMathLines rest mathContent label e
          | None => colonMathLines rest (mathContent ++ line ++ nl) label enumerated
          end
      end
  end.

Definition colonMathBlock (content : string) (st : MathState)
  : string * MathState :=
  let '(mathContent0, label, enumerated) :=
    colonMathLines (lines content) "" "" true in
  let mathContent := trim mathContent0 in
  if enumerated && truthy label then
    let st1 := register label st in
    (numberedBlock label mathContent (eqCounter st1), st1)
  else (plainBlock mathContent, st).

(** *** The resolver *)

Definition initialMathState : MathState := {| eqCounter := 0; equations := [] |}.

(** Each [result = result.replace(...)] of the function, in its order. *)
Definition mathPasses : list (string -> MathState -> string * MathState) :=
  ([ replaceSt matchBacktickMath backtickMathBlock;
     replaceSt matchDollarLabel dollarLabelBlock ] ++
   map amsPass amsEnvs ++
   [ replaceSt matchDollar dollarBlock;
     replaceSt matchEqRole eqReference;
     replaceSt matchEmptyLink eqReference;
     replaceSt matchMathRole inlineMath;
     replaceSt matchInlineDollar inlineMath;
     replaceSt matchColonMath colonMathBlock ])%list.

Definition runPasses (ps : list (string -> MathState -> string * MathState))
  (acc : string * MathState) : string * MathState :=
  fold_left (fun acc p => p (fst acc) (snd acc)) ps acc.

(** [parseMystMath] with the state it ends in. *)
Definition parseMystMathSt (content : string) : string * MathState :=
  runPasses mathPasses (content, initialMathState).

Definition parseMystMath (content : string) : string := fst (parseMystMathSt content).

(** ** Figure resolver: [parseMystFigures] *)

Record FigureTarget : Type := { alt : string; src : string }.

Definition targetFields (t : FigureTarget) : list (string * bool) :=
  [ ("alt", truthy (alt t)); ("src", truthy (src t)) ].

(** Replacement with the [g] and [m] flags: the matcher is told whether the
    position starts a line (the start of the text, or just after a line
    terminator). *)
Section ReplaceLines.
Context {C St : Type}.
Variable m : bool -> string -> option (C * string).
Variable f : C -> St -> string * St.

Fixpoint replaceLinesGo (skip : nat) (bol : bool) (s : string) (st : St)
  {struct s} : string * St :=
  match skip with
  | S k =>
      match s with
      | "" => ("", st)
      | String a r => replaceLinesGo k (isLineTerminator a) r st
      end
  | O =>
      match m bol s with
      | Some (c, rest) =>
          let '(out, st1) := f c st in
          match String.length s - String.length rest with
          | O =>
              match s with
              | "" => (out, st1)
              | String a r =>
                  let '(o, st2) := replaceLinesGo 0 (isLineTerminator a) r st1 in
                  (out ++ String a o, st2)
              end
          | S k =>
              match s with
              | "" => (out, st1)
              | String a r =>
                  let '(o, st2) := replaceLinesGo k (isLineTerminator a) r st1 in
                  (out ++ o, st2)
              end
          end
      | None =>
          match s with
          | "" => ("", st)
          | String a r =>
              let '(o, st2) := replaceLinesGo 0 (isLineTerminator a) r st in
              (String a o, st2)
          end
      end
  end.

Definition replaceLinesSt (s : string) (st : St) : string * St :=
  replaceLinesGo 0 true s st.

End ReplaceLines.

(** [/^\(([^)]+)\)=!\[([^\]]* )\]\(([^)]+)\)$/gm]: each class excludes the
    character that has to follow it, so every run is maximal; [$] asks for
    the end of the text or a line terminator. *)
Definition matchTarget (bol : bool) (s : string)
  : option ((string * string * string) * string) :=
  if negb bol then None else
  match stripPrefix "(" s with
  | None => None
  | Some s1 =>
      let '(targetName, s2) := span (isNot ")") s1 in
      if isEmpty targetName then None else
      match stripPrefix ")=![" s2 with
      | None => None
      | Some s3 =>
          let '(altText, s4) := span (isNot "]") s3 in
          match stripPrefix "](" s4 with
          | None => None
          | Some s5 =>
              let '(source, s6) := span (isNot ")") s5 in
              if isEmpty source then None else
              match stripPrefix ")" s6 with
              | None => None
              | Some s7 =>
                  match s7 with
                  | "" => Some ((targetName, altText, source), s7)
                  | String c _ =>
                      if isLineTerminator c
                      then Some ((targetName, altText, source), s7)
                      else None
                  end
              end
          end
      end
  end.

Definition targetDefinition (c : string * string * string)
  (targets : list (string * FigureTarget))
  : string * list (string * FigureTarget) :=
  let '(targetName, altText, source) := c in
  let imageSrc :=
    if includes "github.com" source && includes "/blob/" source
    then replaceFirstStr "/blob/" "/"
           (replaceFirstStr "github.com" "raw.githubusercontent.com" source)
    else source in
  ("<!-- target:" ++ targetName ++ " defined -->",
   objSet targets targetName {| alt := orElse altText ""; src := imageSrc |}).

(** [/```\{figure\}\s*(\S+)\s*\n([\s\S]*?)```/g]: the argument is the
    maximal run without white space, because white space or a line feed has
    to follow it. *)
Definition matchFigure (s : string) : option ((string * string) * string) :=
  match stripPrefix "```{figure}" s with
  | None => None
  | Some s1 =>
      let '(imagePath, s2) := span (fun c => negb (isSpace c)) (dropWhile isSpace s1) in
      if isEmpty imagePath then None else
      match spacesThenLF s2 with
      | None => None
      | Some s3 =>
          match findSub "```" s3 with
          | Some (body, rest) => Some ((imagePath, body), rest)
          | None => None
          end
      end
  end.

(** The loop of lines 255-265. *)
Fixpoint figureLines (ls : list string)
  (options : list (string * string)) (captionLines : list string)
  : list (string * string) * list string :=
  match ls with
  | [] => (options, captionLines)
  | line :: rest =>
      let trimmed := trim line in
      match matchOption trimmed with
      | Some (k, v) => figureLines rest (options ++ [(k, v)])%list captionLines
      | None =>
          if truthy trimmed then figureLines rest options (captionLines ++ [line])%list
          else if (0 <? List.length captionLines)%nat
               then figureLines rest options (captionLines ++ [line])%list
               else figureLines rest options captionLines
      end
  end.

Definition videoExtensions : list string := [".mp4"; ".webm"; ".ogg"; ".mov"; ".avi"].

Definition lastOf (l : list string) : string := List.last l "".

Definition figcaption (caption : string) : string :=
  if truthy caption then "<figcaption>" ++ caption ++ "</figcaption>" else "".

Definition figureAlignClass (options : list (string * string)) : string :=
  if truthy (optGet options "align") then " align-" ++ optGet options "align" else "".

Definition figureIdAttr (options : list (string * string)) : string :=
  let labelId :=
    if truthy (optGet options "label") then " id=" ++ quoted (optGet options "label") else "" in
  let nameId :=
    if truthy (optGet options "name") then " id=" ++ quoted (optGet options "name") else "" in
  orElse labelId nameId.

(** The markup of line 294. *)
Definition figureError (alignClass idAttr caption : string) : string :=
  "<figure class=" ++ dq ++ "myst-figure" ++ alignClass ++ dq ++ idAttr ++
  "><div class=" ++ quoted "figure-error" ++ ">Image target not found</div>" ++
  figcaption caption ++ "</figure>".

(** The callback of the figure pass (lines 250-306). [targets] is the table
    filled by the first pass over the whole text. *)
Definition figureDirective (targets : list (string * FigureTarget))
  (imagePath body : string) : string :=
  let '(options, captionLines) := figureLines (lines body) [] [] in
  let caption := trim (join nl captionLines) in
  let '(actualImagePath, defaultAlt) :=
    if startsWith "#" imagePath then
      let targetName := dropStr 1 imagePath in
      match objGet targetFields targets targetName with
      | Own target => (src target, alt target)
        (* [target.src] and [target.alt] of an inherited value are
           [undefined], which is only tested for truth below *)
      | Inherited => ("", "")
      | Undefined => ("", "Target " ++ quoted targetName ++ " not found")
      end
    else (imagePath, "") in
  let altAttr :=
    orElse (optGet options "alt")
      (orElse defaultAlt
         (orElse (takeStr 100 (mapStr (fun c => if Ascii.eqb c LF then " "%char else c) caption))
                 "")) in
  let width :=
    if truthy (optGet options "width")
    then " width=" ++ quoted (optGet options "width") else "" in
  let alignClass := figureAlignClass options in
  let idAttr := figureIdAttr options in
  if negb (truthy actualImagePath) then figureError alignClass idAttr caption
  else if existsb (fun ext => endsWith ext (toLowerCase actualImagePath)) videoExtensions then
    "<figure class=" ++ dq ++ "myst-figure myst-video" ++ alignClass ++ dq ++ idAttr ++
    "><video controls preload=" ++ quoted "metadata" ++ width ++
    "><source src=" ++ quoted actualImagePath ++
    " type=" ++ dq ++ "video/" ++ lastOf (splitChar "." actualImagePath) ++ dq ++
    ">Your browser does not support the video tag.</video>" ++
    figcaption caption ++ "</figure>"
  else
    "<figure class=" ++ dq ++ "myst-figure" ++ alignClass ++ dq ++ idAttr ++
    "><img src=" ++ quoted actualImagePath ++ " alt=" ++ quoted altAttr ++ width ++
    " loading=" ++ quoted "lazy" ++ " />" ++
    figcaption caption ++ "</figure>".

Definition parseMystFigures (content : string) : string :=
  let '(processedContent, targets) :=
    replaceLinesSt matchTarget targetDefinition content [] in
  replaceAll matchFigure (fun c => figureDirective targets (fst c) (snd c))
    processedContent.

(** ** Directive engine: [generateDirectiveHtml] *)

Fixpoint spaces (n : nat) : string :=
  match n with O => "" | S k => String " " (spaces k) end.

Fixpoint replaceChar (c : ascii) (rep : string) (s : string) : string :=
  match s with
  | "" => ""
  | String a r =>
      if Ascii.eqb a c then rep ++ replaceChar c rep r
      else String a (replaceChar c rep r)
  end.

(** [escapeHtml]: five global replacements, in this order. *)
Definition escapeHtml (text : string) : string :=
  replaceChar "'" "&#039;"
    (replaceChar (chr 34) "&quot;"
       (replaceChar ">" "&gt;"
          (replaceChar "<" "&lt;"
             (replaceChar "&" "&amp;" text)))).

(** [s.split(sep)] for a non-empty literal separator. *)
Fixpoint splitStrGo (sep : string) (skip : nat) (s : string) : list string :=
  match s with
  | "" => [""]
  | String c r =>
      match skip with
      | S k => splitStrGo sep k r
      | O =>
          if startsWith sep s
          then "" :: splitStrGo sep (String.length sep - 1) r
          else match splitStrGo sep 0 r with
               | h :: t => String c h :: t
               | [] => [String c ""]
               end
      end
  end.

Definition splitStr (sep s : string) : list string := splitStrGo sep 0 s.

(** [optionLines.find(o => o.startsWith(key))], then
    [o.replace(/^key\s*/, '').trim()], or the default when there is no such
    line. *)
Definition optionValue (key : string) (optionLines : list string)
  (default : string) : string :=
  match find (startsWith key) optionLines with
  | Some o =>
      trim (match stripPrefix key o with
            | Some r => dropWhile isSpace r
            | None => o
            end)
  | None => default
  end.

Definition hasOption (key : string) (optionLines : list string) : bool :=
  existsb (startsWith key) optionLines.

Definition idAttribute (label : string) : string :=
  if truthy label then " id=" ++ quoted label else "".

(** [name.charAt(0).toUpperCase() + name.slice(1)] *)
Definition capitalize (s : string) : string :=
  match s with
  | "" => ""
  | String c r => String (toUpperChar c) r
  end.

(** [/[?&]v=([^&]+)/], tried at one position. *)
Definition videoParam (s : string) : option (string * string) :=
  match s with
  | String c s1 =>
      if Ascii.eqb c "?" || Ascii.eqb c "&" then
        match stripPrefix "v=" s1 with
        | Some s2 =>
            let '(v, s3) := span (isNot "&") s2 in
            if isEmpty v then None else Some (v, s3)
        | None => None
        end
      else None
  | "" => None
  end.

(** Lines 477-484: a watch URL or a short URL becomes an embed URL. *)
Definition youtubeEmbedUrl (url : string) : string :=
  if includes "youtube.com/watch" url then
    match findFirst videoParam url with
    | Some (_, videoId, _) => "https://www.youtube.com/embed/" ++ videoId
    | None => url
    end
  else if includes "youtu.be/" url then
    (* url.split('youtu.be/')[1]?.split('?')[0] *)
    match nth_error (splitStr "youtu.be/" url) 1 with
    | Some piece =>
        let videoId := hd "" (splitChar "?" piece) in
        if truthy videoId then "https://www.youtube.com/embed/" ++ videoId else url
    | None => url
    end
  else url.

(** *** Numbers

    The numbers of the source are IEEE 754 binary64 values.  The ones that
    [parseInt] gives are integers, infinite or [NaN]; an integer is kept by
    its sign and its magnitude (minus zero is [Finite true 0]). *)
Inductive JsNumber : Type :=
  | NaN
  | Finite (negative : bool) (magnitude : N)
  | Infinite (negative : bool).

(** The binary64 value of a natural number: the nearest number with 53
    significant bits, a tie going to the even one; [None] is infinity,
    which is reached from [2^1024 - 2^970] on. *)
Definition roundToDouble (n : N) : option N :=
  let bits := N.size n in
  if (bits <=? 53)%N then Some n
  else
    let shift := (bits - 53)%N in
    let q := N.shiftr n shift in
    let r := (n - N.shiftl q shift)%N in
    let half := N.shiftl 1 (shift - 1) in
    let q' :=
      if (half <? r)%N || ((half =? r)%N && N.odd q) then (q + 1)%N else q in
    let v := N.shiftl q' shift in
    if (1024 <? N.size v)%N then None else Some v.

(** [parseInt] without radix: white space, an optional sign, then
    hexadecimal digits after [0x] or decimal digits, as many as there are;
    without a digit the result is [NaN].  The integer read is rounded to a
    binary64 value. *)
Definition digitValue (c : ascii) : option N :=
  if isDigit c then Some (N.of_nat (code c - 48))
  else if inRange 97 102 c then Some (N.of_nat (code c - 87))
  else if inRange 65 70 c then Some (N.of_nat (code c - 55))
  else None.

Fixpoint digitsGo (radix : N) (acc : option N) (s : string) : option N :=
  match s with
  | "" => acc
  | String c r =>
      match digitValue c with
      | Some d =>
          if (d <? radix)%N
          then digitsGo radix
                 (Some (radix * match acc with Some a => a | None => 0 end + d)%N) r
          else acc
      | None => acc
      end
  end.

Definition parseInt (s : string) : JsNumber :=
  let s1 := trimStart s in
  let '(negative, s2) :=
    match s1 with
    | String c r =>
        if Ascii.eqb c "-" then (true, r)
        else if Ascii.eqb c "+" then (false, r) else (false, s1)
    | "" => (false, s1)
    end in
  let magnitude :=
    if startsWith "0x" s2 || startsWith "0X" s2
    then digitsGo 16 None (dropStr 2 s2)
    else digitsGo 10 None s2 in
  match magnitude with
  | Some n =>
      match roundToDouble n with
      | Some d => Finite negative d
      | None => Infinite negative
      end
  | None => NaN
  end.

(** [x || 1] and [x !== 1] on numbers. *)
Definition orOne (x : JsNumber) : JsNumber :=
  match x with
  | NaN => Finite false 1
  | Finite _ 0 => Finite false 1
  | _ => x
  end.

Definition isOne (x : JsNumber) : bool :=
  match x with
  | Finite false 1 => true
  | _ => false
  end.

(** A number in a template literal ([Number::toString]).  For a positive
    integer [x] the digits printed are those of the integer [s] with the
    fewest digits [k] for which [s * 10^(n-k)] has the binary64 value [x];
    of two such integers the one nearer to [x] is taken, and the even one
    when they are as near.  Up to [n = 21] the digits are followed by
    [n - k] zeros; beyond, the exponent is written. *)
Definition nToString (n : N) : string := NilEmpty.string_of_uint (N.to_uint n).

Definition roundsTo (x y : N) : bool :=
  match roundToDouble y with
  | Some v => (v =? x)%N
  | None => false
  end.

(** The digits [s] and the position [n] for [x] of [d] digits, looked for
    from [k] digits on. *)
Fixpoint shortestGo (fuel : nat) (k d x : N) : N * N :=
  match fuel with
  | O => (x, d)
  | S fuel' =>
      let unit := (10 ^ (d - k))%N in
      let s := (x / unit)%N in
      let low := (s * unit)%N in
      let high := ((s + 1) * unit)%N in
      let okLow := roundsTo x low in
      let okHigh := roundsTo x high && (s + 1 <? 10 ^ k)%N in
      if okLow && okHigh then
        if (x - low <? high - x)%N then (s, d)
        else if (high - x <? x - low)%N then ((s + 1)%N, d)
        else if N.even s then (s, d) else ((s + 1)%N, d)
      else if okLow then (s, d)
      else if okHigh then ((s + 1)%N, d)
      else shortestGo fuel' (k + 1)%N d x
  end.

Definition shortestDigits (x : N) : N * N :=
  let d := N.of_nat (String.length (nToString x)) in
  if roundsTo x (10 ^ d)%N then (1%N, (d + 1)%N)
  else shortestGo (N.to_nat d) 1 d x.

Fixpoint zeros (n : nat) : string :=
  match n with
  | O => ""
  | S k => String "0" (zeros k)
  end.

Definition positiveToString (x : N) : string :=
  let '(s, n) := shortestDigits x in
  let digits := nToString s in
  let k := N.of_nat (String.length digits) in
  if (n <=? 21)%N then digits ++ zeros (N.to_nat (n - k))
  else
    match digits with
    | "" => ""
    | String c "" => String c "" ++ "e+" ++ nToString (n - 1)
    | String c r => String c "" ++ "." ++ r ++ "e+" ++ nToString (n - 1)
    end.

Definition numberToString (x : JsNumber) : string :=
  match x with
  | NaN => "NaN"
  | Infinite false => "Infinity"
  | Infinite true => "-Infinity"
  | Finite _ 0 => "0"
  | Finite false m => positiveToString m
  | Finite true m => "-" ++ positiveToString m
  end.

(** [Buffer.from(text).toString('base64')]: the UTF-8 bytes of the text in
    base 64. *)
Definition utf8 (c : ascii) : list nat :=
  if (code c <? 128)%nat then [code c]
  else [192 + code c / 64; 128 + code c mod 64]%nat.

Fixpoint utf8Bytes (s : string) : list nat :=
  match s with
  | "" => []
  | String c r => (utf8 c ++ utf8Bytes r)%list
  end.

Definition base64Digit (n : nat) : ascii :=
  if (n <? 26)%nat then chr (65 + n)
  else if (n <? 52)%nat then chr (97 + (n - 26))
  else if (n <? 62)%nat then chr (48 + (n - 52))
  else if (n =? 62)%nat then "+"%char else "/"%char.

Fixpoint base64Go (fuel : nat) (bytes : list nat) : string :=
  match fuel with
  | O => ""
  | S k =>
      match bytes with
      | [] => ""
      | [a] =>
          String (base64Digit (a / 4))
            (String (base64Digit (a mod 4 * 16)) "==")
      | [a; b] =>
          String (base64Digit (a / 4))
            (String (base64Digit (a mod 4 * 16 + b / 16))
               (String (base64Digit (b mod 16 * 4)) "="))
      | a :: b :: c :: rest =>
          String (base64Digit (a / 4))
            (String (base64Digit (a mod 4 * 16 + b / 16))
               (String (base64Digit (b mod 16 * 4 + c / 64))
                  (String (base64Digit (c mod 64)) (base64Go k rest))))
      end
  end.

Definition base64 (text : string) : string :=
  let bytes := utf8Bytes text in base64Go (S (List.length bytes)) bytes.

(** [s.replace(/[^a-z0-9]+/g, '-')] *)
Fixpoint dashRuns (inRun : bool) (s : string) : string :=
  match s with
  | "" => ""
  | String c r =>
      if isLower c || isDigit c then String c (dashRuns false r)
      else if inRun then dashRuns true r
      else String "-" (dashRuns true r)
  end.

Definition termId (term : string) : string :=
  "term-" ++ dashRuns false (toLowerCase term).

(** [/^:\s+/]: what follows the colon and its white space. *)
Definition colonSpaces (line : string) : option string :=
  match stripPrefix ":" line with
  | Some r =>
      let '(ws, rest) := span isSpace r in
      if isEmpty ws then None else Some rest
  | None => None
  end.

(** The [forEach] of the glossary (lines 670-686). *)
Fixpoint glossaryLines (ls : list string) (html currentTerm : string) : string :=
  match ls with
  | [] => html
  | line :: rest =>
      if negb (truthy (trim line)) then glossaryLines rest html currentTerm
      else if (match colonSpaces line with Some _ => true | None => false end)
              || startsWith " " line || startsWith (String (chr 9) "") line
      then
        if truthy currentTerm then
          let defText :=
            trim (match colonSpaces line with Some r => r | None => line end) in
          glossaryLines rest (html ++ "<dd>" ++ defText ++ "</dd>") currentTerm
        else glossaryLines rest html currentTerm
      else
        let term := trim line in
        glossaryLines rest
          (html ++ "<dt id=" ++ quoted (termId term) ++ ">" ++ term ++ "</dt>") term
  end.

Definition admonitionNames : list string :=
  [ "note"; "warning"; "tip"; "important"; "caution"; "danger"; "hint"; "seealso" ].

Definition proofNames : list string :=
  [ "prf:proof"; "prf:theorem"; "prf:lemma"; "prf:definition"; "prf:criterion";
    "prf:remark"; "prf:conjecture"; "prf:corollary"; "prf:algorithm";
    "prf:example"; "prf:property"; "prf:observation"; "prf:proposition";
    "prf:assumption" ].

Definition wrapped (bodyContent : string) : string :=
  nl ++ nl ++ bodyContent ++ nl ++ nl.

(** [if (b) l.push(x)] *)
Definition pushIf (b : bool) (x : string) (l : list string) : list string :=
  if b then (l ++ [x])%list else l.

Definition exerciseLike (kind title extraClass idAttr dataAttr bodyContent : string)
  : string :=
  let classAttr :=
    dq ++ kind ++ "-block" ++ (if truthy extraClass then " " ++ extraClass else "") ++ dq in
  if includes "dropdown" extraClass then
    "<div class=" ++ classAttr ++ idAttr ++ dataAttr ++ ">" ++ nl ++
    spaces 16 ++ "<details class=" ++ quoted (kind ++ "-dropdown") ++ ">" ++ nl ++
    spaces 20 ++ "<summary class=" ++ quoted (kind ++ "-title") ++ ">" ++ title ++ "</summary>" ++ nl ++
    spaces 20 ++ "<div class=" ++ quoted (kind ++ "-content") ++ ">" ++ wrapped bodyContent ++ "</div>" ++ nl ++
    spaces 16 ++ "</details>" ++ nl ++
    spaces 12 ++ "</div>"
  else
    "<div class=" ++ classAttr ++ idAttr ++ dataAttr ++ ">" ++ nl ++
    spaces 12 ++ "<div class=" ++ quoted (kind ++ "-title") ++ ">" ++ title ++ "</div>" ++ nl ++
    spaces 12 ++ "<div class=" ++ quoted (kind ++ "-content") ++ ">" ++ wrapped bodyContent ++ "</div>" ++ nl ++
    spaces 8 ++ "</div>".

Definition videoCompareSide (side label video : string) : string :=
  spaces 16 ++ "<div class=" ++ quoted ("video-compare-" ++ side) ++ ">" ++ nl ++
  spaces 20 ++ "<div class=" ++ quoted "video-compare-label" ++ ">" ++ label ++ "</div>" ++ nl ++
  spaces 20 ++ "<video controls preload=" ++ quoted "metadata" ++ ">" ++ nl ++
  spaces 24 ++ "<source src=" ++ quoted video ++ " type=" ++ quoted "video/mp4" ++ ">" ++ nl ++
  spaces 20 ++ "</video>" ++ nl ++
  spaces 16 ++ "</div>" ++ nl.

(** The markup of the iframe case (line 486). *)
Definition iframeMarkup (embedUrl : string) (optionLines : list string)
  (bodyContent : string) : string :=
  let width := optionValue ":width:" optionLines "100%" in
  let iframeTitle := optionValue ":title:" optionLines "Embedded content" in
  let idAttr := idAttribute (optionValue ":label:" optionLines "") in
  "<figure class=" ++ quoted "myst-iframe" ++ idAttr ++
  "><iframe src=" ++ quoted embedUrl ++ " width=" ++ quoted width ++
  " height=" ++ quoted "400" ++ " title=" ++ quoted iframeTitle ++
  " frameborder=" ++ quoted "0" ++
  " allow=" ++ quoted "accelerometer; autoplay; clipboard-write; encrypted-media; gyroscope; picture-in-picture" ++
  " allowfullscreen loading=" ++ quoted "lazy" ++ "></iframe>" ++
  (if truthy bodyContent then "<figcaption>" ++ bodyContent ++ "</figcaption>" else "") ++
  "</figure>".

Definition generateDirectiveHtml (name titleArg : string)
  (optionLines : list string) (bodyContent : string) : string :=
  let isOpen :=
    existsb (String.eqb ":open:") optionLines || includes ":open:" titleArg in
  if String.eqb name "dropdown" then
    let dropdownTitle := orElse (trim (replaceFirstStr ":open:" "" titleArg)) "Details" in
    "<details class=" ++ quoted "dropdown" ++ (if isOpen then " open" else "") ++
    "><summary>" ++ dropdownTitle ++ "</summary><div class=" ++ quoted "dropdown-content" ++
    ">" ++ wrapped bodyContent ++ "</div></details>"
  else if memStr name admonitionNames then
    let admonitionTitle := orElse titleArg (capitalize name) in
    "<div class=" ++ quoted ("admonition " ++ name) ++ "><div class=" ++
    quoted "admonition-title" ++ ">" ++ admonitionTitle ++ "</div>" ++
    wrapped bodyContent ++ "</div>"
  else if String.eqb name "card" then
    let cardTitle := orElse titleArg "Card" in
    let header := optionValue ":header:" optionLines cardTitle in
    let footer := optionValue ":footer:" optionLines "" in
    let link := optionValue ":link:" optionLines "" in
    (if truthy link
     then "<a href=" ++ quoted link ++ " class=" ++ quoted "card" ++
          " target=" ++ quoted "_blank" ++ " rel=" ++ quoted "noopener" ++ ">"
     else "<div class=" ++ quoted "card" ++ ">") ++
    (if truthy header
     then "<div class=" ++ quoted "card-header" ++ ">" ++ header ++ "</div>" else "") ++
    ("<div class=" ++ quoted "card-body" ++ ">" ++ wrapped bodyContent ++ "</div>") ++
    (if truthy footer
     then "<div class=" ++ quoted "card-footer" ++ ">" ++ footer ++ "</div>" else "") ++
    (if truthy link then "</a>" else "</div>")
  else if String.eqb name "grid" then
    let cols := orElse (lastOf (splitChar " " titleArg)) "3" in
    "<div class=" ++ quoted "grid" ++ " data-columns=" ++ quoted cols ++ ">" ++
    wrapped bodyContent ++ "</div>"
  else if String.eqb name "tab-set" then
    "<div class=" ++ quoted "tab-set" ++ ">" ++ wrapped bodyContent ++ "</div>"
  else if String.eqb name "tab-item" then
    let tabTitle := orElse titleArg "Tab" in
    "<div class=" ++ quoted "tab-item" ++ " data-title=" ++ quoted tabTitle ++ ">" ++
    wrapped bodyContent ++ "</div>"
  else if memStr name proofNames then
    let prfType := nth 1 (splitChar ":" name) "" in
    let prfTitle := capitalize prfType in
    let idAttr := idAttribute (optionValue ":label:" optionLines "") in
    "<div class=" ++ quoted ("prf-block prf-" ++ prfType) ++ idAttr ++
    "><div class=" ++ quoted "prf-title" ++ ">" ++ prfTitle ++
    "</div><div class=" ++ quoted "prf-content" ++ ">" ++ wrapped bodyContent ++
    "</div></div>"
  else if String.eqb name "iframe" then
    (* the iframe case (lines 466-487): [url] is the title argument *)
    iframeMarkup (youtubeEmbedUrl titleArg) optionLines bodyContent
  else if String.eqb name "video" then
    let videoPath := titleArg in
    let width := optionValue ":width:" optionLines "" in
    let height := optionValue ":height:" optionLines "" in
    let align := optionValue ":align:" optionLines "center" in
    let styleAttrs :=
      pushIf (truthy height) ("height: " ++ height ++ "px;")
        (pushIf (truthy width) ("width: " ++ width ++ "px; max-width: 100%;") []) in
    let attrs :=
      pushIf (hasOption ":muted:" optionLines) "muted"
        (pushIf (hasOption ":loop:" optionLines) "loop"
           (pushIf (hasOption ":autoplay:" optionLines) "autoplay"
              (pushIf (hasOption ":controls:" optionLines) "controls" []))) in
    let alignClass := if truthy align then " align-" ++ align else "" in
    "<div class=" ++ dq ++ "myst-video-container" ++ alignClass ++ dq ++
    "><video src=" ++ quoted videoPath ++ " style=" ++ quoted (join " " styleAttrs) ++
    " " ++ join " " attrs ++ " preload=" ++ quoted "metadata" ++
    ">Your browser does not support the video tag.</video>" ++
    (if truthy bodyContent
     then "<div class=" ++ quoted "video-caption" ++ ">" ++ bodyContent ++ "</div>"
     else "") ++
    "</div>"
  else if String.eqb name "video-compare" then
    let idAttr := idAttribute (optionValue ":label:" optionLines "") in
    let leftVideo := optionValue ":left:" optionLines "" in
    let rightVideo := optionValue ":right:" optionLines "" in
    let leftLabel := optionValue ":left-label:" optionLines "Left" in
    let rightLabel := optionValue ":right-label:" optionLines "Right" in
    "<div class=" ++ quoted "video-compare" ++ idAttr ++ ">" ++ nl ++
    spaces 12 ++ "<div class=" ++ quoted "video-compare-container" ++ ">" ++ nl ++
    videoCompareSide "left" leftLabel leftVideo ++
    videoCompareSide "right" rightLabel rightVideo ++
    spaces 12 ++ "</div>" ++ nl ++
    spaces 12 ++ "<div class=" ++ quoted "video-compare-caption" ++ ">" ++
    bodyContent ++ "</div>" ++ nl ++
    spaces 8 ++ "</div>"
  else if String.eqb name "exercise" then
    let idAttr := idAttribute (optionValue ":label:" optionLines "") in
    let extraClass := optionValue ":class:" optionLines "" in
    let exerciseTitle := orElse titleArg "Exercise" in
    exerciseLike "exercise" exerciseTitle extraClass idAttr "" bodyContent
  else if String.eqb name "solution" then
    let linkedExercise := titleArg in
    let idAttr := idAttribute (optionValue ":label:" optionLines "") in
    let extraClass := optionValue ":class:" optionLines "" in
    let solutionTitle :=
      if truthy linkedExercise then "Solution to " ++ linkedExercise else "Solution" in
    exerciseLike "solution" solutionTitle extraClass idAttr
      (" data-exercise=" ++ quoted linkedExercise) bodyContent
  else if String.eqb name "code" || String.eqb name "code-block" then
    let language := orElse titleArg "text" in
    let idAttr := idAttribute (optionValue ":label:" optionLines "") in
    let caption := optionValue ":caption:" optionLines "" in
    let filename := optionValue ":filename:" optionLines "" in
    let showLinenos :=
      match find (startsWith ":linenos:") optionLines with
      | Some linenosOpt => negb (includes "false" linenosOpt)
      | None => false
      end in
    let linenoStart : JsNumber :=
      match find (startsWith ":lineno-start:") optionLines with
      | Some _ => orOne (parseInt (optionValue ":lineno-start:" optionLines ""))
      | None => Finite false 1
      end in
    let linenosClass := if showLinenos then " line-numbers" else "" in
    let dataStart :=
      if showLinenos && negb (isOne linenoStart)
      then " data-start=" ++ quoted (numberToString linenoStart) else "" in
    "<div class=" ++ dq ++ "code-block-container" ++ linenosClass ++ dq ++
    idAttr ++ dataStart ++ ">" ++
    (if truthy filename
     then "<div class=" ++ quoted "code-filename" ++ ">" ++ escapeHtml filename ++ "</div>"
     else "") ++
    (nl ++ nl ++ "```" ++ language ++ nl ++ bodyContent ++ nl ++ "```" ++ nl ++ nl) ++
    (if truthy caption
     then "<div class=" ++ quoted "code-caption" ++ ">" ++ caption ++ "</div>" else "") ++
    "</div>"
  else if String.eqb name "mermaid" then
    let idAttr := idAttribute (optionValue ":label:" optionLines "") in
    let caption := optionValue ":caption:" optionLines "" in
    "<div class=" ++ quoted "mermaid-container" ++ idAttr ++ ">" ++
    "<pre class=" ++ quoted "mermaid" ++ " data-code=" ++ quoted (base64 bodyContent) ++
    "></pre>" ++
    (if truthy caption
     then "<div class=" ++ quoted "mermaid-caption" ++ ">" ++ caption ++ "</div>" else "") ++
    "</div>"
  else if String.eqb name "glossary" then
    glossaryLines (lines bodyContent)
      ("<dl class=" ++ quoted "myst-glossary" ++ ">") "" ++ "</dl>"
  else
    "<div class=" ++ quoted ("myst-" ++ name) ++ ">" ++ wrapped bodyContent ++ "</div>".

(** ** Directive engine: [parseMystDirectives] *)

Fixpoint repeatChar (c : ascii) (n : nat) : string :=
  match n with O => "" | S k => String c (repeatChar c k) end.

(** [[\w:-]] *)
Definition isNameChar (c : ascii) : bool :=
  isWord c || Ascii.eqb c ":" || Ascii.eqb c "-".

(** [/^(F{3,4})\{([\w:-]+)\}\s*(.* )$/] for the fence character [F]: the
    line starts with exactly three or four fence characters before the
    brace; the name is the run up to the closing brace; the title is what is
    left after the white space, and must hold no line terminator.  The
    result is the fence length, the name and the third group. *)
Definition matchDirectiveFence (fc : ascii) (line : string)
  : option (nat * string * string) :=
  let '(fence, s1) := span (Ascii.eqb fc) line in
  let fenceLen := String.length fence in
  if negb ((fenceLen =? 3)%nat || (fenceLen =? 4)%nat) then None else
  match stripPrefix "{" s1 with
  | None => None
  | Some s2 =>
      let '(name, s3) := span isNameChar s2 in
      if isEmpty name then None else
      match stripPrefix "}" s3 with
      | None => None
      | Some s4 =>
          let title := dropWhile isSpace s4 in
          if allStr (fun c => negb (isLineTerminator c)) title
          then Some (fenceLen, name, title) else None
      end
  end.

(** [colonMatch || backtickMatch], with the fence character. *)
Definition matchDirective (line : string) : option (ascii * nat * string * string) :=
  match matchDirectiveFence ":" line with
  | Some (n, name, title) => Some (":"%char, n, name, title)
  | None =>
      match matchDirectiveFence "`" line with
      | Some (n, name, title) => Some ("`"%char, n, name, title)
      | None => None
      end
  end.

(** [openingPattern]: [^F{n}\{[\w:-]+] *)
Definition isOpening (fc : ascii) (fenceLen : nat) (line : string) : bool :=
  match stripPrefix (repeatChar fc fenceLen ++ "{") line with
  | Some (String c _) => isNameChar c
  | _ => false
  end.

(** [closingPattern]: [^F{n}\s*$] *)
Definition isClosing (fc : ascii) (fenceLen : nat) (line : string) : bool :=
  match stripPrefix (repeatChar fc fenceLen) line with
  | Some r => allStr isSpace r
  | None => false
  end.

(** The scan of lines 342-352 over the lines after the opening one: the
    number of lines before the closing fence, when the depth comes back to
    zero. *)
Fixpoint findEnd (fc : ascii) (fenceLen : nat) (depth : nat) (ls : list string)
  : option nat :=
  match ls with
  | [] => None
  | l :: rest =>
      if isOpening fc fenceLen l
      then option_map S (findEnd fc fenceLen (S depth) rest)
      else if isClosing fc fenceLen l
      then if (depth - 1 =? 0)%nat then Some 0
           else option_map S (findEnd fc fenceLen (depth - 1) rest)
      else option_map S (findEnd fc fenceLen depth rest)
  end.

(** [/^:\w+(?:-\w+)?:/] on a trimmed line: a maximal word run, then either
    the colon or a dash, a second word run and the colon. *)
Definition isOptionLine (trimmed : string) : bool :=
  match stripPrefix ":" trimmed with
  | None => false
  | Some s1 =>
      let '(w1, s2) := span isWord s1 in
      if isEmpty w1 then false else
      match s2 with
      | String c s3 =>
          if Ascii.eqb c ":" then true
          else if Ascii.eqb c "-" then
            let '(w2, s4) := span isWord s3 in
            if isEmpty w2 then false else startsWith ":" s4
          else false
      | "" => false
      end
  end.

(** The loop of lines 361-371. *)
Fixpoint splitOptions (bodyLines : list string) (inOptions : bool)
  (optionLines contentLines : list string) : list string * list string :=
  match bodyLines with
  | [] => (optionLines, contentLines)
  | bodyLine :: rest =>
      let trimmed := trim bodyLine in
      if inOptions && isOptionLine trimmed
      then splitOptions rest inOptions (optionLines ++ [trimmed])%list contentLines
      else if isEmpty trimmed && inOptions
      then splitOptions rest inOptions optionLines contentLines
      else splitOptions rest false optionLines (contentLines ++ [bodyLine])%list
  end.

(** [content.replace(/\r\n/g, '\n').replace(/\r/g, '\n')] *)
Definition normalizeNewlines (content : string) : string :=
  replaceAll (litK (String CR "")) (fun _ => nl)
    (replaceAll (litK (String CR nl)) (fun _ => nl) content).

(** The [while] loop of lines 318-385; [rec] is the engine itself, called on
    the body of a directive.  [skip] counts the lines up to the closing
    fence that the assignment [i = endIndex + 1] jumps over. *)
Section DirectiveLoop.
Variable rec : string -> string.

Fixpoint directiveLoop (skip : nat) (ls : list string) : list string :=
  match ls with
  | [] => []
  | line :: rest =>
      match skip with
      | S k => directiveLoop k rest
      | O =>
          match matchDirective line with
          | Some (fc, fenceLen, name, title) =>
              match findEnd fc fenceLen 1 rest with
              | Some k =>
                  let bodyLines := firstn k rest in
                  let '(optionLines, contentLines) :=
                    splitOptions bodyLines true [] [] in
                  let bodyContent := trim (join nl contentLines) in
                  let parsedBody := rec bodyContent in
                  generateDirectiveHtml name (trim title) optionLines parsedBody
                    :: directiveLoop (S k) rest
              | None => line :: directiveLoop 0 rest
              end
          | None => line :: directiveLoop 0 rest
          end
      end
  end.

End DirectiveLoop.

(** The recursion of the engine into a body goes down on [fuel]; a body is
    shorter than the text it is cut from, so the length of the text is fuel
    enough ([parseMystDirectivesFuel_enough] below). *)
Fixpoint parseMystDirectivesFuel (fuel : nat) (content : string) : string :=
  match fuel with
  | O => content
  | S k =>
      join nl (directiveLoop (parseMystDirectivesFuel k) 0
                 (lines (normalizeNewlines content)))
  end.

Definition parseMystDirectives (content : string) : string :=
  parseMystDirectivesFuel (S (String.length content)) content.

(** ** Role engine: [parseMystRoles] *)

(** [{role}`([^`<]+)(?:\s*<([^>]+)>)?`] and the same with parentheses: the
    text is the maximal run without a backtick or an opening bracket; when
    the bracket follows, the argument runs to the first closing bracket and
    the backtick has to come next; giving characters of the text back to
    the white space of the group changes nothing to what has to follow. *)
Definition matchRoleArg (role : string) (open close : ascii) (s : string)
  : option ((string * option string) * string) :=
  match stripPrefix ("{" ++ role ++ "}`") s with
  | None => None
  | Some s1 =>
      let '(text, s2) := span (fun c => isNot "`" c && isNot open c) s1 in
      if isEmpty text then None else
      match s2 with
      | String c s3 =>
          if Ascii.eqb c "`" then Some ((text, None), s3)
          else
            (* c is the opening bracket *)
            let '(arg, s4) := span (isNot close) s3 in
            if isEmpty arg then None else
            match stripPrefix (String close "`") s4 with
            | Some s5 => Some ((text, Some arg), s5)
            | None => None
            end
      | "" => None
      end
  end.

(** [{a}`([^`]+)`] or [{(?:a|b)}`([^`]+)`]: the roles are tried in order. *)
Fixpoint matchRoles (roles : list string) (s : string) : option (string * string) :=
  match roles with
  | [] => None
  | role :: more =>
      match matchDelimited ("{" ++ role ++ "}`") "`" s with
      | Some r => Some r
      | None => matchRoles more s
      end
  end.

Definition tagged (openTag closeTag : string) (text : string) : string :=
  openTag ++ text ++ closeTag.

(** [/\{abbr\}`([^(]+)\(([^)]+)\)`/g] *)
Definition matchAbbrParen (s : string) : option ((string * string) * string) :=
  match stripPrefix "{abbr}`" s with
  | None => None
  | Some s1 =>
      let '(abbr, s2) := span (isNot "(") s1 in
      if isEmpty abbr then None else
      match stripPrefix "(" s2 with
      | None => None
      | Some s3 =>
          let '(title, s4) := span (isNot ")") s3 in
          if isEmpty title then None else
          match stripPrefix ")`" s4 with
          | Some s5 => Some ((abbr, title), s5)
          | None => None
          end
      end
  end.

(** The keyboard callback of lines 754-758:
    [text.split('+').map(k => `<kbd>${k.trim()}</kbd>`).join(' + ')]. *)
Definition keyboardKeys (text : string) : string :=
  join " + " (map (fun k => "<kbd>" ++ trim k ++ "</kbd>") (splitChar "+" text)).

Definition parseMystRoles (content : string) : string :=
  let result := content in
  (* button *)
  let result :=
    replaceAll (matchRoleArg "button" "<" ">")
      (fun c =>
         let href := match snd c with Some url => orElse url "#" | None => "#" end in
         "<a href=" ++ quoted href ++ " class=" ++ quoted "btn" ++ " role=" ++
         quoted "button" ++ ">" ++ trim (fst c) ++ "</a>") result in
  (* term *)
  let result :=
    replaceAll (matchRoleArg "term" "<" ">")
      (fun c =>
         let displayText := trim (fst c) in
         let termTarget :=
           match snd c with
           | Some term => if truthy term then trim term else displayText
           | None => displayText
           end in
         "<a href=" ++ quoted ("#" ++ termId termTarget) ++ " class=" ++
         quoted "myst-term" ++ " title=" ++ quoted ("Term: " ++ termTarget) ++ ">" ++
         displayText ++ "</a>") result in
  (* typography roles with a replacement pattern *)
  let result := replaceAll (matchRoles ["sub"]) (tagged "<sub>" "</sub>") result in
  let result := replaceAll (matchRoles ["sup"]) (tagged "<sup>" "</sup>") result in
  let result := replaceAll (matchRoles ["kbd"]) (tagged "<kbd>" "</kbd>") result in
  let result :=
    replaceAll (matchRoleArg "abbr" "(" ")")
      (fun c =>
         let titleAttr :=
           match snd c with
           | Some title => if truthy title then " title=" ++ quoted (trim title) else ""
           | None => ""
           end in
         "<abbr" ++ titleAttr ++ ">" ++ trim (fst c) ++ "</abbr>") result in
  let result := replaceAll (matchRoles ["del"]) (tagged "<del>" "</del>") result in
  let result := replaceAll (matchRoles ["u"]) (tagged "<u>" "</u>") result in
  let result :=
    replaceAll (matchRoles ["sc"])
      (tagged ("<span style=" ++ quoted "font-variant: small-caps;" ++ ">") "</span>")
      result in
  (* the same roles again, with their long names *)
  let result :=
    replaceAll (matchRoles ["sub"; "subscript"]) (tagged "<sub>" "</sub>") result in
  let result :=
    replaceAll (matchRoles ["sup"; "superscript"]) (tagged "<sup>" "</sup>") result in
  let result := replaceAll (matchRoles ["kbd"; "keyboard"]) keyboardKeys result in
  let result :=
    replaceAll matchAbbrParen
      (fun c => "<abbr title=" ++ quoted (trim (snd c)) ++ ">" ++ trim (fst c) ++ "</abbr>")
      result in
  let result :=
    replaceAll (matchRoles ["del"; "strike"]) (tagged "<del>" "</del>") result in
  let result :=
    replaceAll (matchRoles ["u"; "underline"]) (tagged "<u>" "</u>") result in
  replaceAll (matchRoles ["sc"; "smallcaps"])
    (tagged ("<span class=" ++ quoted "smallcaps" ++ ">") "</span>") result.

(** ** Path rewriter: the end of [renderMarkdownContent] (lines 819-841) *)

(** The replacement text of [s.replace(re, template)] for an expression
    without groups: [$$] is a dollar, [$&] the match, [$`] and [$'] the text
    before and after it; any other dollar stays. *)
Fixpoint expandTemplate (matched before after : string) (tpl : string) : string :=
  match tpl with
  | "" => ""
  | String a t =>
      if Ascii.eqb a "$" then
        match t with
        | String c r =>
            if Ascii.eqb c "$" then String "$" (expandTemplate matched before after r)
            else if Ascii.eqb c "&" then matched ++ expandTemplate matched before after r
            else if Ascii.eqb c "`" then before ++ expandTemplate matched before after r
            else if Ascii.eqb c "'" then after ++ expandTemplate matched before after r
            else String "$" (expandTemplate matched before after t)
        | "" => "$"
        end
      else String a (expandTemplate matched before after t)
  end.

(** [s.replace(/lit/g, template)] for an expression that is one non-empty
    literal. *)
Fixpoint replaceLiteralGo (lit tpl : string) (skip : nat) (before : string)
  (s : string) : string :=
  match s with
  | "" => ""
  | String a r =>
      match skip with
      | S k => replaceLiteralGo lit tpl k (before ++ String a "") r
      | O =>
          match stripPrefix lit s with
          | Some after =>
              expandTemplate lit before after tpl ++
              replaceLiteralGo lit tpl (String.length lit - 1) (before ++ String a "") r
          | None => String a (replaceLiteralGo lit tpl 0 (before ++ String a "") r)
          end
      end
  end.

Definition replaceLiteral (lit tpl s : string) : string :=
  replaceLiteralGo lit tpl 0 "" s.

Definition gitHubBase : string :=
  "https://raw.githubusercontent.com/ROCm/rocm-blogs/release".

(** [isDev] is [import.meta.env.DEV]; [htmlContent] is the HTML that the
    generic renderer produced. *)
Definition rewritePaths (isDev : bool) (category slug htmlContent : string) : string :=
  let baseImageUrl :=
    if isDev then "/blogs/" ++ category ++ "/" ++ slug ++ "/images/"
    else gitHubBase ++ "/blogs/" ++ category ++ "/" ++ slug ++ "/images/" in
  let baseImageUrlSingular :=
    if isDev then "/blogs/" ++ category ++ "/" ++ slug ++ "/image/"
    else gitHubBase ++ "/blogs/" ++ category ++ "/" ++ slug ++ "/image/" in
  let sharedImagesUrl :=
    if isDev then "/blogs/images/" else gitHubBase ++ "/blogs/images/" in
  let srcEq := "src=" ++ dq in
  let r := replaceLiteral (srcEq ++ "./images/") (srcEq ++ baseImageUrl) htmlContent in
  let r := replaceLiteral (srcEq ++ "images/") (srcEq ++ baseImageUrl) r in
  let r := replaceLiteral (srcEq ++ "./image/") (srcEq ++ baseImageUrlSingular) r in
  let r := replaceLiteral (srcEq ++ "image/") (srcEq ++ baseImageUrlSingular) r in
  let r := replaceLiteral (srcEq ++ "../images/") (srcEq ++ sharedImagesUrl) r in
  let r := replaceLiteral (srcEq ++ "./videos/")
             (srcEq ++ replaceFirstStr "/images/" "/videos/" baseImageUrl) r in
  replaceLiteral (srcEq ++ "videos/")
    (srcEq ++ replaceFirstStr "/images/" "/videos/" baseImageUrl) r.

(** ** Table wrapper and production URLs: the end of the renderer *)

(** Lines 815-817: every table of the rendered page is put in a wrapper. *)
Definition wrapTables (html : string) : string :=
  replaceLiteral "</table>" "</table></div>"
    (replaceLiteral "<table" ("<div class=" ++ quoted "table-wrapper" ++ "><table") html).

(** [rewriteImageUrlsForProduction] (lines 848-856). *)
Definition rewriteImageUrlsForProduction (isDev : bool) (html : string) : string :=
  if isDev then html
  else replaceLiteral ("src=" ++ dq ++ "/blogs/")
         ("src=" ++ dq ++ gitHubBase ++ "/blogs/") html.

(** ** The four resolvers in a row (lines 803-806) *)

Definition renderMyst (content : string) : string :=
  parseMystRoles (parseMystDirectives (parseMystFigures (parseMystMath content))).

(** ** Category names: [getCategoryDisplayName] (lines 875-883) *)

Definition categoryMap : list (string * string) :=
  [ ("artificial-intelligence", "Applications & Models");
    ("ecosystems-and-partners", "Ecosystems & Partners");
    ("high-performance-computing", "High Performance Computing");
    ("software-tools-optimization", "Software Tools & Optimizations") ].

(** [categoryMap[categoryId] || categoryId]: the table is an object literal,
    so a read of a name of [Object.prototype] gives the inherited value,
    which is truthy and no string. *)
Definition getCategoryDisplayName (categoryId : string) : lookupResult string :=
  match objGet (fun _ => []) categoryMap categoryId with
  | Own name => Own (orElse name categoryId)
  | Inherited => Inherited
  | Undefined => Own categoryId
  end.

(** The categories of [src/config.ts] (lines 19-24): id and display name. *)
Definition configCategories : list (string * string) :=
  [ ("artificial-intelligence", "Applications & Models");
    ("ecosystems-and-partners", "Ecosystems & Partners");
    ("high-performance-computing", "High Performance Computing");
    ("software-tools-optimization", "Software Tools & Optimizations") ].

(** ** Thumbnails and images: [src/services/local.ts] *)

(** [path.replace(/^\.\//, '')] *)
Definition stripDotSlash (path : string) : string :=
  match stripPrefix "./" path with Some r => r | None => path end.

(** [getThumbnailUrl] (lines 46-74).  [useLocalContent] is
    [config.useLocalContent], [repo] and [branch] are [config.githubRepo] and
    [config.githubBranch], [isDev] is [import.meta.env.DEV]. *)
Definition getThumbnailUrl (useLocalContent isDev : bool) (repo branch : string)
  (category slug thumbnail : string) : string :=
  if negb (truthy thumbnail) then ""
  else if startsWith "http" thumbnail then thumbnail
  else
    let cleanPath := stripDotSlash thumbnail in
    if useLocalContent then
      let baseUrl := "/blogs/" ++ category ++ "/" ++ slug ++ "/" in
      if includes "/" cleanPath then baseUrl ++ cleanPath
      else baseUrl ++ "images/" ++ cleanPath
    else
      let gitHubBase := "https://raw.githubusercontent.com/" ++ repo ++ "/" ++ branch in
      let baseUrl :=
        if isDev then "/blogs/" ++ category ++ "/" ++ slug ++ "/"
        else gitHubBase ++ "/blogs/" ++ category ++ "/" ++ slug ++ "/" in
      if includes "/" cleanPath then baseUrl ++ cleanPath
      else baseUrl ++ "images/" ++ cleanPath.

(** [getImageUrl] (lines 266-272). *)
Definition getImageUrl (category slug imagePath : string) : string :=
  if startsWith "http" imagePath then imagePath
  else "/blogs/" ++ category ++ "/" ++ slug ++ "/" ++ stripDotSlash imagePath.

(** ** Related posts: [tokenize], [calculateTF], [cosineSimilarity] *)

(** [/<[^>]*>/]: a tag runs from the bracket to the first closing one. *)
Definition matchTag (s : string) : option (unit * string) :=
  match stripPrefix "<" s with
  | None => None
  | Some s1 =>
      let '(_, s2) := span (isNot ">") s1 in
      match stripPrefix ">" s2 with
      | Some s3 => Some (tt, s3)
      | None => None
      end
  end.

(** [s.replace(/[^a-z0-9\s]/g, ' ')]: every match is one character. *)
Definition blankSpecial (c : ascii) : ascii :=
  if isLower c || isDigit c || isSpace c then c else " "%char.

(** [s.replace(/\s+/g, ' ')] *)
Fixpoint collapseSpaces (inRun : bool) (s : string) : string :=
  match s with
  | "" => ""
  | String c r =>
      if isSpace c
      then if inRun then collapseSpaces true r else String " " (collapseSpaces true r)
      else String c (collapseSpaces false r)
  end.

Definition stopWords : list string :=
  [ "the"; "a"; "an"; "and"; "or"; "but"; "in"; "on"; "at"; "to"; "for"; "of";
    "with"; "by"; "from"; "is"; "are"; "was"; "were"; "be"; "been"; "being";
    "have"; "has"; "had"; "do"; "does"; "did"; "will"; "would"; "could";
    "should"; "may"; "might"; "can"; "this"; "that"; "these"; "those"; "it";
    "its"; "as"; "if"; "when"; "than"; "so"; "such"; "no"; "not"; "only";
    "same"; "also"; "into"; "our"; "we"; "you"; "your"; "their"; "them";
    "they"; "he"; "she"; "his"; "her"; "which"; "what"; "who"; "whom"; "how";
    "all"; "each"; "every"; "both"; "few"; "more"; "most"; "other"; "some";
    "any"; "about"; "between"; "through"; "during"; "before"; "after"; "above";
    "below"; "up"; "down"; "out"; "off"; "over"; "under"; "again"; "further";
    "then"; "once"; "here"; "there"; "where"; "why"; "just"; "now"; "very";
    "even"; "well"; "back"; "still"; "way" ].

Definition cleanText (text : string) : string :=
  trim (collapseSpaces false
          (mapStr blankSpecial
             (replaceAll matchTag (fun _ => " ") (toLowerCase text)))).

(** [tokenize] (lines 888-914). *)
Definition tokenize (text : string) : list string :=
  filter (fun word => (2 <? String.length word)%nat && negb (memStr word stopWords))
    (splitChar " " (cleanText text)).

(** A [Map] with string keys keeps its entries in the order in which the
    keys were first set; a number is a binary64 float. *)
Definition TermMap : Type := list (string * PrimFloat.float).

Fixpoint mapGet (k : string) (m : TermMap) : option PrimFloat.float :=
  match m with
  | [] => None
  | (k', v) :: rest => if String.eqb k' k then Some v else mapGet k rest
  end.

Fixpoint mapSet (k : string) (v : PrimFloat.float) (m : TermMap) : TermMap :=
  match m with
  | [] => [(k, v)]
  | (k', v') :: rest =>
      if String.eqb k' k then (k', v) :: rest else (k', v') :: mapSet k v rest
  end.

(** [x || 0] on [undefined] or a number: zero and NaN are falsy. *)
Definition orZero (x : option PrimFloat.float) : PrimFloat.float :=
  match x with
  | Some v =>
      if PrimFloat.eqb v PrimFloat.zero || negb (PrimFloat.eqb v v)
      then PrimFloat.zero else v
  | None => PrimFloat.zero
  end.

(** The length of an array as a number. *)
Definition lengthNumber {A : Type} (l : list A) : PrimFloat.float :=
  PrimFloat.of_uint63 (Uint63.of_Z (Z.of_nat (List.length l))).

(** [calculateTF] (lines 919-930): the counts, then each count divided by
    the number of tokens. *)
Definition countTokens (tokens : list string) : TermMap :=
  fold_left
    (fun tf token => mapSet token (PrimFloat.add (orZero (mapGet token tf)) PrimFloat.one) tf)
    tokens [].

Definition calculateTF (tokens : list string) : TermMap :=
  let length := lengthNumber tokens in
  map (fun entry => (fst entry, PrimFloat.div (snd entry) length)) (countTokens tokens).

(** [new Set(keys)]: the keys in the order of their first occurrence. *)
Fixpoint setAddAll (seen : list string) (keys : list string) : list string :=
  match keys with
  | [] => seen
  | k :: rest => setAddAll (if memStr k seen then seen else seen ++ [k]) rest
  end.

(** [cosineSimilarity] (lines 935-953). *)
Definition cosineSums (tf1 tf2 : TermMap) (allTerms : list string)
  : PrimFloat.float * PrimFloat.float * PrimFloat.float :=
  fold_left
    (fun sums term =>
       let '(dotProduct, norm1, norm2) := sums in
       let v1 := orZero (mapGet term tf1) in
       let v2 := orZero (mapGet term tf2) in
       (PrimFloat.add dotProduct (PrimFloat.mul v1 v2),
        PrimFloat.add norm1 (PrimFloat.mul v1 v1),
        PrimFloat.add norm2 (PrimFloat.mul v2 v2)))
    allTerms (PrimFloat.zero, PrimFloat.zero, PrimFloat.zero).

Definition cosineSimilarity (tf1 tf2 : TermMap) : PrimFloat.float :=
  let allTerms := setAddAll [] (map fst tf1 ++ map fst tf2) in
  let '(dotProduct, norm1, norm2) := cosineSums tf1 tf2 allTerms in
  if PrimFloat.eqb norm1 PrimFloat.zero || PrimFloat.eqb norm2 PrimFloat.zero
  then PrimFloat.zero
  else PrimFloat.div dotProduct (PrimFloat.mul (PrimFloat.sqrt norm1) (PrimFloat.sqrt norm2)).

(** [textSimilarity] (lines 958-964). *)
Definition textSimilarity (text1 text2 : string) : PrimFloat.float :=
  cosineSimilarity (calculateTF (tokenize text1)) (calculateTF (tokenize text2)).

(** ** Reading a diagram back: [atob] in [src/components/BlogGrid.tsx]

    The page reads the [data-code] attribute of a diagram with [atob]
    (lines 206-207), the forgiving base 64 decoder: ASCII white space is
    dropped, up to two padding characters are removed when the length is a
    multiple of four, a length that leaves one character over or a
    character outside the alphabet is an error ([None]); every four digits
    give three bytes, three digits two bytes and two digits one byte.  The
    result is a text with one character for each byte. *)

Definition isAsciiWhitespace (c : ascii) : bool :=
  (code c =? 9)%nat || (code c =? 10)%nat || (code c =? 12)%nat ||
  (code c =? 13)%nat || (code c =? 32)%nat.

Fixpoint filterStr (f : ascii -> bool) (s : string) : string :=
  match s with
  | "" => ""
  | String c r => if f c then String c (filterStr f r) else filterStr f r
  end.

(** One padding character at the end is removed. *)
Fixpoint dropLastEq (s : string) : string :=
  match s with
  | "" => ""
  | String c r =>
      if Ascii.eqb c "=" && isEmpty r then "" else String c (dropLastEq r)
  end.

Definition base64Value (c : ascii) : option nat :=
  if isUpper c then Some (code c - 65)
  else if isLower c then Some (code c - 97 + 26)
  else if isDigit c then Some (code c - 48 + 52)
  else if Ascii.eqb c "+" then Some 62
  else if Ascii.eqb c "/" then Some 63
  else None.

Fixpoint base64Values (s : string) : option (list nat) :=
  match s with
  | "" => Some []
  | String c r =>
      match base64Value c, base64Values r with
      | Some v, Some vs => Some (v :: vs)
      | _, _ => None
      end
  end.

Fixpoint decodeGroups (vs : list nat) : list nat :=
  match vs with
  | a :: b :: c :: d :: rest =>
      (a * 4 + b / 16) :: (b mod 16 * 16 + c / 4) :: (c mod 4 * 64 + d) :: decodeGroups rest
  | [a; b; c] => [a * 4 + b / 16; b mod 16 * 16 + c / 4]
  | [a; b] => [a * 4 + b / 16]
  | _ => []
  end.

Fixpoint bytesToString (bytes : list nat) : string :=
  match bytes with
  | [] => ""
  | b :: rest => String (chr b) (bytesToString rest)
  end.

Definition atob (data : string) : option string :=
  let data := filterStr (fun c => negb (isAsciiWhitespace c)) data in
  let data :=
    if (String.length data mod 4 =? 0)%nat then dropLastEq (dropLastEq data) else data in
  if (String.length data mod 4 =? 1)%nat then None
  else match base64Values data with
       | Some vs => Some (bytesToString (decodeGroups vs))
       | None => None
       end.

(** * Properties *)

(** ** Text *)

Lemma append_nil_r (s : string) : s ++ "" = s.
Proof. induction s; simpl; congruence. Qed.

Lemma append_assoc (a b c : string) : (a ++ b) ++ c = a ++ (b ++ c).
Proof. induction a; simpl; congruence. Qed.

Lemma length_append (a b : string) :
  String.length (a ++ b) = String.length a + String.length b.
Proof. induction a; simpl; congruence. Qed.

Lemma stripPrefix_app (p s : string) : stripPrefix p (p ++ s) = Some s.
Proof.
  induction p as [|a p IH]; simpl; [reflexivity|].
  now rewrite Ascii.eqb_refl.
Qed.

Lemma stripPrefix_Some (p s r : string) : stripPrefix p s = Some r -> s = p ++ r.
Proof.
  revert s; induction p as [|a p IH]; simpl; intros s H.
  - now inversion H.
  - destruct s as [|b s]; [discriminate|].
    destruct (Ascii.eqb_spec a b) as [->|]; [|discriminate].
    now rewrite (IH _ H).
Qed.

Lemma dropStr_app (a b : string) : dropStr (String.length a) (a ++ b) = b.
Proof. induction a; simpl; auto. Qed.


Lemma truthy_false (s : string) : truthy s = false -> s = "".
Proof. unfold truthy; destruct s; simpl; [reflexivity | discriminate]. Qed.

(** [span] cuts a text where the author of the text means it to be cut: at
    the first character outside the class. *)
Lemma span_app (f : ascii -> bool) (a b : string) :
  allStr f a = true ->
  match b with "" => True | String c _ => f c = false end ->
  span f (a ++ b) = (a, b).
Proof.
  intros Ha Hb; induction a as [|c a IH]; simpl in *.
  - destruct b as [|c b]; simpl; [reflexivity | now rewrite Hb].
  - apply andb_true_iff in Ha as [Hc Ha].
    now rewrite Hc, (IH Ha).
Qed.

Lemma span_all (f : ascii -> bool) (a : string) :
  allStr f a = true -> span f a = (a, "").
Proof.
  intros H. rewrite <- (append_nil_r a) at 1. now apply span_app.
Qed.

Lemma span_none (f : ascii -> bool) (s : string) :
  match s with "" => True | String c _ => f c = false end -> span f s = ("", s).
Proof. intros H. now apply (span_app f "" s). Qed.

Lemma span_spec (f : ascii -> bool) (s : string) :
  let '(a, b) := span f s in
  s = a ++ b /\ allStr f a = true /\
  match b with "" => True | String c _ => f c = false end.
Proof.
  induction s as [|c s IH]; simpl; [now auto|].
  destruct (f c) eqn:Hc.
  - destruct (span f s) as [a b]. destruct IH as (-> & Ha & Hb).
    simpl. now rewrite Hc, Ha.
  - simpl. now rewrite Hc.
Qed.

(** [findFirst]: the first position where the continuation succeeds. *)
Lemma findFirst_here {A : Type} (k : string -> option (A * string))
  (s : string) (a : A) (rest : string) :
  k s = Some (a, rest) -> findFirst k s = Some ("", a, rest).
Proof. intros H. destruct s; simpl; now rewrite H. Qed.

Lemma findFirst_skip {A : Type} (k : string -> option (A * string))
  (pre s : string) (a : A) (rest : string) :
  (forall p q, pre = p ++ q -> q <> "" -> k (q ++ s) = None) ->
  k s = Some (a, rest) ->
  findFirst k (pre ++ s) = Some (pre, a, rest).
Proof.
  intros Hpre Hk. induction pre as [|c pre IH]; simpl.
  - now apply findFirst_here.
  - assert (H0 : k (String c pre ++ s) = None)
      by (apply (Hpre "" (String c pre)); simpl; congruence).
    simpl in H0. rewrite H0, IH; [reflexivity|].
    intros p q -> Hq. apply (Hpre (String c p) q); simpl; auto.
Qed.

Lemma findFirst_none {A : Type} (k : string -> option (A * string)) (s : string) :
  (forall p q, s = p ++ q -> k q = None) -> findFirst k s = None.
Proof.
  induction s as [|c s IH]; intros H; simpl.
  - now rewrite (H "" "").
  - rewrite (H "" (String c s)) by reflexivity.
    rewrite IH; [reflexivity|].
    intros p q ->. now apply (H (String c p) q).
Qed.

Lemma findFirst_Some {A : Type} (k : string -> option (A * string))
  (s pre : string) (a : A) (rest : string) :
  findFirst k s = Some (pre, a, rest) ->
  exists q, s = pre ++ q /\ k q = Some (a, rest).
Proof.
  revert pre; induction s as [|c s IH]; intros pre; simpl.
  - destruct (k "") as [[a' r']|] eqn:Hk; [|discriminate].
    intros H; inversion H; subst. now exists "".
  - destruct (k (String c s)) as [[a' r']|] eqn:Hk.
    + intros H; inversion H; subst. now exists (String c s).
    + destruct (findFirst k s) as [[[p a'] r']|] eqn:Hf; [|discriminate].
      intros H; inversion H; subst.
      destruct (IH _ eq_refl) as (q & -> & Hq). now exists q.
Qed.

(** The scan sees an occurrence wherever it starts. *)
Lemma findFirst_some_if {A : Type} (k : string -> option (A * string))
  (pre s : string) :
  k s <> None -> findFirst k (pre ++ s) <> None.
Proof.
  intros Hk. induction pre as [|c pre IH]; simpl.
  - destruct s; simpl; destruct (k _) as [[? ?]|]; congruence.
  - destruct (k (String c (pre ++ s))) as [[? ?]|]; [congruence|].
    destruct (findFirst k (pre ++ s)) as [[[? ?] ?]|]; congruence.
Qed.

Lemma includes_app (needle pre post : string) :
  includes needle (pre ++ needle ++ post) = true.
Proof.
  unfold includes, findSub.
  destruct (findFirst (litK needle) (pre ++ needle ++ post)) as [[[? ?] ?]|] eqn:H;
    [reflexivity|].
  exfalso. revert H. apply findFirst_some_if.
  unfold litK. now rewrite stripPrefix_app.
Qed.

Lemma includes_app_l (needle s t : string) :
  includes needle s = true -> includes needle (s ++ t) = true.
Proof.
  unfold includes, findSub. intros H.
  destruct (findFirst (litK needle) s) as [[[pre []] rest]|] eqn:Hs; [|discriminate].
  apply findFirst_Some in Hs as (q & -> & Hq).
  unfold litK in Hq. destruct (stripPrefix needle q) eqn:Hp; [|discriminate].
  apply stripPrefix_Some in Hp as ->.
  rewrite !append_assoc. apply includes_app.
Qed.

Lemma stripPrefix_None_app (p x r : string) :
  stripPrefix p x = None -> String.length p <= String.length x ->
  stripPrefix p (x ++ r) = None.
Proof.
  revert x; induction p as [|a p IH]; intros x H Hl; simpl in *; [discriminate|].
  destruct x as [|b x]; simpl in *; [lia|].
  destruct (Ascii.eqb a b); [|reflexivity].
  apply IH; [assumption | lia].
Qed.

Lemma findFirst_prefix_None {A : Type} (k : string -> option (A * string))
  (pre s : string) (a : A) (rest : string) :
  findFirst k (pre ++ s) = Some (pre, a, rest) ->
  forall p q, pre = p ++ q -> q <> "" -> k (q ++ s) = None.
Proof.
  induction pre as [|x pre IH]; intros H p q Hpq Hq.
  - destruct p, q; simpl in Hpq; congruence.
  - change (String x pre ++ s) with (String x (pre ++ s)) in H. simpl in H.
    destruct (k (String x (pre ++ s))) as [[a' r']|] eqn:Hk; [discriminate|].
    destruct (findFirst k (pre ++ s)) as [[[pre' a'] r']|] eqn:Hf; [|discriminate].
    inversion H; subst pre' a' r'.
    destruct p as [|y p]; simpl in Hpq.
    + subst q. exact Hk.
    + inversion Hpq; subst. now apply (IH eq_refl p q).
Qed.

(** When the first [needle] of [c ++ needle] is the one written at its end,
    the body found in [c ++ needle ++ rest] is [c], whatever follows. *)
Lemma findSub_app (needle c rest : string) :
  findSub needle (c ++ needle) = Some (c, "") ->
  findSub needle (c ++ needle ++ rest) = Some (c, rest).
Proof.
  unfold findSub. intros H.
  destruct (findFirst (litK needle) (c ++ needle)) as [[[pre []] r]|] eqn:Hf;
    [|discriminate].
  inversion H; subst pre r.
  rewrite (findFirst_skip (litK needle) c (needle ++ rest) tt rest); [reflexivity| |].
  - intros p q Hpq Hq.
    pose proof (findFirst_prefix_None _ _ _ _ _ Hf p q Hpq Hq) as Hn.
    unfold litK in *.
    destruct (stripPrefix needle (q ++ needle)) eqn:Hs; [discriminate|].
    rewrite <- append_assoc.
    rewrite stripPrefix_None_app; [reflexivity | assumption |].
    rewrite length_append. lia.
  - unfold litK. now rewrite stripPrefix_app.
Qed.

Lemma findFirst_None_all {A : Type} (k : string -> option (A * string)) (s : string) :
  findFirst k s = None -> forall p q, s = p ++ q -> k q = None.
Proof.
  induction s as [|x s IH]; simpl; intros H p q Hpq.
  - destruct p, q; try discriminate. now destruct (k "") as [[? ?]|].
  - destruct (k (String x s)) as [[? ?]|] eqn:Hk; [discriminate|].
    destruct (findFirst k s) as [[[? ?] ?]|] eqn:Hf; [discriminate|].
    destruct p as [|y p]; simpl in Hpq.
    + now subst q.
    + inversion Hpq; subst. now apply (IH eq_refl p q).
Qed.

Lemma includes_false (needle s : string) :
  includes needle s = false ->
  forall p q, s = p ++ q -> stripPrefix needle q = None.
Proof.
  unfold includes, findSub. intros H p q Hpq.
  destruct (findFirst (litK needle) s) as [[[? ?] ?]|] eqn:Hf; [discriminate|].
  pose proof (findFirst_None_all _ _ Hf p q Hpq) as Hk. unfold litK in Hk.
  now destruct (stripPrefix needle q).
Qed.

Lemma allStr_app (f : ascii -> bool) (a b : string) :
  allStr f (a ++ b) = allStr f a && allStr f b.
Proof. induction a as [|c a IH]; simpl; [reflexivity|]. now rewrite IH, andb_assoc. Qed.

Lemma allStr_suffix (f : ascii -> bool) (p q : string) :
  allStr f (p ++ q) = true -> allStr f q = true.
Proof. rewrite allStr_app. intros H. now apply andb_true_iff in H. Qed.

Lemma allStr_impl (f g : ascii -> bool) (s : string) :
  (forall c, f c = true -> g c = true) -> allStr f s = true -> allStr g s = true.
Proof.
  intros Hfg. induction s as [|c s IH]; simpl; [reflexivity|].
  intros H. apply andb_true_iff in H as [Hc Hs]. now rewrite (Hfg c Hc), IH.
Qed.

(** ** Replacement *)

Section ReplaceFacts.
Context {C St : Type}.
Variable m : string -> option (C * string).
Variable f : C -> St -> string * St.

Lemma replaceGo_skip (a b : string) (st : St) :
  replaceGo m f (String.length a) (a ++ b) st = replaceGo m f 0 b st.
Proof.
  induction a as [|c a IH]; simpl; [|exact IH].
  destruct b; reflexivity.
Qed.

Lemma replaceGo_cons (x : ascii) (s : string) (st : St) :
  replaceGo m f 0 (String x s) st =
  match m (String x s) with
  | Some (c, rest) =>
      let '(out, st1) := f c st in
      match String.length (String x s) - String.length rest with
      | O => let '(o, st2) := replaceGo m f 0 s st1 in (out ++ String x o, st2)
      | S k => let '(o, st2) := replaceGo m f k s st1 in (out ++ o, st2)
      end
  | None => let '(o, st2) := replaceGo m f 0 s st in (String x o, st2)
  end.
Proof. reflexivity. Qed.

(** A match [a] at the head of the text, [a] not empty: the callback's
    text, then the scan of what the match left. *)
Lemma replaceSt_match (a b : string) (c : C) (st : St) :
  m (a ++ b) = Some (c, b) -> a <> "" ->
  replaceSt m f (a ++ b) st =
  (fst (f c st) ++ fst (replaceSt m f b (snd (f c st))),
   snd (replaceSt m f b (snd (f c st)))).
Proof.
  intros Hm Ha. destruct a as [|x a]; [congruence|].
  unfold replaceSt. change (String x a ++ b) with (String x (a ++ b)) in *.
  rewrite replaceGo_cons, Hm.
  destruct (f c st) as [out st1].
  replace (String.length (String x (a ++ b)) - String.length b)
    with (S (String.length a))
    by (change (String.length (String x (a ++ b)))
          with (S (String.length (a ++ b)));
        rewrite length_append; lia).
  rewrite replaceGo_skip. simpl.
  now destruct (replaceGo m f 0 b st1).
Qed.

Lemma replaceSt_copy (x : ascii) (s : string) (st : St) :
  m (String x s) = None ->
  replaceSt m f (String x s) st =
  (String x (fst (replaceSt m f s st)), snd (replaceSt m f s st)).
Proof.
  intros Hm. unfold replaceSt. rewrite replaceGo_cons, Hm.
  now destruct (replaceGo m f 0 s st).
Qed.

Lemma replaceSt_nil (st : St) : m "" = None -> replaceSt m f "" st = ("", st).
Proof. intros Hm. unfold replaceSt. simpl. now rewrite Hm. Qed.

(** No match anywhere: the text and the state are left as they are. *)
Lemma replaceSt_none (s : string) (st : St) :
  (forall p q, s = p ++ q -> m q = None) -> replaceSt m f s st = (s, st).
Proof.
  induction s as [|x s IH]; intros H.
  - apply replaceSt_nil. now apply (H "" "").
  - rewrite replaceSt_copy by now apply (H "" (String x s)).
    rewrite IH; [reflexivity|].
    intros p q ->. now apply (H (String x p) q).
Qed.

(** What every callback keeps, the whole replacement keeps. *)
Lemma replaceGo_invariant (P : St -> Prop) :
  (forall c st, P st -> P (snd (f c st))) ->
  forall s skip st, P st -> P (snd (replaceGo m f skip s st)).
Proof.
  intros Hf. induction s as [|x s IH]; intros skip st Hst.
  - destruct skip; simpl; [|assumption].
    destruct (m "") as [[c rest]|]; [|assumption].
    specialize (Hf c st Hst). destruct (f c st) as [out st1].
    now destruct (String.length "" - String.length rest).
  - destruct skip; [|now apply IH].
    rewrite replaceGo_cons.
    destruct (m (String x s)) as [[c rest]|].
    + specialize (Hf c st Hst). destruct (f c st) as [out st1]. simpl in Hf.
      destruct (String.length (String x s) - String.length rest) as [|k].
      * specialize (IH 0 st1 Hf). now destruct (replaceGo m f 0 s st1).
      * specialize (IH k st1 Hf). now destruct (replaceGo m f k s st1).
    + specialize (IH 0 st Hst). now destruct (replaceGo m f 0 s st).
Qed.

End ReplaceFacts.

Lemma replaceAll_none {C : Type} (m : string -> option (C * string))
  (f : C -> string) (s : string) :
  (forall p q, s = p ++ q -> m q = None) -> replaceAll m f s = s.
Proof. intros H. unfold replaceAll. now rewrite replaceSt_none. Qed.

Lemma replaceAll_match {C : Type} (m : string -> option (C * string))
  (f : C -> string) (a b : string) (c : C) :
  m (a ++ b) = Some (c, b) -> a <> "" ->
  replaceAll m f (a ++ b) = f c ++ replaceAll m f b.
Proof.
  intros Hm Ha. unfold replaceAll.
  now rewrite (replaceSt_match _ _ a b c tt Hm Ha).
Qed.

Lemma replaceAll_copy {C : Type} (m : string -> option (C * string))
  (f : C -> string) (x : ascii) (s : string) :
  m (String x s) = None ->
  replaceAll m f (String x s) = String x (replaceAll m f s).
Proof. intros Hm. unfold replaceAll. now rewrite replaceSt_copy. Qed.

(** ** Texts in which a pass finds nothing *)

(** One of the two texts is a prefix of the other. *)
Fixpoint compatible (a b : string) : bool :=
  match a, b with
  | String x a', String y b' => Ascii.eqb x y && compatible a' b'
  | _, _ => true
  end.

Lemma stripPrefix_compatible (L x r : string) :
  compatible L x = false -> stripPrefix L (x ++ r) = None.
Proof.
  revert x; induction L as [|a L IH]; intros x H; [discriminate|].
  destruct x as [|b x]; [discriminate|]. simpl in H |- *.
  destruct (Ascii.eqb a b); [now apply IH | reflexivity].
Qed.

(** No occurrence of [L] starts inside [a], whatever follows [a]. *)
Fixpoint clearOf (L a : string) : bool :=
  match a with
  | "" => true
  | String _ a' => negb (compatible L a) && clearOf L a'
  end.

Lemma clearOf_spec (L a r : string) :
  clearOf L a = true ->
  forall p q, a = p ++ q -> q <> "" -> stripPrefix L (q ++ r) = None.
Proof.
  induction a as [|x a IH]; intros H p q Hpq Hq.
  - destruct p, q; simpl in Hpq; congruence.
  - cbn [clearOf] in H. apply andb_true_iff in H as [Hc Ha].
    apply negb_true_iff in Hc.
    destruct p as [|y p]; simpl in Hpq.
    + subst q. now apply stripPrefix_compatible.
    + inversion Hpq; subst. now apply (IH Ha p q).
Qed.

(** An occurrence of [L] that starts less than [k] characters before [x]
    does not go on into [x]: none of the first [k] proper ends of [L] is
    compatible with [x]. *)
Fixpoint tailsClear (k : nat) (t x : string) : bool :=
  match k, t with
  | S k', String _ t' => negb (compatible t x) && tailsClear k' t' x
  | _, _ => true
  end.

(** The same for a text before [x] that avoids [N], the start of [L]: an
    occurrence of [L] cannot start [length N] characters or more before
    [x]. *)
Definition noOverlap (N L x : string) : bool :=
  match L with
  | "" => true
  | String _ t => tailsClear (String.length N - 1) t x
  end.

Lemma tailsClear_spec (k : nat) (t x r : string) :
  tailsClear k t x = true ->
  forall u v, t = u ++ v -> v <> "" -> String.length u < k ->
              stripPrefix v (x ++ r) = None.
Proof.
  revert k; induction t as [|c t IH]; intros k H u v Huv Hv Hk.
  - destruct u, v; simpl in Huv; congruence.
  - destruct k as [|k]; [lia|].
    cbn [tailsClear] in H. apply andb_true_iff in H as [Hc Ht].
    apply negb_true_iff in Hc.
    destruct u as [|y u]; simpl in Huv.
    + subst v. now apply stripPrefix_compatible.
    + inversion Huv; subst. apply (IH k Ht u v eq_refl Hv). simpl in Hk. lia.
Qed.

Lemma append_eq_inv (a b c d : string) :
  a ++ b = c ++ d -> String.length a <= String.length c -> exists e, c = a ++ e.
Proof.
  revert c; induction a as [|x a IH]; intros c H Hl.
  - now exists c.
  - destruct c as [|y c]; [simpl in Hl; lia|].
    simpl in H. inversion H; subst.
    destruct (IH c) as (e & ->); [assumption | simpl in Hl; lia |].
    now exists e.
Qed.

(** Where a text that starts with [q] starts with [L]: either [L] goes on
    after [q], or [L] is within [q]. *)
Lemma stripPrefix_app_inv (L q y z : string) :
  stripPrefix L (q ++ y) = Some z ->
  (exists L2, L = q ++ L2 /\ stripPrefix L2 y = Some z) \/
  (exists q2, q = L ++ q2).
Proof.
  revert q; induction L as [|a L IH]; intros q H.
  - right. now exists q.
  - destruct q as [|b q].
    + left. now exists (String a L).
    + simpl in H. destruct (Ascii.eqb_spec a b) as [->|]; [|discriminate].
      destruct (IH q H) as [(L2 & -> & H2) | (q2 & ->)].
      * left. now exists L2.
      * right. now exists q2.
Qed.

(** No end of [s] starts with [N]. *)
Definition avoids (N s : string) : Prop :=
  forall p q, s = p ++ q -> stripPrefix N q = None.

Lemma avoids_nil (N : string) : N <> "" -> avoids N "".
Proof.
  intros HN p q Hpq. destruct p, q; simpl in Hpq; try discriminate.
  destruct N; [congruence | reflexivity].
Qed.

Lemma avoids_app (L a b : string) :
  (forall p q, a = p ++ q -> q <> "" -> stripPrefix L (q ++ b) = None) ->
  avoids L b -> avoids L (a ++ b).
Proof.
  intros Ha Hb. induction a as [|x a IH]; [exact Hb|].
  assert (IH' : avoids L (a ++ b)).
  { apply IH. intros p q -> Hq. now apply (Ha (String x p) q). }
  intros p q Hpq. destruct p as [|y p]; simpl in Hpq.
  - subst q. apply (Ha "" (String x a)); [reflexivity | discriminate].
  - inversion Hpq as [[Hy E]]. subst y. apply (IH' p q E).
Qed.

(** A text that is written out. *)
Lemma avoids_written (L a b : string) :
  clearOf L a = true -> avoids L b -> avoids L (a ++ b).
Proof.
  intros Ha Hb. apply avoids_app; [|exact Hb].
  intros p q Hpq Hq. now apply (clearOf_spec L a b Ha p q).
Qed.

Lemma stripPrefix_longer (N L' q : string) :
  stripPrefix N q = None -> stripPrefix (N ++ L') q = None.
Proof.
  revert q; induction N as [|a N IH]; intros q H; [discriminate|].
  destruct q as [|b q]; [reflexivity|]. simpl in H |- *.
  destruct (Ascii.eqb a b); [now apply IH | reflexivity].
Qed.

(** An occurrence of [N ++ L'] cannot start in a text that avoids [N] and
    go on into [x]. *)
Lemma overlap_none (N L' a x r : string) :
  avoids N a -> noOverlap N (N ++ L') x = true ->
  forall p q, a = p ++ q -> q <> "" -> stripPrefix (N ++ L') (q ++ x ++ r) = None.
Proof.
  intros Ha Hx p q Hpq Hq.
  destruct (stripPrefix (N ++ L') (q ++ x ++ r)) as [z|] eqn:E; [|reflexivity].
  exfalso.
  assert (Hin : forall q2, q = N ++ q2 -> False).
  { intros q2 Hq2. specialize (Ha p q Hpq). rewrite Hq2 in Ha.
    rewrite stripPrefix_app in Ha. discriminate. }
  destruct (stripPrefix_app_inv _ _ _ _ E) as [(L2 & HL & H2) | (q2 & Hq2)];
    [|apply (Hin (L' ++ q2)); now rewrite Hq2, append_assoc].
  destruct (Nat.le_gt_cases (String.length N) (String.length q)) as [Hlen | Hlen].
  - destruct (append_eq_inv N L' q L2 HL Hlen) as (e & He). exact (Hin e He).
  - destruct L2 as [|c L2].
    + rewrite append_nil_r in HL. apply (f_equal String.length) in HL.
      rewrite length_append in HL. lia.
    + destruct q as [|y q]; [congruence|].
      rewrite HL in Hx. cbn [append noOverlap] in Hx.
      rewrite (tailsClear_spec _ _ x r Hx q (String c L2) eq_refl) in H2;
        [discriminate | discriminate | simpl in Hlen; lia].
Qed.

(** A text that is only known to avoid [N], before a text written out. *)
Lemma avoids_before (N L' a x r : string) :
  avoids N a -> noOverlap N (N ++ L') x = true ->
  avoids (N ++ L') (x ++ r) -> avoids (N ++ L') (a ++ x ++ r).
Proof.
  intros Ha Hx Hr. apply avoids_app; [|exact Hr]. now apply overlap_none.
Qed.

Lemma avoids_last (N L' a : string) : avoids N a -> avoids (N ++ L') a.
Proof. intros Ha p q Hpq. apply stripPrefix_longer. now apply (Ha p q). Qed.

(** A part of a text that avoids [N]. *)
Lemma avoids_part (N a b c : string) : avoids N (a ++ b ++ c) -> avoids N b.
Proof.
  intros H p q Hpq.
  assert (Hs : stripPrefix N (q ++ c) = None)
    by (apply (H (a ++ p) (q ++ c)); rewrite Hpq; now rewrite !append_assoc).
  destruct (stripPrefix N q) as [z|] eqn:E; [|reflexivity].
  apply stripPrefix_Some in E. subst q.
  rewrite append_assoc, stripPrefix_app in Hs. discriminate.
Qed.

(** A text without one of the characters of [L]. *)
Lemma stripPrefix_allStr (f : ascii -> bool) (L q : string) :
  allStr f L = false -> allStr f q = true -> stripPrefix L q = None.
Proof.
  intros HL Hq. destruct (stripPrefix L q) as [z|] eqn:E; [|reflexivity].
  apply stripPrefix_Some in E. subst q. rewrite allStr_app, HL in Hq. discriminate.
Qed.

Section Idle.
Context {C St : Type}.
Variable m : string -> option (C * string).
Variable f : C -> St -> string * St.

(** A pass whose pattern begins with the literal [L] leaves a text that
    avoids [L] as it is. *)
Lemma replaceSt_avoids (L s : string) (st : St) :
  (forall q, stripPrefix L q = None -> m q = None) ->
  avoids L s -> replaceSt m f s st = (s, st).
Proof.
  intros Hgate Hs. apply replaceSt_none. intros p q Hpq. apply Hgate. now apply (Hs p q).
Qed.

(** A pass whose pattern needs a character that the text does not hold. *)
Lemma replaceSt_chars (g : ascii -> bool) (s : string) (st : St) :
  (forall q, allStr g q = true -> m q = None) ->
  allStr g s = true -> replaceSt m f s st = (s, st).
Proof.
  intros Hgate Hs. apply replaceSt_none. intros p q ->.
  apply Hgate. now apply allStr_suffix in Hs.
Qed.

Lemma replaceSt_prefix (pre s : string) (st : St) :
  (forall p q, pre = p ++ q -> q <> "" -> m (q ++ s) = None) ->
  replaceSt m f (pre ++ s) st =
  (pre ++ fst (replaceSt m f s st), snd (replaceSt m f s st)).
Proof.
  intros H. induction pre as [|x pre IH].
  - simpl. now destruct (replaceSt m f s st).
  - change (String x pre ++ s) with (String x (pre ++ s)).
    rewrite replaceSt_copy
      by (apply (H "" (String x pre)); [reflexivity | discriminate]).
    rewrite IH; [reflexivity|].
    intros p q -> Hq. now apply (H (String x p) q).
Qed.

(** One block [a] in a text: the text before it and the text after it are
    copied, the block is replaced. *)
Lemma replaceSt_block (pre a post : string) (c : C) (st : St) :
  (forall p q, pre = p ++ q -> q <> "" -> m (q ++ a ++ post) = None) ->
  m (a ++ post) = Some (c, post) -> a <> "" ->
  (forall p q, post = p ++ q -> m q = None) ->
  replaceSt m f (pre ++ a ++ post) st = (pre ++ fst (f c st) ++ post, snd (f c st)).
Proof.
  intros Hpre Hm Ha Hpost.
  rewrite (replaceSt_prefix pre _ st Hpre).
  rewrite (replaceSt_match m f a post c st Hm Ha).
  rewrite (replaceSt_none m f post _ Hpost). reflexivity.
Qed.

End Idle.

(** A text without dollar, backtick or hash, and without the start of an
    environment or of a colon-fenced math directive: no pass of the math
    resolver finds a thing in it. *)
Definition plainChar (c : ascii) : bool :=
  isNot "$" c && isNot "`" c && isNot "#" c.

Definition plainText (s : string) : bool :=
  allStr plainChar s && negb (includes "\begin{" s) && negb (includes ":::{math}" s).

Lemma plainText_spec (s : string) :
  plainText s = true ->
  allStr plainChar s = true /\ avoids "\begin{" s /\ avoids ":::{math}" s.
Proof.
  unfold plainText. intros H.
  apply andb_true_iff in H as [H Hc]. apply andb_true_iff in H as [Hchars Hb].
  apply negb_true_iff in Hb, Hc.
  repeat split; [assumption | |]; intros p q; now apply includes_false.
Qed.

Lemma matchDelimited_chars (g : ascii -> bool) (open : string) (close : ascii) (q : string) :
  allStr g open = false -> allStr g q = true -> matchDelimited open close q = None.
Proof.
  intros Ho Hq. unfold matchDelimited. now rewrite (stripPrefix_allStr g open q Ho Hq).
Qed.

Lemma matchMathRole_plain (q : string) :
  allStr plainChar q = true -> matchMathRole q = None.
Proof.
  intros H. unfold matchMathRole.
  destruct (stripPrefix "{math" q) as [s1|] eqn:E1; [|reflexivity].
  apply stripPrefix_Some in E1. subst q. apply allStr_suffix in H.
  pose proof (span_spec (isNot "}") s1) as Hs.
  destruct (span (isNot "}") s1) as [arg s2]. destruct Hs as (-> & _ & _).
  apply allStr_suffix in H.
  rewrite (matchDelimited_chars plainChar "}`" "`" s2 eq_refl H).
  now destruct arg as [|? [|? ?]]; [| |destruct (isSpace _)].
Qed.

(** The passes of the resolver, but the AMS and the colon one, on a text
    of plain characters. *)
Lemma charPasses_idle (s : string) (st : MathState) :
  allStr plainChar s = true ->
  replaceSt matchBacktickMath backtickMathBlock s st = (s, st) /\
  replaceSt matchDollarLabel dollarLabelBlock s st = (s, st) /\
  replaceSt matchDollar dollarBlock s st = (s, st) /\
  replaceSt matchEqRole eqReference s st = (s, st) /\
  replaceSt matchEmptyLink eqReference s st = (s, st) /\
  replaceSt matchMathRole inlineMath s st = (s, st) /\
  replaceSt matchInlineDollar inlineMath s st = (s, st).
Proof.
  intros H.
  repeat split; apply (replaceSt_chars _ _ plainChar); try assumption; intros q Hq.
  - unfold matchBacktickMath, matchFenced.
    now rewrite (stripPrefix_allStr plainChar "```{math}" q eq_refl Hq).
  - unfold matchDollarLabel.
    now rewrite (stripPrefix_allStr plainChar "$$" q eq_refl Hq).
  - unfold matchDollar.
    now rewrite (stripPrefix_allStr plainChar "$$" q eq_refl Hq).
  - now apply (matchDelimited_chars plainChar).
  - now apply (matchDelimited_chars plainChar).
  - now apply matchMathRole_plain.
  - unfold matchInlineDollar.
    now rewrite (stripPrefix_allStr plainChar "$" q eq_refl Hq).
Qed.

Lemma amsPass_idle (env s : string) (st : MathState) :
  avoids (beginEnv env) s -> amsPass env s st = (s, st).
Proof.
  intros H. unfold amsPass. apply (replaceSt_avoids _ _ (beginEnv env)); [|assumption].
  intros q Hq. unfold matchAms. now rewrite Hq.
Qed.

Lemma colonPass_idle (s : string) (st : MathState) :
  avoids ":::{math}" s -> replaceSt matchColonMath colonMathBlock s st = (s, st).
Proof.
  intros H. apply (replaceSt_avoids _ _ ":::{math}"); [|assumption].
  intros q Hq. unfold matchColonMath, matchFenced. now rewrite Hq.
Qed.

Lemma runPasses_cons (p : string -> MathState -> string * MathState)
  (ps : list (string -> MathState -> string * MathState)) (acc : string * MathState) :
  runPasses (p :: ps) acc = runPasses ps (p (fst acc) (snd acc)).
Proof. reflexivity. Qed.

Lemma runPasses_app (ps qs : list (string -> MathState -> string * MathState))
  (acc : string * MathState) :
  runPasses (ps ++ qs) acc = runPasses qs (runPasses ps acc).
Proof. apply fold_left_app. Qed.

Lemma runPasses_idle (ps : list (string -> MathState -> string * MathState))
  (s : string) (st : MathState) :
  Forall (fun p => p s st = (s, st)) ps -> runPasses ps (s, st) = (s, st).
Proof.
  induction 1 as [|p ps Hp Hps IH]; [reflexivity|].
  rewrite runPasses_cons. cbn [fst snd]. now rewrite Hp.
Qed.

(** A text made of parts that are written out, each before a part that is
    only known by what it avoids. *)
Fixpoint weave (first : string) (parts : list (string * string)) : string :=
  match parts with
  | [] => first
  | (x, s) :: rest => first ++ x ++ weave s rest
  end.

Lemma avoids_weave (N L' : string) (parts : list (string * string)) :
  forall first, avoids N first ->
  Forall (fun xs => (noOverlap N (N ++ L') (fst xs) && clearOf (N ++ L') (fst xs) = true)
                    /\ avoids N (snd xs)) parts ->
  avoids (N ++ L') (weave first parts).
Proof.
  induction parts as [|[x s] parts IH]; intros first Hfirst Hparts.
  - now apply avoids_last.
  - inversion Hparts as [|? ? (Hx & Hs) Hrest]; subst. cbn [weave].
    cbn [fst snd] in Hx, Hs. apply andb_true_iff in Hx as [Ho Hc].
    apply avoids_before; [assumption | assumption |].
    apply avoids_written; [assumption|]. now apply IH.
Qed.

Lemma allStr_weave (f : ascii -> bool) (parts : list (string * string)) :
  forall first, allStr f first = true ->
  Forall (fun xs => allStr f (fst xs) = true /\ allStr f (snd xs) = true) parts ->
  allStr f (weave first parts) = true.
Proof.
  induction parts as [|[x s] parts IH]; intros first Hfirst Hparts; [assumption|].
  inversion Hparts as [|? ? (Hx & Hs) Hrest]; subst. cbn [weave].
  cbn [fst snd] in Hx, Hs. now rewrite !allStr_app, Hfirst, Hx, IH.
Qed.

(** A text in which no pass of the resolver finds a thing. *)
Definition plain (s : string) : Prop :=
  allStr plainChar s = true /\ avoids "\begin{" s /\ avoids ":::{math}" s.

Lemma plainText_plain (s : string) : plainText s = true -> plain s.
Proof. apply plainText_spec. Qed.

Lemma plain_part (a b c : string) : plain (a ++ b ++ c) -> plain b.
Proof.
  intros (H1 & H2 & H3). repeat split.
  - apply allStr_suffix in H1. rewrite allStr_app in H1.
    now apply andb_true_iff in H1.
  - now apply (avoids_part _ a b c).
  - now apply (avoids_part _ a b c).
Qed.

(** The passes for the other environments. *)
Lemma amsPasses_idle (envs : list string) (s : string) (st : MathState) :
  (forall e, In e envs -> avoids (beginEnv e) s) ->
  runPasses (map amsPass envs) (s, st) = (s, st).
Proof.
  intros H. apply runPasses_idle. apply Forall_forall. intros p Hp.
  apply in_map_iff in Hp as (e & <- & He). apply amsPass_idle. now apply H.
Qed.

(** The passes before the AMS ones. *)
Definition firstPasses : list (string -> MathState -> string * MathState) :=
  [ replaceSt matchBacktickMath backtickMathBlock;
    replaceSt matchDollarLabel dollarLabelBlock ].

Lemma firstPasses_idle (s : string) (st : MathState) :
  allStr plainChar s = true -> runPasses firstPasses (s, st) = (s, st).
Proof.
  intros H. destruct (charPasses_idle s st H) as (H1 & H2 & _).
  apply runPasses_idle. repeat constructor; assumption.
Qed.

(** ** Math resolver: the order in which numbers are given *)

(** The capture groups of the successive matches of a replacement, left to
    right: the arguments of the successive calls of its callback. *)
Fixpoint matchesGo {C : Type} (m : string -> option (C * string))
  (skip : nat) (s : string) {struct s} : list C :=
  match skip with
  | S k =>
      match s with
      | "" => []
      | String _ r => matchesGo m k r
      end
  | O =>
      match m s with
      | Some (c, rest) =>
          c :: match s with
               | "" => []
               | String _ r =>
                   matchesGo m (String.length s - String.length rest - 1) r
               end
      | None =>
          match s with
          | "" => []
          | String _ r => matchesGo m 0 r
          end
      end
  end.

Definition matchesOf {C : Type} (m : string -> option (C * string)) (s : string)
  : list C := matchesGo m 0 s.

Lemma matchesGo_cons {C : Type} (m : string -> option (C * string))
  (x : ascii) (s : string) :
  matchesGo m 0 (String x s) =
  match m (String x s) with
  | Some (c, rest) =>
      c :: matchesGo m (String.length (String x s) - String.length rest - 1) s
  | None => matchesGo m 0 s
  end.
Proof. reflexivity. Qed.

(** The state after a replacement is the state after the calls of the
    callback on the matches, in the order of the text. *)
Lemma replaceGo_state {C St : Type} (m : string -> option (C * string))
  (f : C -> St -> string * St) (s : string) :
  forall skip st,
    snd (replaceGo m f skip s st) =
    fold_left (fun st c => snd (f c st)) (matchesGo m skip s) st.
Proof.
  induction s as [|x s IH]; intros skip st.
  - destruct skip; simpl; [|reflexivity].
    destruct (m "") as [[c rest]|]; [|reflexivity].
    simpl. now destruct (f c st) as [out st1].
  - destruct skip; [|apply IH].
    rewrite replaceGo_cons, matchesGo_cons.
    destruct (m (String x s)) as [[c rest]|].
    + set (n := String.length (String x s) - String.length rest).
      cbn [fold_left]. destruct (f c st) as [out st1]. cbn [snd].
      destruct n as [|k].
      * replace (0 - 1) with 0 by lia.
        rewrite <- IH. now destruct (replaceGo m f 0 s st1).
      * replace (S k - 1) with k by lia.
        rewrite <- IH. now destruct (replaceGo m f k s st1).
    + rewrite <- IH. now destruct (replaceGo m f 0 s st).
Qed.

(** The label, if any, that each callback registers for a match. *)
Definition backtickLabel (fullBody : string) : option string :=
  let label := optGet (fst (mathDirectiveLines (lines fullBody) [] [])) "label" in
  if truthy label then Some label else None.

Definition dollarLabelLabel (c : string * string) : option string := Some (snd c).

Definition amsLabel (envContent : string) : option string :=
  match findFirst (labelCommand false) envContent with
  | Some (_, label, _) => Some label
  | None => None
  end.

Definition dollarLabel (math : string) : option string :=
  match findFirst (labelCommand true) math with
  | Some (_, label, _) => if truthy label then Some label else None
  | None => None
  end.

Definition colonLabel (content : string) : option string :=
  let '(_, label, enumerated) := colonMathLines (lines content) "" "" true in
  if enumerated && truthy label then Some label else None.

Definition noLabel {C : Type} (c : C) : option string := None.

Definition registerOpt (l : option string) (st : MathState) : MathState :=
  match l with Some label => register label st | None => st end.

Definition optList (l : option string) : list string :=
  match l with Some x => [x] | None => [] end.

(** The labels one pass registers on the text it is given, left to right. *)
Definition labelsIn {C : Type} (m : string -> option (C * string))
  (labelOf : C -> option string) (text : string) : list string :=
  flat_map (fun c => optList (labelOf c)) (matchesOf m text).

(** For each pass of [mathPasses], the labels it registers. *)
Definition passLabels : list (string -> list string) :=
  ([ labelsIn matchBacktickMath backtickLabel;
     labelsIn matchDollarLabel dollarLabelLabel ] ++
   map (fun env => labelsIn (matchAms env) amsLabel) amsEnvs ++
   [ labelsIn matchDollar dollarLabel;
     labelsIn matchEqRole noLabel;
     labelsIn matchEmptyLink noLabel;
     labelsIn matchMathRole noLabel;
     labelsIn matchInlineDollar noLabel;
     labelsIn matchColonMath colonLabel ])%list.

(** The labels in the order of their registration: pass after pass, each
    pass reading the text the passes before it produced. *)
Fixpoint registrationOrder
  (ps : list ((string -> MathState -> string * MathState) * (string -> list string)))
  (acc : string * MathState) : list string :=
  match ps with
  | [] => []
  | (p, labels) :: rest =>
      (labels (fst acc) ++ registrationOrder rest (p (fst acc) (snd acc)))%list
  end.

(** [numberFrom n labels]: the registry entries of [labels] numbered
    [n], [n + 1], ... *)
Fixpoint numberFrom (n : nat) (labels : list string) : list (string * Equation) :=
  match labels with
  | [] => []
  | l :: rest => (l, {| number := n; id := l |}) :: numberFrom (S n) rest
  end.

Lemma numberFrom_app (n : nat) (a b : list string) :
  numberFrom n (a ++ b) = (numberFrom n a ++ numberFrom (n + List.length a) b)%list.
Proof.
  revert n; induction a as [|l a IH]; intros n; simpl.
  - now rewrite Nat.add_0_r.
  - rewrite IH. now replace (S n + List.length a) with (n + S (List.length a)) by lia.
Qed.

(** A state built by registrations only. *)
Definition registered (st0 : MathState) (labels : list string) (st : MathState) : Prop :=
  eqCounter st = eqCounter st0 + List.length labels /\
  equations st = (equations st0 ++ numberFrom (S (eqCounter st0)) labels)%list.

Lemma registered_refl (st : MathState) : registered st [] st.
Proof. split; simpl; [lia | now rewrite app_nil_r]. Qed.

Lemma registered_step (st0 st : MathState) (labels : list string) (l : option string) :
  registered st0 labels st ->
  registered st0 (labels ++ optList l) (registerOpt l st).
Proof.
  intros [Hc He]. destruct l as [label|]; simpl.
  - split; simpl.
    + rewrite Hc, length_app. simpl. lia.
    + unfold objSet. rewrite He, numberFrom_app, <- app_assoc. simpl.
      repeat f_equal; lia.
  - now rewrite app_nil_r.
Qed.

Lemma registered_fold {C : Type} (labelOf : C -> option string)
  (f : C -> MathState -> string * MathState) :
  (forall c st, snd (f c st) = registerOpt (labelOf c) st) ->
  forall (cs : list C) st0 labels st,
    registered st0 labels st ->
    registered st0 (labels ++ flat_map (fun c => optList (labelOf c)) cs)
      (fold_left (fun st c => snd (f c st)) cs st).
Proof.
  intros Hf. induction cs as [|c cs IH]; intros st0 labels st H; simpl.
  - now rewrite app_nil_r.
  - rewrite app_assoc. apply IH. rewrite Hf. now apply registered_step.
Qed.

Lemma pass_registered {C : Type} (m : string -> option (C * string))
  (labelOf : C -> option string) (f : C -> MathState -> string * MathState) :
  (forall c st, snd (f c st) = registerOpt (labelOf c) st) ->
  forall text st0 labels st,
    registered st0 labels st ->
    registered st0 (labels ++ labelsIn m labelOf text) (snd (replaceSt m f text st)).
Proof.
  intros Hf text st0 labels st H. unfold replaceSt, labelsIn, matchesOf.
  rewrite replaceGo_state. now apply registered_fold.
Qed.

(** What each callback does to the state. *)
Lemma backtickMathBlock_state c st :
  snd (backtickMathBlock c st) = registerOpt (backtickLabel c) st.
Proof.
  unfold backtickMathBlock, backtickLabel.
  destruct (mathDirectiveLines (lines c) [] []) as [options mathLines]. simpl.
  now destruct (truthy (optGet options "label")).
Qed.

Lemma dollarLabelBlock_state c st :
  snd (dollarLabelBlock c st) = registerOpt (dollarLabelLabel c) st.
Proof. now destruct c. Qed.

Lemma amsBlock_state env c st :
  snd (amsBlock env c st) = registerOpt (amsLabel c) st.
Proof.
  unfold amsBlock, amsLabel.
  now destruct (findFirst (labelCommand false) c) as [[[pre l] post]|].
Qed.

Lemma dollarBlock_state c st :
  snd (dollarBlock c st) = registerOpt (dollarLabel c) st.
Proof.
  unfold dollarBlock, dollarLabel.
  destruct (findFirst (labelCommand true) c) as [[[pre l] post]|]; [|reflexivity].
  now destruct (truthy l).
Qed.

Lemma eqReference_state c st : snd (eqReference c st) = registerOpt (noLabel c) st.
Proof.
  unfold eqReference. now destruct (objGet equationFields (equations st) c).
Qed.

Lemma inlineMath_state c st : snd (inlineMath c st) = registerOpt (noLabel c) st.
Proof. reflexivity. Qed.

Lemma colonMathBlock_state c st :
  snd (colonMathBlock c st) = registerOpt (colonLabel c) st.
Proof.
  unfold colonMathBlock, colonLabel.
  destruct (colonMathLines (lines c) "" "" true) as [[mathContent label] enumerated].
  now destruct (enumerated && truthy label).
Qed.

(** A pass and the scanner of its labels agree. *)
Definition passAgrees
  (pl : (string -> MathState -> string * MathState) * (string -> list string)) : Prop :=
  forall text st0 labels st,
    registered st0 labels st ->
    registered st0 (labels ++ snd pl text) (snd (fst pl text st)).

Lemma mathPasses_agree : Forall passAgrees (combine mathPasses passLabels).
Proof.
  unfold mathPasses, passLabels, amsEnvs. simpl.
  repeat constructor; unfold passAgrees, amsPass; simpl; intros;
    apply pass_registered; auto using backtickMathBlock_state,
      dollarLabelBlock_state, amsBlock_state, dollarBlock_state,
      eqReference_state, inlineMath_state, colonMathBlock_state.
Qed.

Lemma runPasses_registered ps :
  Forall passAgrees ps ->
  forall acc st0 labels,
    registered st0 labels (snd acc) ->
    registered st0 (labels ++ registrationOrder ps acc)
      (snd (runPasses (map fst ps) acc)).
Proof.
  induction 1 as [|[p sc] ps Hp Hps IH]; intros acc st0 labels H; simpl.
  - now rewrite app_nil_r.
  - rewrite app_assoc. apply IH. simpl. now apply (Hp (fst acc)).
Qed.

Lemma map_fst_combine_passes : map fst (combine mathPasses passLabels) = mathPasses.
Proof. reflexivity. Qed.

Lemma assocLast_app {V : Type} (k : string) (a b : list (string * V)) :
  assocLast k (a ++ b) =
  match assocLast k b with Some v => Some v | None => assocLast k a end.
Proof.
  induction a as [|[k' v] a IH]; simpl.
  - now destruct (assocLast k b).
  - rewrite IH. now destruct (assocLast k b).
Qed.

Lemma assocLast_numberFrom_None (l : string) (labels : list string) (n : nat) :
  ~ In l labels -> assocLast l (numberFrom n labels) = None.
Proof.
  revert n; induction labels as [|x labels IH]; intros n Hl; simpl; [reflexivity|].
  rewrite IH by (intros H; apply Hl; now right).
  destruct (String.eqb_spec x l) as [->|]; [|reflexivity].
  exfalso; apply Hl; now left.
Qed.

(** With labels all different, a label is found with the number of its
    place in the order of registration. *)
Lemma assocLast_numberFrom (labels : list string) :
  NoDup labels ->
  forall n i l, nth_error labels i = Some l ->
    assocLast l (numberFrom n labels) = Some {| number := n + i; id := l |}.
Proof.
  induction 1 as [|x labels Hx Hnd IH]; intros n i l Hi.
  - now destruct i.
  - destruct i as [|i]; simpl in Hi.
    + inversion Hi; subst. simpl.
      rewrite assocLast_numberFrom_None by assumption.
      now rewrite String.eqb_refl, Nat.add_0_r.
    + simpl. rewrite (IH (S n) i l Hi).
      f_equal. f_equal. lia.
Qed.

(** The registry of any document: the labels that the callbacks register,
    call after call, with the numbers 1, 2, ...; when the labels are all
    different, a label is looked up with the number of its place in that
    order. *)
Lemma registry_in_registration_order (content : string) :
  let st := snd (parseMystMathSt content) in
  let labels :=
    registrationOrder (combine mathPasses passLabels) (content, initialMathState) in
  equations st = numberFrom 1 labels /\
  eqCounter st = List.length labels /\
  (NoDup labels ->
   forall i l, nth_error labels i = Some l ->
     objGet equationFields (equations st) l = Own {| number := S i; id := l |}).
Proof.
  intros st labels.
  assert (H : registered initialMathState ([] ++ labels) st).
  { unfold st, labels, parseMystMathSt. rewrite <- map_fst_combine_passes at 1.
    apply runPasses_registered; [apply mathPasses_agree | apply registered_refl]. }
  clearbody st labels.
  destruct H as [Hc He]. simpl in Hc, He.
  repeat split; [assumption | assumption |].
  intros Hnd i l Hi. unfold objGet. rewrite He.
  now rewrite (assocLast_numberFrom labels Hnd 1 i l Hi).
Qed.

(** Two equations, the first written with dollars and a label suffix, the
    second as a backtick directive. *)
Definition mixedSyntaxDocument : string :=
  "$$a$$ (first)" ++ nl ++
  "```{math}" ++ nl ++ ":label: second" ++ nl ++ "b" ++ nl ++ "```".

Lemma mixedSyntaxDocument_order :
  registrationOrder (combine mathPasses passLabels)
    (mixedSyntaxDocument, initialMathState) = ["second"; "first"].
Proof. vm_compute. reflexivity. Qed.

Example mixedSyntaxDocument_lookup :
  objGet equationFields (equations (snd (parseMystMathSt mixedSyntaxDocument))) "first"
  = Own {| number := 2; id := "first" |}.
Proof.
  pose proof (proj2 (proj2 (registry_in_registration_order mixedSyntaxDocument)))
    as H.
  cbv zeta in H. rewrite mixedSyntaxDocument_order in H.
  apply (H ltac:(repeat constructor; simpl; intuition discriminate) 1 "first" eq_refl).
Qed.

(** The claim as the specification states it: the equations, listed by
    their labels in the order of the document, have the numbers 1, 2, ... *)
Definition numberedInDocumentOrder (labels : list string) (content : string) : Prop :=
  forall i l, nth_error labels i = Some l ->
    exists e,
      objGet equationFields (equations (snd (parseMystMathSt content))) l = Own e /\
      number e = S i.

Lemma mixedSyntaxDocument_first :
  objGet equationFields (equations (snd (parseMystMathSt mixedSyntaxDocument))) "first"
  = Own {| number := 2; id := "first" |}.
Proof. vm_compute. reflexivity. Qed.

(** C1 (counterexample): in [mixedSyntaxDocument] the equation [first]
    stands before the equation [second], and is given the number 2. *)
Lemma document_order_counterexample :
  ~ numberedInDocumentOrder ["first"; "second"] mixedSyntaxDocument.
Proof.
  intros H. destruct (H 0 "first" eq_refl) as (e & He & Hn).
  rewrite mixedSyntaxDocument_first in He. inversion He; subst. discriminate.
Qed.

Definition dollarsDocument : string :=
  "$$a$$ (p)" ++ nl ++ "$$b$$ (q)" ++ nl ++ "$$c$$ (r)".

Lemma dollarsDocument_registry :
  equations (snd (parseMystMathSt dollarsDocument)) = numberFrom 1 ["p"; "q"; "r"].
Proof. vm_compute. reflexivity. Qed.

(** A document in one syntax is numbered in the order of the text. *)
Example one_syntax_in_document_order :
  numberedInDocumentOrder ["p"; "q"; "r"] dollarsDocument.
Proof.
  intros i l Hi. rewrite dollarsDocument_registry.
  destruct i as [|[|[|i]]]; simpl in Hi; try (now destruct i);
    inversion Hi; subst; eexists; split; reflexivity.
Qed.

(** ** Math resolver: references *)

(** A reference to a label of the registry is a link that shows the number
    of the label; a reference to a name that is neither in the registry nor
    inherited is the pending link. *)
Lemma eqReference_found (label : string) (st : MathState) (e : Equation) :
  assocLast label (equations st) = Some e ->
  eqReference label st =
  ("<a href=" ++ quoted ("#" ++ label) ++ " class=" ++ quoted "eq-ref" ++ ">(" ++
   natToString (number e) ++ ")</a>", st).
Proof. intros H. unfold eqReference, objGet. now rewrite H. Qed.

Lemma eqReference_pending (label : string) (st : MathState) :
  objGet equationFields (equations st) label = Undefined ->
  eqReference label st =
  ("<a href=" ++ quoted ("#" ++ label) ++ " class=" ++ quoted "eq-ref eq-pending" ++
   " data-label=" ++ quoted label ++ ">(?)</a>", st).
Proof. intros H. unfold eqReference. now rewrite H. Qed.

Definition pendingLink (label : string) : string :=
  "<a href=" ++ quoted ("#" ++ label) ++ " class=" ++ quoted "eq-ref eq-pending" ++
  " data-label=" ++ quoted label ++ ">(?)</a>".

Definition numberLink (label : string) (n : nat) : string :=
  "<a href=" ++ quoted ("#" ++ label) ++ " class=" ++ quoted "eq-ref" ++ ">(" ++
  natToString n ++ ")</a>".

(** A colon-fenced equation labelled [e1], and a reference to it after. *)
Definition colonReferenceDocument : string :=
  ":::{math}" ++ nl ++ ":label: e1" ++ nl ++ "x" ++ nl ++ ":::" ++ nl ++
  "See {eq}`e1` and [](#e1)".

(** The label [e1] is defined by a colon-fenced directive before both
    references, the equation is numbered 1 and is in the registry at the
    end, and both references are rendered as pending links. *)
Example colon_label_references_document :
  parseMystMathSt colonReferenceDocument =
  (numberedBlock "e1" "x" 1 ++ nl ++
   "See " ++ pendingLink "e1" ++ " and " ++ pendingLink "e1",
   {| eqCounter := 1; equations := [("e1", {| number := 1; id := "e1" |})] |}).
Proof. vm_compute. reflexivity. Qed.

(** The four other syntaxes are resolved, before or after the reference. *)
Example other_syntaxes_resolve :
  parseMystMath
    ("{eq}`a` {eq}`b` {eq}`c` [](#d)" ++ nl ++
     "```{math}" ++ nl ++ ":label: a" ++ nl ++ "x" ++ nl ++ "```" ++ nl ++
     "$$y$$ (b)" ++ nl ++
     "\begin{align}z\label{c}\end{align}" ++ nl ++
     "$$w\label{d}$$")
  = numberLink "a" 1 ++ " " ++ numberLink "b" 2 ++ " " ++ numberLink "c" 3 ++ " " ++
    numberLink "d" 4 ++ nl ++
    numberedBlock "a" "x" 1 ++ nl ++
    numberedBlock "b" "y" 2 ++ nl ++
    "<div class=" ++ quoted "equation-block ams-env" ++ " id=" ++ quoted "c" ++ ">" ++
    "\[\begin{align}z\label{c}\end{align}\]" ++
    "<span class=" ++ quoted "equation-number" ++ ">(3)</span></div>" ++ nl ++
    numberedBlock "d" "w" 4.
Proof. vm_compute. reflexivity. Qed.

(** A name of [Object.prototype] that no equation defines is not rendered
    as a pending link either. *)
Example inherited_name_reference :
  parseMystMath "{eq}`constructor`" =
  "<a href=" ++ quoted "#constructor" ++ " class=" ++ quoted "eq-ref" ++ ">(undefined)</a>".
Proof. vm_compute. reflexivity. Qed.

(** ** Math resolver: the colon-fenced directive *)

Definition labelOptions (ls : list string) : list string :=
  flat_map (fun line => optList (matchLabelOption (trim line))) ls.

Definition enumeratedOptions (ls : list string) : list bool :=
  flat_map (fun line =>
              match matchLabelOption (trim line) with
              | Some _ => []
              | None =>
                  match matchEnumeratedOption (trim line) with
                  | Some e => [e]
                  | None => []
                  end
              end) ls.

(** The lines that are neither option, each followed by a line feed. *)
Definition mathText (ls : list string) : string :=
  String.concat ""
    (flat_map (fun line =>
                 match matchLabelOption (trim line), matchEnumeratedOption (trim line) with
                 | None, None => [line ++ nl]
                 | _, _ => []
                 end) ls).

Lemma concat_nil_app (a b : list string) :
  String.concat "" (a ++ b) = String.concat "" a ++ String.concat "" b.
Proof.
  induction a as [|x a IH]; simpl; [reflexivity|].
  destruct a as [|y a].
  - simpl. destruct b; simpl; [now rewrite append_nil_r | reflexivity].
  - simpl in *. now rewrite IH, append_assoc.
Qed.

Lemma concat_nil_cons (x : string) (l : list string) :
  String.concat "" (x :: l) = x ++ String.concat "" l.
Proof. apply (concat_nil_app [x] l). Qed.

Lemma last_cons {A : Type} (x : A) (l : list A) (d : A) :
  last (x :: l) d = last l x.
Proof.
  revert x d; induction l as [|y l IH]; intros x d; [reflexivity|].
  change (last (x :: y :: l) d) with (last (y :: l) d).
  now rewrite (IH y d), (IH y x).
Qed.

Lemma colonMathLines_spec (ls : list string) :
  forall mathContent label enumerated,
    colonMathLines ls mathContent label enumerated =
    (mathContent ++ mathText ls,
     last (labelOptions ls) label,
     last (enumeratedOptions ls) enumerated).
Proof.
  induction ls as [|line ls IH]; intros mathContent label enumerated.
  - simpl. unfold mathText. simpl. now rewrite append_nil_r.
  - cbn [colonMathLines]. unfold labelOptions, enumeratedOptions, mathText in *.
    cbn [flat_map].
    destruct (matchLabelOption (trim line)) as [l|] eqn:Hl.
    + rewrite IH. cbn [optList app]. now rewrite last_cons.
    + destruct (matchEnumeratedOption (trim line)) as [e|] eqn:He.
      * rewrite IH. cbn [optList app]. now rewrite last_cons.
      * rewrite IH. cbn [optList app].
        rewrite concat_nil_cons. now rewrite append_assoc.
Qed.

Lemma matchLabelOption_nonempty (t l : string) :
  matchLabelOption t = Some l -> l <> "".
Proof.
  unfold matchLabelOption. destruct (stripPrefix ":label:" t); [|discriminate].
  destruct (fst _) eqn:H; simpl; [discriminate|]. intros E; inversion E; congruence.
Qed.

Lemma labelOptions_all_nonempty (ls : list string) :
  Forall (fun l => l <> "") (labelOptions ls).
Proof.
  unfold labelOptions. induction ls as [|line ls IH]; simpl; [constructor|].
  destruct (matchLabelOption (trim line)) as [l|] eqn:Hl; simpl; [|assumption].
  constructor; [now apply matchLabelOption_nonempty in Hl | assumption].
Qed.

Lemma last_Forall {A : Type} (P : A -> Prop) (l : list A) (d : A) :
  Forall P l -> l <> [] -> P (last l d).
Proof.
  intros H; revert d; induction H as [|x l Hx Hl IH]; intros d; [congruence|].
  intros _. rewrite last_cons. destruct l as [|y l]; [exact Hx|].
  apply IH. discriminate.
Qed.

Lemma spacesThenLF_line (body : string) :
  match body with "" => True | String c _ => isSpace c = false end ->
  spacesThenLF (nl ++ body) = Some body.
Proof.
  intros H. unfold spacesThenLF.
  rewrite (span_app isSpace nl body eq_refl H). reflexivity.
Qed.

(** *** One colon-fenced block in a document *)

(** The block is numbered when it has a label option and the last
    [:enumerated:] option, if any, is [true]. *)
Definition colonNumbered (ls : list string) : bool :=
  match labelOptions ls with
  | [] => false
  | _ :: _ => last (enumeratedOptions ls) true
  end.

Lemma colonMathBlock_spec (content : string) (st : MathState) :
  let ls := lines content in
  let label := last (labelOptions ls) "" in
  let math := trim (mathText ls) in
  colonMathBlock content st =
  if colonNumbered ls
  then (numberedBlock label math (S (eqCounter st)), register label st)
  else (plainBlock math, st).
Proof.
  intros ls label math. unfold colonMathBlock, colonNumbered.
  rewrite colonMathLines_spec. fold ls.
  change ("" ++ mathText ls) with (mathText ls). fold math. subst label.
  pose proof (labelOptions_all_nonempty ls) as Hall.
  destruct (labelOptions ls) as [|l0 rest].
  - cbn [last truthy isEmpty negb]. now rewrite andb_false_r.
  - assert (Hn : last (l0 :: rest) "" <> "")
      by (apply (last_Forall (fun l => l <> "")); [assumption | discriminate]).
    destruct (last (l0 :: rest) ""); [congruence|].
    cbn [truthy isEmpty negb]. rewrite andb_true_r.
    now destruct (last (enumeratedOptions ls) true).
Qed.

Definition colonOpen : string := ":::{math}" ++ nl.



Lemma colonPass_in_document (pre content post : string) (st : MathState) :
  avoids ":::{math}" pre -> avoids ":::{math}" post ->
  match content with "" => True | String c _ => isSpace c = false end ->
  findSub ":::" (content ++ ":::") = Some (content, "") ->
  replaceSt matchColonMath colonMathBlock
    (pre ++ colonOpen ++ content ++ ":::" ++ post) st =
  (pre ++ fst (colonMathBlock content st) ++ post, snd (colonMathBlock content st)).
Proof.
  intros Hpre Hpost Hfirst Hend.
  assert (Hshape : colonOpen ++ content ++ ":::" ++ post =
                   (colonOpen ++ content ++ ":::") ++ post)
    by now rewrite !append_assoc.
  rewrite Hshape. apply replaceSt_block.
  - intros p q Hpq Hq. unfold matchColonMath, matchFenced. rewrite <- Hshape.
    now rewrite (overlap_none ":::{math}" "" pre colonOpen _ Hpre eq_refl p q Hpq Hq).
  - unfold matchColonMath, matchFenced, colonOpen.
    rewrite !append_assoc, stripPrefix_app.
    rewrite spacesThenLF_line; [now apply findSub_app|].
    destruct content; [reflexivity | exact Hfirst].
  - discriminate.
  - intros p q Hpq. unfold matchColonMath, matchFenced. now rewrite (Hpost p q Hpq).
Qed.

(** The passes before the colon one. *)
Definition earlierPasses : list (string -> MathState -> string * MathState) :=
  [ replaceSt matchDollar dollarBlock;
    replaceSt matchEqRole eqReference;
    replaceSt matchEmptyLink eqReference;
    replaceSt matchMathRole inlineMath;
    replaceSt matchInlineDollar inlineMath ].

Lemma mathPasses_colon_last :
  mathPasses =
  (firstPasses ++ map amsPass amsEnvs ++ earlierPasses ++
   [replaceSt matchColonMath colonMathBlock])%list.
Proof. reflexivity. Qed.







(** The whole resolver on the three cases. *)
Example colon_directive_documents :
  parseMystMathSt (":::{math}" ++ nl ++ ":label: e1" ++ nl ++ "x" ++ nl ++ ":::") =
  (numberedBlock "e1" "x" 1, register "e1" initialMathState) /\
  parseMystMathSt (":::{math}" ++ nl ++ ":label: e1" ++ nl ++ ":enumerated: false" ++ nl ++
                   "x" ++ nl ++ ":::") = (plainBlock "x", initialMathState) /\
  parseMystMathSt (":::{math}" ++ nl ++ "x" ++ nl ++ ":::") =
  (plainBlock "x", initialMathState).
Proof. repeat split; vm_compute; reflexivity. Qed.

(** With a fence of four colons the pattern starts at the second colon and
    ends at the third colon of the closing fence: a colon is left on each
    side of the block, and the numbering is the same. *)
Example quad_colon_document :
  parseMystMathSt ("::::{math}" ++ nl ++ ":label: e1" ++ nl ++ "x" ++ nl ++ "::::") =
  (":" ++ numberedBlock "e1" "x" 1 ++ ":", register "e1" initialMathState).
Proof. vm_compute. reflexivity. Qed.

(** ** Math resolver: AMS environments *)

Lemma labelCommand_Some (spaces : bool) (q l post : string) :
  labelCommand spaces q = Some (l, post) ->
  l <> "" /\
  exists ws, q = "\label" ++ ws ++ "{" ++ l ++ "}" ++ post /\
             (spaces = false -> ws = "").
Proof.
  unfold labelCommand. intros H.
  destruct (stripPrefix "\label" q) as [s1|] eqn:H1; [|discriminate].
  apply stripPrefix_Some in H1. subst q.
  assert (Hws : exists ws, s1 = ws ++ (if spaces then dropWhile isSpace s1 else s1) /\
                           (spaces = false -> ws = "")).
  { destruct spaces.
    - unfold dropWhile. pose proof (span_spec isSpace s1) as Hs.
      destruct (span isSpace s1) as [a b]. exists a. now destruct Hs as (-> & _).
    - now exists "". }
  destruct Hws as (ws & Hs1 & Hws).
  destruct (stripPrefix "{" (if spaces then dropWhile isSpace s1 else s1)) as [s2|] eqn:H2;
    [|discriminate].
  apply stripPrefix_Some in H2. rewrite H2 in Hs1.
  pose proof (span_spec (isNot "}") s2) as Hs.
  destruct (span (isNot "}") s2) as [label s3]. destruct Hs as (-> & _ & _).
  destruct label as [|x label]; [discriminate|]. simpl isEmpty in H. cbv iota in H.
  destruct (stripPrefix "}" s3) as [s4|] eqn:H4; [|discriminate].
  apply stripPrefix_Some in H4. inversion H; subst.
  split; [discriminate|]. exists ws. split; [|assumption].
  reflexivity.
Qed.

Definition amsElement (env idAttr content numberSpan : string) : string :=
  "<div class=" ++ quoted "equation-block ams-env" ++ idAttr ++ ">" ++
  "\[" ++ beginEnv env ++ content ++ endEnv env ++ "\]" ++
  numberSpan ++ "</div>".

Definition numberSpanOf (n : nat) : string :=
  "<span class=" ++ quoted "equation-number" ++ ">(" ++ natToString n ++ ")</span>".

(** The environments of the resolver, as they are written in a document. *)
Example amsEnvs_clean :
  map beginEnv amsEnvs =
  [ "\begin{equation}"; "\begin{equation*}"; "\begin{align}"; "\begin{align*}";
    "\begin{gather}"; "\begin{gather*}"; "\begin{multline}"; "\begin{multline*}";
    "\begin{alignat}"; "\begin{alignat*}"; "\begin{split}" ] /\
  map endEnv amsEnvs =
  [ "\end{equation}"; "\end{equation*}"; "\end{align}"; "\end{align*}";
    "\end{gather}"; "\end{gather*}"; "\end{multline}"; "\end{multline*}";
    "\end{alignat}"; "\end{alignat*}"; "\end{split}" ].
Proof. split; reflexivity. Qed.

(** *** One AMS block in a document *)

(** The parts of the element that are written out by the callback, with
    and without a label. *)
Definition elementOpen : string := "<div class=" ++ quoted "equation-block ams-env".

Definition plainOpen (env : string) : string :=
  elementOpen ++ ">" ++ "\[" ++ beginEnv env.

Definition plainClose (env : string) : string := endEnv env ++ "\]" ++ "</div>".

Definition labelledOpen : string := elementOpen ++ " id=" ++ dq.

Definition labelledMiddle (env : string) : string :=
  dq ++ ">" ++ "\[" ++ beginEnv env.

Definition numberedClose (env : string) (n : nat) : string :=
  endEnv env ++ "\]" ++ numberSpanOf n ++ "</div>".

Lemma element_plain (env c post : string) :
  amsElement env "" c "" ++ post =
  plainOpen env ++ c ++ plainClose env ++ post.
Proof.
  unfold amsElement, plainOpen, plainClose. now rewrite !append_assoc.
Qed.

Lemma element_labelled (env l c post : string) (n : nat) :
  amsElement env (" id=" ++ quoted l) c (numberSpanOf n) ++ post =
  labelledOpen ++ l ++ labelledMiddle env ++ c ++ numberedClose env n ++ post.
Proof.
  unfold amsElement, labelledOpen, labelledMiddle, numberedClose, quoted.
  now rewrite !append_assoc.
Qed.

Definition writtenParts (env : string) : list string :=
  [ beginEnv env; endEnv env; plainOpen env; plainClose env;
    labelledOpen; labelledMiddle env; numberedClose env 1 ].

(** No occurrence of [L] starts in a written part, or goes on into one from
    a text that avoids [N]. *)
Definition quiet (N L env : string) : bool :=
  forallb (fun x => noOverlap N L x && clearOf L x) (writtenParts env).

Fixpoint envsBefore (env : string) (l : list string) : list string :=
  match l with
  | [] => []
  | e :: rest => if String.eqb e env then [] else e :: envsBefore env rest
  end.

Fixpoint envsAfter (env : string) (l : list string) : list string :=
  match l with
  | [] => []
  | e :: rest => if String.eqb e env then rest else envsAfter env rest
  end.

(** What is to be checked on the written parts, for one environment: the
    other environments and the colon directive are quiet, the parts hold
    plain characters only, and the opening command does not overlap
    itself. *)
Definition amsTable (env : string) : bool :=
  forallb (fun e => quiet "\begin{" (beginEnv e) env)
    (envsBefore env amsEnvs ++ envsAfter env amsEnvs)
  && quiet ":::{math}" ":::{math}" env
  && forallb (allStr plainChar) (writtenParts env)
  && noOverlap "\begin{" (beginEnv env) (beginEnv env).

Lemma amsTable_ok (env : string) :
  In env amsEnvs ->
  amsEnvs = (envsBefore env amsEnvs ++ env :: envsAfter env amsEnvs)%list /\
  amsTable env = true.
Proof.
  intros H. unfold amsEnvs in H. simpl in H.
  repeat (destruct H as [<- | H]; [split; [reflexivity | vm_compute; reflexivity] |]).
  contradiction.
Qed.

(** A text woven from written parts of the element and plain parts. *)
Definition wovenFrom (env : string) (parts : list (string * string)) : Prop :=
  Forall (fun xs => In (fst xs) (writtenParts env) /\ plain (snd xs)) parts.

Lemma woven_avoids (N L' env first : string) (parts : list (string * string)) :
  quiet N (N ++ L') env = true ->
  avoids N first ->
  Forall (fun xs => In (fst xs) (writtenParts env) /\ avoids N (snd xs)) parts ->
  avoids (N ++ L') (weave first parts).
Proof.
  intros Hq Hfirst Hparts. apply avoids_weave; [assumption|].
  unfold quiet in Hq. rewrite forallb_forall in Hq.
  revert Hparts. apply Forall_impl. intros [x s] [Hx Hs]. split; [|assumption].
  now apply Hq.
Qed.

Lemma woven_idle (env first : string) (parts : list (string * string)) :
  amsTable env = true -> plain first -> wovenFrom env parts ->
  let s := weave first parts in
  allStr plainChar s = true /\
  (forall e, In e (envsBefore env amsEnvs ++ envsAfter env amsEnvs) ->
             avoids (beginEnv e) s) /\
  avoids ":::{math}" s.
Proof.
  intros Htable (Hf1 & Hf2 & Hf3) Hparts s. unfold amsTable in Htable.
  apply andb_true_iff in Htable as [Htable _].
  apply andb_true_iff in Htable as [Htable Hchars].
  apply andb_true_iff in Htable as [Hothers Hcolon].
  rewrite forallb_forall in Hothers, Hchars.
  split; [|split].
  - apply allStr_weave; [assumption|].
    revert Hparts. apply Forall_impl. intros [x t] [Hx (Ht & _)].
    split; [now apply Hchars | assumption].
  - intros e He. apply (woven_avoids "\begin{" (cleanEnv e ++ "}") env);
      [now apply Hothers | assumption |].
    revert Hparts. apply Forall_impl. intros [x t] [Hx (_ & Ht & _)]. now split.
  - apply (woven_avoids ":::{math}" "" env);
      [exact Hcolon | assumption |].
    revert Hparts. apply Forall_impl. intros [x t] [Hx (_ & _ & Ht)]. now split.
Qed.

Ltac woven :=
  unfold wovenFrom;
  repeat (apply Forall_cons;
          [split; [unfold writtenParts; cbn [In fst]; auto 10 | cbn [snd]; assumption]|]);
  apply Forall_nil.

(** The pass of the environment on its block, in a document. *)
Lemma amsPass_in_document (env pre c post : string) (st : MathState) :
  noOverlap "\begin{" (beginEnv env) (beginEnv env) = true ->
  avoids "\begin{" pre -> avoids "\begin{" post ->
  findSub (endEnv env) (c ++ endEnv env) = Some (c, "") ->
  amsPass env (pre ++ beginEnv env ++ c ++ endEnv env ++ post) st =
  (pre ++ fst (amsBlock env c st) ++ post, snd (amsBlock env c st)).
Proof.
  intros Hself Hpre Hpost Hend. unfold amsPass.
  assert (Hshape : beginEnv env ++ c ++ endEnv env ++ post =
                   (beginEnv env ++ c ++ endEnv env) ++ post)
    by now rewrite !append_assoc.
  rewrite Hshape. apply replaceSt_block.
  - intros p q Hpq Hq. unfold matchAms. rewrite <- Hshape.
    now rewrite (overlap_none "\begin{" (cleanEnv env ++ "}") pre (beginEnv env) _
                   Hpre Hself p q Hpq Hq).
  - unfold matchAms. rewrite <- Hshape, stripPrefix_app.
    now apply findSub_app.
  - unfold beginEnv. discriminate.
  - intros p q Hpq. unfold matchAms, beginEnv.
    now rewrite (stripPrefix_longer "\begin{" (cleanEnv env ++ "}") q (Hpost p q Hpq)).
Qed.

(** What the callback makes of the content of a block. *)
Lemma amsBlock_spec (env c : string) (st : MathState) :
  amsBlock env c st =
  match amsLabel c with
  | Some l => (amsElement env (" id=" ++ quoted l) c (numberSpanOf (S (eqCounter st))),
               register l st)
  | None => (amsElement env "" c "", st)
  end.
Proof.
  unfold amsLabel, amsBlock, amsElement, numberSpanOf.
  destruct (findFirst (labelCommand false) c) as [[[pre l] post]|] eqn:Hf;
    [|reflexivity].
  apply findFirst_Some in Hf as (q & Hc & Hq).
  apply labelCommand_Some in Hq as (Hl & ws & Hq & Hws).
  rewrite (Hws eq_refl) in Hq. simpl in Hq.
  assert (Hcontent : pre ++ ("\label{" ++ l ++ "}") ++ post = c).
  { rewrite Hc, Hq. simpl. now rewrite !append_assoc. }
  rewrite Hcontent.
  destruct l as [|x l]; [congruence|]. reflexivity.
Qed.

(** The label of a block is a part of its content. *)
Lemma amsLabel_part (c l : string) :
  amsLabel c = Some l -> exists a b, c = a ++ l ++ b.
Proof.
  unfold amsLabel.
  destruct (findFirst (labelCommand false) c) as [[[pre l'] post]|] eqn:Hf;
    [|discriminate].
  intros E. inversion E; subst l'.
  apply findFirst_Some in Hf as (q & Hc & Hq).
  apply labelCommand_Some in Hq as (_ & ws & Hq & _).
  exists (pre ++ "\label" ++ ws ++ "{"), ("}" ++ post).
  rewrite Hc, Hq. now rewrite !append_assoc.
Qed.

(** The passes after the AMS ones. *)
Definition laterPasses : list (string -> MathState -> string * MathState) :=
  [ replaceSt matchDollar dollarBlock;
    replaceSt matchEqRole eqReference;
    replaceSt matchEmptyLink eqReference;
    replaceSt matchMathRole inlineMath;
    replaceSt matchInlineDollar inlineMath;
    replaceSt matchColonMath colonMathBlock ].

Lemma mathPasses_split (env : string) :
  In env amsEnvs ->
  mathPasses =
  (firstPasses ++ map amsPass (envsBefore env amsEnvs) ++
   [amsPass env] ++ map amsPass (envsAfter env amsEnvs) ++ laterPasses)%list.
Proof.
  intros H. destruct (amsTable_ok env H) as [Hsplit _].
  unfold mathPasses. rewrite Hsplit at 1. rewrite map_app. cbn [map].
  now rewrite <- !app_assoc.
Qed.

Lemma laterPasses_idle (s : string) (st : MathState) :
  allStr plainChar s = true -> avoids ":::{math}" s ->
  runPasses laterPasses (s, st) = (s, st).
Proof.
  intros H Hc. destruct (charPasses_idle s st H) as (_ & _ & H3 & H4 & H5 & H6 & H7).
  apply runPasses_idle. repeat constructor; try assumption.
  now apply colonPass_idle.
Qed.

(** C8 (as amended): for each environment of [amsEnvs], that is equation,
    align, gather, multline, alignat, their starred forms, and split
    without a starred form, the resolver turns a block
    [\begin{env} c \end{env}] of a document into an equation-block element
    around the same block and leaves the text around it as it is; the
    first [\label{l}] command inside, if any, gives the element its id and
    its number and enters [l] in the registry, and without such a command
    the element has neither and the registry stays empty.  The text
    before, inside and after the block holds no other math of the
    resolver. *)
Theorem ams_environment_block (env pre c post : string) :
  In env amsEnvs ->
  plainText pre = true -> plainText c = true -> plainText post = true ->
  findSub (endEnv env) (c ++ endEnv env) = Some (c, "") ->
  parseMystMathSt (pre ++ beginEnv env ++ c ++ endEnv env ++ post) =
  match amsLabel c with
  | Some l =>
      (pre ++ amsElement env (" id=" ++ quoted l) c (numberSpanOf 1) ++ post,
       register l initialMathState)
  | None => (pre ++ amsElement env "" c "" ++ post, initialMathState)
  end.
Proof.
  intros Henv Hpre Hc Hpost Hend.
  apply plainText_plain in Hpre, Hc, Hpost.
  destruct (amsTable_ok env Henv) as [_ Htable].
  assert (Hself : noOverlap "\begin{" (beginEnv env) (beginEnv env) = true)
    by (unfold amsTable in Htable; now apply andb_true_iff in Htable).
  (* the document, before the pass of the environment *)
  destruct (woven_idle env pre [(beginEnv env, c); (endEnv env, post)] Htable Hpre)
    as (Hd1 & Hd2 & _).
  { woven. }
  cbn [weave] in Hd1, Hd2.
  unfold parseMystMathSt. rewrite (mathPasses_split env Henv), !runPasses_app.
  rewrite firstPasses_idle by assumption.
  rewrite amsPasses_idle
    by (intros e He; apply Hd2, in_or_app; now left).
  cbn [runPasses fold_left fst snd].
  rewrite amsPass_in_document; try assumption; [|apply Hpre|apply Hpost].
  fold (runPasses (map amsPass (envsAfter env amsEnvs))).
  rewrite amsBlock_spec. change (S (eqCounter initialMathState)) with 1.
  destruct (amsLabel c) as [l|] eqn:Hl; cbn [fst snd].
  - destruct (amsLabel_part c l Hl) as (a & b & Hab).
    assert (Hlp : plain l) by (rewrite Hab in Hc; now apply plain_part in Hc).
    rewrite element_labelled.
    destruct (woven_idle env pre
                [(labelledOpen, l); (labelledMiddle env, c); (numberedClose env 1, post)]
                Htable Hpre) as (Hr1 & Hr2 & Hr3).
    { woven. }
    cbn [weave] in Hr1, Hr2, Hr3.
    rewrite amsPasses_idle
      by (intros e He; apply Hr2, in_or_app; now right).
    now apply laterPasses_idle.
  - rewrite element_plain.
    destruct (woven_idle env pre [(plainOpen env, c); (plainClose env, post)]
                Htable Hpre) as (Hr1 & Hr2 & Hr3).
    { woven. }
    cbn [weave] in Hr1, Hr2, Hr3.
    rewrite amsPasses_idle
      by (intros e He; apply Hr2, in_or_app; now right).
    now apply laterPasses_idle.
Qed.

Lemma ams_environment_block_witness :
  parseMystMathSt
    ("Energy: " ++ "\begin{align*}" ++ "E &= mc^2 \label{eq:energy}" ++ "\end{align*}" ++
     " as stated.")
  = ("Energy: " ++
     amsElement "align\*" (" id=" ++ quoted "eq:energy")
       "E &= mc^2 \label{eq:energy}" (numberSpanOf 1) ++
     " as stated.",
     register "eq:energy" initialMathState).
Proof.
  apply (ams_environment_block "align\*" "Energy: " "E &= mc^2 \label{eq:energy}"
           " as stated.");
    [simpl; tauto | reflexivity | reflexivity | reflexivity | reflexivity].
Defined.

(** The whole resolver on each environment of the list. *)
Example ams_environments_documents :
  forallb
    (fun env =>
       String.eqb
         (parseMystMath (beginEnv env ++ "x" ++ endEnv env))
         (amsElement env "" "x" "") &&
       String.eqb
         (parseMystMath (beginEnv env ++ "\label{l}x" ++ endEnv env))
         (amsElement env (" id=" ++ quoted "l") "\label{l}x" (numberSpanOf 1)))
    amsEnvs = true.
Proof. vm_compute. reflexivity. Qed.

(** C8 (counterexample): [split*] is a starred form of an environment of
    the claim, and the resolver leaves its block as it is. *)
Lemma starred_split_counterexample :
  parseMystMath "\begin{split*}x\label{l}\end{split*}" =
  "\begin{split*}x\label{l}\end{split*}" /\
  snd (parseMystMathSt "\begin{split*}x\label{l}\end{split*}") = initialMathState.
Proof. split; vm_compute; reflexivity. Qed.

(** ** Math resolver: a reference to a colon-fenced equation *)

(** No occurrence of [L] starts at [q], an end of a written part, when the
    text after [q] starts with a character of the class [g]: either [q] is
    not compatible with [L], or [L] goes on after [q] with a character
    outside the class. *)
Definition endClear (g : ascii -> bool) (L q : string) : bool :=
  if compatible L q then
    match stripPrefix q L with
    | Some (String c _) => negb (g c)
    | _ => false
    end
  else true.

Fixpoint clearThen (g : ascii -> bool) (L x : string) : bool :=
  match x with
  | "" => true
  | String _ x' => endClear g L x && clearThen g L x'
  end.

Definition startsIn (g : ascii -> bool) (t : string) : Prop :=
  match t with
  | "" => True
  | String c _ => g c = true
  end.

Lemma stripPrefix_same (q a b : string) :
  stripPrefix (q ++ a) (q ++ b) = stripPrefix a b.
Proof. induction q as [|c q IH]; simpl; [reflexivity|]. now rewrite Ascii.eqb_refl. Qed.

Lemma endClear_spec (g : ascii -> bool) (L q t : string) :
  endClear g L q = true -> startsIn g t -> stripPrefix L (q ++ t) = None.
Proof.
  unfold endClear. intros H Ht.
  destruct (compatible L q) eqn:Hc; [|now apply stripPrefix_compatible].
  destruct (stripPrefix q L) as [[|c L3]|] eqn:HL; try discriminate.
  apply stripPrefix_Some in HL. subst L. rewrite stripPrefix_same.
  destruct t as [|c' t]; [reflexivity|]. simpl in Ht |- *.
  destruct (Ascii.eqb_spec c c') as [->|]; [|reflexivity].
  rewrite Ht in H. discriminate.
Qed.

(** A text of the class, not empty, starts in the class whatever follows. *)
Lemma startsIn_app (g : ascii -> bool) (s r : string) :
  s <> "" -> allStr g s = true -> startsIn g (s ++ r).
Proof.
  intros Hne H. destruct s as [|c s]; [congruence|]. simpl in H |- *.
  now apply andb_true_iff in H.
Qed.

Lemma startsIn_all (g : ascii -> bool) (s : string) :
  allStr g s = true -> startsIn g s.
Proof.
  intros H. destruct s as [|c s]; [exact I|]. simpl in H |- *.
  now apply andb_true_iff in H.
Qed.

(** No occurrence of [L] starts in [a] when [b] follows. *)
Definition clearBefore (L a b : string) : Prop :=
  forall p q, a = p ++ q -> q <> "" -> stripPrefix L (q ++ b) = None.

Lemma clearBefore_app (L a1 a2 b : string) :
  clearBefore L a1 (a2 ++ b) -> clearBefore L a2 b -> clearBefore L (a1 ++ a2) b.
Proof.
  intros H1 H2. induction a1 as [|x a1 IH]; [exact H2|].
  assert (IH' : clearBefore L (a1 ++ a2) b).
  { apply IH. intros p q -> Hq. now apply (H1 (String x p) q). }
  intros p q Hpq Hq. destruct p as [|y p]; simpl in Hpq.
  - subst q. change (String x (a1 ++ a2)) with (String x a1 ++ a2).
    rewrite append_assoc. apply (H1 "" (String x a1)); [reflexivity | discriminate].
  - inversion Hpq as [[Hy E]]. now apply (IH' p q).
Qed.

Lemma clearBefore_written (L x b : string) : clearOf L x = true -> clearBefore L x b.
Proof. intros H p q. now apply clearOf_spec. Qed.

Lemma clearBefore_then (g : ascii -> bool) (L x t : string) :
  clearThen g L x = true -> startsIn g t -> clearBefore L x t.
Proof.
  intros H Ht. induction x as [|c x IH]; intros p q Hpq Hq.
  - destruct p, q; simpl in Hpq; congruence.
  - cbn [clearThen] in H. apply andb_true_iff in H as [Hc Hx].
    destruct p as [|y p]; simpl in Hpq.
    + subst q. now apply (endClear_spec g).
    + inversion Hpq; subst. now apply (IH Hx p q).
Qed.

Lemma clearBefore_weave (N L' : string) (parts : list (string * string)) :
  forall first x r, avoids N first ->
  Forall (fun xs => (noOverlap N (N ++ L') (fst xs) && clearOf (N ++ L') (fst xs) = true)
                    /\ avoids N (snd xs)) parts ->
  noOverlap N (N ++ L') x = true ->
  clearBefore (N ++ L') (weave first parts) (x ++ r).
Proof.
  induction parts as [|[x1 s] parts IH]; intros first x r Hfirst Hparts Hx.
  - intros p q. now apply overlap_none.
  - inversion Hparts as [|? ? (Hx1 & Hs) Hrest]; subst. cbn [weave].
    cbn [fst snd] in Hx1, Hs. apply andb_true_iff in Hx1 as [Ho Hc].
    apply clearBefore_app.
    + rewrite append_assoc. intros p q. now apply overlap_none.
    + apply clearBefore_app; [now apply clearBefore_written | now apply IH].
Qed.

(** The passes on texts without dollar, and without backtick. *)
Lemma dollarPasses_idle (s : string) (st : MathState) :
  allStr (isNot "$") s = true ->
  replaceSt matchDollarLabel dollarLabelBlock s st = (s, st) /\
  replaceSt matchDollar dollarBlock s st = (s, st) /\
  replaceSt matchInlineDollar inlineMath s st = (s, st).
Proof.
  intros H.
  repeat split; apply (replaceSt_chars _ _ (isNot "$")); try assumption; intros q Hq.
  - unfold matchDollarLabel. now rewrite (stripPrefix_allStr (isNot "$") "$$" q eq_refl Hq).
  - unfold matchDollar. now rewrite (stripPrefix_allStr (isNot "$") "$$" q eq_refl Hq).
  - unfold matchInlineDollar.
    now rewrite (stripPrefix_allStr (isNot "$") "$" q eq_refl Hq).
Qed.

Lemma mathRolePass_idle (s : string) (st : MathState) :
  allStr (isNot "`") s = true -> replaceSt matchMathRole inlineMath s st = (s, st).
Proof.
  intros H. apply (replaceSt_chars _ _ (isNot "`")); [|assumption].
  intros q Hq. unfold matchMathRole.
  destruct (stripPrefix "{math" q) as [s1|] eqn:E1; [|reflexivity].
  apply stripPrefix_Some in E1. subst q. apply allStr_suffix in Hq.
  pose proof (span_spec (isNot "}") s1) as Hs.
  destruct (span (isNot "}") s1) as [arg s2]. destruct Hs as (-> & _ & _).
  apply allStr_suffix in Hq.
  rewrite (matchDelimited_chars (isNot "`") "}`" "`" s2 eq_refl Hq).
  now destruct arg as [|? [|? ?]]; [| |destruct (isSpace _)].
Qed.

Lemma plainChar_classes (s : string) :
  allStr plainChar s = true ->
  allStr (isNot "$") s = true /\ allStr (isNot "`") s = true /\
  allStr (isNot "#") s = true.
Proof.
  intros H. repeat split; revert H; apply allStr_impl; intros c Hc;
    unfold plainChar in Hc; apply andb_true_iff in Hc as [Hc H3];
    apply andb_true_iff in Hc as [H1 H2]; assumption.
Qed.

(** The pending link, in its written parts around the label. *)
Definition linkOpen : string := "<a href=" ++ dq ++ "#".
Definition linkMiddle : string :=
  dq ++ " class=" ++ quoted "eq-ref eq-pending" ++ " data-label=" ++ dq.
Definition linkClose : string := dq ++ ">(?)</a>".

Lemma pendingLink_parts (label rest : string) :
  pendingLink label ++ rest =
  linkOpen ++ label ++ linkMiddle ++ label ++ linkClose ++ rest.
Proof.
  unfold pendingLink, linkOpen, linkMiddle, linkClose, quoted.
  now rewrite !append_assoc.
Qed.

Lemma avoids_char (c : ascii) (s : string) :
  allStr (isNot c) s = true -> avoids (String c "") s.
Proof.
  intros H p q ->. apply allStr_suffix in H.
  apply (stripPrefix_allStr (isNot c)); [|assumption].
  simpl. unfold isNot. now rewrite Ascii.eqb_refl.
Qed.

(** A text without a character of [L] avoids [L]. *)
Lemma avoids_chars (g : ascii -> bool) (L s : string) :
  allStr g L = false -> allStr g s = true -> avoids L s.
Proof.
  intros HL H p q ->. apply allStr_suffix in H. now apply (stripPrefix_allStr g).
Qed.

(** What the patterns of the passes are checked against: the written parts
    of the document, which are the two fences and the two ends of the
    reference, and of its rendering, where the parts of the link stand for
    the reference. *)
Definition documentParts : list string := [ colonOpen; ":::"; "{eq}`"; "`" ].

Definition linkParts : list string := [ linkOpen; linkMiddle; linkClose ].

Definition renderedParts : list string := ([ colonOpen; ":::" ] ++ linkParts)%list.

Definition silent (N L : string) (parts : list string) : bool :=
  forallb (fun x => noOverlap N L x && clearOf L x) parts.

Definition referenceTable : bool :=
  forallb (fun e => silent "\begin{" (beginEnv e) documentParts) amsEnvs
  && silent "{eq}`" "{eq}`" [colonOpen; ":::"]
  && noOverlap "{eq}`" "{eq}`" "{eq}`"
  && silent "[](#" "[](#" renderedParts
  && silent ":::{math}" ":::{math}" linkParts
  && forallb (allStr (isNot "$")) (documentParts ++ renderedParts)
  && forallb (allStr (isNot "`")) renderedParts.

Lemma referenceTable_ok : referenceTable = true.
Proof. vm_compute. reflexivity. Qed.

Lemma silent_parts (N L' first : string) (parts : list (string * string)) :
  silent N (N ++ L') (map fst parts) = true ->
  avoids N first -> Forall (fun s => avoids N s) (map snd parts) ->
  avoids (N ++ L') (weave first parts).
Proof.
  intros Hs Hfirst Hparts. apply avoids_weave; [assumption|].
  unfold silent in Hs. rewrite forallb_forall in Hs. rewrite Forall_forall in Hparts.
  apply Forall_forall. intros [x t] Hin. cbn [fst snd]. split.
  - apply Hs. now apply (in_map fst) in Hin.
  - apply Hparts. now apply (in_map snd) in Hin.
Qed.

Lemma chars_parts (g : ascii -> bool) (first : string) (parts : list (string * string)) :
  forallb (allStr g) (map fst parts) = true ->
  allStr g first = true -> Forall (fun s => allStr g s = true) (map snd parts) ->
  allStr g (weave first parts) = true.
Proof.
  intros Hs Hfirst Hparts. apply allStr_weave; [assumption|].
  rewrite forallb_forall in Hs. rewrite Forall_forall in Hparts.
  apply Forall_forall. intros [x t] Hin. cbn [fst snd]. split.
  - apply Hs. now apply (in_map fst) in Hin.
  - apply Hparts. now apply (in_map snd) in Hin.
Qed.

(** What a plain text avoids. *)
Lemma plain_all (s : string) :
  plain s ->
  allStr (isNot "$") s = true /\ allStr (isNot "`") s = true /\
  avoids "\begin{" s /\ avoids ":::{math}" s /\
  avoids "`" s /\ avoids "{eq}`" s /\ avoids "[](#" s.
Proof.
  intros (Hc & Hb & Hm).
  destruct (plainChar_classes s Hc) as (H1 & H2 & H3).
  repeat split; try assumption.
  - now apply avoids_char.
  - now apply (avoids_chars (isNot "`")).
  - now apply (avoids_chars (isNot "#")).
Qed.

Section ReferenceToColonLabel.

Variables pre content mid label post : string.

Hypothesis plain_pre : plain pre.
Hypothesis plain_content : plain content.
Hypothesis plain_mid : plain mid.
Hypothesis plain_label : plain label.
Hypothesis plain_post : plain post.
Hypothesis label_not_empty : label <> "".

(** The document: a colon-fenced block, and a reference after it. *)
Definition referenceDocument : string :=
  pre ++ colonOpen ++ content ++ ":::" ++ mid ++ "{eq}`" ++ label ++ "`" ++ post.

(** The document with [link] in place of the reference. *)
Definition referenceRendered (link : string) : string :=
  pre ++ colonOpen ++ content ++ ":::" ++ mid ++ link ++ post.

Let documentWoven : list (string * string) :=
  [(colonOpen, content); (":::", mid); ("{eq}`", label); ("`", post)].

Let renderedWoven : list (string * string) :=
  [(colonOpen, content); (":::", mid); (linkOpen, label); (linkMiddle, label);
   (linkClose, post)].

Let linkWoven : list (string * string) :=
  [(linkOpen, label); (linkMiddle, label); (linkClose, post)].

Lemma rendered_pending :
  referenceRendered (pendingLink label) = weave pre renderedWoven.
Proof using.
  unfold referenceRendered. rewrite pendingLink_parts. reflexivity.
Qed.

Ltac facts :=
  destruct (plain_all _ plain_pre) as (? & ? & ? & ? & ? & ? & ?);
  destruct (plain_all _ plain_content) as (? & ? & ? & ? & ? & ? & ?);
  destruct (plain_all _ plain_mid) as (? & ? & ? & ? & ? & ? & ?);
  destruct (plain_all _ plain_label) as (? & ? & ? & ? & ? & ? & ?);
  destruct (plain_all _ plain_post) as (? & ? & ? & ? & ? & ? & ?).

Ltac table :=
  let T := fresh "T" in
  pose proof referenceTable_ok as T; unfold referenceTable in T;
  do 6 (let H := fresh "T" in apply andb_true_iff in T as [T H]).

Ltac each_part :=
  cbn [map fst snd]; repeat (apply Forall_cons; [assumption|]); apply Forall_nil.

Lemma document_dollar : allStr (isNot "$") referenceDocument = true.
Proof using plain_pre plain_content plain_mid plain_label plain_post.
  facts. table.
  match goal with
  | H : forallb (allStr (isNot "$")) _ = true |- _ =>
      rewrite forallb_app in H; apply andb_true_iff in H as [H _];
      apply (chars_parts _ pre documentWoven); [exact H | assumption | each_part]
  end.
Qed.

Lemma rendered_dollar :
  allStr (isNot "$") (referenceRendered (pendingLink label)) = true.
Proof using plain_pre plain_content plain_mid plain_label plain_post.
  facts. table. rewrite rendered_pending.
  match goal with
  | H : forallb (allStr (isNot "$")) _ = true |- _ =>
      rewrite forallb_app in H; apply andb_true_iff in H as [_ H];
      apply (chars_parts _ pre renderedWoven); [exact H | assumption | each_part]
  end.
Qed.

Lemma rendered_backtick :
  allStr (isNot "`") (referenceRendered (pendingLink label)) = true.
Proof using plain_pre plain_content plain_mid plain_label plain_post.
  facts. table. rewrite rendered_pending.
  match goal with
  | H : forallb (allStr (isNot "`")) _ = true |- _ =>
      apply (chars_parts _ pre renderedWoven); [exact H | assumption | each_part]
  end.
Qed.

(** The pattern of the backtick directive needs three backticks in a row;
    those of the document stand alone. *)
Lemma document_backtickMath : avoids "```{math}" referenceDocument.
Proof using plain_pre plain_content plain_mid plain_label plain_post label_not_empty.
  facts. unfold referenceDocument.
  apply (avoids_before "`" "``{math}"); [assumption | reflexivity |].
  apply avoids_written; [reflexivity|].
  apply (avoids_before "`" "``{math}"); [assumption | reflexivity |].
  apply avoids_written; [reflexivity|].
  apply (avoids_before "`" "``{math}"); [assumption | reflexivity |].
  apply avoids_app;
    [apply (clearBefore_then (isNot "`")); [reflexivity | now apply startsIn_app]|].
  apply (avoids_before "`" "``{math}"); [assumption | reflexivity |].
  apply avoids_app;
    [apply (clearBefore_then (isNot "`")); [reflexivity | now apply startsIn_all]|].
  now apply (avoids_last "`" "``{math}").
Qed.

Lemma document_ams (e : string) :
  In e amsEnvs -> avoids (beginEnv e) referenceDocument.
Proof using plain_pre plain_content plain_mid plain_label plain_post.
  intros He. facts. table.
  match goal with
  | H : forallb (fun e => silent "\begin{" (beginEnv e) documentParts) amsEnvs = true |- _ =>
      rewrite forallb_forall in H; specialize (H e He);
      apply (silent_parts "\begin{" (cleanEnv e ++ "}") pre documentWoven);
      [exact H | assumption | each_part]
  end.
Qed.

(** The passes before the reference passes leave the document as it is. *)
Lemma document_before (st : MathState) :
  runPasses (firstPasses ++ map amsPass amsEnvs) (referenceDocument, st)
  = (referenceDocument, st) /\
  replaceSt matchDollar dollarBlock referenceDocument st = (referenceDocument, st).
Proof using plain_pre plain_content plain_mid plain_label plain_post label_not_empty.
  destruct (dollarPasses_idle referenceDocument st document_dollar) as (H2 & H4 & _).
  split; [|exact H4].
  rewrite runPasses_app.
  assert (H1 : runPasses firstPasses (referenceDocument, st) = (referenceDocument, st)).
  { apply runPasses_idle. repeat constructor; [|exact H2].
    apply (replaceSt_avoids _ _ "```{math}"); [|exact document_backtickMath].
    intros q Hq. unfold matchBacktickMath, matchFenced. now rewrite Hq. }
  rewrite H1. apply amsPasses_idle. exact document_ams.
Qed.

(** The reference pass replaces the reference, in the state it is given. *)
Lemma document_reference (st : MathState) :
  replaceSt matchEqRole eqReference referenceDocument st =
  (referenceRendered (fst (eqReference label st)), snd (eqReference label st)).
Proof using plain_pre plain_content plain_mid plain_label plain_post label_not_empty.
  facts. table.
  assert (Hshape : forall tail,
             pre ++ colonOpen ++ content ++ ":::" ++ mid ++ tail =
             weave pre [(colonOpen, content); (":::", mid)] ++ tail)
    by (intros tail; cbn [weave]; now rewrite !append_assoc).
  unfold referenceDocument, referenceRendered. rewrite !Hshape.
  assert (Hblock : "{eq}`" ++ label ++ "`" ++ post = ("{eq}`" ++ label ++ "`") ++ post)
    by now rewrite !append_assoc.
  rewrite Hblock. apply replaceSt_block.
  - intros p q Hpq Hq. unfold matchEqRole, matchDelimited. rewrite <- Hblock.
    assert (Hclear : clearBefore "{eq}`" (weave pre [(colonOpen, content); (":::", mid)])
                       ("{eq}`" ++ label ++ "`" ++ post)).
    { match goal with
      | H : silent "{eq}`" "{eq}`" _ = true,
        H' : noOverlap "{eq}`" "{eq}`" "{eq}`" = true |- _ =>
          unfold silent in H; rewrite forallb_forall in H;
          apply (clearBefore_weave "{eq}`" ""); [assumption | | exact H'];
          repeat (apply Forall_cons;
                  [split; [apply H; cbn; tauto | cbn [snd]; assumption]|]);
          apply Forall_nil
      end. }
    now rewrite (Hclear p q Hpq Hq).
  - unfold matchEqRole, matchDelimited. rewrite <- Hblock, stripPrefix_app.
    rewrite (span_app (isNot "`") label ("`" ++ post)) by (assumption || reflexivity).
    destruct label; [congruence | reflexivity].
  - discriminate.
  - intros p q Hpq. unfold matchEqRole, matchDelimited.
    match goal with
    | H : avoids "{eq}`" post |- _ => now rewrite (H p q Hpq)
    end.
Qed.

(** The passes after it leave the rendered reference as it is. *)
Lemma rendered_idle (st : MathState) :
  let r := referenceRendered (pendingLink label) in
  replaceSt matchEmptyLink eqReference r st = (r, st) /\
  replaceSt matchMathRole inlineMath r st = (r, st) /\
  replaceSt matchInlineDollar inlineMath r st = (r, st).
Proof using plain_pre plain_content plain_mid plain_label plain_post.
  intros r. split; [|split].
  - apply (replaceSt_avoids _ _ "[](#").
    + intros q Hq. unfold matchEmptyLink, matchDelimited. now rewrite Hq.
    + unfold r. rewrite rendered_pending. facts. table.
      match goal with
      | H : silent "[](#" "[](#" renderedParts = true |- _ =>
          apply (silent_parts "[](#" "" pre renderedWoven);
          [exact H | assumption | each_part]
      end.
  - apply mathRolePass_idle, rendered_backtick.
  - now apply dollarPasses_idle, rendered_dollar.
Qed.

(** The colon-fenced pass comes last, and registers the label. *)
Lemma rendered_colon (st : MathState) :
  match content with "" => True | String c _ => isSpace c = false end ->
  findSub ":::" (content ++ ":::") = Some (content, "") ->
  replaceSt matchColonMath colonMathBlock (referenceRendered (pendingLink label)) st =
  (pre ++ fst (colonMathBlock content st) ++ mid ++ pendingLink label ++ post,
   snd (colonMathBlock content st)).
Proof using plain_pre plain_content plain_mid plain_label plain_post.
  intros Hfirst Hend. facts. table. unfold referenceRendered.
  apply colonPass_in_document; try assumption.
  rewrite pendingLink_parts.
  match goal with
  | H : silent ":::{math}" ":::{math}" linkParts = true |- _ =>
      apply (silent_parts ":::{math}" "" mid linkWoven);
      [exact H | assumption | each_part]
  end.
Qed.

End ReferenceToColonLabel.

(** C2 (what the code does): in a document that holds a colon-fenced
    equation with the label [label], numbered and registered, and after it
    a reference to [label], the reference is rendered as the pending link:
    the two reference passes run before the pass of the colon-fenced
    directive, on an empty registry.  The equation gets the number 1 and
    is in the registry at the end.  The texts before, between and after
    hold no other math of the resolver, and the label is no name that
    every object inherits. *)
Theorem colon_label_reference_is_pending (pre content mid post : string) :
  let ls := lines content in
  let label := last (labelOptions ls) "" in
  let math := trim (mathText ls) in
  plainText pre = true -> plainText content = true -> plainText mid = true ->
  plainText post = true -> plainText label = true ->
  match content with "" => True | String c _ => isSpace c = false end ->
  findSub ":::" (content ++ ":::") = Some (content, "") ->
  colonNumbered ls = true ->
  objGet equationFields [] label = Undefined ->
  parseMystMathSt
    (pre ++ ":::{math}" ++ nl ++ content ++ ":::" ++ mid ++ "{eq}`" ++ label ++ "`" ++ post)
  = (pre ++ numberedBlock label math 1 ++ mid ++ pendingLink label ++ post,
     register label initialMathState).
Proof.
  intros ls label math Hpre Hcontent Hmid Hpost Hlabel Hfirst Hend Hnum Hundef.
  apply plainText_plain in Hpre, Hcontent, Hmid, Hpost, Hlabel.
  assert (Hne : label <> "").
  { unfold colonNumbered in Hnum. subst label.
    pose proof (labelOptions_all_nonempty ls) as Hall.
    destruct (labelOptions ls) as [|l0 rest]; [discriminate|].
    apply (last_Forall (fun l => l <> "")); [assumption | discriminate]. }
  change (pre ++ ":::{math}" ++ nl ++ content ++ ":::" ++ mid ++ "{eq}`" ++ label ++ "`" ++ post)
    with (referenceDocument pre content mid label post).
  destruct (document_before pre content mid label post Hpre Hcontent Hmid Hlabel Hpost Hne
              initialMathState) as [Hbefore Hdollar].
  pose proof (document_reference pre content mid label post Hpre Hcontent Hmid Hlabel
                Hpost Hne initialMathState) as Href.
  rewrite (eqReference_pending label initialMathState Hundef) in Href. cbn [fst snd] in Href.
  fold (pendingLink label) in Href.
  destruct (rendered_idle pre content mid label post Hpre Hcontent Hmid Hlabel Hpost
              initialMathState) as (Hlink & Hrole & Hinline).
  pose proof (rendered_colon pre content mid label post Hpre Hcontent Hmid Hlabel Hpost
                initialMathState Hfirst Hend) as Hcolon.
  unfold parseMystMathSt. rewrite mathPasses_colon_last, app_assoc, runPasses_app.
  rewrite Hbefore. unfold earlierPasses.
  cbn [runPasses fold_left app fst snd].
  rewrite Hdollar. cbn [fst snd]. rewrite Href. cbn [fst snd].
  rewrite Hlink. cbn [fst snd]. rewrite Hrole. cbn [fst snd].
  rewrite Hinline. cbn [fst snd]. rewrite Hcolon.
  rewrite colonMathBlock_spec. fold ls. fold label. fold math. now rewrite Hnum.
Qed.

Lemma colon_label_reference_is_pending_witness :
  parseMystMathSt
    ("Ohm: " ++ ":::{math}" ++ nl ++ (":label: eq:ohm" ++ nl ++ "U = R I" ++ nl) ++ ":::" ++
     " and see " ++ "{eq}`" ++ "eq:ohm" ++ "`" ++ ".")
  = ("Ohm: " ++ numberedBlock "eq:ohm" "U = R I" 1 ++ " and see " ++
     pendingLink "eq:ohm" ++ ".",
     register "eq:ohm" initialMathState).
Proof.
  apply (colon_label_reference_is_pending "Ohm: "
           (":label: eq:ohm" ++ nl ++ "U = R I" ++ nl) " and see " ".");
    reflexivity.
Defined.

(** ** Figure resolver *)

(** The callback on a reference to a name that the table does not hold. *)
Lemma figureDirective_undefined (targets : list (string * FigureTarget))
  (name body : string) :
  assocLast name targets = None ->
  figureDirective targets ("#" ++ name) body =
  figureError
    (figureAlignClass (fst (figureLines (lines body) [] [])))
    (figureIdAttr (fst (figureLines (lines body) [] [])))
    (trim (join nl (snd (figureLines (lines body) [] [])))).
Proof.
  intros H. unfold figureDirective.
  destruct (figureLines (lines body) [] []) as [options captionLines].
  change (startsWith "#" ("#" ++ name)) with true.
  change (dropStr 1 ("#" ++ name)) with name.
  unfold objGet. rewrite H. cbv iota.
  destruct (memStr name objectPrototypeNames); [reflexivity|].
  destruct (assocLast "__proto__" targets) as [p|]; [|reflexivity].
  now destruct (assocLast name (targetFields p)) as [[|]|].
Qed.

Lemma assocLast_not_in {V : Type} (k : string) (o : list (string * V)) :
  ~ In k (map fst o) -> assocLast k o = None.
Proof.
  induction o as [|[k' v] o IH]; simpl; [reflexivity|]. intros H.
  rewrite IH by tauto.
  destruct (String.eqb_spec k' k); [|reflexivity]. exfalso. tauto.
Qed.

Definition undefinedTargetDocument : string :=
  "(other)=![a](u.png)" ++ nl ++
  "```{figure} #missing" ++ nl ++ ":align: left" ++ nl ++ "A caption" ++ nl ++ "```".

Example undefinedTargetDocument_rendered :
  parseMystFigures undefinedTargetDocument =
  "<!-- target:other defined -->" ++ nl ++
  "<figure class=" ++ quoted "myst-figure align-left" ++
  "><div class=" ++ quoted "figure-error" ++ ">Image target not found</div>" ++
  "<figcaption>A caption</figcaption></figure>".
Proof. vm_compute. reflexivity. Qed.

(** The table holds the definitions of the whole text, wherever they
    stand, and only them. *)
Example figure_documents :
  parseMystFigures
    ("```{figure} #later" ++ nl ++ "```" ++ nl ++
     "```{figure} #missing" ++ nl ++ "```" ++ nl ++
     "```{figure} #toString" ++ nl ++ "```" ++ nl ++
     "(later)=![alt text](pic.png)")
  = "<figure class=" ++ quoted "myst-figure" ++ "><img src=" ++ quoted "pic.png" ++
    " alt=" ++ quoted "alt text" ++ " loading=" ++ quoted "lazy" ++ " /></figure>" ++ nl ++
    figureError "" "" "" ++ nl ++ figureError "" "" "" ++ nl ++
    "<!-- target:later defined -->".
Proof. vm_compute. reflexivity. Qed.

(** ** Role engine *)

(** The text of a role, as a document writes it: not empty, without
    backtick and without opening brace. *)
Definition roleText (text : string) : bool :=
  negb (isEmpty text) && allStr (fun c => isNot "`" c && isNot "{" c) text.

Lemma roleText_spec (text : string) :
  roleText text = true ->
  text <> "" /\ allStr (isNot "`") text = true /\ avoids "{" text.
Proof.
  unfold roleText. intros H. apply andb_true_iff in H as [Hne Hchars].
  split; [destruct text; [discriminate | congruence]|].
  split.
  - revert Hchars. apply allStr_impl. intros c Hc. now apply andb_true_iff in Hc.
  - intros p q ->. apply allStr_suffix in Hchars.
    apply (stripPrefix_allStr (isNot "{") "{" q eq_refl).
    revert Hchars. apply allStr_impl. intros c Hc. now apply andb_true_iff in Hc.
Qed.

Lemma replaceAll_avoids {C : Type} (m : string -> option (C * string))
  (f : C -> string) (L s : string) :
  (forall q, stripPrefix L q = None -> m q = None) ->
  avoids L s -> replaceAll m f s = s.
Proof. intros Hgate Hs. unfold replaceAll. now rewrite (replaceSt_avoids _ _ L). Qed.

Lemma replaceAll_chars {C : Type} (m : string -> option (C * string))
  (f : C -> string) (g : ascii -> bool) (s : string) :
  (forall q, allStr g q = true -> m q = None) ->
  allStr g s = true -> replaceAll m f s = s.
Proof. intros Hgate Hs. unfold replaceAll. now rewrite (replaceSt_chars _ _ g). Qed.

(** Every pattern of the role engine begins with a role name in braces and
    a backtick. *)
Definition roleOpen (role : string) : string := "{" ++ role ++ "}`".

Lemma matchRoleArg_gate (role : string) (open close : ascii) (q : string) :
  stripPrefix (roleOpen role) q = None -> matchRoleArg role open close q = None.
Proof. intros H. unfold matchRoleArg. fold (roleOpen role). now rewrite H. Qed.

Lemma matchRoles_gate (roles : list string) (q : string) :
  Forall (fun role => stripPrefix (roleOpen role) q = None) roles ->
  matchRoles roles q = None.
Proof.
  induction 1 as [|role roles H Hall IH]; [reflexivity|].
  cbn [matchRoles]. unfold matchDelimited. fold (roleOpen role). now rewrite H.
Qed.

Lemma roleOpen_backtick (role q : string) :
  allStr (isNot "`") q = true -> stripPrefix (roleOpen role) q = None.
Proof.
  intros Hq. apply (stripPrefix_allStr (isNot "`")); [|assumption].
  unfold roleOpen. rewrite !allStr_app. cbn. now rewrite !andb_false_r.
Qed.

(** A text without backtick is left as it is by every pass of the engine. *)
Lemma matchRoleArg_idle (role : string) (open close : ascii) (q : string) :
  allStr (isNot "`") q = true -> matchRoleArg role open close q = None.
Proof. intros H. now apply matchRoleArg_gate, roleOpen_backtick. Qed.

Lemma matchRoles_idle (roles : list string) (q : string) :
  allStr (isNot "`") q = true -> matchRoles roles q = None.
Proof.
  intros H. apply matchRoles_gate. apply Forall_forall. intros role _.
  now apply roleOpen_backtick.
Qed.

Lemma matchAbbrParen_idle (q : string) :
  allStr (isNot "`") q = true -> matchAbbrParen q = None.
Proof.
  intros H. unfold matchAbbrParen.
  now rewrite (stripPrefix_allStr (isNot "`") "{abbr}`" q eq_refl H).
Qed.

Lemma matchRoles_cons (role : string) (roles : list string) (s : string) :
  matchRoles (role :: roles) s =
  match matchDelimited (roleOpen role) "`" s with
  | Some r => Some r
  | None => matchRoles roles s
  end.
Proof. reflexivity. Qed.

(** One role alone in the text. *)
Lemma matchDelimited_role (role text : string) :
  text <> "" -> allStr (isNot "`") text = true ->
  matchDelimited (roleOpen role) "`" (roleOpen role ++ text ++ "`") = Some (text, "").
Proof.
  intros Hne Hchars. unfold matchDelimited. rewrite stripPrefix_app.
  rewrite (span_app (isNot "`") text "`" Hchars eq_refl).
  destruct text; [congruence | reflexivity].
Qed.

Lemma role_avoids (written role text : string) :
  noOverlap "{" (roleOpen role) (roleOpen written) && clearOf (roleOpen role) (roleOpen written)
  = true ->
  clearOf (roleOpen role) "`" = true ->
  avoids "{" text ->
  avoids (roleOpen role) (roleOpen written ++ text ++ "`").
Proof.
  intros Hopen Hclose Htext.
  change (roleOpen written ++ text ++ "`")
    with (weave "" [(roleOpen written, text); ("`", "")]).
  apply (avoids_weave "{" (role ++ "}`")); [now apply avoids_nil|].
  apply Forall_cons; [split; [exact Hopen | exact Htext]|].
  apply Forall_cons; [split; [exact Hclose | now apply avoids_nil]|].
  apply Forall_nil.
Qed.

(** The characters of the text go through the keyboard callback. *)
Lemma allStr_trimEnd (g : ascii -> bool) (s : string) :
  allStr g s = true -> allStr g (trimEnd s) = true.
Proof.
  induction s as [|c s IH]; [reflexivity|]. simpl. intros H.
  apply andb_true_iff in H as [Hc Hs].
  destruct (isSpace c && isEmpty (trimEnd s)); [reflexivity|].
  simpl. now rewrite Hc, IH.
Qed.

Lemma allStr_trim (g : ascii -> bool) (s : string) :
  allStr g s = true -> allStr g (trim s) = true.
Proof.
  intros H. unfold trim. apply allStr_trimEnd.
  unfold trimStart, dropWhile. pose proof (span_spec isSpace s) as Hs.
  destruct (span isSpace s) as [a b]. destruct Hs as (-> & _).
  now apply allStr_suffix in H.
Qed.

Lemma allStr_splitChar (g : ascii -> bool) (sep : ascii) (s : string) :
  allStr g s = true -> Forall (fun p => allStr g p = true) (splitChar sep s).
Proof.
  induction s as [|c s IH]; intros H; [now repeat constructor|].
  simpl in H. apply andb_true_iff in H as [Hc Hs]. specialize (IH Hs).
  cbn [splitChar]. destruct (Ascii.eqb c sep); [now constructor|].
  destruct (splitChar sep s) as [|h t].
  - repeat constructor. simpl. now rewrite Hc.
  - inversion IH; subst. constructor; [|assumption]. simpl. now rewrite Hc.
Qed.

Lemma allStr_concat (g : ascii -> bool) (sep : string) (ls : list string) :
  allStr g sep = true -> Forall (fun p => allStr g p = true) ls ->
  allStr g (join sep ls) = true.
Proof.
  intros Hsep. induction 1 as [|l ls Hl Hls IH]; [reflexivity|].
  destruct ls as [|l' ls]; [exact Hl|].
  unfold join in *. cbn [String.concat] in *. now rewrite !allStr_app, Hl, Hsep, IH.
Qed.

Lemma keyboardKeys_chars (text : string) :
  allStr (isNot "`") text = true -> allStr (isNot "`") (keyboardKeys text) = true.
Proof.
  intros H. unfold keyboardKeys. apply allStr_concat; [reflexivity|].
  apply Forall_map. pose proof (allStr_splitChar _ "+" text H) as Hparts.
  revert Hparts. apply Forall_impl. intros k Hk.
  rewrite !allStr_app, (allStr_trim _ k Hk). reflexivity.
Qed.

(** The check that the pattern of [role] finds nothing in the opening of
    the role [written]. *)
Definition otherRole (written role : string) : bool :=
  noOverlap "{" (roleOpen role) (roleOpen written)
  && clearOf (roleOpen role) (roleOpen written).

Lemma role_avoids_other (written role text : string) :
  otherRole written role = true -> avoids "{" text ->
  avoids (roleOpen role) (roleOpen written ++ text ++ "`").
Proof.
  intros Hw Htext. apply role_avoids; [exact Hw | reflexivity | assumption].
Qed.

Lemma roleArg_pass_idle (written role : string) (open close : ascii)
  (f : string * option string -> string) (text : string) :
  otherRole written role = true -> avoids "{" text ->
  replaceAll (matchRoleArg role open close) f (roleOpen written ++ text ++ "`")
  = roleOpen written ++ text ++ "`".
Proof.
  intros Hw Htext.
  apply (replaceAll_avoids _ _ (roleOpen role)); [|now apply role_avoids_other].
  intros q. apply matchRoleArg_gate.
Qed.

Lemma roles_pass_idle (written : string) (roles : list string)
  (f : string -> string) (text : string) :
  forallb (otherRole written) roles = true -> avoids "{" text ->
  replaceAll (matchRoles roles) f (roleOpen written ++ text ++ "`")
  = roleOpen written ++ text ++ "`".
Proof.
  intros Hw Htext. rewrite forallb_forall in Hw.
  apply replaceAll_none. intros p q Hpq.
  apply matchRoles_gate, Forall_forall. intros role Hrole.
  exact (role_avoids_other written role text (Hw role Hrole) Htext p q Hpq).
Qed.

Lemma roles_pass_fires (role : string) (roles : list string)
  (f : string -> string) (text : string) :
  matchRoles roles (roleOpen role ++ text ++ "`") = Some (text, "") ->
  replaceAll (matchRoles roles) f (roleOpen role ++ text ++ "`") = f text.
Proof.
  intros Hm. rewrite <- (append_nil_r (roleOpen role ++ text ++ "`")) in Hm |- *.
  rewrite (replaceAll_match _ _ _ _ _ Hm) by discriminate.
  rewrite replaceAll_none; [apply append_nil_r|].
  intros p q Hpq. destruct p, q; try discriminate.
  apply matchRoles_gate, Forall_forall. now intros.
Qed.

Ltac role_idle t :=
  first
    [ rewrite (replaceAll_chars (matchRoleArg _ _ _) _ (isNot "`") t)
        by (try assumption; intros; now apply matchRoleArg_idle)
    | rewrite (replaceAll_chars (matchRoles _) _ (isNot "`") t)
        by (try assumption; intros; now apply matchRoles_idle)
    | rewrite (replaceAll_chars matchAbbrParen _ (isNot "`") t)
        by (try assumption; intros; now apply matchAbbrParen_idle) ].

(** C9 (what the code does): the text of a [kbd] role is never split, it
    becomes one key element, whatever plus signs it holds; the replacement
    of line 725 has turned the role into that element when the keyboard
    callback of line 754 runs, which only ever sees the [keyboard] role
    and splits its text on the plus signs. *)
Theorem kbd_role_is_not_split (keys : string) :
  roleText keys = true ->
  parseMystRoles ("{kbd}`" ++ keys ++ "`") = "<kbd>" ++ keys ++ "</kbd>" /\
  parseMystRoles ("{keyboard}`" ++ keys ++ "`") = keyboardKeys keys.
Proof.
  intros H. apply roleText_spec in H as (Hne & Hchars & Hbrace).
  split.
  - change ("{kbd}`" ++ keys ++ "`") with (roleOpen "kbd" ++ keys ++ "`").
    unfold parseMystRoles.
    repeat first
      [ rewrite (roleArg_pass_idle "kbd") by (reflexivity || assumption)
      | rewrite (roles_pass_idle "kbd") by (reflexivity || assumption) ].
    rewrite (roles_pass_fires "kbd" ["kbd"])
      by (now rewrite matchRoles_cons, matchDelimited_role).
    unfold tagged.
    assert (Hout : allStr (isNot "`") ("<kbd>" ++ keys ++ "</kbd>") = true)
      by (rewrite !allStr_app, Hchars; reflexivity).
    repeat role_idle ("<kbd>" ++ keys ++ "</kbd>"). reflexivity.
  - change ("{keyboard}`" ++ keys ++ "`") with (roleOpen "keyboard" ++ keys ++ "`").
    unfold parseMystRoles.
    repeat first
      [ rewrite (roleArg_pass_idle "keyboard") by (reflexivity || assumption)
      | rewrite (roles_pass_idle "keyboard") by (reflexivity || assumption) ].
    rewrite (roles_pass_fires "keyboard" ["kbd"; "keyboard"])
      by (rewrite matchRoles_cons;
          change (matchDelimited (roleOpen "kbd") "`" (roleOpen "keyboard" ++ keys ++ "`"))
            with (@None (string * string));
          now rewrite matchRoles_cons, matchDelimited_role).
    pose proof (keyboardKeys_chars keys Hchars) as Hout.
    repeat role_idle (keyboardKeys keys). reflexivity.
Qed.

Lemma kbd_role_is_not_split_witness :
  parseMystRoles "{kbd}`Ctrl+C`" = "<kbd>Ctrl+C</kbd>" /\
  parseMystRoles "{keyboard}`Ctrl+C`" = "<kbd>Ctrl</kbd> + <kbd>C</kbd>".
Proof. exact (kbd_role_is_not_split "Ctrl+C" eq_refl). Defined.

(** What the keyboard callback does with its text. *)
Example keyboardKeys_example :
  keyboardKeys "Ctrl + Alt+ Del" = "<kbd>Ctrl</kbd> + <kbd>Alt</kbd> + <kbd>Del</kbd>".
Proof. reflexivity. Qed.

(** ** Code blocks: the first line number *)

(** The number after [:lineno-start:] is read by [parseInt] and printed as
    a binary64 value. *)
Example lineno_start_values :
  numberToString (parseInt " 42") = "42" /\
  numberToString (parseInt "12px") = "12" /\
  numberToString (parseInt "0x1F") = "31" /\
  parseInt "px" = NaN /\
  numberToString (parseInt "9007199254740993") = "9007199254740992" /\
  numberToString (parseInt "18446744073709551616") = "18446744073709552000" /\
  numberToString (parseInt "100000000000000000000000") = "1e+23".
Proof. vm_compute. repeat split. Qed.

Example code_block_first_line :
  generateDirectiveHtml "code-block" "python"
    [":linenos:"; ":lineno-start: 9007199254740993"] "x = 1" =
  "<div class=" ++ quoted "code-block-container line-numbers" ++
  " data-start=" ++ quoted "9007199254740992" ++ ">" ++ nl ++ nl ++
  "```python" ++ nl ++ "x = 1" ++ nl ++ "```" ++ nl ++ nl ++ "</div>".
Proof. vm_compute. reflexivity. Qed.

(** ** Path rewriter *)

Definition srcAttr (path : string) : string := "src=" ++ quoted path.

(** C5 (as amended): for the category [ai] and the slug [post1], the
    attribute [src] with the path [./images/a.png] is rewritten to
    [/blogs/ai/post1/images/a.png] in local mode and to the same path after
    the external base in published mode; so is the spelling [images/]; the
    spellings [./image/] and [image/] are rewritten to
    [/blogs/ai/post1/image/a.png], with the directory [image] of their own
    (lines 825-827 and 834-835), in both modes; [../images/] goes to the
    shared pool [/blogs/images/]. *)
Theorem path_rewriting_ai_post1 :
  (* local mode *)
  rewritePaths true "ai" "post1" (srcAttr "./images/a.png")
    = srcAttr "/blogs/ai/post1/images/a.png" /\
  rewritePaths true "ai" "post1" (srcAttr "images/a.png")
    = srcAttr "/blogs/ai/post1/images/a.png" /\
  rewritePaths true "ai" "post1" (srcAttr "./image/a.png")
    = srcAttr "/blogs/ai/post1/image/a.png" /\
  rewritePaths true "ai" "post1" (srcAttr "image/a.png")
    = srcAttr "/blogs/ai/post1/image/a.png" /\
  rewritePaths true "ai" "post1" (srcAttr "../images/a.png")
    = srcAttr "/blogs/images/a.png" /\
  (* published mode *)
  rewritePaths false "ai" "post1" (srcAttr "./images/a.png")
    = srcAttr (gitHubBase ++ "/blogs/ai/post1/images/a.png") /\
  rewritePaths false "ai" "post1" (srcAttr "images/a.png")
    = srcAttr (gitHubBase ++ "/blogs/ai/post1/images/a.png") /\
  rewritePaths false "ai" "post1" (srcAttr "./image/a.png")
    = srcAttr (gitHubBase ++ "/blogs/ai/post1/image/a.png") /\
  rewritePaths false "ai" "post1" (srcAttr "image/a.png")
    = srcAttr (gitHubBase ++ "/blogs/ai/post1/image/a.png") /\
  rewritePaths false "ai" "post1" (srcAttr "../images/a.png")
    = srcAttr (gitHubBase ++ "/blogs/images/a.png").
Proof. repeat split; vm_compute; reflexivity. Qed.

(** The address in published mode, written out. *)
Example published_address_written_out :
  rewritePaths false "ai" "post1" (srcAttr "./images/a.png") =
  "src=" ++ quoted "https://raw.githubusercontent.com/ROCm/rocm-blogs/release/blogs/ai/post1/images/a.png".
Proof. vm_compute. reflexivity. Qed.

(** C5 (counterexample): the claim gives the spellings [./image/] and
    [image/] the path under [images/] that it gives [./images/]; the
    rewriter gives them a path under [image/], in local mode and in
    published mode. *)
Lemma singular_image_counterexample :
  rewritePaths true "ai" "post1" (srcAttr "./image/a.png")
    <> srcAttr "/blogs/ai/post1/images/a.png" /\
  rewritePaths true "ai" "post1" (srcAttr "image/a.png")
    <> srcAttr "/blogs/ai/post1/images/a.png" /\
  rewritePaths false "ai" "post1" (srcAttr "./image/a.png")
    <> srcAttr (gitHubBase ++ "/blogs/ai/post1/images/a.png") /\
  rewritePaths false "ai" "post1" (srcAttr "image/a.png")
    <> srcAttr (gitHubBase ++ "/blogs/ai/post1/images/a.png").
Proof. repeat split; vm_compute; discriminate. Qed.

Example path_rewriting_in_a_page :
  rewritePaths true "ai" "post1"
    ("<p><img " ++ srcAttr "./images/a.png" ++ "> <video " ++ srcAttr "videos/v.mp4" ++
     "></video> <img " ++ srcAttr "https://x.org/images/b.png" ++ "></p>")
  = "<p><img " ++ srcAttr "/blogs/ai/post1/images/a.png" ++ "> <video " ++
    srcAttr "/blogs/ai/post1/videos/v.mp4" ++
    "></video> <img " ++ srcAttr "https://x.org/images/b.png" ++ "></p>".
Proof. vm_compute. reflexivity. Qed.

(** ** Directive engine: the iframe directive *)

(** From here on the comparison of two characters is kept folded. *)
Local Arguments Ascii.eqb : simpl never.

(** A parameter [v] is looked for after a question mark or an ampersand:
    where the text holds neither [?v=] nor [&v=], none is found. *)
Lemma videoParam_none (q tail : string) :
  includes "?v=" q = false -> includes "&v=" q = false ->
  (tail = "" \/ exists d t, tail = String d t /\ (d = "?"%char \/ d = "&"%char)) ->
  q <> "" -> videoParam (q ++ tail) = None.
Proof.
  intros Hq Ha Htail Hne.
  destruct q as [|c q]; [congruence|].
  change ((String c q) ++ tail) with (String c (q ++ tail)).
  unfold videoParam.
  destruct (Ascii.eqb c "?" || Ascii.eqb c "&") eqn:Hc; [|reflexivity].
  assert (Hq' : stripPrefix "v=" (q ++ tail) = None).
  { destruct q as [|a [|b q]].
    - simpl. destruct Htail as [-> | (d & t & -> & [-> | ->])]; reflexivity.
    - simpl. destruct (Ascii.eqb "v" a); [|reflexivity].
      destruct Htail as [-> | (d & t & -> & [-> | ->])]; reflexivity.
    - simpl. destruct (Ascii.eqb_spec "v" a) as [<-|]; [|reflexivity].
      destruct (Ascii.eqb_spec "=" b) as [<-|]; [|reflexivity].
      exfalso. apply orb_true_iff in Hc as [Hc | Hc]; apply Ascii.eqb_eq in Hc; subst c.
      + pose proof (includes_app "?v=" "" q) as Hi. cbn [append] in Hi. congruence.
      + pose proof (includes_app "&v=" "" q) as Hi. cbn [append] in Hi. congruence. }
  now rewrite Hq'.
Qed.

Lemma includes_suffix_false (needle p q : string) :
  includes needle (p ++ q) = false -> includes needle q = false.
Proof.
  intros H. destruct (includes needle q) eqn:E; [|reflexivity].
  unfold includes, findSub in E.
  destruct (findFirst (litK needle) q) as [[[pre []] rest]|] eqn:Hs; [|discriminate].
  apply findFirst_Some in Hs as (r & -> & Hr).
  unfold litK in Hr. destruct (stripPrefix needle r) eqn:Hp; [|discriminate].
  apply stripPrefix_Some in Hp as ->.
  rewrite <- append_assoc in H. now rewrite includes_app in H.
Qed.

(** The first parameter [v] of a URL: the text before it holds neither
    [?v=] nor [&v=]. *)
Lemma videoParam_first (front : string) (sep : ascii) (v rest : string) :
  includes "?v=" front = false -> includes "&v=" front = false ->
  sep = "?"%char \/ sep = "&"%char ->
  v <> "" -> allStr (isNot "&") v = true ->
  rest = "" \/ startsWith "&" rest = true ->
  findFirst videoParam (front ++ String sep ("v=" ++ v ++ rest)) = Some (front, v, rest).
Proof.
  intros Hq Ha Hsep Hv Hv' Hrest.
  apply findFirst_skip.
  - intros p q -> Hne. apply videoParam_none; try assumption.
    + now apply includes_suffix_false in Hq.
    + now apply includes_suffix_false in Ha.
    + right. now exists sep, ("v=" ++ v ++ rest).
  - unfold videoParam.
    replace (Ascii.eqb sep "?" || Ascii.eqb sep "&") with true
      by (destruct Hsep as [-> | ->]; reflexivity).
    rewrite stripPrefix_app.
    rewrite (span_app (isNot "&") v rest Hv').
    + destruct v; [congruence | reflexivity].
    + destruct Hrest as [-> | Hr]; [exact I|].
      destruct rest as [|r0 rest]; [exact I|].
      unfold startsWith in Hr. simpl in Hr.
      unfold isNot. destruct (Ascii.eqb_spec "&" r0) as [<-|]; [reflexivity | discriminate].
Qed.

(** A URL without parameter [v]. *)
Lemma videoParam_absent (url : string) :
  includes "?v=" url = false -> includes "&v=" url = false ->
  findFirst videoParam url = None.
Proof.
  intros Hq Ha. apply findFirst_none. intros p q ->.
  destruct q as [|c q]; [reflexivity|].
  rewrite <- (append_nil_r (String c q)).
  apply videoParam_none; [| | now left | discriminate].
  - now apply includes_suffix_false in Hq.
  - now apply includes_suffix_false in Ha.
Qed.

Lemma splitStrGo_skip (sep a b : string) :
  splitStrGo sep (String.length a) (a ++ b) = splitStrGo sep 0 b.
Proof.
  induction a as [|c a IH]; simpl; [|exact IH]. now destruct b.
Qed.

Lemma splitStr_none (sep s : string) :
  sep <> "" -> includes sep s = false -> splitStr sep s = [s].
Proof.
  intros Hsep H. unfold splitStr.
  assert (Hall : forall p q, s = p ++ q -> q <> "" -> startsWith sep q = false).
  { intros p q Hpq _. unfold startsWith. now rewrite (includes_false _ _ H p q Hpq). }
  clear H. induction s as [|c s IH]; [reflexivity|].
  simpl. rewrite (Hall "" (String c s) eq_refl) by discriminate.
  rewrite IH; [reflexivity|].
  intros p q -> Hq. now apply (Hall (String c p) q).
Qed.

Lemma splitStr_first (sep front tail : string) :
  sep <> "" ->
  (forall p q, front = p ++ q -> q <> "" -> startsWith sep (q ++ sep ++ tail) = false) ->
  splitStr sep (front ++ sep ++ tail) = front :: splitStr sep tail.
Proof.
  intros Hsep H. unfold splitStr. induction front as [|c front IH].
  - destruct sep as [|s0 sep]; [congruence|].
    change ("" ++ String s0 sep ++ tail) with (String s0 (sep ++ tail)).
    cbn [splitStrGo].
    replace (startsWith (String s0 sep) (String s0 (sep ++ tail))) with true
      by (unfold startsWith; change (String s0 (sep ++ tail)) with (String s0 sep ++ tail);
          now rewrite stripPrefix_app).
    change (String.length (String s0 sep) - 1) with (String.length sep - 0).
    rewrite Nat.sub_0_r. now rewrite splitStrGo_skip.
  - change (String c front ++ sep ++ tail) with (String c (front ++ sep ++ tail)).
    cbn [splitStrGo].
    pose proof (H "" (String c front) eq_refl ltac:(discriminate)) as H0.
    change (String c front ++ sep ++ tail) with (String c (front ++ sep ++ tail)) in H0.
    rewrite H0, IH; [reflexivity|].
    intros p q -> Hq. now apply (H (String c p) q).
Qed.

Lemma splitChar_hd (sep : ascii) (a rest : string) :
  allStr (isNot sep) a = true ->
  rest = "" \/ startsWith (String sep "") rest = true ->
  hd "" (splitChar sep (a ++ rest)) = a.
Proof.
  intros Ha Hrest. induction a as [|c a IH]; simpl in *.
  - destruct Hrest as [-> | Hr]; [reflexivity|].
    destruct rest as [|r0 rest]; [reflexivity|].
    unfold startsWith in Hr. simpl in Hr. simpl.
    destruct (Ascii.eqb_spec sep r0) as [<-|]; [|discriminate].
    now rewrite Ascii.eqb_refl.
  - apply andb_true_iff in Ha as [Hc Ha]. unfold isNot in Hc.
    destruct (Ascii.eqb c sep); [discriminate|].
    specialize (IH Ha).
    destruct (splitChar sep (a ++ rest)) as [|h t]; simpl in *; now subst.
Qed.

(** The element that the iframe directive writes, as a page holds it: the
    frame with its source, width and title, inside a figure that has the
    label as its id and the body as its caption when they are not empty. *)
Definition iframeElement (source width title label caption : string) : string :=
  "<figure class=" ++ quoted "myst-iframe" ++
  (if truthy label then " id=" ++ quoted label else "") ++
  "><iframe src=" ++ quoted source ++ " width=" ++ quoted width ++
  " height=" ++ quoted "400" ++ " title=" ++ quoted title ++
  " frameborder=" ++ quoted "0" ++
  " allow=" ++ quoted "accelerometer; autoplay; clipboard-write; encrypted-media; gyroscope; picture-in-picture" ++
  " allowfullscreen loading=" ++ quoted "lazy" ++ "></iframe>" ++
  (if truthy caption then "<figcaption>" ++ caption ++ "</figcaption>" else "") ++
  "</figure>".

(** C10: the source of the frame that the iframe directive writes is
    [https://www.youtube.com/embed/<videoId>] when its title argument is a
    watch URL, [<videoId>] being the value of the first parameter [v] that
    follows a question mark or an ampersand (up to the next ampersand), or
    a short [youtu.be/] URL, [<videoId>] being what follows [youtu.be/] up
    to a question mark; a URL that holds neither [youtube.com/watch] nor
    [youtu.be/], and a watch URL without parameter [v], is the source as it
    is.  Width, title, id and caption of the element come from the options
    and the body. *)
Theorem iframe_youtube_embed (url : string) (optionLines : list string)
  (bodyContent : string) :
  let element source :=
    iframeElement source
      (optionValue ":width:" optionLines "100%")
      (optionValue ":title:" optionLines "Embedded content")
      (optionValue ":label:" optionLines "") bodyContent in
  (forall front sep v rest,
     url = front ++ String sep ("v=" ++ v ++ rest) ->
     includes "youtube.com/watch" url = true ->
     includes "?v=" front = false -> includes "&v=" front = false ->
     sep = "?"%char \/ sep = "&"%char ->
     v <> "" -> allStr (isNot "&") v = true ->
     rest = "" \/ startsWith "&" rest = true ->
     generateDirectiveHtml "iframe" url optionLines bodyContent =
     element ("https://www.youtube.com/embed/" ++ v)) /\
  (forall front v rest,
     url = front ++ "youtu.be/" ++ v ++ rest ->
     includes "youtube.com/watch" url = false ->
     includes "youtu.be/" (front ++ "youtu.be") = false ->
     includes "youtu.be/" (v ++ rest) = false ->
     v <> "" -> allStr (isNot "?") v = true ->
     rest = "" \/ startsWith "?" rest = true ->
     generateDirectiveHtml "iframe" url optionLines bodyContent =
     element ("https://www.youtube.com/embed/" ++ v)) /\
  (includes "youtube.com/watch" url = false ->
   includes "youtu.be/" url = false ->
   generateDirectiveHtml "iframe" url optionLines bodyContent = element url) /\
  (includes "youtube.com/watch" url = true ->
   includes "?v=" url = false -> includes "&v=" url = false ->
   generateDirectiveHtml "iframe" url optionLines bodyContent = element url).
Proof.
  intros element.
  assert (Hframe : generateDirectiveHtml "iframe" url optionLines bodyContent =
                   element (youtubeEmbedUrl url)) by reflexivity.
  rewrite Hframe. clear Hframe.
  repeat split.
  - intros front sep v rest E Hwatch Hq Ha Hsep Hv Hv' Hrest.
    unfold youtubeEmbedUrl. rewrite Hwatch. rewrite E.
    now rewrite videoParam_first.
  - intros front v rest -> Hwatch Hfront Htail Hv Hv' Hrest.
    unfold youtubeEmbedUrl. rewrite Hwatch, includes_app.
    rewrite splitStr_first; [|discriminate|].
    + rewrite (splitStr_none "youtu.be/" (v ++ rest)) by (discriminate || assumption).
      cbn [nth_error].
      rewrite (splitChar_hd "?" v rest Hv' Hrest).
      destruct v; [congruence | reflexivity].
    + intros p q -> Hq. unfold startsWith.
      pose proof (includes_false _ _ Hfront p (q ++ "youtu.be")) as Hi.
      rewrite append_assoc in Hi. specialize (Hi eq_refl).
      change (q ++ "youtu.be/" ++ v ++ rest) with (q ++ "youtu.be" ++ "/" ++ v ++ rest).
      rewrite <- append_assoc.
      rewrite stripPrefix_None_app; [reflexivity | assumption |].
      rewrite length_append. destruct q; [congruence | simpl; lia].
  - intros Hwatch Hshort. unfold youtubeEmbedUrl. now rewrite Hwatch, Hshort.
  - intros Hwatch Hq Ha. unfold youtubeEmbedUrl.
    now rewrite Hwatch, videoParam_absent.
Qed.

Lemma iframe_youtube_embed_witness :
  generateDirectiveHtml "iframe" "https://www.youtube.com/watch?rev=1&v=abc123&t=10" [] ""
  = "<figure class=" ++ quoted "myst-iframe" ++ "><iframe src=" ++
    quoted "https://www.youtube.com/embed/abc123" ++ " width=" ++ quoted "100%" ++
    " height=" ++ quoted "400" ++ " title=" ++ quoted "Embedded content" ++
    " frameborder=" ++ quoted "0" ++ " allow=" ++
    quoted "accelerometer; autoplay; clipboard-write; encrypted-media; gyroscope; picture-in-picture" ++
    " allowfullscreen loading=" ++ quoted "lazy" ++ "></iframe></figure>" /\
  generateDirectiveHtml "iframe" "https://youtu.be/abc123?t=10" [] ""
  = "<figure class=" ++ quoted "myst-iframe" ++ "><iframe src=" ++
    quoted "https://www.youtube.com/embed/abc123" ++ " width=" ++ quoted "100%" ++
    " height=" ++ quoted "400" ++ " title=" ++ quoted "Embedded content" ++
    " frameborder=" ++ quoted "0" ++ " allow=" ++
    quoted "accelerometer; autoplay; clipboard-write; encrypted-media; gyroscope; picture-in-picture" ++
    " allowfullscreen loading=" ++ quoted "lazy" ++ "></iframe></figure>" /\
  generateDirectiveHtml "iframe" "https://player.vimeo.com/video/1" [] ""
  = "<figure class=" ++ quoted "myst-iframe" ++ "><iframe src=" ++
    quoted "https://player.vimeo.com/video/1" ++ " width=" ++ quoted "100%" ++
    " height=" ++ quoted "400" ++ " title=" ++ quoted "Embedded content" ++
    " frameborder=" ++ quoted "0" ++ " allow=" ++
    quoted "accelerometer; autoplay; clipboard-write; encrypted-media; gyroscope; picture-in-picture" ++
    " allowfullscreen loading=" ++ quoted "lazy" ++ "></iframe></figure>" /\
  generateDirectiveHtml "iframe" "https://www.youtube.com/watch?list=x" [] ""
  = "<figure class=" ++ quoted "myst-iframe" ++ "><iframe src=" ++
    quoted "https://www.youtube.com/watch?list=x" ++ " width=" ++ quoted "100%" ++
    " height=" ++ quoted "400" ++ " title=" ++ quoted "Embedded content" ++
    " frameborder=" ++ quoted "0" ++ " allow=" ++
    quoted "accelerometer; autoplay; clipboard-write; encrypted-media; gyroscope; picture-in-picture" ++
    " allowfullscreen loading=" ++ quoted "lazy" ++ "></iframe></figure>".
Proof.
  split; [|split; [|split]].
  - apply (proj1 (iframe_youtube_embed
                    "https://www.youtube.com/watch?rev=1&v=abc123&t=10" [] "")
             "https://www.youtube.com/watch?rev=1" "&"%char "abc123" "&t=10");
      try reflexivity; try discriminate; auto.
  - apply (proj1 (proj2 (iframe_youtube_embed "https://youtu.be/abc123?t=10" [] ""))
             "https://" "abc123" "?t=10");
      try reflexivity; try discriminate; auto.
  - apply (proj1 (proj2 (proj2 (iframe_youtube_embed "https://player.vimeo.com/video/1" [] ""))));
      reflexivity.
  - apply (proj2 (proj2 (proj2 (iframe_youtube_embed
                                  "https://www.youtube.com/watch?list=x" [] ""))));
      reflexivity.
Defined.

(** The markup around the URL, and a whole directive. *)
Example iframe_markup_example :
  parseMystDirectives
    ("```{iframe} https://www.youtube.com/watch?v=abc123" ++ nl ++
     ":width: 80%" ++ nl ++ "```")
  = "<figure class=" ++ quoted "myst-iframe" ++ "><iframe src=" ++
    quoted "https://www.youtube.com/embed/abc123" ++ " width=" ++ quoted "80%" ++
    " height=" ++ quoted "400" ++ " title=" ++ quoted "Embedded content" ++
    " frameborder=" ++ quoted "0" ++ " allow=" ++
    quoted "accelerometer; autoplay; clipboard-write; encrypted-media; gyroscope; picture-in-picture" ++
    " allowfullscreen loading=" ++ quoted "lazy" ++ "></iframe></figure>".
Proof. vm_compute. reflexivity. Qed.

(** ** Directive engine: options and body *)

(** Once the body has begun, every line is body. *)
Lemma splitOptions_body (ls optionLines contentLines : list string) :
  splitOptions ls false optionLines contentLines =
  (optionLines, (contentLines ++ ls)%list).
Proof.
  revert contentLines; induction ls as [|l ls IH]; intros contentLines.
  - simpl. now rewrite app_nil_r.
  - cbn [splitOptions andb]. rewrite andb_false_r, IH. now rewrite <- app_assoc.
Qed.

(** Leading option lines and blank lines. *)
Definition isLeading (line : string) : Prop :=
  isOptionLine (trim line) = true \/ trim line = "".

Lemma splitOptions_leading (leading rest optionLines : list string) :
  Forall isLeading leading ->
  splitOptions (leading ++ rest) true optionLines [] =
  splitOptions rest true
    (optionLines ++ map trim (filter (fun l => isOptionLine (trim l)) leading))%list [].
Proof.
  intros H; revert optionLines; induction H as [|l leading Hl Hall IH];
    intros optionLines; simpl.
  - now rewrite app_nil_r.
  - destruct (isOptionLine (trim l)) eqn:Ho; simpl.
    + rewrite IH. now rewrite <- app_assoc.
    + destruct Hl as [Hl | Hl]; [congruence|]. rewrite Hl. simpl. apply IH.
Qed.

(** An opening line, as a document writes it. *)
Definition openingLine (fc : ascii) (fenceLen : nat) (name title : string) : string :=
  repeatChar fc fenceLen ++ "{" ++ name ++ "}" ++ title.

(** C4: in the lines of a captured block, the option lines among the
    leading option and blank lines are the options, trimmed; from the
    first line that is neither an option nor blank, every line is body,
    unchanged and in order, the lines that look like options included;
    the body handed on is these lines joined, and trimmed as a whole. *)
Theorem options_end_at_first_body_line
  (leading later : list string) (first : string) :
  Forall isLeading leading ->
  isOptionLine (trim first) = false -> trim first <> "" ->
  splitOptions (leading ++ first :: later) true [] [] =
  (map trim (filter (fun l => isOptionLine (trim l)) leading), first :: later) /\
  forall (rec : string -> string) fc fenceLen name title closing rest,
    matchDirective (openingLine fc fenceLen name title)
    = Some (fc, fenceLen, name, title) ->
    findEnd fc fenceLen 1 ((leading ++ first :: later) ++ closing :: rest)
    = Some (List.length (leading ++ first :: later)) ->
    directiveLoop rec 0
      (openingLine fc fenceLen name title
         :: (leading ++ first :: later) ++ closing :: rest)
    = generateDirectiveHtml name (trim title)
        (map trim (filter (fun l => isOptionLine (trim l)) leading))
        (rec (trim (join nl (first :: later))))
      :: directiveLoop rec 0 rest.
Proof.
  intros Hlead Hfirst Hblank.
  assert (Hsplit : splitOptions (leading ++ first :: later) true [] [] =
                   (map trim (filter (fun l => isOptionLine (trim l)) leading),
                    first :: later)).
  { rewrite splitOptions_leading by assumption.
    cbn [splitOptions app]. rewrite Hfirst.
    destruct (trim first) eqn:Ht; [congruence|]. cbn [isEmpty andb].
    now rewrite splitOptions_body. }
  split; [exact Hsplit|].
  intros rec fc fenceLen name title closing rest Hopen Hend.
  cbn [directiveLoop]. rewrite Hopen, Hend.
  rewrite firstn_app, firstn_all, Nat.sub_diag. cbn [firstn]. rewrite app_nil_r.
  rewrite Hsplit. f_equal.
  clear. generalize (leading ++ first :: later)%list as body. intros body.
  induction body as [|b body IH]; [reflexivity|]. exact IH.
Qed.

Lemma options_end_at_first_body_line_witness :
  splitOptions [":class: tip"; ""; ":open:"; "Body"; ":class: later"; ""; "end"] true [] []
  = ([":class: tip"; ":open:"], ["Body"; ":class: later"; ""; "end"]).
Proof.
  apply (proj1 (options_end_at_first_body_line
                  [":class: tip"; ""; ":open:"] [":class: later"; ""; "end"] "Body"
                  ltac:(repeat constructor; (now left) || (now right))
                  eq_refl ltac:(discriminate))).
Defined.

Example options_in_a_document :
  parseMystDirectives
    (":::{dropdown} Title" ++ nl ++ ":open:" ++ nl ++ nl ++ "Body" ++ nl ++
     ":open: not an option here" ++ nl ++ ":::")
  = "<details class=" ++ quoted "dropdown" ++ " open><summary>Title</summary><div class=" ++
    quoted "dropdown-content" ++ ">" ++
    wrapped ("Body" ++ nl ++ ":open: not an option here") ++ "</div></details>".
Proof. vm_compute. reflexivity. Qed.

(** ** Directive engine: nesting *)

#[local] Set Warnings "-register-all".

(** A document made of text lines and of directives that all use one
    fence, nested to any depth.  A directive has its leading lines (option
    lines and blank lines) and then its body. *)
Inductive Block : Type :=
| TextLine (line : string)
| Nested (name title : string) (leading : list string) (body : list Block).

Fixpoint depth (b : Block) : nat :=
  match b with
  | TextLine _ => 0
  | Nested _ _ _ body => S (fold_right (fun b d => Nat.max (depth b) d) 0 body)
  end.







Definition titleSuffix (title : string) : string :=
  if isEmpty title then "" else " " ++ title.





Lemma dropWhile_cons (f : ascii -> bool) (c : ascii) (s : string) :
  f c = true -> dropWhile f (String c s) = dropWhile f s.
Proof.
  intros H. unfold dropWhile. cbn [span]. rewrite H. now destruct (span f s).
Qed.

Lemma length_span_snd (f : ascii -> bool) (s : string) :
  String.length (snd (span f s)) <= String.length s.
Proof.
  induction s as [|c s IH]; simpl; [lia|].
  destruct (f c); [|simpl; lia]. destruct (span f s); simpl in *; lia.
Qed.



Lemma trimEnd_app (a l : string) :
  trimEnd l = l -> l <> "" -> trimEnd (a ++ l) = a ++ l.
Proof.
  intros H Hl. induction a as [|c a IH]; simpl; [exact H|].
  rewrite IH. destruct (a ++ l) eqn:E; [|now rewrite andb_false_r].
  destruct a, l; simpl in E; congruence.
Qed.







Section Nesting.

Variable fc : ascii.
Variable fenceLen : nat.

Definition closingLine : string := repeatChar fc fenceLen.

(** The lines of a block. *)
Fixpoint render (b : Block) : list string :=
  match b with
  | TextLine line => [line]
  | Nested name title leading body =>
      (openingLine fc fenceLen name (titleSuffix title)
         :: leading ++ flat_map render body ++ [closingLine])%list
  end.




Hypothesis fence_char : fc = ":"%char \/ fc = "`"%char.
Hypothesis fence_length : fenceLen = 3 \/ fenceLen = 4.

































Lemma join_cons (l : string) (ls : list string) :
  ls <> [] -> join nl (l :: ls) = l ++ nl ++ join nl ls.
Proof. destruct ls; [congruence | reflexivity]. Qed.




Lemma splitChar_none (sep : ascii) (a : string) :
  allStr (isNot sep) a = true -> splitChar sep a = [a].
Proof.
  induction a as [|c a IH]; simpl; [reflexivity|].
  intros H. apply andb_true_iff in H as [Hc Ha]. unfold isNot in Hc.
  destruct (Ascii.eqb c sep); [discriminate|]. now rewrite IH.
Qed.

Lemma splitChar_app (sep : ascii) (a b : string) :
  allStr (isNot sep) a = true ->
  splitChar sep (a ++ String sep b) = a :: splitChar sep b.
Proof.
  induction a as [|c a IH]; simpl.
  - now rewrite Ascii.eqb_refl.
  - intros H. apply andb_true_iff in H as [Hc Ha]. unfold isNot in Hc.
    destruct (Ascii.eqb c sep); [discriminate|]. now rewrite IH.
Qed.



Lemma allStr_join (f : ascii -> bool) (ls : list string) :
  f LF = true -> Forall (fun l => allStr f l = true) ls ->
  allStr f (join nl ls) = true.
Proof.
  intros Hf. induction 1 as [|l ls Hl Hls IH]; [reflexivity|].
  destruct ls as [|l' ls]; [exact Hl|].
  rewrite join_cons by discriminate. rewrite !allStr_app, Hl, IH.
  simpl. now rewrite Hf.
Qed.

(** A text without carriage return is not changed by the normalisation of
    the line ends. *)
Lemma normalizeNewlines_id (s : string) :
  allStr (isNot CR) s = true -> normalizeNewlines s = s.
Proof.
  intros H. unfold normalizeNewlines.
  assert (Hall : forall lit p q, s = p ++ q -> litK (String CR lit) q = None).
  { intros lit p q ->. apply allStr_suffix in H.
    destruct q as [|c q]; [reflexivity|]. simpl in H.
    apply andb_true_iff in H as [Hc _]. unfold isNot in Hc.
    unfold litK. cbn [stripPrefix]. rewrite Ascii.eqb_sym.
    now destruct (Ascii.eqb c CR). }
  rewrite (replaceAll_none _ _ s (Hall nl)).
  now rewrite (replaceAll_none _ _ s (Hall "")).
Qed.











End Nesting.



























(** The same fixtures with backtick fences of four characters, titles and
    options, by evaluation. *)
Example nested_backtick_fences :
  parseMystDirectives
    ("````{tip} Outer" ++ nl ++ "before" ++ nl ++
     "````{tip} Inner" ++ nl ++ "inner text" ++ nl ++ "````" ++ nl ++
     "after" ++ nl ++ "````")
  = generateDirectiveHtml "tip" "Outer" []
      ("before" ++ nl ++ generateDirectiveHtml "tip" "Inner" [] "inner text" ++ nl ++
       "after").
Proof. vm_compute. reflexivity. Qed.

Example nested_with_options :
  parseMystDirectives
    (":::{dropdown} Outer" ++ nl ++ ":open:" ++ nl ++ nl ++ "before" ++ nl ++
     ":::{note}" ++ nl ++ ":class: wide" ++ nl ++ "inner text" ++ nl ++ ":::" ++ nl ++
     "after" ++ nl ++ ":::")
  = generateDirectiveHtml "dropdown" "Outer" [":open:"]
      ("before" ++ nl ++
       generateDirectiveHtml "note" "" [":class: wide"] "inner text" ++ nl ++ "after").
Proof. vm_compute. reflexivity. Qed.

(** An unclosed directive is left as text. *)
Example unclosed_directive :
  parseMystDirectives (":::{note}" ++ nl ++ "text") = ":::{note}" ++ nl ++ "text".
Proof. vm_compute. reflexivity. Qed.

(** ** Directive engine: the fuel is enough *)

(** The characters of a list of lines, one more for each line. *)
Fixpoint cost (ls : list string) : nat :=
  match ls with
  | [] => 0
  | l :: rest => S (String.length l + cost rest)
  end.

Lemma cost_app (a b : list string) : cost (a ++ b) = cost a + cost b.
Proof. induction a; simpl; lia. Qed.

Lemma length_join_cost (ls : list string) : String.length (join nl ls) <= cost ls.
Proof.
  induction ls as [|l ls IH]; [simpl; lia|].
  destruct ls as [|l' ls]; [simpl; lia|].
  rewrite join_cons by discriminate. rewrite !length_append.
  cbn [cost String.length nl] in *. lia.
Qed.

Lemma cost_lines (s : string) : cost (lines s) = S (String.length s).
Proof.
  unfold lines. induction s as [|c s IH]; [reflexivity|].
  cbn [splitChar]. destruct (Ascii.eqb c LF).
  - cbn [cost String.length]. lia.
  - destruct (splitChar LF s) as [|h t]; [discriminate|].
    cbn [cost String.length] in *. lia.
Qed.

Lemma length_trimEnd (s : string) : String.length (trimEnd s) <= String.length s.
Proof.
  induction s as [|c s IH]; simpl; [lia|].
  destruct (isSpace c && isEmpty (trimEnd s)); simpl; lia.
Qed.

Lemma length_trim (s : string) : String.length (trim s) <= String.length s.
Proof.
  unfold trim, trimStart, dropWhile.
  pose proof (length_trimEnd (snd (span isSpace s))).
  pose proof (length_span_snd isSpace s). lia.
Qed.

Lemma cost_splitOptions (ls : list string) :
  forall inOptions optionLines contentLines,
    cost (snd (splitOptions ls inOptions optionLines contentLines))
    <= cost contentLines + cost ls.
Proof.
  induction ls as [|l ls IH]; intros inOptions optionLines contentLines.
  - simpl. lia.
  - cbn [splitOptions].
    destruct (inOptions && isOptionLine (trim l));
      [|destruct (isEmpty (trim l) && inOptions)].
    + specialize (IH inOptions (optionLines ++ [trim l])%list contentLines).
      cbn [cost]. lia.
    + specialize (IH inOptions optionLines contentLines). cbn [cost]. lia.
    + specialize (IH false optionLines (contentLines ++ [l])%list).
      rewrite cost_app in IH. cbn [cost] in *. lia.
Qed.

Lemma findEnd_lt (fc : ascii) (fenceLen : nat) (ls : list string) :
  forall depth k, findEnd fc fenceLen depth ls = Some k -> k < List.length ls.
Proof.
  induction ls as [|l ls IH]; intros depth k; [discriminate|].
  cbn [findEnd length].
  destruct (isOpening fc fenceLen l).
  - destruct (findEnd fc fenceLen (S depth) ls) as [j|] eqn:H; [|discriminate].
    intros E; inversion E. apply IH in H. lia.
  - destruct (isClosing fc fenceLen l).
    + destruct (depth - 1 =? 0)%nat; [intros E; inversion E; lia|].
      destruct (findEnd fc fenceLen (depth - 1) ls) as [j|] eqn:H; [|discriminate].
      intros E; inversion E. apply IH in H. lia.
    + destruct (findEnd fc fenceLen depth ls) as [j|] eqn:H; [|discriminate].
      intros E; inversion E. apply IH in H. lia.
Qed.

Lemma cost_firstn (k : nat) (ls : list string) :
  k < List.length ls -> S (cost (firstn k ls)) <= cost ls.
Proof.
  revert ls; induction k as [|k IH]; intros [|l ls] H; simpl in *; try lia.
  specialize (IH ls). lia.
Qed.

(** The body of a directive is shorter than the lines it is cut from. *)
Lemma body_shorter (fc : ascii) (fenceLen k : nat) (rest : list string) :
  findEnd fc fenceLen 1 rest = Some k ->
  S (String.length
       (trim (join nl (snd (splitOptions (firstn k rest) true [] []))))) <= cost rest.
Proof.
  intros H. apply findEnd_lt in H. apply cost_firstn in H.
  pose proof (length_trim (join nl (snd (splitOptions (firstn k rest) true [] [])))).
  pose proof (length_join_cost (snd (splitOptions (firstn k rest) true [] []))).
  pose proof (cost_splitOptions (firstn k rest) true [] []).
  simpl in *. lia.
Qed.

(** The loop only calls the engine on bodies shorter than its lines. *)
Lemma directiveLoop_ext (rec1 rec2 : string -> string) (bound : nat) :
  (forall b, String.length b < bound -> rec1 b = rec2 b) ->
  forall ls skip, cost ls <= S bound ->
                  directiveLoop rec1 skip ls = directiveLoop rec2 skip ls.
Proof.
  intros Hrec. induction ls as [|line rest IH]; intros skip Hc; [reflexivity|].
  cbn [cost] in Hc. cbn [directiveLoop].
  destruct skip as [|skip]; [|apply IH; lia].
  destruct (matchDirective line) as [[[[fc fenceLen] name] title]|];
    [|rewrite IH by lia; reflexivity].
  destruct (findEnd fc fenceLen 1 rest) as [k|] eqn:Hend;
    [|rewrite IH by lia; reflexivity].
  pose proof (body_shorter _ _ _ _ Hend) as Hbody.
  destruct (splitOptions (firstn k rest) true [] []) as [optionLines contentLines].
  cbn [snd] in Hbody.
  rewrite Hrec by lia. rewrite IH by lia. reflexivity.
Qed.

Lemma replaceGo_length (lit rep : string) :
  lit <> "" -> String.length rep <= String.length lit ->
  forall s skip,
    String.length (fst (replaceGo (litK lit) (fun _ (st : unit) => (rep, st)) skip s tt))
    <= String.length s - skip.
Proof.
  intros Hlit Hrep. induction s as [|x s IH]; intros skip.
  - destruct skip; simpl; [|lia].
    unfold litK. destruct lit; [congruence | simpl; lia].
  - destruct skip as [|skip]; [|apply IH].
    rewrite replaceGo_cons. unfold litK at 1.
    destruct (stripPrefix lit (String x s)) as [rest|] eqn:Hs.
    + apply stripPrefix_Some in Hs.
      assert (Hlen : String.length (String x s) = String.length lit + String.length rest)
        by (rewrite Hs; apply length_append).
      replace (String.length (String x s) - String.length rest)
        with (String.length lit) by lia.
      destruct (String.length lit) as [|n] eqn:Hn;
        [destruct lit; [congruence | discriminate]|].
      specialize (IH n).
      destruct (replaceGo (litK lit) (fun _ (st : unit) => (rep, st)) n s tt) as [o st2].
      cbn [fst] in *. rewrite length_append. cbn [String.length] in *. lia.
    + specialize (IH 0).
      destruct (replaceGo (litK lit) (fun _ (st : unit) => (rep, st)) 0 s tt) as [o st2].
      cbn [fst String.length] in *. lia.
Qed.

Lemma length_normalizeNewlines (s : string) :
  String.length (normalizeNewlines s) <= String.length s.
Proof.
  unfold normalizeNewlines, replaceAll, replaceSt.
  pose proof (replaceGo_length (String CR nl) nl ltac:(discriminate)
                ltac:(simpl; lia) s 0) as H1.
  pose proof (replaceGo_length (String CR "") nl ltac:(discriminate) ltac:(simpl; lia)
                (fst (replaceGo (litK (String CR nl)) (fun _ (st : unit) => (nl, st)) 0 s tt))
                0) as H2.
  lia.
Qed.

(** With more fuel than the text has characters, the result does not
    depend on the fuel: [parseMystDirectives] never runs out of it. *)
Theorem parseMystDirectivesFuel_enough (fuel : nat) (content : string) :
  String.length content < fuel ->
  parseMystDirectivesFuel fuel content = parseMystDirectives content.
Proof.
  unfold parseMystDirectives.
  assert (H : forall n content f1 f2,
             String.length content <= n -> n < f1 -> n < f2 ->
             parseMystDirectivesFuel f1 content = parseMystDirectivesFuel f2 content).
  { induction n as [n IHn] using lt_wf_ind. intros c f1 f2 Hc H1 H2.
    destruct f1 as [|f1]; [lia|]. destruct f2 as [|f2]; [lia|].
    cbn [parseMystDirectivesFuel]. f_equal.
    apply (directiveLoop_ext _ _ (String.length c)).
    - intros b Hb. apply (IHn (String.length b)); lia.
    - rewrite cost_lines. pose proof (length_normalizeNewlines c). lia. }
  intros Hf. apply (H (String.length content)); lia.
Qed.

(** ** Escaping *)

(** What [escapeHtml] writes for one character. *)
Definition escapeChar (c : ascii) : string :=
  if Ascii.eqb c "&" then "&amp;"
  else if Ascii.eqb c "<" then "&lt;"
  else if Ascii.eqb c ">" then "&gt;"
  else if Ascii.eqb c (chr 34) then "&quot;"
  else if Ascii.eqb c "'" then "&#039;"
  else String c "".

Fixpoint flatMapStr (f : ascii -> string) (s : string) : string :=
  match s with
  | "" => ""
  | String c r => f c ++ flatMapStr f r
  end.

Lemma flatMapStr_app (f : ascii -> string) (a b : string) :
  flatMapStr f (a ++ b) = flatMapStr f a ++ flatMapStr f b.
Proof. induction a as [|c a IH]; simpl; [reflexivity|]. now rewrite IH, append_assoc. Qed.

Lemma replaceChar_flatMap (c : ascii) (rep s : string) :
  replaceChar c rep s = flatMapStr (fun a => if Ascii.eqb a c then rep else String a "") s.
Proof.
  induction s as [|a s IH]; simpl; [reflexivity|].
  rewrite IH. now destruct (Ascii.eqb a c).
Qed.

Lemma flatMapStr_flatMapStr (f g : ascii -> string) (s : string) :
  flatMapStr g (flatMapStr f s) = flatMapStr (fun c => flatMapStr g (f c)) s.
Proof.
  induction s as [|a s IH]; simpl; [reflexivity|].
  now rewrite flatMapStr_app, IH.
Qed.

Lemma flatMapStr_ext (f g : ascii -> string) (s : string) :
  (forall c, f c = g c) -> flatMapStr f s = flatMapStr g s.
Proof. intros H. induction s as [|a s IH]; simpl; [reflexivity|]. now rewrite H, IH. Qed.

(** Every character, one by one. *)
Definition allChars (p : ascii -> bool) : bool :=
  forallb (fun n => p (chr n)) (seq 0 256).

Lemma allChars_spec (p : ascii -> bool) : allChars p = true -> forall c, p c = true.
Proof.
  intros H c. unfold allChars in H. rewrite forallb_forall in H.
  rewrite <- (ascii_nat_embedding c). apply H. apply in_seq.
  pose proof (nat_ascii_bounded c). lia.
Qed.

Lemma escapeHtml_chars (text : string) : escapeHtml text = flatMapStr escapeChar text.
Proof.
  unfold escapeHtml. rewrite !replaceChar_flatMap, !flatMapStr_flatMapStr.
  apply flatMapStr_ext. intros c.
  assert (H : allChars (fun c =>
    String.eqb
      (flatMapStr
         (fun c0 =>
            flatMapStr
              (fun c1 =>
                 flatMapStr
                   (fun c2 =>
                      flatMapStr (fun a => if Ascii.eqb a "'" then "&#039;" else String a "")
                        (if Ascii.eqb c2 (chr 34) then "&quot;" else String c2 ""))
                   (if Ascii.eqb c1 ">" then "&gt;" else String c1 ""))
              (if Ascii.eqb c0 "<" then "&lt;" else String c0 ""))
         (if Ascii.eqb c "&" then "&amp;" else String c ""))
      (escapeChar c)) = true) by (vm_compute; reflexivity).
  apply String.eqb_eq. exact (allChars_spec _ H c).
Qed.

(** The characters with a meaning in markup, the ampersand apart. *)
Definition isMarkupChar (c : ascii) : bool :=
  Ascii.eqb c "<" || Ascii.eqb c ">" || Ascii.eqb c (chr 34) || Ascii.eqb c "'".

Lemma escapeChar_no_markup (c : ascii) :
  allStr (fun a => negb (isMarkupChar a)) (escapeChar c) = true.
Proof.
  assert (H : allChars (fun c => allStr (fun a => negb (isMarkupChar a)) (escapeChar c)) = true)
    by (vm_compute; reflexivity).
  exact (allChars_spec _ H c).
Qed.

Lemma escapeChar_prefix (c d : ascii) (x y : string) :
  escapeChar c ++ x = escapeChar d ++ y -> c = d /\ x = y.
Proof.
  unfold escapeChar.
  destruct (Ascii.eqb_spec c "&"); [subst c|];
    [|destruct (Ascii.eqb_spec c "<"); [subst c|];
      [|destruct (Ascii.eqb_spec c ">"); [subst c|];
        [|destruct (Ascii.eqb_spec c (chr 34)); [subst c|];
          [|destruct (Ascii.eqb_spec c "'"); [subst c|]]]]];
  (destruct (Ascii.eqb_spec d "&"); [subst d|];
    [|destruct (Ascii.eqb_spec d "<"); [subst d|];
      [|destruct (Ascii.eqb_spec d ">"); [subst d|];
        [|destruct (Ascii.eqb_spec d (chr 34)); [subst d|];
          [|destruct (Ascii.eqb_spec d "'"); [subst d|]]]]]);
  cbn [append]; intros H; inversion H; subst; try congruence; split; congruence.
Qed.

Lemma escapeChars_injective (a b : string) :
  flatMapStr escapeChar a = flatMapStr escapeChar b -> a = b.
Proof.
  revert b; induction a as [|c a IH]; intros [|d b] H; cbn [flatMapStr] in H.
  - reflexivity.
  - exfalso. unfold escapeChar in H.
    repeat match type of H with context [if ?t then _ else _] => destruct t end;
      discriminate.
  - exfalso. unfold escapeChar in H.
    repeat match type of H with context [if ?t then _ else _] => destruct t end;
      discriminate.
  - apply escapeChar_prefix in H as [-> H]. f_equal. now apply IH.
Qed.

(** X1: [escapeHtml] writes the entity of every ampersand, angle bracket,
    double quote and apostrophe and copies every other character: its five
    replacements, run one after the other, never escape an entity that an
    earlier one wrote.  So the result is the concatenation of what is
    written for the parts of the text, and it holds no angle bracket and no
    quote. *)
Theorem escapeHtml_escapes_each_character_once (a b : string) :
  escapeHtml a = flatMapStr escapeChar a /\
  escapeHtml (a ++ b) = escapeHtml a ++ escapeHtml b /\
  allStr (fun c => negb (isMarkupChar c)) (escapeHtml a) = true.
Proof.
  split; [apply escapeHtml_chars|]. split.
  - rewrite !escapeHtml_chars. apply flatMapStr_app.
  - rewrite escapeHtml_chars. induction a as [|c a IH]; [reflexivity|].
    cbn [flatMapStr]. now rewrite allStr_app, escapeChar_no_markup, IH.
Qed.

(** X2: [escapeHtml] loses nothing: two different texts have different
    escaped forms, also when one of them holds what the other is escaped
    to. *)
Theorem escapeHtml_keeps_texts_apart (a b : string) :
  a <> b -> escapeHtml a <> escapeHtml b.
Proof.
  intros Hab H. apply Hab. rewrite !escapeHtml_chars in H.
  now apply escapeChars_injective.
Qed.

Lemma escapeHtml_keeps_texts_apart_witness :
  "<" <> "&lt;" /\ escapeHtml "<" <> escapeHtml "&lt;".
Proof.
  split; [discriminate|]. apply (escapeHtml_keeps_texts_apart "<" "&lt;"). discriminate.
Defined.

Example escapeHtml_filename :
  escapeHtml ("R&D <" ++ dq ++ "x" ++ dq ++ ">'s.py") =
  "R&amp;D &lt;&quot;x&quot;&gt;&#039;s.py".
Proof. reflexivity. Qed.

(** ** Category names *)

Lemma objGet_literal (id : string) :
  memStr id (map fst categoryMap) = false ->
  objGet (fun _ : string => []) categoryMap id =
  if memStr id objectPrototypeNames then Inherited else Undefined.
Proof.
  intros H. unfold objGet.
  assert (Hn : assocLast id categoryMap = None).
  { unfold categoryMap in *. cbn [map fst memStr existsb] in H.
    repeat (apply orb_false_iff in H as [?H H]).
    cbn [assocLast]. rewrite !(String.eqb_sym _ id).
    repeat match goal with E : String.eqb id _ = false |- _ => rewrite E; clear E end.
    reflexivity. }
  rewrite Hn. destruct (memStr id objectPrototypeNames); reflexivity.
Qed.

Lemma displayName_is_no_key (id name : string) :
  assocLast id categoryMap = Some name ->
  memStr name (map fst categoryMap) = false /\ memStr name objectPrototypeNames = false /\
  truthy name = true.
Proof.
  unfold categoryMap. cbn [assocLast].
  repeat match goal with
         | |- context [String.eqb ?k id] => destruct (String.eqb k id)
         end; intros H; inversion H; subst; repeat split; reflexivity.
Qed.

(** X3: [getCategoryDisplayName] gives every category of the configuration
    its display name and gives back any other id that is no property name
    of [Object.prototype]; a name it gave is left as it is when it is
    looked up again.  For a property name of [Object.prototype], such as
    [constructor], the result is the inherited value, which is no text. *)
Theorem category_display_names (id : string) :
  Forall (fun c => getCategoryDisplayName (fst c) = Own (snd c)) configCategories /\
  (memStr id (map fst configCategories) = false ->
   getCategoryDisplayName id =
   if memStr id objectPrototypeNames then Inherited else Own id) /\
  (forall name, getCategoryDisplayName id = Own name ->
                getCategoryDisplayName name = Own name).
Proof.
  split; [repeat constructor|]. split.
  - intros H. unfold getCategoryDisplayName. rewrite (objGet_literal id H).
    now destruct (memStr id objectPrototypeNames).
  - intros name H. unfold getCategoryDisplayName in H |- *.
    unfold objGet in H at 1.
    destruct (assocLast id categoryMap) as [v|] eqn:E.
    + destruct (displayName_is_no_key id v E) as (H1 & H2 & H3).
      unfold orElse in H. rewrite H3 in H. inversion H; subst name.
      rewrite (objGet_literal v H1), H2. reflexivity.
    + assert (Hid : memStr id (map fst categoryMap) = false).
      { unfold categoryMap in *. cbn [assocLast] in E. cbn [map fst memStr existsb].
        rewrite !(String.eqb_sym id).
        repeat match type of E with
               | context [String.eqb ?k id] => destruct (String.eqb k id); try discriminate
               end. reflexivity. }
      destruct (memStr id objectPrototypeNames) eqn:Ep; [discriminate|].
      change (assocLast "__proto__" categoryMap) with (@None string) in H.
      inversion H; subst name.
      rewrite (objGet_literal id Hid), Ep. reflexivity.
Qed.

Lemma category_display_names_witness :
  getCategoryDisplayName "quantum-computing" = Own "quantum-computing" /\
  getCategoryDisplayName "constructor" = Inherited /\
  getCategoryDisplayName "High Performance Computing" = Own "High Performance Computing".
Proof.
  split; [|split].
  - apply (proj1 (proj2 (category_display_names "quantum-computing"))). reflexivity.
  - apply (proj1 (proj2 (category_display_names "constructor"))). reflexivity.
  - apply (proj2 (proj2 (category_display_names "high-performance-computing"))
             "High Performance Computing"). reflexivity.
Defined.

(** ** Thumbnails and images *)

Lemma stripDotSlash_app (path : string) : stripDotSlash ("./" ++ path) = path.
Proof. reflexivity. Qed.

Lemma stripDotSlash_plain (path : string) :
  startsWith "./" path = false -> stripDotSlash path = path.
Proof.
  unfold startsWith, stripDotSlash. now destruct (stripPrefix "./" path).
Qed.

(** X4: in development mode the thumbnail of a post does not depend on the
    content flag, the repository or the branch of the configuration; a
    thumbnail that starts with [http], and the empty one, are given back as
    they are; a leading [./] makes no difference; and for a path with a
    folder the thumbnail is the URL that [getImageUrl] gives. *)
Theorem thumbnail_url_in_development (useLocalContent : bool)
  (repo branch category slug path : string) :
  let thumbnail := getThumbnailUrl useLocalContent true repo branch category slug in
  thumbnail path = getThumbnailUrl true true "" "" category slug path /\
  thumbnail "" = "" /\
  (startsWith "http" path = true -> thumbnail path = path) /\
  (startsWith "http" path = false -> startsWith "./" path = false -> path <> "" ->
   thumbnail ("./" ++ path) = thumbnail path) /\
  (includes "/" (stripDotSlash path) = true -> thumbnail path = getImageUrl category slug path).
Proof.
  cbv zeta. unfold getThumbnailUrl, getImageUrl. repeat split.
  - now destruct useLocalContent.
  - intros H. rewrite H. destruct path; [discriminate | reflexivity].
  - intros Hh Hd Hp. rewrite Hh, stripDotSlash_app, (stripDotSlash_plain path Hd).
    destruct path as [|c path]; [congruence|].
    cbn [truthy isEmpty negb append].
    change (startsWith "http" (String "." (String "/" (String c path)))) with false.
    cbn iota. reflexivity.
  - intros H. destruct path as [|c path]; [discriminate|].
    cbn [truthy isEmpty negb]. rewrite H.
    destruct (startsWith "http" (String c path)); [reflexivity|].
    cbn iota. destruct useLocalContent; now rewrite !append_assoc.
Qed.

Lemma thumbnail_url_in_development_witness :
  getThumbnailUrl false true "ROCm/rocm-blogs" "release" "ai" "post1" "https://x.org/t.png"
  = "https://x.org/t.png" /\
  getThumbnailUrl false true "ROCm/rocm-blogs" "release" "ai" "post1" "./thumb.png"
  = getThumbnailUrl false true "ROCm/rocm-blogs" "release" "ai" "post1" "thumb.png" /\
  getThumbnailUrl false true "ROCm/rocm-blogs" "release" "ai" "post1" "./images/t.png"
  = getImageUrl "ai" "post1" "./images/t.png".
Proof.
  pose proof (thumbnail_url_in_development false "ROCm/rocm-blogs" "release" "ai" "post1")
    as H.
  split; [|split].
  - apply (proj1 (proj2 (proj2 (H "https://x.org/t.png")))). reflexivity.
  - apply (proj1 (proj2 (proj2 (proj2 (H "thumb.png")))));
      [reflexivity | reflexivity | discriminate].
  - apply (proj2 (proj2 (proj2 (proj2 (H "./images/t.png"))))). reflexivity.
Defined.

Example thumbnail_urls :
  getThumbnailUrl false true "ROCm/rocm-blogs" "release" "ai" "post1" "thumb.png"
  = "/blogs/ai/post1/images/thumb.png" /\
  getThumbnailUrl false false "ROCm/rocm-blogs" "release" "ai" "post1" "./images/t.png"
  = "https://raw.githubusercontent.com/ROCm/rocm-blogs/release/blogs/ai/post1/images/t.png" /\
  getThumbnailUrl false true "ROCm/rocm-blogs" "release" "ai" "post1" "http.png" = "http.png".
Proof. repeat split. Qed.

(** ** Related posts: the tokens *)

Definition isTokenChar (c : ascii) : bool := isLower c || isDigit c.

Lemma blankSpecial_chars (s : string) :
  allStr (fun c => isTokenChar c || isSpace c) (mapStr blankSpecial s) = true.
Proof.
  induction s as [|c s IH]; [reflexivity|]. cbn [mapStr allStr]. rewrite IH, andb_true_r.
  unfold blankSpecial, isTokenChar.
  destruct (isLower c || isDigit c || isSpace c) eqn:E; [exact E | reflexivity].
Qed.

Lemma collapseSpaces_chars (inRun : bool) (s : string) :
  allStr (fun c => isTokenChar c || isSpace c) s = true ->
  allStr (fun c => isTokenChar c || Ascii.eqb c " ") (collapseSpaces inRun s) = true.
Proof.
  revert inRun; induction s as [|c s IH]; intros inRun H; [reflexivity|].
  cbn [allStr] in H. apply andb_true_iff in H as [Hc Hs].
  cbn [collapseSpaces]. destruct (isSpace c) eqn:E.
  - destruct inRun; [now apply IH|]. cbn [allStr]. rewrite IH by assumption.
    now rewrite orb_true_r.
  - cbn [allStr]. rewrite IH by assumption. rewrite orb_false_r in Hc. now rewrite Hc.
Qed.

Lemma splitChar_pieces (g : ascii -> bool) (sep : ascii) (s : string) :
  allStr (fun c => g c || Ascii.eqb c sep) s = true ->
  Forall (fun p => allStr g p = true) (splitChar sep s).
Proof.
  induction s as [|c s IH]; intros H; [now repeat constructor|].
  cbn [allStr] in H. apply andb_true_iff in H as [Hc Hs]. specialize (IH Hs).
  cbn [splitChar]. destruct (Ascii.eqb c sep) eqn:E; [now constructor|].
  rewrite orb_false_r in Hc.
  destruct (splitChar sep s) as [|h t].
  - repeat constructor. cbn [allStr]. now rewrite Hc.
  - inversion IH; subst. constructor; [|assumption]. cbn [allStr]. now rewrite Hc.
Qed.

Lemma cleanText_chars (text : string) :
  allStr (fun c => isTokenChar c || Ascii.eqb c " ") (cleanText text) = true.
Proof.
  unfold cleanText. apply allStr_trim, collapseSpaces_chars, blankSpecial_chars.
Qed.

Lemma memStr_In (w : string) (l : list string) : memStr w l = false -> ~ In w l.
Proof.
  intros H Hin. unfold memStr in H.
  assert (Ht : existsb (String.eqb w) l = true)
    by (apply existsb_exists; exists w; split; [assumption | apply String.eqb_refl]).
  congruence.
Qed.

(** X5: every token that [tokenize] gives has three characters or more, is
    made of lower-case ASCII letters and digits only, and is no stop
    word. *)
Theorem tokenize_gives_clean_words (text : string) :
  Forall (fun word =>
            3 <= String.length word /\
            allStr isTokenChar word = true /\
            ~ In word stopWords)
    (tokenize text).
Proof.
  unfold tokenize. apply Forall_forall. intros w Hw.
  apply filter_In in Hw as [Hin Hkeep].
  apply andb_true_iff in Hkeep as [Hlen Hstop].
  apply Nat.ltb_lt in Hlen. apply negb_true_iff in Hstop.
  split; [lia|]. split; [|now apply memStr_In].
  pose proof (splitChar_pieces isTokenChar " " _ (cleanText_chars text)) as Hall.
  rewrite Forall_forall in Hall. now apply Hall.
Qed.

Example tokenize_example :
  tokenize "The <b>Quick</b> brown fox; it's the 42nd-time GPU to be" =
  ["quick"; "brown"; "fox"; "42nd"; "time"; "gpu"].
Proof. vm_compute. reflexivity. Qed.

(** *** Tags *)

Lemma mapStr_app (f : ascii -> ascii) (a b : string) :
  mapStr f (a ++ b) = mapStr f a ++ mapStr f b.
Proof. induction a as [|c a IH]; simpl; congruence. Qed.

Lemma toLowerChar_bracket (c : ascii) :
  (Ascii.eqb (toLowerChar c) "<" = Ascii.eqb c "<") /\
  (Ascii.eqb (toLowerChar c) ">" = Ascii.eqb c ">").
Proof.
  assert (H : allChars (fun c =>
                Bool.eqb (Ascii.eqb (toLowerChar c) "<") (Ascii.eqb c "<") &&
                Bool.eqb (Ascii.eqb (toLowerChar c) ">") (Ascii.eqb c ">")) = true)
    by (vm_compute; reflexivity).
  pose proof (allChars_spec _ H c) as Hc. cbv beta in Hc.
  apply andb_true_iff in Hc as [H1 H2].
  split; now apply Bool.eqb_prop.
Qed.

Lemma toLowerCase_isNot (d : ascii) (s : string) :
  (forall c, Ascii.eqb (toLowerChar c) d = Ascii.eqb c d) ->
  allStr (isNot d) s = true -> allStr (isNot d) (toLowerCase s) = true.
Proof.
  intros Hd. induction s as [|c s IH]; [reflexivity|].
  cbn [allStr toLowerCase mapStr]. intros H. apply andb_true_iff in H as [Hc Hs].
  fold (toLowerCase s). rewrite (IH Hs), andb_true_r.
  unfold isNot in *. now rewrite Hd.
Qed.

Lemma matchTag_tag (tag rest : string) :
  allStr (isNot ">") tag = true ->
  matchTag ("<" ++ tag ++ ">" ++ rest) = Some (tt, rest).
Proof.
  intros H. unfold matchTag. rewrite stripPrefix_app.
  rewrite (span_app (isNot ">") tag (">" ++ rest)) by (assumption || reflexivity).
  now rewrite stripPrefix_app.
Qed.

Lemma matchTag_none (q : string) :
  stripPrefix "<" q = None -> matchTag q = None.
Proof. intros H. unfold matchTag. now rewrite H. Qed.

Lemma removeTags_first (a tag b : string) :
  allStr (isNot "<") a = true -> allStr (isNot ">") tag = true ->
  replaceAll matchTag (fun _ => " ") (a ++ "<" ++ tag ++ ">" ++ b) =
  replaceAll matchTag (fun _ => " ") (a ++ " " ++ b).
Proof.
  intros Ha Htag. unfold replaceAll.
  assert (Hpre : forall r p q, a = p ++ q -> q <> "" -> matchTag (q ++ r) = None).
  { intros r p q -> Hq. apply matchTag_none. destruct q as [|c q]; [congruence|].
    apply allStr_suffix in Ha. cbn [allStr] in Ha. apply andb_true_iff in Ha as [Hc _].
    unfold isNot in Hc. apply negb_true_iff in Hc.
    cbn [append stripPrefix]. rewrite Ascii.eqb_sym. now rewrite Hc. }
  rewrite !(replaceSt_prefix matchTag _ a) by (intros p q Hpq Hq; now apply (Hpre _ p q)).
  cbn [fst].
  replace ("<" ++ tag ++ ">" ++ b) with (("<" ++ tag ++ ">") ++ b)
    by (cbn [append]; now rewrite append_assoc).
  rewrite (replaceSt_match matchTag _ ("<" ++ tag ++ ">") b tt tt);
    [| cbn [append]; rewrite append_assoc; now apply matchTag_tag | discriminate].
  cbn [fst snd].
  change (" " ++ b) with (String " " b).
  rewrite (replaceSt_copy matchTag _ " " b tt) by reflexivity.
  reflexivity.
Qed.

(** X6: a tag gives no token: a text tokenizes as it does with a blank in the
    place of its first tag, whatever the tag holds. *)
Theorem tokenize_ignores_a_tag (a tag b : string) :
  allStr (isNot "<") a = true -> allStr (isNot ">") tag = true ->
  tokenize (a ++ "<" ++ tag ++ ">" ++ b) = tokenize (a ++ " " ++ b).
Proof.
  intros Ha Htag. unfold tokenize, cleanText, toLowerCase.
  rewrite !mapStr_app.
  change (mapStr toLowerChar "<") with "<".
  change (mapStr toLowerChar ">") with ">".
  change (mapStr toLowerChar " ") with " ".
  rewrite removeTags_first; [reflexivity | |].
  - apply toLowerCase_isNot; [|assumption]. intros c. apply toLowerChar_bracket.
  - apply toLowerCase_isNot; [|assumption]. intros c. apply toLowerChar_bracket.
Qed.

Lemma tokenize_ignores_a_tag_witness :
  tokenize ("Fast " ++ "<" ++ "a href='matrix-kernels.html'" ++ ">" ++ "GPU</a> code") =
  tokenize ("Fast " ++ " " ++ "GPU</a> code").
Proof. apply tokenize_ignores_a_tag; reflexivity. Defined.

(** ** Related posts: term frequencies and the cosine *)

Lemma mapSet_keys (k : string) (v : PrimFloat.float) (m : TermMap) :
  map fst (mapSet k v m) = if memStr k (map fst m) then map fst m else (map fst m ++ [k])%list.
Proof.
  induction m as [|[k' v'] m IH]; [reflexivity|].
  cbn [mapSet map fst memStr existsb]. rewrite (String.eqb_sym k k').
  destruct (String.eqb k' k); [reflexivity|].
  cbn [map fst orb]. rewrite IH. unfold memStr.
  now destruct (existsb (String.eqb k) (map fst m)).
Qed.

Lemma countTokens_keys (tokens : list string) (tf : TermMap) :
  map fst
    (fold_left
       (fun tf token =>
          mapSet token (PrimFloat.add (orZero (mapGet token tf)) PrimFloat.one) tf)
       tokens tf) =
  setAddAll (map fst tf) tokens.
Proof.
  revert tf; induction tokens as [|t tokens IH]; intros tf; [reflexivity|].
  cbn [fold_left setAddAll]. rewrite IH, mapSet_keys. reflexivity.
Qed.

Lemma calculateTF_keys (tokens : list string) :
  map fst (calculateTF tokens) = setAddAll [] tokens.
Proof.
  unfold calculateTF, countTokens. rewrite map_map. cbn [fst].
  apply (countTokens_keys tokens []).
Qed.

Lemma memStr_true (k : string) (l : list string) : memStr k l = true <-> In k l.
Proof.
  unfold memStr. rewrite existsb_exists. split.
  - intros (x & Hx & E). apply String.eqb_eq in E. now subst.
  - intros H. exists k. split; [assumption | apply String.eqb_refl].
Qed.

Lemma setAddAll_spec (keys seen : list string) :
  NoDup seen ->
  NoDup (setAddAll seen keys) /\
  (forall k, In k (setAddAll seen keys) <-> In k seen \/ In k keys).
Proof.
  revert seen; induction keys as [|x keys IH]; intros seen Hseen.
  - split; [assumption|]. intros k. cbn [setAddAll In]. tauto.
  - cbn [setAddAll]. destruct (memStr x seen) eqn:E.
    + destruct (IH seen Hseen) as [Hn Hin]. split; [assumption|].
      intros k. rewrite Hin. cbn [In]. apply memStr_true in E.
      split; [tauto|]. intros [H | [<- | H]]; tauto.
    + assert (Hx : ~ In x seen)
        by (intros Hx; apply memStr_true in Hx; congruence).
      destruct (IH (seen ++ [x])%list) as [Hn Hin].
      { apply NoDup_app; [assumption | repeat constructor; intros [] |].
        intros a Ha [<- | []]. contradiction. }
      split; [assumption|]. intros k. rewrite Hin, in_app_iff. cbn [In]. tauto.
Qed.

(** X7: the term-frequency map has one entry for each token of the list
    and no other: no term is entered twice, and the terms stand in the order
    in which they first occur. *)
Theorem calculateTF_has_one_entry_per_term (tokens : list string) :
  NoDup (map fst (calculateTF tokens)) /\
  (forall term, In term (map fst (calculateTF tokens)) <-> In term tokens) /\
  map fst (calculateTF tokens) = setAddAll [] tokens.
Proof.
  rewrite calculateTF_keys.
  destruct (setAddAll_spec tokens [] (NoDup_nil _)) as [Hn Hin].
  split; [assumption|]. split; [|reflexivity].
  intros term. rewrite Hin. cbn [In]. tauto.
Qed.

Example calculateTF_example :
  map fst (calculateTF ["gpu"; "kernel"; "gpu"; "matrix"; "kernel"; "gpu"]) =
  ["gpu"; "kernel"; "matrix"] /\
  map snd (calculateTF ["gpu"; "kernel"; "gpu"; "kernel"]) =
  [PrimFloat.div PrimFloat.one PrimFloat.two; PrimFloat.div PrimFloat.one PrimFloat.two].
Proof. split; vm_compute; reflexivity. Qed.

(** *** A side without terms *)

Lemma cosineSums_right_empty (tf1 : TermMap) (terms : list string)
  (dotProduct norm1 : PrimFloat.float) :
  snd (fold_left
         (fun sums term =>
            let '(dotProduct, norm1, norm2) := sums in
            let v1 := orZero (mapGet term tf1) in
            let v2 := orZero (mapGet term []) in
            (PrimFloat.add dotProduct (PrimFloat.mul v1 v2),
             PrimFloat.add norm1 (PrimFloat.mul v1 v1),
             PrimFloat.add norm2 (PrimFloat.mul v2 v2)))
         terms (dotProduct, norm1, PrimFloat.zero)) = PrimFloat.zero.
Proof.
  revert dotProduct norm1; induction terms as [|t terms IH]; intros d n; [reflexivity|].
  cbn [fold_left mapGet orZero].
  change (PrimFloat.add PrimFloat.zero (PrimFloat.mul PrimFloat.zero PrimFloat.zero))
    with PrimFloat.zero.
  apply IH.
Qed.

Lemma cosineSums_left_empty (tf2 : TermMap) (terms : list string)
  (dotProduct norm2 : PrimFloat.float) :
  snd (fst (fold_left
         (fun sums term =>
            let '(dotProduct, norm1, norm2) := sums in
            let v1 := orZero (mapGet term []) in
            let v2 := orZero (mapGet term tf2) in
            (PrimFloat.add dotProduct (PrimFloat.mul v1 v2),
             PrimFloat.add norm1 (PrimFloat.mul v1 v1),
             PrimFloat.add norm2 (PrimFloat.mul v2 v2)))
         terms (dotProduct, PrimFloat.zero, norm2))) = PrimFloat.zero.
Proof.
  revert dotProduct norm2; induction terms as [|t terms IH]; intros d n; [reflexivity|].
  cbn [fold_left mapGet orZero].
  change (PrimFloat.add PrimFloat.zero (PrimFloat.mul PrimFloat.zero PrimFloat.zero))
    with PrimFloat.zero.
  apply IH.
Qed.

Lemma cosineSimilarity_empty (tf : TermMap) :
  cosineSimilarity tf [] = PrimFloat.zero /\ cosineSimilarity [] tf = PrimFloat.zero.
Proof.
  split; unfold cosineSimilarity, cosineSums.
  - match goal with
    | |- context [fold_left _ ?terms _] =>
        pose proof (cosineSums_right_empty tf terms PrimFloat.zero PrimFloat.zero) as H
    end.
    destruct (fold_left _ _ _) as [[d n1] n2]. cbn [snd] in H. subst n2.
    change (PrimFloat.eqb PrimFloat.zero PrimFloat.zero) with true.
    now rewrite orb_true_r.
  - match goal with
    | |- context [fold_left _ ?terms _] =>
        pose proof (cosineSums_left_empty tf terms PrimFloat.zero PrimFloat.zero) as H
    end.
    destruct (fold_left _ _ _) as [[d n1] n2]. cbn [fst snd] in H. subst n1.
    change (PrimFloat.eqb PrimFloat.zero PrimFloat.zero) with true.
    reflexivity.
Qed.

(** X8: a text without tokens, such as the empty one or one of stop words
    only, is similar to no text: the similarity is zero on either side, and
    no division by a zero norm takes place. *)
Theorem similarity_without_tokens_is_zero (text1 text2 : string) :
  tokenize text2 = [] ->
  textSimilarity text1 text2 = PrimFloat.zero /\
  textSimilarity text2 text1 = PrimFloat.zero.
Proof.
  intros H. unfold textSimilarity. rewrite H.
  change (calculateTF []) with (@nil (string * PrimFloat.float)).
  apply cosineSimilarity_empty.
Qed.

Lemma similarity_without_tokens_is_zero_witness :
  textSimilarity "Matrix kernels on the GPU" "To be, or not to be?" = PrimFloat.zero /\
  textSimilarity "To be, or not to be?" "Matrix kernels on the GPU" = PrimFloat.zero.
Proof.
  apply (similarity_without_tokens_is_zero "Matrix kernels on the GPU" "To be, or not to be?").
  vm_compute. reflexivity.
Defined.

(** The numbers are binary64 floats: a text can be less than 1 similar to
    itself. *)
Example similarity_examples :
  textSimilarity "" "" = PrimFloat.zero /\
  textSimilarity "gpu kernel kernel" "gpu kernel kernel" = PrimFloat.one /\
  PrimFloat.ltb (textSimilarity "gpu kernel" "gpu kernel") PrimFloat.one = true /\
  textSimilarity "gpu kernel" "matrix product" = PrimFloat.zero.
Proof. repeat split; vm_compute; reflexivity. Qed.

(** ** Diagrams: base 64 *)

(** The six-bit digits of a list of bytes, and the padding. *)
Fixpoint sextets (bytes : list nat) : list nat :=
  match bytes with
  | a :: b :: c :: rest =>
      a / 4 :: a mod 4 * 16 + b / 16 :: b mod 16 * 4 + c / 64 :: c mod 64 :: sextets rest
  | [a; b] => [a / 4; a mod 4 * 16 + b / 16; b mod 16 * 4]
  | [a] => [a / 4; a mod 4 * 16]
  | [] => []
  end.

Fixpoint padding (bytes : list nat) : string :=
  match bytes with
  | _ :: _ :: _ :: rest => padding rest
  | [_; _] => "="
  | [_] => "=="
  | [] => ""
  end.

Fixpoint digitsToString (ds : list nat) : string :=
  match ds with
  | [] => ""
  | d :: rest => String (base64Digit d) (digitsToString rest)
  end.

Lemma list_ind3 (P : list nat -> Prop) :
  P [] -> (forall a, P [a]) -> (forall a b, P [a; b]) ->
  (forall a b c rest, P rest -> P (a :: b :: c :: rest)) ->
  forall l, P l.
Proof.
  intros H0 H1 H2 H3.
  assert (H : forall n l, List.length l <= n -> P l).
  { induction n as [|n IH]; intros l Hl.
    - destruct l; [assumption | simpl in Hl; lia].
    - destruct l as [|a [|b [|c rest]]]; try easy.
      apply H3. apply IH. simpl in Hl. lia. }
  intros l. now apply (H (List.length l)).
Qed.

Lemma base64Go_digits (bytes : list nat) :
  forall fuel, List.length bytes < fuel ->
  base64Go fuel bytes = digitsToString (sextets bytes) ++ padding bytes.
Proof.
  induction bytes as [|a|a b|a b c rest IH] using list_ind3; intros fuel Hf;
    (destruct fuel as [|fuel]; [simpl in Hf; lia|]); try reflexivity.
  cbn [base64Go sextets padding digitsToString append].
  rewrite IH by (simpl in Hf; lia). reflexivity.
Qed.

Lemma base64_digits (text : string) :
  base64 text = digitsToString (sextets (utf8Bytes text)) ++ padding (utf8Bytes text).
Proof. unfold base64. apply base64Go_digits. lia. Qed.

Definition isBase64Char (c : ascii) : bool :=
  isUpper c || isLower c || isDigit c || Ascii.eqb c "+" || Ascii.eqb c "/".

(** Every value below 64, one by one. *)
Lemma digit_facts (d : nat) :
  d < 64 ->
  base64Value (base64Digit d) = Some d /\
  isBase64Char (base64Digit d) = true /\
  isAsciiWhitespace (base64Digit d) = false /\
  Ascii.eqb (base64Digit d) "=" = false.
Proof.
  intros Hd.
  assert (H : forallb (fun d =>
                match base64Value (base64Digit d) with
                | Some v => (v =? d)%nat
                | None => false
                end &&
                isBase64Char (base64Digit d) &&
                negb (isAsciiWhitespace (base64Digit d)) &&
                negb (Ascii.eqb (base64Digit d) "=")) (seq 0 64) = true)
    by (vm_compute; reflexivity).
  rewrite forallb_forall in H. specialize (H d).
  assert (Hin : In d (seq 0 64)) by (apply in_seq; lia).
  apply H in Hin.
  apply andb_true_iff in Hin as [Hin H4]. apply andb_true_iff in Hin as [Hin H3].
  apply andb_true_iff in Hin as [H1 H2].
  apply negb_true_iff in H3, H4.
  destruct (base64Value (base64Digit d)) as [v|]; [|discriminate].
  apply Nat.eqb_eq in H1. subst v. repeat split; assumption.
Qed.

Lemma sextets_small (bytes : list nat) :
  Forall (fun b => b < 256) bytes -> Forall (fun d => d < 64) (sextets bytes).
Proof.
  induction bytes as [|a|a b|a b c rest IH] using list_ind3; intros H; cbn [sextets].
  - constructor.
  - inversion H; subst. assert (a mod 4 < 4) by (apply Nat.mod_upper_bound; lia).
    assert (a / 4 < 64) by (apply Nat.Div0.div_lt_upper_bound; lia).
    repeat (apply Forall_cons; [lia|]). apply Forall_nil.
  - inversion H as [|? ? Ha H']; subst. inversion H' as [|? ? Hb _]; subst.
    assert (a mod 4 < 4) by (apply Nat.mod_upper_bound; lia). assert (b mod 16 < 16) by (apply Nat.mod_upper_bound; lia).
    assert (a / 4 < 64) by (apply Nat.Div0.div_lt_upper_bound; lia).
    assert (b / 16 < 16) by (apply Nat.Div0.div_lt_upper_bound; lia).
    repeat (apply Forall_cons; [lia|]). apply Forall_nil.
  - inversion H as [|? ? Ha H']; subst. inversion H' as [|? ? Hb H'']; subst.
    inversion H'' as [|? ? Hc Hrest]; subst.
    assert (a mod 4 < 4) by (apply Nat.mod_upper_bound; lia). assert (b mod 16 < 16) by (apply Nat.mod_upper_bound; lia).
    assert (c mod 64 < 64) by (apply Nat.mod_upper_bound; lia).
    assert (a / 4 < 64) by (apply Nat.Div0.div_lt_upper_bound; lia).
    assert (b / 16 < 16) by (apply Nat.Div0.div_lt_upper_bound; lia).
    assert (c / 64 < 4) by (apply Nat.Div0.div_lt_upper_bound; lia).
    repeat (apply Forall_cons; [lia|]). now apply IH.
Qed.

Lemma group_arith (a b c : nat) :
  a < 256 -> b < 256 -> c < 256 ->
  a / 4 * 4 + (a mod 4 * 16 + b / 16) / 16 = a /\
  (a mod 4 * 16 + b / 16) mod 16 * 16 + (b mod 16 * 4 + c / 64) / 4 = b /\
  (b mod 16 * 4 + c / 64) mod 4 * 64 + c mod 64 = c.
Proof.
  intros.
  pose proof (Nat.div_mod_eq a 4). assert (a mod 4 < 4) by (apply Nat.mod_upper_bound; lia).
  pose proof (Nat.div_mod_eq b 16). assert (b mod 16 < 16) by (apply Nat.mod_upper_bound; lia).
  pose proof (Nat.div_mod_eq c 64). assert (c mod 64 < 64) by (apply Nat.mod_upper_bound; lia).
  assert (b / 16 < 16) by (apply Nat.Div0.div_lt_upper_bound; lia).
  assert (c / 64 < 4) by (apply Nat.Div0.div_lt_upper_bound; lia).
  assert (E1 : (a mod 4 * 16 + b / 16) / 16 = a mod 4)
    by (rewrite Nat.div_add_l by lia; rewrite (Nat.div_small (b / 16)) by lia; lia).
  assert (E2 : (a mod 4 * 16 + b / 16) mod 16 = b / 16)
    by (rewrite Nat.add_comm, Nat.Div0.mod_add; apply Nat.mod_small; lia).
  assert (E3 : (b mod 16 * 4 + c / 64) / 4 = b mod 16)
    by (rewrite Nat.div_add_l by lia; rewrite (Nat.div_small (c / 64)) by lia; lia).
  assert (E4 : (b mod 16 * 4 + c / 64) mod 4 = c / 64)
    by (rewrite Nat.add_comm, Nat.Div0.mod_add; apply Nat.mod_small; lia).
  rewrite E1, E2, E3, E4. lia.
Qed.

Lemma decodeGroups_sextets (bytes : list nat) :
  Forall (fun b => b < 256) bytes -> decodeGroups (sextets bytes) = bytes.
Proof.
  induction bytes as [|a|a b|a b c rest IH] using list_ind3; intros H.
  - reflexivity.
  - inversion H; subst. cbn [sextets decodeGroups].
    rewrite Nat.div_mul by lia. pose proof (Nat.div_mod_eq a 4). f_equal. lia.
  - inversion H as [|? ? Ha H']; subst. inversion H' as [|? ? Hb _]; subst.
    cbn [sextets decodeGroups].
    destruct (group_arith a b 0) as (E1 & _); try lia.
    assert (b / 16 < 16) by (apply Nat.Div0.div_lt_upper_bound; lia).
    assert (a mod 4 < 4) by (apply Nat.mod_upper_bound; lia).
    assert (E2 : (a mod 4 * 16 + b / 16) mod 16 = b / 16)
      by (rewrite Nat.add_comm, Nat.Div0.mod_add; apply Nat.mod_small; lia).
    rewrite E1, E2, Nat.div_mul by lia.
    pose proof (Nat.div_mod_eq b 16). do 2 f_equal. lia.
  - inversion H as [|? ? Ha H']; subst. inversion H' as [|? ? Hb H'']; subst.
    inversion H'' as [|? ? Hc Hrest]; subst.
    cbn [sextets decodeGroups].
    destruct (group_arith a b c) as (E1 & E2 & E3); try lia.
    now rewrite E1, E2, E3, IH.
Qed.

Lemma filterStr_all (f : ascii -> bool) (s : string) :
  allStr f s = true -> filterStr f s = s.
Proof.
  induction s as [|c s IH]; [reflexivity|]. cbn [allStr filterStr]. intros H.
  apply andb_true_iff in H as [Hc Hs]. now rewrite Hc, IH.
Qed.

Lemma length_digitsToString (ds : list nat) :
  String.length (digitsToString ds) = List.length ds.
Proof. induction ds; simpl; congruence. Qed.

Lemma digitsToString_chars (ds : list nat) :
  Forall (fun d => d < 64) ds ->
  allStr (fun c => isBase64Char c && negb (isAsciiWhitespace c) && negb (Ascii.eqb c "="))
    (digitsToString ds) = true.
Proof.
  induction 1 as [|d ds Hd Hds IH]; [reflexivity|].
  cbn [digitsToString allStr]. rewrite IH, andb_true_r.
  destruct (digit_facts d Hd) as (_ & H1 & H2 & H3). now rewrite H1, H2, H3.
Qed.

Lemma base64Values_digits (ds : list nat) :
  Forall (fun d => d < 64) ds -> base64Values (digitsToString ds) = Some ds.
Proof.
  induction 1 as [|d ds Hd Hds IH]; [reflexivity|].
  cbn [digitsToString base64Values]. rewrite IH.
  destruct (digit_facts d Hd) as (H0 & _). now rewrite H0.
Qed.

Lemma dropLastEq_digits (s : string) :
  allStr (fun c => negb (Ascii.eqb c "=")) s = true ->
  dropLastEq s = s /\ dropLastEq (s ++ "=") = s /\ dropLastEq (s ++ "==") = s ++ "=".
Proof.
  induction s as [|c s IH]; [repeat split|].
  cbn [allStr]. intros H. apply andb_true_iff in H as [Hc Hs].
  apply negb_true_iff in Hc. destruct (IH Hs) as (H1 & H2 & H3).
  cbn [append dropLastEq]. rewrite Hc, H1, H2, H3. repeat split.
Qed.

Lemma padding_cases (bytes : list nat) :
  exists k,
    (padding bytes = "" /\ List.length (sextets bytes) = 4 * k) \/
    (padding bytes = "=" /\ List.length (sextets bytes) = 4 * k + 3) \/
    (padding bytes = "==" /\ List.length (sextets bytes) = 4 * k + 2).
Proof.
  induction bytes as [|a|a b|a b c rest IH] using list_ind3.
  - exists 0. now left.
  - exists 0. right. now right.
  - exists 0. right. now left.
  - destruct IH as (k & [(Hp & Hl) | [(Hp & Hl) | (Hp & Hl)]]); exists (S k);
      cbn [padding sextets List.length]; rewrite Hp, Hl;
      [left | right; left | right; right]; split; (reflexivity || lia).
Qed.

Lemma mod4 (k r : nat) : r < 4 -> (4 * k + r) mod 4 = r.
Proof.
  intros H. rewrite Nat.add_comm, Nat.mul_comm, Nat.Div0.mod_add.
  now apply Nat.mod_small.
Qed.

Lemma atob_digits (bytes : list nat) :
  Forall (fun b => b < 256) bytes ->
  atob (digitsToString (sextets bytes) ++ padding bytes) = Some (bytesToString bytes).
Proof.
  intros Hb. pose proof (sextets_small bytes Hb) as Hs.
  pose proof (digitsToString_chars _ Hs) as Hchars.
  assert (Hws : allStr (fun c => negb (isAsciiWhitespace c)) (digitsToString (sextets bytes)) = true).
  { revert Hchars. apply allStr_impl. intros c Hc.
    apply andb_true_iff in Hc as [Hc _]. now apply andb_true_iff in Hc as [_ Hc]. }
  assert (Heq : allStr (fun c => negb (Ascii.eqb c "=")) (digitsToString (sextets bytes)) = true).
  { revert Hchars. apply allStr_impl. intros c Hc. now apply andb_true_iff in Hc as [_ Hc]. }
  destruct (dropLastEq_digits _ Heq) as (D0 & D1 & D2).
  unfold atob.
  rewrite filterStr_all
    by (rewrite allStr_app, Hws; destruct (padding_cases bytes)
          as (k & [(-> & _) | [(-> & _) | (-> & _)]]); reflexivity).
  destruct (padding_cases bytes) as (k & [(Hp & Hl) | [(Hp & Hl) | (Hp & Hl)]]);
    rewrite Hp, ?append_nil_r, ?length_append, length_digitsToString, Hl.
  - assert (E : (4 * k) mod 4 = 0) by (rewrite <- (Nat.add_0_r (4 * k)); apply mod4; lia).
    rewrite E. cbn [Nat.eqb]. rewrite D0, D0, length_digitsToString, Hl, E.
    cbn [Nat.eqb]. now rewrite base64Values_digits, decodeGroups_sextets.
  - replace (4 * k + 3 + String.length "=") with (4 * S k + 0) by (simpl; lia).
    rewrite (mod4 (S k) 0) by lia. cbn [Nat.eqb].
    rewrite D1, D0, length_digitsToString, Hl, (mod4 k 3) by lia.
    cbn [Nat.eqb]. now rewrite base64Values_digits, decodeGroups_sextets.
  - replace (4 * k + 2 + String.length "==") with (4 * S k + 0) by (simpl; lia).
    rewrite (mod4 (S k) 0) by lia. cbn [Nat.eqb].
    rewrite D2, D1, length_digitsToString, Hl, (mod4 k 2) by lia.
    cbn [Nat.eqb]. now rewrite base64Values_digits, decodeGroups_sextets.
Qed.

Lemma utf8Bytes_small (text : string) : Forall (fun b => b < 256) (utf8Bytes text).
Proof.
  induction text as [|c text IH]; [constructor|].
  cbn [utf8Bytes]. apply Forall_app. split; [|assumption].
  unfold utf8, code. pose proof (nat_ascii_bounded c) as Hc.
  destruct (nat_of_ascii c <? 128)%nat eqn:E.
  - apply Forall_cons; [lia | apply Forall_nil].
  - assert (nat_of_ascii c / 64 < 4) by (apply Nat.Div0.div_lt_upper_bound; lia).
    assert (nat_of_ascii c mod 64 < 64) by (apply Nat.mod_upper_bound; lia).
    apply Forall_cons; [lia|]. apply Forall_cons; [lia|]. apply Forall_nil.
Qed.

Lemma utf8Bytes_ascii (text : string) :
  allStr (fun c => (code c <? 128)%nat) text = true ->
  bytesToString (utf8Bytes text) = text.
Proof.
  induction text as [|c text IH]; [reflexivity|].
  cbn [allStr utf8Bytes]. intros H. apply andb_true_iff in H as [Hc Ht].
  unfold utf8. rewrite Hc. cbn [app bytesToString]. rewrite (IH Ht).
  unfold chr, code. now rewrite ascii_nat_embedding.
Qed.

(** X9: the text of a diagram comes back from the attribute: [atob] decodes
    what the mermaid directive wrote to the UTF-8 bytes of the text, one
    character for each byte, and so to the text itself when the text is
    ASCII. *)
Theorem diagram_code_round_trip (text : string) :
  atob (base64 text) = Some (bytesToString (utf8Bytes text)) /\
  (allStr (fun c => (code c <? 128)%nat) text = true ->
   atob (base64 text) = Some text).
Proof.
  assert (H : atob (base64 text) = Some (bytesToString (utf8Bytes text)))
    by (rewrite base64_digits; apply atob_digits, utf8Bytes_small).
  split; [exact H|]. intros Hascii. now rewrite H, utf8Bytes_ascii.
Qed.

Lemma diagram_code_round_trip_witness :
  atob (base64 ("graph TD;" ++ nl ++ "  A[" ++ dq ++ "x < y" ++ dq ++ "] --> B"))
  = Some ("graph TD;" ++ nl ++ "  A[" ++ dq ++ "x < y" ++ dq ++ "] --> B").
Proof.
  apply (proj2 (diagram_code_round_trip
                  ("graph TD;" ++ nl ++ "  A[" ++ dq ++ "x < y" ++ dq ++ "] --> B"))).
  reflexivity.
Defined.

(** X10: whatever the text of a diagram holds, the attribute that the
    mermaid directive writes is made of letters, digits, plus, slash and the
    padding sign only, so that no quote, bracket or line end of the diagram
    reaches the page; its length is a multiple of four. *)
Theorem diagram_attribute_alphabet (text : string) :
  allStr (fun c => isBase64Char c || Ascii.eqb c "=") (base64 text) = true /\
  String.length (base64 text) mod 4 = 0.
Proof.
  rewrite base64_digits.
  pose proof (digitsToString_chars _ (sextets_small _ (utf8Bytes_small text))) as Hchars.
  split.
  - rewrite allStr_app. apply andb_true_iff. split.
    + revert Hchars. apply allStr_impl. intros c Hc.
      apply andb_true_iff in Hc as [Hc _]. apply andb_true_iff in Hc as [Hc _].
      now rewrite Hc.
    + destruct (padding_cases (utf8Bytes text))
        as (k & [(-> & _) | [(-> & _) | (-> & _)]]); reflexivity.
  - rewrite length_append, length_digitsToString.
    destruct (padding_cases (utf8Bytes text))
      as (k & [(-> & ->) | [(-> & ->) | (-> & ->)]]); cbn [String.length].
    + rewrite Nat.add_0_r. rewrite <- (Nat.add_0_r (4 * k)). apply mod4. lia.
    + replace (4 * k + 3 + 1) with (4 * S k + 0) by lia. apply mod4. lia.
    + replace (4 * k + 2 + 2) with (4 * S k + 0) by lia. apply mod4. lia.
Qed.

Example mermaid_directive :
  generateDirectiveHtml "mermaid" "" [] ("graph TD; A-->B") =
  "<div class=" ++ quoted "mermaid-container" ++ "><pre class=" ++ quoted "mermaid" ++
  " data-code=" ++ quoted "Z3JhcGggVEQ7IEEtLT5C" ++ "></pre></div>".
Proof. vm_compute. reflexivity. Qed.

(** ** Prose: what the four resolvers leave alone *)

(** What a replacement writes is made of the characters of the text and of
    the characters that the callback gives. *)
Lemma replaceGo_chars {C St : Type} (m : string -> option (C * string))
  (f : C -> St -> string * St) (g : ascii -> bool) :
  (forall c st, allStr g (fst (f c st)) = true) ->
  forall s skip st, allStr g s = true -> allStr g (fst (replaceGo m f skip s st)) = true.
Proof.
  intros Hf. induction s as [|x s IH]; intros skip st Hs.
  - destruct skip; simpl; [|reflexivity].
    destruct (m "") as [[c rest]|]; [|reflexivity].
    specialize (Hf c st). destruct (f c st) as [out st1].
    now destruct (String.length "" - String.length rest).
  - cbn [allStr] in Hs. apply andb_true_iff in Hs as [Hx Hs].
    destruct skip; [|now apply IH].
    rewrite replaceGo_cons.
    destruct (m (String x s)) as [[c rest]|].
    + specialize (Hf c st). destruct (f c st) as [out st1]. cbn [fst] in Hf.
      destruct (String.length (String x s) - String.length rest) as [|k].
      * specialize (IH 0 st1 Hs). destruct (replaceGo m f 0 s st1) as [o st2].
        cbn [fst] in *. rewrite allStr_app, Hf. cbn [allStr]. now rewrite Hx, IH.
      * specialize (IH k st1 Hs). destruct (replaceGo m f k s st1) as [o st2].
        cbn [fst] in *. now rewrite allStr_app, Hf, IH.
    + specialize (IH 0 st Hs). destruct (replaceGo m f 0 s st) as [o st2].
      cbn [fst] in *. cbn [allStr]. now rewrite Hx, IH.
Qed.

Lemma replaceAll_keeps {C : Type} (m : string -> option (C * string))
  (f : C -> string) (g : ascii -> bool) (s : string) :
  (forall c, allStr g (f c) = true) -> allStr g s = true ->
  allStr g (replaceAll m f s) = true.
Proof.
  intros Hf Hs. unfold replaceAll, replaceSt. apply replaceGo_chars; [|assumption].
  intros c st. apply Hf.
Qed.

(** The normalisation of the line ends writes line feeds only. *)
Lemma normalizeNewlines_chars (g : ascii -> bool) (s : string) :
  g LF = true -> allStr g s = true -> allStr g (normalizeNewlines s) = true.
Proof.
  intros Hg Hs. unfold normalizeNewlines.
  apply replaceAll_keeps; [intros _; unfold nl; cbn [allStr]; now rewrite Hg|].
  apply replaceAll_keeps; [intros _; unfold nl; cbn [allStr]; now rewrite Hg | assumption].
Qed.

Lemma normalizeNewlines_no_CR (s : string) :
  allStr (isNot CR) (normalizeNewlines s) = true.
Proof.
  unfold normalizeNewlines.
  set (t := replaceAll (litK (String CR nl)) (fun _ => nl) s).
  unfold replaceAll, replaceSt. generalize tt. generalize 0.
  induction t as [|x t IH]; intros skip u.
  - destruct skip; reflexivity.
  - destruct skip; [|apply IH].
    rewrite replaceGo_cons. unfold litK at 1. cbn [stripPrefix].
    destruct (Ascii.eqb_spec CR x) as [<-|Hx].
    + replace (String.length (String CR t) - String.length t) with 1
        by (cbn [String.length]; lia).
      specialize (IH 0 u). destruct (replaceGo _ _ 0 t u) as [o st2].
      cbn [fst] in *. exact IH.
    + specialize (IH 0 u). destruct (replaceGo _ _ 0 t u) as [o st2].
      cbn [fst allStr] in *. rewrite IH, andb_true_r.
      unfold isNot. destruct (Ascii.eqb_spec x CR); [congruence | reflexivity].
Qed.

(** The lines of a text, joined again. *)
Lemma join_lines (s : string) : join nl (lines s) = s.
Proof.
  unfold lines. induction s as [|c s IH]; [reflexivity|].
  cbn [splitChar]. destruct (Ascii.eqb_spec c LF) as [->|Hc].
  - assert (Hne : splitChar LF s <> []) by (destruct s; cbn [splitChar];
      [discriminate | destruct (Ascii.eqb _ LF); [discriminate|];
       destruct (splitChar LF s); discriminate]).
    rewrite join_cons by assumption. now rewrite IH.
  - destruct (splitChar LF s) as [|h t] eqn:E.
    + simpl in IH. now subst s.
    + destruct t as [|h' t].
      * simpl in IH |- *. now subst s.
      * rewrite join_cons by discriminate. rewrite join_cons in IH by discriminate.
        cbn [append]. now rewrite IH.
Qed.

(** Prose: a text without dollar, backtick and opening brace, without the
    start of an empty link to an anchor and without the middle of a target
    definition. *)
Definition proseChar (c : ascii) : bool :=
  isNot "$" c && isNot "`" c && isNot "{" c.

Definition prose (s : string) : bool :=
  allStr proseChar s && negb (includes "[](#" s) && negb (includes ")=![" s).

Lemma prose_spec (s : string) :
  prose s = true ->
  allStr proseChar s = true /\ avoids "[](#" s /\ avoids ")=![" s.
Proof.
  unfold prose. intros H.
  apply andb_true_iff in H as [H Hc]. apply andb_true_iff in H as [Hchars Hb].
  apply negb_true_iff in Hb, Hc.
  repeat split; [assumption | |]; intros p q; now apply includes_false.
Qed.

Lemma proseChar_backtick (s : string) :
  allStr proseChar s = true -> allStr (isNot "`") s = true.
Proof.
  apply allStr_impl. intros c Hc. unfold proseChar in Hc.
  apply andb_true_iff in Hc as [Hc _]. now apply andb_true_iff in Hc as [_ Hc].
Qed.

Lemma proseChar_brace (s : string) :
  allStr proseChar s = true -> allStr (isNot "{") s = true.
Proof.
  apply allStr_impl. intros c Hc. unfold proseChar in Hc.
  now apply andb_true_iff in Hc as [_ Hc].
Qed.

Lemma matchMathRole_gate (q : string) :
  stripPrefix "{math" q = None -> matchMathRole q = None.
Proof. intros H. unfold matchMathRole. now rewrite H. Qed.

(** The math resolver finds nothing in prose. *)
Lemma parseMystMath_prose (s : string) :
  allStr proseChar s = true -> avoids "[](#" s ->
  parseMystMathSt s = (s, initialMathState).
Proof.
  intros Hs Hlink. unfold parseMystMathSt.
  apply runPasses_idle. unfold mathPasses.
  assert (Hchars : forall (C : Type) (m : string -> option (C * string)) f L,
             (forall q, stripPrefix L q = None -> m q = None) ->
             allStr proseChar L = false ->
             replaceSt m f s initialMathState = (s, initialMathState)).
  { intros C m f L Hgate HL. apply (replaceSt_avoids m f L); [assumption|].
    now apply (avoids_chars proseChar). }
  apply Forall_app; split; [|apply Forall_app; split].
  - apply Forall_cons; [|apply Forall_cons; [|apply Forall_nil]].
    + apply (Hchars _ _ _ "```{math}"); [|reflexivity].
      intros q Hq. unfold matchBacktickMath, matchFenced. now rewrite Hq.
    + apply (Hchars _ _ _ "$$"); [|reflexivity].
      intros q Hq. unfold matchDollarLabel. now rewrite Hq.
  - apply Forall_forall. intros p Hp.
    apply in_map_iff in Hp as (e & <- & He). apply amsPass_idle.
    apply (avoids_chars proseChar); [|assumption].
    unfold beginEnv. cbn [append allStr]. reflexivity.
  - repeat apply Forall_cons; try apply Forall_nil.
    + apply (Hchars _ _ _ "$$"); [|reflexivity].
      intros q Hq. unfold matchDollar. now rewrite Hq.
    + apply (Hchars _ _ _ "{eq}`"); [|reflexivity].
      intros q Hq. unfold matchEqRole, matchDelimited. now rewrite Hq.
    + apply (replaceSt_avoids _ _ "[](#"); [|assumption].
      intros q Hq. unfold matchEmptyLink, matchDelimited. now rewrite Hq.
    + apply (Hchars _ _ _ "{math"); [|reflexivity]. apply matchMathRole_gate.
    + apply (Hchars _ _ _ "$"); [|reflexivity].
      intros q Hq. unfold matchInlineDollar. now rewrite Hq.
    + apply (Hchars _ _ _ ":::{math}"); [|reflexivity].
      intros q Hq. unfold matchColonMath, matchFenced. now rewrite Hq.
Qed.

(** A replacement by lines that finds no match. *)
Lemma replaceLinesGo_none {C St : Type} (m : bool -> string -> option (C * string))
  (f : C -> St -> string * St) (s : string) :
  (forall bol p q, s = p ++ q -> m bol q = None) ->
  forall bol st, replaceLinesGo m f 0 bol s st = (s, st).
Proof.
  induction s as [|x s IH]; intros H bol st.
  - cbn [replaceLinesGo]. now rewrite (H bol "" "").
  - cbn [replaceLinesGo]. rewrite (H bol "" (String x s)) by reflexivity.
    rewrite IH; [reflexivity|].
    intros b p q ->. now apply (H b (String x p) q).
Qed.

Lemma matchTarget_gate (bol : bool) (q : string) :
  avoids ")=![" q -> matchTarget bol q = None.
Proof.
  intros H. unfold matchTarget. destruct bol; [|reflexivity]. cbn [negb].
  destruct (stripPrefix "(" q) as [s1|] eqn:E1; [|reflexivity].
  apply stripPrefix_Some in E1.
  pose proof (span_spec (isNot ")") s1) as Hs.
  destruct (span (isNot ")") s1) as [targetName s2]. destruct Hs as (E2 & _).
  destruct (isEmpty targetName); [reflexivity|].
  rewrite (H ("(" ++ targetName) s2); [reflexivity|].
  rewrite E1, E2. now rewrite append_assoc.
Qed.

Lemma avoids_suffix (N p q : string) : avoids N (p ++ q) -> avoids N q.
Proof.
  intros H a b Hab. apply (H (p ++ a) b). rewrite Hab. now rewrite append_assoc.
Qed.

(** The figure resolver finds nothing in prose. *)
Lemma parseMystFigures_prose (s : string) :
  allStr (isNot "`") s = true -> avoids ")=![" s -> parseMystFigures s = s.
Proof.
  intros Hs Ht. unfold parseMystFigures, replaceLinesSt.
  rewrite replaceLinesGo_none
    by (intros bol p q ->; apply matchTarget_gate; now apply avoids_suffix in Ht).
  apply (replaceAll_chars _ _ (isNot "`")); [|assumption].
  intros q Hq. unfold matchFigure.
  now rewrite (stripPrefix_allStr (isNot "`") "```{figure}" q eq_refl Hq).
Qed.

(** The directive engine finds no directive in lines without a brace. *)
Lemma matchDirectiveFence_brace (fc : ascii) (line : string) :
  allStr (isNot "{") line = true -> matchDirectiveFence fc line = None.
Proof.
  intros H. unfold matchDirectiveFence.
  pose proof (span_spec (Ascii.eqb fc) line) as Hs.
  destruct (span (Ascii.eqb fc) line) as [fence s1]. destruct Hs as (-> & _).
  apply allStr_suffix in H.
  rewrite (stripPrefix_allStr (isNot "{") "{" s1 eq_refl H).
  now destruct (negb _).
Qed.

Lemma directiveLoop_plain (rec : string -> string) (ls : list string) :
  Forall (fun l => matchDirective l = None) ls -> directiveLoop rec 0 ls = ls.
Proof.
  induction 1 as [|l ls Hl Hls IH]; [reflexivity|].
  cbn [directiveLoop]. now rewrite Hl, IH.
Qed.

Lemma parseMystDirectives_plain (s : string) :
  Forall (fun l => matchDirective l = None) (lines (normalizeNewlines s)) ->
  parseMystDirectives s = normalizeNewlines s.
Proof.
  intros H. unfold parseMystDirectives. cbn [parseMystDirectivesFuel].
  rewrite directiveLoop_plain by assumption. apply join_lines.
Qed.

Lemma parseMystDirectives_prose (s : string) :
  allStr (isNot "{") s = true -> parseMystDirectives s = normalizeNewlines s.
Proof.
  intros H. apply parseMystDirectives_plain.
  pose proof (normalizeNewlines_chars (isNot "{") s eq_refl H) as Hn.
  pose proof (allStr_splitChar _ LF _ Hn) as Hl. fold (lines (normalizeNewlines s)) in Hl.
  revert Hl. apply Forall_impl. intros l Hl. unfold matchDirective.
  now rewrite !matchDirectiveFence_brace.
Qed.

(** The role engine finds nothing in a text without backtick. *)
Lemma parseMystRoles_prose (s : string) :
  allStr (isNot "`") s = true -> parseMystRoles s = s.
Proof.
  intros H. unfold parseMystRoles.
  repeat first
    [ rewrite (replaceAll_chars (matchRoleArg _ _ _) _ (isNot "`") s)
        by (assumption || (intros q Hq; now apply matchRoleArg_idle))
    | rewrite (replaceAll_chars (matchRoles _) _ (isNot "`") s)
        by (assumption || (intros q Hq; now apply matchRoles_idle))
    | rewrite (replaceAll_chars matchAbbrParen _ (isNot "`") s)
        by (assumption || (intros q Hq; now apply matchAbbrParen_idle)) ].
  reflexivity.
Qed.

(** X11: prose goes through the four resolvers as it is, but for its line
    ends, which become line feeds: a text without dollar, backtick and
    opening brace, without the start [[](#] of an empty link and without the
    middle [)=![] of a target definition holds no math, no figure, no
    directive and no role. *)
Theorem prose_is_left_alone (s : string) :
  prose s = true ->
  parseMystMath s = s /\ parseMystFigures s = s /\
  parseMystDirectives s = normalizeNewlines s /\
  renderMyst s = normalizeNewlines s.
Proof.
  intros H. apply prose_spec in H as (Hchars & Hlink & Htarget).
  pose proof (proseChar_backtick s Hchars) as Hb.
  pose proof (proseChar_brace s Hchars) as Hbrace.
  assert (Hm : parseMystMath s = s)
    by (unfold parseMystMath; now rewrite parseMystMath_prose).
  assert (Hf : parseMystFigures s = s) by now apply parseMystFigures_prose.
  assert (Hd : parseMystDirectives s = normalizeNewlines s)
    by now apply parseMystDirectives_prose.
  repeat split; try assumption.
  unfold renderMyst. rewrite Hm, Hf, Hd.
  apply parseMystRoles_prose. now apply normalizeNewlines_chars.
Qed.

Lemma prose_is_left_alone_witness :
  renderMyst ("# Matrix cores" ++ String CR nl ++ "See [the guide](#intro) (v2)." ++ nl ++
              "Cost: 3 * n^2 :: done" ++ nl) =
  "# Matrix cores" ++ nl ++ "See [the guide](#intro) (v2)." ++ nl ++
  "Cost: 3 * n^2 :: done" ++ nl.
Proof.
  rewrite (proj2 (proj2 (proj2 (prose_is_left_alone
             ("# Matrix cores" ++ String CR nl ++ "See [the guide](#intro) (v2)." ++ nl ++
              "Cost: 3 * n^2 :: done" ++ nl) eq_refl)))).
  vm_compute. reflexivity.
Defined.

(** ** Directive engine: a fence that is never closed *)

(** A closing fence of one of the four kinds. *)
Definition isFenceLine (l : string) : bool :=
  isClosing ":" 3 l || isClosing ":" 4 l || isClosing "`" 3 l || isClosing "`" 4 l.

Lemma matchDirectiveFence_length (fc : ascii) (line : string) (n : nat)
  (name title : string) :
  matchDirectiveFence fc line = Some (n, name, title) -> n = 3 \/ n = 4.
Proof.
  unfold matchDirectiveFence.
  destruct (span (Ascii.eqb fc) line) as [fence s1].
  destruct (String.length fence =? 3)%nat eqn:E3;
    [apply Nat.eqb_eq in E3 | destruct (String.length fence =? 4)%nat eqn:E4;
                               [apply Nat.eqb_eq in E4 | discriminate]];
    cbn [orb negb];
    (destruct (stripPrefix "{" s1) as [s2|]; [|discriminate]);
    (destruct (span isNameChar s2) as [nm s3]);
    (destruct (isEmpty nm); [discriminate|]);
    (destruct (stripPrefix "}" s3) as [s4|]; [|discriminate]);
    (destruct (allStr _ _); [|discriminate]);
    intros H; inversion H; subst; tauto.
Qed.

Lemma matchDirective_fence (line : string) (fc : ascii) (n : nat) (name title : string) :
  matchDirective line = Some (fc, n, name, title) ->
  (fc = ":"%char \/ fc = "`"%char) /\ (n = 3 \/ n = 4).
Proof.
  unfold matchDirective.
  destruct (matchDirectiveFence ":" line) as [[[n1 name1] title1]|] eqn:E1.
  - intros H. inversion H; subst. split; [now left|].
    now apply matchDirectiveFence_length in E1.
  - destruct (matchDirectiveFence "`" line) as [[[n2 name2] title2]|] eqn:E2;
      [|discriminate].
    intros H. inversion H; subst. split; [now right|].
    now apply matchDirectiveFence_length in E2.
Qed.

Lemma findEnd_unclosed (fc : ascii) (fenceLen : nat) (ls : list string) :
  Forall (fun l => isClosing fc fenceLen l = false) ls ->
  forall depth, findEnd fc fenceLen depth ls = None.
Proof.
  induction 1 as [|l ls Hl Hls IH]; intros depth; [reflexivity|].
  cbn [findEnd]. rewrite Hl, !IH. now destruct (isOpening fc fenceLen l).
Qed.

Lemma isFenceLine_closing (l : string) (fc : ascii) (n : nat) :
  isFenceLine l = false -> (fc = ":"%char \/ fc = "`"%char) -> (n = 3 \/ n = 4) ->
  isClosing fc n l = false.
Proof.
  unfold isFenceLine. intros H Hfc Hn.
  apply orb_false_iff in H as [H H4]. apply orb_false_iff in H as [H H3].
  apply orb_false_iff in H as [H1 H2].
  destruct Hfc as [-> | ->], Hn as [-> | ->]; assumption.
Qed.

Lemma directiveLoop_unclosed (rec : string -> string) (ls : list string) :
  Forall (fun l => isFenceLine l = false) ls -> directiveLoop rec 0 ls = ls.
Proof.
  induction 1 as [|l ls Hl Hls IH]; [reflexivity|].
  cbn [directiveLoop]. rewrite IH.
  destruct (matchDirective l) as [[[[fc n] name] title]|] eqn:E; [|reflexivity].
  apply matchDirective_fence in E as [Hfc Hn].
  rewrite findEnd_unclosed; [reflexivity|].
  revert Hls. apply Forall_impl. intros l' Hl'. now apply isFenceLine_closing.
Qed.

(** X12: a document without a closing fence (a line of three or four colons
    or backticks and then white space only) is left as it is, but for its
    line ends: a directive that is opened and never closed is not rendered,
    and it takes none of the lines after it. *)
Theorem unclosed_directives_are_left_as_text (content : string) :
  existsb isFenceLine (lines (normalizeNewlines content)) = false ->
  parseMystDirectives content = normalizeNewlines content.
Proof.
  intros H. unfold parseMystDirectives. cbn [parseMystDirectivesFuel].
  rewrite directiveLoop_unclosed; [apply join_lines|].
  apply Forall_forall. intros l Hl.
  destruct (isFenceLine l) eqn:E; [|reflexivity].
  assert (Ht : existsb isFenceLine (lines (normalizeNewlines content)) = true)
    by (apply existsb_exists; now exists l).
  congruence.
Qed.

Lemma unclosed_directives_are_left_as_text_witness :
  parseMystDirectives
    (":::{note} Read this" ++ nl ++ ":class: wide" ++ nl ++ "The note goes on" ++ nl ++
     "```{tip}" ++ nl ++ "and on." ++ nl ++ ":: :::" ++ nl) =
  ":::{note} Read this" ++ nl ++ ":class: wide" ++ nl ++ "The note goes on" ++ nl ++
  "```{tip}" ++ nl ++ "and on." ++ nl ++ ":: :::" ++ nl.
Proof.
  rewrite (unclosed_directives_are_left_as_text
             (":::{note} Read this" ++ nl ++ ":class: wide" ++ nl ++ "The note goes on" ++ nl ++
              "```{tip}" ++ nl ++ "and on." ++ nl ++ ":: :::" ++ nl) eq_refl).
  vm_compute. reflexivity.
Defined.

(** ** Directive engine: nesting to any depth *)


Definition fourLevels : list Block :=
  [ TextLine "Intro";
    Nested "note" "Outer" [":class: wide"]
      [ TextLine "one";
        Nested "tip" "" []
          [ Nested "note" "" [""]
              [ TextLine "three";
                Nested "warning" "Deep" [] [ TextLine "four" ] ];
            TextLine "two again" ];
        Nested "card" "" [] [ TextLine "a card" ] ];
    TextLine "";
    TextLine "Outro" ].


Example fourLevels_lines :
  flat_map (render ":" 3) fourLevels =
  [ "Intro"; ":::{note} Outer"; ":class: wide"; "one"; ":::{tip}"; ":::{note}"; "";
    "three"; ":::{warning} Deep"; "four"; ":::"; ":::"; "two again"; ":::";
    ":::{card}"; "a card"; ":::"; ":::"; ""; "Outro" ].
Proof. vm_compute. reflexivity. Qed.

(** ** Directive engine: the recursion *)

Lemma normalizeNewlines_twice (s : string) :
  normalizeNewlines (normalizeNewlines s) = normalizeNewlines s.
Proof. apply normalizeNewlines_id, normalizeNewlines_no_CR. Qed.

(** X16: the engine is the loop of its source over the lines of the
    document, with the engine itself for the bodies: the recursion into a
    body always comes to an end, because a body is shorter than the document
    it is cut from. *)
Theorem directive_engine_unfolds (content : string) :
  parseMystDirectives content =
  join nl (directiveLoop parseMystDirectives 0 (lines (normalizeNewlines content))).
Proof.
  unfold parseMystDirectives at 1. cbn [parseMystDirectivesFuel]. f_equal.
  apply (directiveLoop_ext _ _ (String.length content)).
  - intros b Hb. now apply parseMystDirectivesFuel_enough.
  - rewrite cost_lines. pose proof (length_normalizeNewlines content). lia.
Qed.

(** X17: the line ends of a document make no difference: two documents
    with the same lines, one with carriage returns and line feeds or with
    carriage returns alone and the other with line feeds, are rendered to
    the same text. *)
Theorem line_ends_make_no_difference (a b : string) :
  normalizeNewlines a = normalizeNewlines b ->
  parseMystDirectives a = parseMystDirectives b.
Proof.
  intros H. unfold parseMystDirectives. cbn [parseMystDirectivesFuel].
  rewrite <- H. f_equal.
  pose proof (length_normalizeNewlines a) as Ha.
  pose proof (length_normalizeNewlines b) as Hb. rewrite <- H in Hb.
  apply (directiveLoop_ext _ _ (String.length (normalizeNewlines a))).
  - intros body Hbody.
    rewrite !parseMystDirectivesFuel_enough by lia. reflexivity.
  - rewrite cost_lines. lia.
Qed.

Lemma line_ends_make_no_difference_witness :
  parseMystDirectives
    (":::{note}" ++ String CR nl ++ "Mind the gap" ++ String CR nl ++ ":::" ++ String CR "" ++
     "after") =
  parseMystDirectives (":::{note}" ++ nl ++ "Mind the gap" ++ nl ++ ":::" ++ nl ++ "after").
Proof.
  apply (line_ends_make_no_difference
           (":::{note}" ++ String CR nl ++ "Mind the gap" ++ String CR nl ++ ":::" ++
            String CR "" ++ "after")
           (":::{note}" ++ nl ++ "Mind the gap" ++ nl ++ ":::" ++ nl ++ "after")).
  vm_compute. reflexivity.
Defined.

(** ** Role engine: the typography roles *)

(** One role with a plain text, whatever its name: the passes before the
    one that knows the name leave it, that pass writes its element, and the
    passes after it find no backtick. *)
Lemma abbrParen_pass_idle (written : string) (f : string * string -> string)
  (text : string) :
  otherRole written "abbr" = true -> avoids "{" text ->
  replaceAll matchAbbrParen f (roleOpen written ++ text ++ "`")
  = roleOpen written ++ text ++ "`".
Proof.
  intros Hw Htext.
  apply (replaceAll_avoids _ _ (roleOpen "abbr")); [|now apply role_avoids_other].
  intros q Hq. unfold matchAbbrParen. unfold roleOpen in Hq. cbn [append] in Hq.
  now rewrite Hq.
Qed.

Ltac role_passes written :=
  repeat first
    [ rewrite (roleArg_pass_idle written) by (reflexivity || assumption)
    | rewrite (roles_pass_idle written) by (reflexivity || assumption)
    | rewrite (abbrParen_pass_idle written) by (reflexivity || assumption) ].

Ltac role_fires written roles :=
  rewrite (roles_pass_fires written roles)
    by (repeat (rewrite matchRoles_cons;
                first [ now rewrite matchDelimited_role
                      | match goal with
                        | |- context [matchDelimited (roleOpen ?r) "`" (roleOpen written ++ ?t ++ "`")] =>
                            change (matchDelimited (roleOpen r) "`" (roleOpen written ++ t ++ "`"))
                              with (@None (string * string))
                        end ])).

Lemma tagged_chars (openTag closeTag text : string) :
  allStr (isNot "`") openTag = true -> allStr (isNot "`") closeTag = true ->
  allStr (isNot "`") text = true ->
  allStr (isNot "`") (tagged openTag closeTag text) = true.
Proof. intros H1 H2 H3. unfold tagged. now rewrite !allStr_app, H1, H2, H3. Qed.

Lemma typography_sub (text : string) :
  roleText text = true ->
  parseMystRoles (roleOpen "sub" ++ text ++ "`") = tagged "<sub>" "</sub>" text /\
  parseMystRoles (roleOpen "subscript" ++ text ++ "`") = tagged "<sub>" "</sub>" text.
Proof.
  intros H. apply roleText_spec in H as (Hne & Hchars & Hbrace).
  pose proof (tagged_chars "<sub>" "</sub>" text eq_refl eq_refl Hchars) as Hout1.
  pose proof (tagged_chars "<sub>" "</sub>" text eq_refl eq_refl Hchars) as Hout2.
  split; unfold parseMystRoles.
  - role_passes "sub". role_fires "sub" ["sub"].
    repeat role_idle (tagged "<sub>" "</sub>" text). reflexivity.
  - role_passes "subscript". role_fires "subscript" ["sub"; "subscript"].
    repeat role_idle (tagged "<sub>" "</sub>" text). reflexivity.
Qed.

Lemma typography_sup (text : string) :
  roleText text = true ->
  parseMystRoles (roleOpen "sup" ++ text ++ "`") = tagged "<sup>" "</sup>" text /\
  parseMystRoles (roleOpen "superscript" ++ text ++ "`") = tagged "<sup>" "</sup>" text.
Proof.
  intros H. apply roleText_spec in H as (Hne & Hchars & Hbrace).
  pose proof (tagged_chars "<sup>" "</sup>" text eq_refl eq_refl Hchars) as Hout1.
  pose proof (tagged_chars "<sup>" "</sup>" text eq_refl eq_refl Hchars) as Hout2.
  split; unfold parseMystRoles.
  - role_passes "sup". role_fires "sup" ["sup"].
    repeat role_idle (tagged "<sup>" "</sup>" text). reflexivity.
  - role_passes "superscript". role_fires "superscript" ["sup"; "superscript"].
    repeat role_idle (tagged "<sup>" "</sup>" text). reflexivity.
Qed.

Lemma typography_del (text : string) :
  roleText text = true ->
  parseMystRoles (roleOpen "del" ++ text ++ "`") = tagged "<del>" "</del>" text /\
  parseMystRoles (roleOpen "strike" ++ text ++ "`") = tagged "<del>" "</del>" text.
Proof.
  intros H. apply roleText_spec in H as (Hne & Hchars & Hbrace).
  pose proof (tagged_chars "<del>" "</del>" text eq_refl eq_refl Hchars) as Hout1.
  pose proof (tagged_chars "<del>" "</del>" text eq_refl eq_refl Hchars) as Hout2.
  split; unfold parseMystRoles.
  - role_passes "del". role_fires "del" ["del"].
    repeat role_idle (tagged "<del>" "</del>" text). reflexivity.
  - role_passes "strike". role_fires "strike" ["del"; "strike"].
    repeat role_idle (tagged "<del>" "</del>" text). reflexivity.
Qed.

Lemma typography_u (text : string) :
  roleText text = true ->
  parseMystRoles (roleOpen "u" ++ text ++ "`") = tagged "<u>" "</u>" text /\
  parseMystRoles (roleOpen "underline" ++ text ++ "`") = tagged "<u>" "</u>" text.
Proof.
  intros H. apply roleText_spec in H as (Hne & Hchars & Hbrace).
  pose proof (tagged_chars "<u>" "</u>" text eq_refl eq_refl Hchars) as Hout1.
  pose proof (tagged_chars "<u>" "</u>" text eq_refl eq_refl Hchars) as Hout2.
  split; unfold parseMystRoles.
  - role_passes "u". role_fires "u" ["u"].
    repeat role_idle (tagged "<u>" "</u>" text). reflexivity.
  - role_passes "underline". role_fires "underline" ["u"; "underline"].
    repeat role_idle (tagged "<u>" "</u>" text). reflexivity.
Qed.

Lemma typography_sc (text : string) :
  roleText text = true ->
  parseMystRoles (roleOpen "sc" ++ text ++ "`") = tagged ("<span style=" ++ quoted "font-variant: small-caps;" ++ ">") "</span>" text /\
  parseMystRoles (roleOpen "smallcaps" ++ text ++ "`") = tagged ("<span class=" ++ quoted "smallcaps" ++ ">") "</span>" text.
Proof.
  intros H. apply roleText_spec in H as (Hne & Hchars & Hbrace).
  pose proof (tagged_chars ("<span style=" ++ quoted "font-variant: small-caps;" ++ ">") "</span>" text eq_refl eq_refl Hchars) as Hout1.
  pose proof (tagged_chars ("<span class=" ++ quoted "smallcaps" ++ ">") "</span>" text eq_refl eq_refl Hchars) as Hout2.
  split; unfold parseMystRoles.
  - role_passes "sc". role_fires "sc" ["sc"].
    repeat role_idle (tagged ("<span style=" ++ quoted "font-variant: small-caps;" ++ ">") "</span>" text). reflexivity.
  - role_passes "smallcaps". role_fires "smallcaps" ["sc"; "smallcaps"].
    repeat role_idle (tagged ("<span class=" ++ quoted "smallcaps" ++ ">") "</span>" text). reflexivity.
Qed.

(** X14: the short and the long name of a typography role give the same
    element for subscript, superscript, deletion and underline, whatever the
    text of the role; for small capitals they do not: [sc] gives a span with
    an inline style, written by the first pass for that role, and
    [smallcaps] a span with a class. *)
Theorem typography_roles_by_either_name (text : string) :
  roleText text = true ->
  let rendered role := parseMystRoles ("{" ++ role ++ "}`" ++ text ++ "`") in
  rendered "sub" = "<sub>" ++ text ++ "</sub>" /\
  rendered "subscript" = "<sub>" ++ text ++ "</sub>" /\
  rendered "sup" = "<sup>" ++ text ++ "</sup>" /\
  rendered "superscript" = "<sup>" ++ text ++ "</sup>" /\
  rendered "del" = "<del>" ++ text ++ "</del>" /\
  rendered "strike" = "<del>" ++ text ++ "</del>" /\
  rendered "u" = "<u>" ++ text ++ "</u>" /\
  rendered "underline" = "<u>" ++ text ++ "</u>" /\
  rendered "sc" =
    "<span style=" ++ quoted "font-variant: small-caps;" ++ ">" ++ text ++ "</span>" /\
  rendered "smallcaps" = "<span class=" ++ quoted "smallcaps" ++ ">" ++ text ++ "</span>".
Proof.
  intros H rendered. subst rendered. cbv beta.
  destruct (typography_sub text H) as [H1 H2].
  destruct (typography_sup text H) as [H3 H4].
  destruct (typography_del text H) as [H5 H6].
  destruct (typography_u text H) as [H7 H8].
  destruct (typography_sc text H) as [H9 H10].
  unfold tagged, roleOpen in *. rewrite !append_assoc in *.
  repeat split; assumption.
Qed.

Lemma typography_roles_by_either_name_witness :
  parseMystRoles "{sub}`2`" = "<sub>2</sub>" /\
  parseMystRoles "{strike}`old text`" = "<del>old text</del>" /\
  parseMystRoles "{sc}`Rocm`" =
    "<span style=" ++ quoted "font-variant: small-caps;" ++ ">Rocm</span>" /\
  parseMystRoles "{smallcaps}`Rocm`" = "<span class=" ++ quoted "smallcaps" ++ ">Rocm</span>".
Proof.
  split; [|split; [|split]].
  - exact (proj1 (typography_roles_by_either_name "2" eq_refl)).
  - exact (proj1 (proj2 (proj2 (proj2 (proj2 (proj2
             (typography_roles_by_either_name "old text" eq_refl))))))).
  - exact (proj1 (proj2 (proj2 (proj2 (proj2 (proj2 (proj2 (proj2 (proj2
             (typography_roles_by_either_name "Rocm" eq_refl)))))))))).
  - exact (proj2 (proj2 (proj2 (proj2 (proj2 (proj2 (proj2 (proj2 (proj2
             (typography_roles_by_either_name "Rocm" eq_refl)))))))))).
Defined.

(** ** Glossary terms and the role that points at them *)

Lemma dashRuns_chars (g : ascii -> bool) (inRun : bool) (s : string) :
  g "-"%char = true -> (forall c, isLower c || isDigit c = true -> g c = true) ->
  allStr g (dashRuns inRun s) = true.
Proof.
  intros Hd Hg. revert inRun; induction s as [|c s IH]; intros inRun; [reflexivity|].
  cbn [dashRuns]. destruct (isLower c || isDigit c) eqn:E.
  - cbn [allStr]. now rewrite (Hg c E), IH.
  - destruct inRun; [apply IH|]. cbn [allStr]. now rewrite Hd, IH.
Qed.

Lemma termId_chars (term : string) : allStr (isNot "`") (termId term) = true.
Proof.
  unfold termId. rewrite allStr_app. cbn [allStr andb].
  change (allStr (isNot "`") "term-") with true. cbn [andb].
  apply dashRuns_chars; [reflexivity|].
  intros c Hc.
  assert (H : allChars (fun c => negb (isLower c || isDigit c) || isNot "`" c) = true)
    by (vm_compute; reflexivity).
  pose proof (allChars_spec _ H c) as Hall. cbv beta in Hall. now rewrite Hc in Hall.
Qed.

(** The text of a term: one line, not empty, without white space at its
    ends, without backtick, brace and angle bracket. *)
Definition termText (term : string) : bool :=
  roleText term && allStr (fun c => isNot "<" c && isNot LF c) term
  && String.eqb (trim term) term.

Lemma termText_spec (term : string) :
  termText term = true ->
  roleText term = true /\ allStr (isNot "<") term = true /\
  allStr (isNot LF) term = true /\ trim term = term.
Proof.
  unfold termText. intros H.
  apply andb_true_iff in H as [H Ht]. apply andb_true_iff in H as [Hr Hc].
  apply String.eqb_eq in Ht. repeat split; try assumption.
  - revert Hc. apply allStr_impl. intros c H. now apply andb_true_iff in H.
  - revert Hc. apply allStr_impl. intros c H. now apply andb_true_iff in H.
Qed.

Definition termLink (target display : string) : string :=
  "<a href=" ++ quoted ("#" ++ termId target) ++ " class=" ++ quoted "myst-term" ++
  " title=" ++ quoted ("Term: " ++ target) ++ ">" ++ display ++ "</a>".

Lemma termLink_chars (target display : string) :
  allStr (isNot "`") target = true -> allStr (isNot "`") display = true ->
  allStr (isNot "`") (termLink target display) = true.
Proof.
  intros Ht Hd. unfold termLink, quoted.
  rewrite !allStr_app, termId_chars, Ht, Hd. reflexivity.
Qed.

Lemma matchRoleArg_plain (role : string) (open close : ascii) (text : string) :
  text <> "" -> allStr (isNot "`") text = true -> allStr (isNot open) text = true ->
  matchRoleArg role open close (roleOpen role ++ text ++ "`") = Some ((text, None), "").
Proof.
  intros Hne Hb Ho. unfold matchRoleArg. fold (roleOpen role). rewrite stripPrefix_app.
  rewrite (span_app (fun c => isNot "`" c && isNot open c) text "`").
  - destruct text; [congruence | reflexivity].
  - clear Hne. induction text as [|c text IH]; [reflexivity|].
    cbn [allStr] in *. apply andb_true_iff in Hb as [Hc Hb].
    apply andb_true_iff in Ho as [Hc' Ho]. now rewrite Hc, Hc', IH.
  - reflexivity.
Qed.

Lemma term_role (term : string) :
  termText term = true ->
  parseMystRoles (roleOpen "term" ++ term ++ "`") = termLink term term.
Proof.
  intros H. apply termText_spec in H as (Hr & Hangle & _ & Htrim).
  apply roleText_spec in Hr as (Hne & Hchars & Hbrace).
  pose proof (termLink_chars term term Hchars Hchars) as Hout.
  unfold parseMystRoles.
  rewrite (roleArg_pass_idle "term" "button") by (reflexivity || assumption).
  rewrite <- (append_nil_r (roleOpen "term" ++ term ++ "`")).
  rewrite (replaceAll_match (matchRoleArg "term" "<" ">") _
             (roleOpen "term" ++ term ++ "`") "" (term, None));
    [| rewrite append_nil_r; now apply matchRoleArg_plain | discriminate].
  match goal with
  | |- context [replaceAll (matchRoleArg "term" "<" ">") ?f ""] =>
      change (replaceAll (matchRoleArg "term" "<" ">") f "") with ""
  end.
  cbn [fst snd]. rewrite Htrim, append_nil_r. fold (termLink term term).
  repeat role_idle (termLink term term). reflexivity.
Qed.

Lemma trimmed_first (c : ascii) (r : string) :
  trim (String c r) = String c r -> isSpace c = false.
Proof.
  intros H. destruct (isSpace c) eqn:E; [|reflexivity]. exfalso.
  apply (f_equal String.length) in H.
  pose proof (length_trimEnd (trimStart (String c r))) as H1.
  unfold trim in H. unfold trimStart, dropWhile in H, H1. cbn [span] in H, H1.
  rewrite E in H, H1.
  pose proof (length_span_snd isSpace r) as H2.
  destruct (span isSpace r) as [a b]. cbn [snd String.length] in *. lia.
Qed.

Lemma glossary_entry (term definition : string) :
  termText term = true -> colonSpaces term = None ->
  allStr (isNot LF) definition = true -> trim definition <> "" ->
  glossaryLines (lines (term ++ nl ++ "  " ++ definition))
    ("<dl class=" ++ quoted "myst-glossary" ++ ">") "" =
  "<dl class=" ++ quoted "myst-glossary" ++ ">" ++
  "<dt id=" ++ quoted (termId term) ++ ">" ++ term ++ "</dt>" ++
  "<dd>" ++ trim definition ++ "</dd>".
Proof.
  intros H Hcolon Hdef Hblank. apply termText_spec in H as (Hr & _ & Hline & Htrim).
  apply roleText_spec in Hr as (Hne & _ & _).
  unfold lines.
  change (term ++ nl ++ "  " ++ definition) with (term ++ String LF ("  " ++ definition)).
  rewrite splitChar_app by assumption.
  rewrite splitChar_none
    by (cbn [append allStr]; now rewrite Hdef).
  assert (Hfirst : startsWith " " term = false /\ startsWith (String (chr 9) "") term = false).
  { destruct term as [|c r]; [congruence|].
    pose proof (trimmed_first c r Htrim) as Hc.
    unfold startsWith. cbn [stripPrefix].
    split; [destruct (Ascii.eqb_spec " " c) as [<-|] | destruct (Ascii.eqb_spec (chr 9) c) as [<-|]];
      try reflexivity; discriminate. }
  destruct Hfirst as [Hsp Htab].
  assert (Htrim2 : trim ("  " ++ definition) = trim definition).
  { unfold trim, trimStart. cbn [append]. now rewrite !dropWhile_cons by reflexivity. }
  cbn [glossaryLines]. rewrite Htrim, Hcolon, Hsp, Htab.
  destruct term as [|c r] eqn:Eterm; [congruence|]. rewrite <- Eterm in *.
  assert (Htruthy : truthy term = true) by now rewrite Eterm.
  rewrite Htruthy. cbn [negb orb].
  rewrite Htrim2.
  destruct (trim definition) as [|d ds] eqn:Ed; [congruence|].
  cbn [truthy isEmpty negb].
  change (colonSpaces ("  " ++ definition)) with (@None string).
  change (startsWith " " ("  " ++ definition)) with true.
  cbn [orb]. rewrite Htrim2. now rewrite !append_assoc.
Qed.

(** X15: the [term] role points at the entry that the glossary directive
    writes for the same term: the anchor of the link is the id of the entry,
    made from the term in lower case with every run of other characters as
    one dash. *)
Theorem term_role_points_at_glossary_entry (term definition title : string)
  (options : list string) :
  termText term = true -> colonSpaces term = None ->
  allStr (isNot LF) definition = true -> trim definition <> "" ->
  parseMystRoles ("{term}`" ++ term ++ "`") =
    "<a href=" ++ quoted ("#" ++ termId term) ++ " class=" ++ quoted "myst-term" ++
    " title=" ++ quoted ("Term: " ++ term) ++ ">" ++ term ++ "</a>" /\
  generateDirectiveHtml "glossary" title options (term ++ nl ++ "  " ++ definition) =
    "<dl class=" ++ quoted "myst-glossary" ++ ">" ++
    "<dt id=" ++ quoted (termId term) ++ ">" ++ term ++ "</dt>" ++
    "<dd>" ++ trim definition ++ "</dd>" ++ "</dl>".
Proof.
  intros Hterm Hcolon Hdef Hblank. split.
  - exact (term_role term Hterm).
  - change (generateDirectiveHtml "glossary" title options (term ++ nl ++ "  " ++ definition))
      with (glossaryLines (lines (term ++ nl ++ "  " ++ definition))
              ("<dl class=" ++ quoted "myst-glossary" ++ ">") "" ++ "</dl>").
    rewrite glossary_entry by assumption. now rewrite !append_assoc.
Qed.

Lemma term_role_points_at_glossary_entry_witness :
  parseMystRoles "{term}`Wavefront (GPU)`" =
    "<a href=" ++ quoted "#term-wavefront-gpu-" ++ " class=" ++ quoted "myst-term" ++
    " title=" ++ quoted "Term: Wavefront (GPU)" ++ ">Wavefront (GPU)</a>" /\
  generateDirectiveHtml "glossary" "" []
    ("Wavefront (GPU)" ++ nl ++ "  " ++ "A group of 64 work items.") =
    "<dl class=" ++ quoted "myst-glossary" ++ ">" ++
    "<dt id=" ++ quoted "term-wavefront-gpu-" ++ ">Wavefront (GPU)</dt>" ++
    "<dd>A group of 64 work items.</dd>" ++ "</dl>".
Proof.
  apply (term_role_points_at_glossary_entry "Wavefront (GPU)" "A group of 64 work items."
           "" []); [reflexivity | reflexivity | reflexivity | discriminate].
Defined.

(** ** Path rewriter: any page, any post *)

Lemma expandTemplate_plain (matched before after tpl : string) :
  allStr (isNot "$") tpl = true -> expandTemplate matched before after tpl = tpl.
Proof.
  induction tpl as [|a t IH]; [reflexivity|]. cbn [allStr expandTemplate].
  intros H. apply andb_true_iff in H as [Ha Ht]. unfold isNot in Ha.
  apply negb_true_iff in Ha. now rewrite Ha, IH.
Qed.

(** A replacement of a literal finds nothing in a text that avoids it. *)
Lemma replaceLiteralGo_idle (lit tpl : string) (s : string) :
  avoids lit s -> forall before, replaceLiteralGo lit tpl 0 before s = s.
Proof.
  induction s as [|a r IH]; intros H before; [reflexivity|].
  cbn [replaceLiteralGo]. rewrite (H "" (String a r)) by reflexivity.
  rewrite IH; [reflexivity|]. intros p q Hpq. apply (H (String a p) q). now rewrite Hpq.
Qed.

Lemma replaceLiteral_idle (lit tpl s : string) :
  avoids lit s -> replaceLiteral lit tpl s = s.
Proof. intros H. now apply replaceLiteralGo_idle. Qed.

Lemma replaceLiteralGo_skip (lit tpl a : string) :
  forall before b,
    replaceLiteralGo lit tpl (String.length a) before (a ++ b) =
    replaceLiteralGo lit tpl 0 (before ++ a) b.
Proof.
  induction a as [|x a IH]; intros before b.
  - rewrite append_nil_r. now destruct b.
  - cbn [append String.length replaceLiteralGo]. rewrite IH.
    now rewrite append_assoc.
Qed.

(** One occurrence of the literal in a text, and a template without
    dollar. *)
Lemma replaceLiteral_block (lit tpl pre post : string) :
  lit <> "" -> allStr (isNot "$") tpl = true ->
  (forall p q, pre = p ++ q -> q <> "" -> stripPrefix lit (q ++ lit ++ post) = None) ->
  avoids lit post ->
  replaceLiteral lit tpl (pre ++ lit ++ post) = pre ++ tpl ++ post.
Proof.
  intros Hlit Htpl Hpre Hpost. unfold replaceLiteral. generalize "" as before.
  induction pre as [|x pre IH]; intros before.
  - cbn [append]. destruct lit as [|l lit]; [congruence|].
    cbn [append replaceLiteralGo].
    change (String l (lit ++ post)) with (String l lit ++ post).
    rewrite stripPrefix_app, expandTemplate_plain by assumption.
    cbn [String.length Nat.sub]. rewrite Nat.sub_0_r.
    rewrite replaceLiteralGo_skip. now rewrite replaceLiteralGo_idle.
  - cbn [append replaceLiteralGo].
    assert (Hn : stripPrefix lit (String x (pre ++ lit ++ post)) = None)
      by (apply (Hpre "" (String x pre)); [reflexivity | discriminate]).
    rewrite Hn, IH; [reflexivity|].
    intros p q -> Hq. now apply (Hpre (String x p) q).
Qed.

(** The start of every pattern of the path rewriter. *)
Definition srcOpen : string := "src=" ++ dq.

Definition spellings : list string :=
  [ "./images/"; "images/"; "./image/"; "image/"; "../images/"; "./videos/"; "videos/" ].

(** No pattern of the rewriter finds a thing in a written part [w]. *)
Definition quietPart (w : string) : bool :=
  forallb (fun x => noOverlap srcOpen (srcOpen ++ x) w && clearOf (srcOpen ++ x) w)
    spellings.

(** The same for the patterns other than the one for [spelling]. *)
Definition quietSpelling (spelling : string) : bool :=
  forallb (fun x =>
             String.eqb x spelling ||
             (noOverlap srcOpen (srcOpen ++ x) (srcOpen ++ spelling)
              && clearOf (srcOpen ++ x) (srcOpen ++ spelling)))
    spellings.

Definition pathsTable : bool :=
  forallb quietPart
    [ srcOpen ++ "/blogs/"; srcOpen ++ gitHubBase ++ "/blogs/"; "/"; "/images/"; "/image/";
      srcOpen ++ "/blogs/images/"; srcOpen ++ gitHubBase ++ "/blogs/images/" ]
  && forallb quietSpelling [ "./images/"; "images/"; "./image/"; "image/"; "../images/" ]
  && forallb (fun x => noOverlap srcOpen (srcOpen ++ x) (srcOpen ++ x)) spellings.

Lemma pathsTable_ok : pathsTable = true.
Proof. vm_compute. reflexivity. Qed.

(** The name of a category or of a post: no double quote and no dollar. *)
Definition pathSegment (s : string) : bool :=
  allStr (fun c => isNot (chr 34) c && isNot "$" c) s.

Lemma pathSegment_spec (s : string) :
  pathSegment s = true -> avoids srcOpen s /\ allStr (isNot "$") s = true.
Proof.
  intros H. split.
  - apply (avoids_chars (isNot (chr 34))); [reflexivity|].
    revert H. apply allStr_impl. intros c Hc. now apply andb_true_iff in Hc.
  - revert H. apply allStr_impl. intros c Hc. now apply andb_true_iff in Hc.
Qed.

Lemma quiet_weave (x first : string) (parts : list (string * string)) :
  In x spellings -> avoids srcOpen first ->
  Forall (fun ws => quietPart (fst ws) = true /\ avoids srcOpen (snd ws)) parts ->
  avoids (srcOpen ++ x) (weave first parts).
Proof.
  intros Hx Hfirst Hparts. apply avoids_weave; [assumption|].
  revert Hparts. apply Forall_impl. intros [w t] [Hw Ht]. split; [|assumption].
  unfold quietPart in Hw. rewrite forallb_forall in Hw. exact (Hw x Hx).
Qed.

Lemma quiet_original (x spelling pre rest : string) :
  In x spellings -> quietSpelling spelling = true -> x <> spelling ->
  avoids srcOpen pre -> avoids srcOpen rest ->
  avoids (srcOpen ++ x) (pre ++ (srcOpen ++ spelling) ++ rest).
Proof.
  intros Hx Hq Hne Hpre Hrest.
  change (pre ++ (srcOpen ++ spelling) ++ rest)
    with (weave pre [(srcOpen ++ spelling, rest)]).
  apply avoids_weave; [assumption|].
  apply Forall_cons; [|apply Forall_nil]. split; [|assumption].
  unfold quietSpelling in Hq. rewrite forallb_forall in Hq. specialize (Hq x Hx).
  apply orb_true_iff in Hq as [Hq | Hq]; [|exact Hq].
  apply String.eqb_eq in Hq. contradiction.
Qed.

Section OneReference.

Variables (category slug pre rest : string).
Hypothesis category_ok : pathSegment category = true.
Hypothesis slug_ok : pathSegment slug = true.
Hypothesis pre_ok : avoids srcOpen pre.
Hypothesis rest_ok : avoids srcOpen rest.

(** The page with one reference, and what the rewriter is to make of it. *)
Definition pageWith (path : string) : string := pre ++ (srcOpen ++ path) ++ rest.

Lemma tables :
  (forall w, In w [ srcOpen ++ "/blogs/"; srcOpen ++ gitHubBase ++ "/blogs/"; "/"; "/images/";
                    "/image/"; srcOpen ++ "/blogs/images/";
                    srcOpen ++ gitHubBase ++ "/blogs/images/" ] -> quietPart w = true) /\
  (forall x, In x [ "./images/"; "images/"; "./image/"; "image/"; "../images/" ] ->
             quietSpelling x = true) /\
  (forall x, In x spellings -> noOverlap srcOpen (srcOpen ++ x) (srcOpen ++ x) = true).
Proof using.
  pose proof pathsTable_ok as H. unfold pathsTable in H.
  apply andb_true_iff in H as [H H3]. apply andb_true_iff in H as [H1 H2].
  rewrite forallb_forall in H1, H2, H3. repeat split; assumption.
Qed.

(** The pass for the spelling of the reference. *)
Lemma pass_fires (x base : string) :
  In x spellings -> allStr (isNot "$") base = true ->
  replaceLiteral (srcOpen ++ x) (srcOpen ++ base) (pageWith x) =
  pre ++ (srcOpen ++ base) ++ rest.
Proof using pre_ok rest_ok.
  intros Hx Hbase. unfold pageWith. apply replaceLiteral_block.
  - discriminate.
  - now rewrite allStr_app, Hbase.
  - destruct tables as (_ & _ & H3).
    apply (overlap_none srcOpen x pre (srcOpen ++ x) rest pre_ok (H3 x Hx)).
  - now apply avoids_last.
Qed.

(** The passes for the other spellings, before. *)
Lemma pass_before (x spelling tpl : string) :
  In x spellings -> In spelling [ "./images/"; "images/"; "./image/"; "image/"; "../images/" ] ->
  x <> spelling ->
  replaceLiteral (srcOpen ++ x) tpl (pageWith spelling) = pageWith spelling.
Proof using pre_ok rest_ok.
  intros Hx Hs Hne. apply replaceLiteral_idle.
  destruct tables as (_ & H2 & _). apply quiet_original; auto.
Qed.

(** The passes after, on the address of the post or of the shared pool. *)
Lemma pass_after (x tpl open dir doc : string) :
  doc = pre ++ open ++ category ++ "/" ++ slug ++ dir ++ rest ->
  In x spellings ->
  In open [ srcOpen ++ "/blogs/"; srcOpen ++ gitHubBase ++ "/blogs/" ] ->
  In dir [ "/images/"; "/image/" ] ->
  replaceLiteral (srcOpen ++ x) tpl doc = doc.
Proof using category_ok slug_ok pre_ok rest_ok.
  intros -> Hx Hopen Hdir. apply replaceLiteral_idle.
  change (pre ++ open ++ category ++ "/" ++ slug ++ dir ++ rest)
    with (weave pre [ (open, category); ("/", slug); (dir, rest) ]).
  destruct tables as (H1 & _ & _).
  destruct (pathSegment_spec _ category_ok) as [Hc _].
  destruct (pathSegment_spec _ slug_ok) as [Hs _].
  apply quiet_weave; [assumption | assumption |].
  apply Forall_cons; [split; [apply H1; cbn [In] in *; tauto | assumption]|].
  apply Forall_cons; [split; [apply H1; cbn [In] in *; tauto | assumption]|].
  apply Forall_cons; [split; [apply H1; cbn [In] in *; tauto | assumption]|].
  apply Forall_nil.
Qed.

Lemma pass_after_shared (x tpl open doc : string) :
  doc = pre ++ open ++ rest ->
  In x spellings ->
  In open [ srcOpen ++ "/blogs/images/"; srcOpen ++ gitHubBase ++ "/blogs/images/" ] ->
  replaceLiteral (srcOpen ++ x) tpl doc = doc.
Proof using pre_ok rest_ok.
  intros -> Hx Hopen. apply replaceLiteral_idle.
  change (pre ++ open ++ rest) with (weave pre [ (open, rest) ]).
  destruct tables as (H1 & _ & _).
  apply quiet_weave; [assumption | assumption |].
  apply Forall_cons; [split; [apply H1; cbn [In] in *; tauto | assumption]|].
  apply Forall_nil.
Qed.

Lemma pass_after_local (x tpl dir : string) :
  In x spellings -> In dir [ "/images/"; "/image/" ] ->
  replaceLiteral (srcOpen ++ x) tpl
    (pre ++ (srcOpen ++ "/blogs/" ++ category ++ "/" ++ slug ++ dir) ++ rest) =
  pre ++ (srcOpen ++ "/blogs/" ++ category ++ "/" ++ slug ++ dir) ++ rest.
Proof using category_ok slug_ok pre_ok rest_ok.
  intros Hx Hdir. apply (pass_after x tpl (srcOpen ++ "/blogs/") dir);
    [now rewrite !append_assoc | assumption | cbn [In]; tauto | assumption].
Qed.

Lemma pass_after_published (x tpl dir : string) :
  In x spellings -> In dir [ "/images/"; "/image/" ] ->
  replaceLiteral (srcOpen ++ x) tpl
    (pre ++ (srcOpen ++ gitHubBase ++ "/blogs/" ++ category ++ "/" ++ slug ++ dir) ++ rest) =
  pre ++ (srcOpen ++ gitHubBase ++ "/blogs/" ++ category ++ "/" ++ slug ++ dir) ++ rest.
Proof using category_ok slug_ok pre_ok rest_ok.
  intros Hx Hdir. apply (pass_after x tpl (srcOpen ++ gitHubBase ++ "/blogs/") dir);
    [now rewrite !append_assoc | assumption | cbn [In]; tauto | assumption].
Qed.

Lemma pass_after_pool (x tpl root : string) :
  In x spellings -> In root [ ""; gitHubBase ] ->
  replaceLiteral (srcOpen ++ x) tpl (pre ++ (srcOpen ++ root ++ "/blogs/images/") ++ rest) =
  pre ++ (srcOpen ++ root ++ "/blogs/images/") ++ rest.
Proof using pre_ok rest_ok.
  intros Hx Hroot. apply (pass_after_shared x tpl (srcOpen ++ root ++ "/blogs/images/"));
    [now rewrite !append_assoc | assumption |].
  cbn [In] in *. destruct Hroot as [<- | [<- | []]]; tauto.
Qed.

End OneReference.

Ltac in_list := unfold spellings; cbn [In]; tauto.

Ltac passes_before pre rest Hpre Hrest spelling :=
  repeat rewrite (pass_before pre rest Hpre Hrest _ spelling _)
    by (in_list || discriminate).

Ltac passes_after category slug pre rest Hc Hs Hpre Hrest :=
  repeat first
    [ rewrite (pass_after_local category slug pre rest Hc Hs Hpre Hrest) by in_list
    | rewrite (pass_after_published category slug pre rest Hc Hs Hpre Hrest) by in_list ].

Lemma rewritePaths_post (isDev : bool) (category slug pre rest spelling dir : string) :
  pathSegment category = true -> pathSegment slug = true ->
  avoids srcOpen pre -> avoids srcOpen rest ->
  In (spelling, dir) [ ("./images/", "/images/"); ("images/", "/images/");
                       ("./image/", "/image/"); ("image/", "/image/") ] ->
  rewritePaths isDev category slug (pre ++ (srcOpen ++ spelling) ++ rest) =
  pre ++ (srcOpen ++ (if isDev then "" else gitHubBase) ++
          "/blogs/" ++ category ++ "/" ++ slug ++ dir) ++ rest.
Proof.
  intros Hc Hs Hpre Hrest Hin.
  destruct (pathSegment_spec _ Hc) as [_ Hcd].
  destruct (pathSegment_spec _ Hs) as [_ Hsd].
  assert (Hbase : forall root d, allStr (isNot "$") root = true -> allStr (isNot "$") d = true ->
            allStr (isNot "$") (root ++ "/blogs/" ++ category ++ "/" ++ slug ++ d) = true)
    by (intros root d Hr Hd; now rewrite !allStr_app, Hr, Hcd, Hsd, Hd).
  unfold rewritePaths. cbv zeta. fold srcOpen.
  fold (pageWith pre rest spelling).
  cbn [In] in Hin.
  destruct Hin as [E | [E | [E | [E | []]]]]; inversion E; subst spelling dir; clear E;
    destruct isDev;
    passes_before pre rest Hpre Hrest "./images/";
    passes_before pre rest Hpre Hrest "images/";
    passes_before pre rest Hpre Hrest "./image/";
    passes_before pre rest Hpre Hrest "image/".
  all: rewrite (pass_fires pre rest Hpre Hrest)
         by solve [in_list | rewrite !allStr_app, Hcd, Hsd; reflexivity].
  all: passes_after category slug pre rest Hc Hs Hpre Hrest.
  all: reflexivity.
Qed.


Lemma rewritePaths_shared (isDev : bool) (category slug pre rest : string) :
  avoids srcOpen pre -> avoids srcOpen rest ->
  rewritePaths isDev category slug (pre ++ (srcOpen ++ "../images/") ++ rest) =
  pre ++ (srcOpen ++ (if isDev then "" else gitHubBase) ++ "/blogs/images/") ++ rest.
Proof.
  intros Hpre Hrest.
  unfold rewritePaths. cbv zeta. fold srcOpen.
  fold (pageWith pre rest "../images/").
  destruct isDev; passes_before pre rest Hpre Hrest "../images/".
  all: rewrite (pass_fires pre rest Hpre Hrest) by solve [in_list | reflexivity].
  - change (srcOpen ++ "/blogs/images/") with (srcOpen ++ "" ++ "/blogs/images/").
    repeat rewrite (pass_after_pool pre rest Hpre Hrest _ _ "") by in_list.
    reflexivity.
  - repeat rewrite (pass_after_pool pre rest Hpre Hrest _ _ gitHubBase) by in_list.
    reflexivity.
Qed.

Lemma includes_avoids (N s : string) : includes N s = false -> avoids N s.
Proof. intros H p q. now apply includes_false. Qed.

(** X18: in any page, for any category and post, an image address that
    starts with [./images/] or [images/] is rewritten to the images of the
    post, one that starts with [./image/] or [image/] to the directory
    [image] of the post, and one that starts with [../images/] to the shared
    pool, under the external base when the page is published; the rest of
    the page is left as it is.  The page holds the one [src] attribute, and
    the names of the category and the post hold no double quote and no
    dollar. *)
Theorem image_reference_in_any_page (isDev : bool) (category slug pre rest : string) :
  pathSegment category = true -> pathSegment slug = true ->
  includes srcOpen pre = false -> includes srcOpen rest = false ->
  let root := if isDev then "" else gitHubBase in
  let post := root ++ "/blogs/" ++ category ++ "/" ++ slug in
  let rewritten path :=
    rewritePaths isDev category slug (pre ++ srcOpen ++ path ++ rest) in
  rewritten "./images/" = pre ++ srcOpen ++ post ++ "/images/" ++ rest /\
  rewritten "images/" = pre ++ srcOpen ++ post ++ "/images/" ++ rest /\
  rewritten "./image/" = pre ++ srcOpen ++ post ++ "/image/" ++ rest /\
  rewritten "image/" = pre ++ srcOpen ++ post ++ "/image/" ++ rest /\
  rewritten "../images/" = pre ++ srcOpen ++ root ++ "/blogs/images/" ++ rest.
Proof.
  intros Hc Hs Hpre Hrest root post rewritten. subst rewritten post root. cbv beta.
  apply includes_avoids in Hpre, Hrest.
  assert (Hshape : forall path, pre ++ srcOpen ++ path ++ rest = pre ++ (srcOpen ++ path) ++ rest)
    by (intros path; now rewrite !append_assoc).
  rewrite !Hshape.
  rewrite (rewritePaths_post isDev category slug pre rest "./images/" "/images/")
    by (assumption || (cbn [In]; tauto)).
  rewrite (rewritePaths_post isDev category slug pre rest "images/" "/images/")
    by (assumption || (cbn [In]; tauto)).
  rewrite (rewritePaths_post isDev category slug pre rest "./image/" "/image/")
    by (assumption || (cbn [In]; tauto)).
  rewrite (rewritePaths_post isDev category slug pre rest "image/" "/image/")
    by (assumption || (cbn [In]; tauto)).
  rewrite (rewritePaths_shared isDev category slug pre rest) by assumption.
  repeat split; now rewrite !append_assoc.
Qed.

Lemma image_reference_in_any_page_witness :
  rewritePaths false "software-tools-optimization" "hip-graphs"
    ("<p><img " ++ srcOpen ++ "./images/" ++ ("graph.png" ++ dq ++ " alt=" ++ quoted "src" ++ "></p>"))
  = "<p><img " ++ srcOpen ++
    (gitHubBase ++ "/blogs/" ++ "software-tools-optimization" ++ "/" ++ "hip-graphs") ++
    "/images/" ++ ("graph.png" ++ dq ++ " alt=" ++ quoted "src" ++ "></p>").
Proof.
  apply (proj1 (image_reference_in_any_page false "software-tools-optimization" "hip-graphs"
                  "<p><img " ("graph.png" ++ dq ++ " alt=" ++ quoted "src" ++ "></p>")
                  eq_refl eq_refl eq_refl eq_refl)).
Defined.

(** ** Production addresses *)

Definition blogsOpen : string := srcOpen ++ "/blogs/".

Definition productionTable : bool :=
  forallb (fun w => noOverlap srcOpen blogsOpen w && clearOf blogsOpen w)
    [ "/"; "/images/"; "/image/"; "images/"; srcOpen ++ gitHubBase ++ "/blogs/";
      srcOpen ++ gitHubBase ++ "/blogs/images/" ]
  && noOverlap srcOpen blogsOpen blogsOpen.

Lemma productionTable_ok : productionTable = true.
Proof. vm_compute. reflexivity. Qed.

Lemma production_quiet (first : string) (parts : list (string * string)) :
  avoids srcOpen first ->
  Forall (fun ws =>
            In (fst ws) [ "/"; "/images/"; "/image/"; "images/";
                          srcOpen ++ gitHubBase ++ "/blogs/";
                          srcOpen ++ gitHubBase ++ "/blogs/images/" ]
            /\ avoids srcOpen (snd ws)) parts ->
  avoids blogsOpen (weave first parts).
Proof.
  intros Hfirst Hparts. apply (avoids_weave srcOpen "/blogs/"); [assumption|].
  pose proof productionTable_ok as H. unfold productionTable in H.
  apply andb_true_iff in H as [H _]. rewrite forallb_forall in H.
  revert Hparts. apply Forall_impl. intros [w t] [Hw Ht]. split; [|assumption].
  exact (H w Hw).
Qed.

Section Production.

Variables (category slug pre rest : string).
Hypothesis category_ok : pathSegment category = true.
Hypothesis slug_ok : pathSegment slug = true.
Hypothesis pre_ok : avoids srcOpen pre.
Hypothesis rest_ok : avoids srcOpen rest.

(** A page rendered in development, rewritten for production. *)
Lemma production_of_local (dir : string) :
  In dir [ "/images/"; "/image/" ] ->
  rewriteImageUrlsForProduction false
    (pre ++ (srcOpen ++ "" ++ "/blogs/" ++ category ++ "/" ++ slug ++ dir) ++ rest) =
  pre ++ (srcOpen ++ gitHubBase ++ "/blogs/" ++ category ++ "/" ++ slug ++ dir) ++ rest.
Proof using category_ok slug_ok pre_ok rest_ok.
  intros Hdir. unfold rewriteImageUrlsForProduction.
  change ("src=" ++ dq ++ "/blogs/") with blogsOpen.
  change ("src=" ++ dq ++ gitHubBase ++ "/blogs/") with (srcOpen ++ gitHubBase ++ "/blogs/").
  replace (pre ++ (srcOpen ++ "" ++ "/blogs/" ++ category ++ "/" ++ slug ++ dir) ++ rest)
    with (pre ++ blogsOpen ++ (category ++ "/" ++ slug ++ dir ++ rest))
    by (unfold blogsOpen; now rewrite !append_assoc).
  rewrite replaceLiteral_block.
  - now rewrite !append_assoc.
  - discriminate.
  - reflexivity.
  - pose proof productionTable_ok as H. unfold productionTable in H.
    apply andb_true_iff in H as [_ H].
    apply (overlap_none srcOpen "/blogs/" pre blogsOpen _ pre_ok H).
  - destruct (pathSegment_spec _ category_ok) as [Hc _].
    destruct (pathSegment_spec _ slug_ok) as [Hs _].
    change (category ++ "/" ++ slug ++ dir ++ rest)
      with (weave category [ ("/", slug); (dir, rest) ]).
    apply production_quiet; [assumption|].
    apply Forall_cons; [split; [cbn [fst In]; tauto | assumption]|].
    apply Forall_cons; [split; [cbn [fst In] in *; tauto | assumption]|].
    apply Forall_nil.
Qed.

Lemma production_of_local_pool :
  rewriteImageUrlsForProduction false (pre ++ (srcOpen ++ "" ++ "/blogs/images/") ++ rest) =
  pre ++ (srcOpen ++ gitHubBase ++ "/blogs/images/") ++ rest.
Proof using pre_ok rest_ok.
  unfold rewriteImageUrlsForProduction.
  change ("src=" ++ dq ++ "/blogs/") with blogsOpen.
  change ("src=" ++ dq ++ gitHubBase ++ "/blogs/") with (srcOpen ++ gitHubBase ++ "/blogs/").
  replace (pre ++ (srcOpen ++ "" ++ "/blogs/images/") ++ rest)
    with (pre ++ blogsOpen ++ ("images/" ++ rest))
    by (unfold blogsOpen; now rewrite !append_assoc).
  rewrite replaceLiteral_block.
  - now rewrite !append_assoc.
  - discriminate.
  - reflexivity.
  - pose proof productionTable_ok as H. unfold productionTable in H.
    apply andb_true_iff in H as [_ H].
    apply (overlap_none srcOpen "/blogs/" pre blogsOpen _ pre_ok H).
  - change ("images/" ++ rest) with (weave "" [ ("images/", rest) ]).
    apply production_quiet; [now apply avoids_nil|].
    apply Forall_cons; [split; [cbn [fst In]; tauto | assumption]|].
    apply Forall_nil.
Qed.

(** A page rendered for production holds no address left to rewrite. *)
Lemma production_of_published (dir : string) :
  In dir [ "/images/"; "/image/" ] ->
  rewriteImageUrlsForProduction false
    (pre ++ (srcOpen ++ gitHubBase ++ "/blogs/" ++ category ++ "/" ++ slug ++ dir) ++ rest) =
  pre ++ (srcOpen ++ gitHubBase ++ "/blogs/" ++ category ++ "/" ++ slug ++ dir) ++ rest.
Proof using category_ok slug_ok pre_ok rest_ok.
  intros Hdir. unfold rewriteImageUrlsForProduction.
  change ("src=" ++ dq ++ "/blogs/") with blogsOpen.
  change ("src=" ++ dq ++ gitHubBase ++ "/blogs/") with (srcOpen ++ gitHubBase ++ "/blogs/").
  apply replaceLiteral_idle.
  destruct (pathSegment_spec _ category_ok) as [Hc _].
  destruct (pathSegment_spec _ slug_ok) as [Hs _].
  replace (pre ++ (srcOpen ++ gitHubBase ++ "/blogs/" ++ category ++ "/" ++ slug ++ dir) ++ rest)
    with (weave pre [ (srcOpen ++ gitHubBase ++ "/blogs/", category); ("/", slug); (dir, rest) ])
    by (cbn [weave]; now rewrite !append_assoc).
  apply production_quiet; [assumption|].
  apply Forall_cons; [split; [cbn [fst In]; tauto | assumption]|].
  apply Forall_cons; [split; [cbn [fst In]; tauto | assumption]|].
  apply Forall_cons; [split; [cbn [fst In] in *; tauto | assumption]|].
  apply Forall_nil.
Qed.

Lemma production_of_published_pool :
  rewriteImageUrlsForProduction false
    (pre ++ (srcOpen ++ gitHubBase ++ "/blogs/images/") ++ rest) =
  pre ++ (srcOpen ++ gitHubBase ++ "/blogs/images/") ++ rest.
Proof using pre_ok rest_ok.
  unfold rewriteImageUrlsForProduction.
  change ("src=" ++ dq ++ "/blogs/") with blogsOpen.
  change ("src=" ++ dq ++ gitHubBase ++ "/blogs/") with (srcOpen ++ gitHubBase ++ "/blogs/").
  apply replaceLiteral_idle.
  replace (pre ++ (srcOpen ++ gitHubBase ++ "/blogs/images/") ++ rest)
    with (weave pre [ (srcOpen ++ gitHubBase ++ "/blogs/images/", rest) ])
    by (cbn [weave]; now rewrite !append_assoc).
  apply production_quiet; [assumption|].
  apply Forall_cons; [split; [cbn [fst In]; tauto | assumption]|].
  apply Forall_nil.
Qed.

End Production.

(** X19: for a page with one image address of the five spellings, the page
    rendered in development and then rewritten for production is the page
    rendered for production, and the rewriting for production leaves a page
    that was rendered for production, or any page in development, as it
    is. *)
Theorem production_rewrite_after_rendering (category slug pre rest path : string) :
  pathSegment category = true -> pathSegment slug = true ->
  includes srcOpen pre = false -> includes srcOpen rest = false ->
  In path [ "./images/"; "images/"; "./image/"; "image/"; "../images/" ] ->
  let page := pre ++ srcOpen ++ path ++ rest in
  rewriteImageUrlsForProduction false (rewritePaths true category slug page)
    = rewritePaths false category slug page /\
  rewriteImageUrlsForProduction false (rewritePaths false category slug page)
    = rewritePaths false category slug page /\
  rewriteImageUrlsForProduction true (rewritePaths true category slug page)
    = rewritePaths true category slug page.
Proof.
  intros Hc Hs Hpre Hrest Hpath page. subst page.
  apply includes_avoids in Hpre, Hrest.
  replace (pre ++ srcOpen ++ path ++ rest) with (pre ++ (srcOpen ++ path) ++ rest)
    by now rewrite !append_assoc.
  split; [|split; [|reflexivity]].
  - cbn [In] in Hpath.
    destruct Hpath as [<- | [<- | [<- | [<- | [<- | []]]]]].
    + rewrite !(rewritePaths_post _ category slug pre rest "./images/" "/images/")
        by (assumption || (cbn [In]; tauto)).
      apply production_of_local; (assumption || (cbn [In]; tauto)).
    + rewrite !(rewritePaths_post _ category slug pre rest "images/" "/images/")
        by (assumption || (cbn [In]; tauto)).
      apply production_of_local; (assumption || (cbn [In]; tauto)).
    + rewrite !(rewritePaths_post _ category slug pre rest "./image/" "/image/")
        by (assumption || (cbn [In]; tauto)).
      apply production_of_local; (assumption || (cbn [In]; tauto)).
    + rewrite !(rewritePaths_post _ category slug pre rest "image/" "/image/")
        by (assumption || (cbn [In]; tauto)).
      apply production_of_local; (assumption || (cbn [In]; tauto)).
    + rewrite !(rewritePaths_shared _ category slug pre rest) by assumption.
      now apply production_of_local_pool.
  - cbn [In] in Hpath.
    destruct Hpath as [<- | [<- | [<- | [<- | [<- | []]]]]].
    + rewrite !(rewritePaths_post _ category slug pre rest "./images/" "/images/")
        by (assumption || (cbn [In]; tauto)).
      apply production_of_published; (assumption || (cbn [In]; tauto)).
    + rewrite !(rewritePaths_post _ category slug pre rest "images/" "/images/")
        by (assumption || (cbn [In]; tauto)).
      apply production_of_published; (assumption || (cbn [In]; tauto)).
    + rewrite !(rewritePaths_post _ category slug pre rest "./image/" "/image/")
        by (assumption || (cbn [In]; tauto)).
      apply production_of_published; (assumption || (cbn [In]; tauto)).
    + rewrite !(rewritePaths_post _ category slug pre rest "image/" "/image/")
        by (assumption || (cbn [In]; tauto)).
      apply production_of_published; (assumption || (cbn [In]; tauto)).
    + rewrite !(rewritePaths_shared _ category slug pre rest) by assumption.
      now apply production_of_published_pool.
Qed.

Lemma production_rewrite_after_rendering_witness :
  rewriteImageUrlsForProduction false
    (rewritePaths true "ai" "post1" ("<img " ++ srcOpen ++ "images/" ++ ("a.png" ++ dq ++ ">")))
  = rewritePaths false "ai" "post1" ("<img " ++ srcOpen ++ "images/" ++ ("a.png" ++ dq ++ ">")).
Proof.
  apply (proj1 (production_rewrite_after_rendering "ai" "post1" "<img " ("a.png" ++ dq ++ ">")
                  "images/" eq_refl eq_refl eq_refl eq_refl
                  (or_intror (or_introl eq_refl)))).
Defined.

(** ** A figure that refers to a defined target *)

(** No line of the text starts with an opening parenthesis; [bol] tells
    whether the text itself starts a line. *)
Fixpoint plainLines (bol : bool) (s : string) : bool :=
  match s with
  | "" => true
  | String c r =>
      negb (bol && Ascii.eqb c "(") && plainLines (isLineTerminator c) r
  end.

(** Whether the position after the text starts a line. *)
Fixpoint endsLine (bol : bool) (s : string) : bool :=
  match s with
  | "" => bol
  | String c r => endsLine (isLineTerminator c) r
  end.

Lemma plainLines_app (bol : bool) (a b : string) :
  plainLines bol (a ++ b) = plainLines bol a && plainLines (endsLine bol a) b.
Proof.
  revert bol. induction a as [|c a IH]; intros bol; cbn [append plainLines endsLine].
  - reflexivity.
  - now rewrite IH, andb_assoc.
Qed.

Lemma endsLine_app (bol : bool) (a b : string) :
  endsLine bol (a ++ b) = endsLine (endsLine bol a) b.
Proof.
  revert bol. induction a as [|c a IH]; intros bol; cbn [append endsLine];
    [reflexivity | apply IH].
Qed.

(** A text without line terminator that does not start a line. *)
Lemma plainLines_inline (s : string) :
  allStr (fun c => negb (isSpace c)) s = true ->
  plainLines false s = true /\ endsLine false s = false.
Proof.
  induction s as [|c s IH]; cbn [allStr plainLines endsLine]; intros H.
  - now split.
  - apply andb_true_iff in H as [Hc Hs].
    assert (Ht : isLineTerminator c = false).
    { pose proof (allChars_spec
        (fun c => implb (negb (isSpace c)) (negb (isLineTerminator c)))
        ltac:(vm_compute; reflexivity) c) as Hi.
      cbv beta in Hi. rewrite Hc in Hi. cbn [implb] in Hi.
      now destruct (isLineTerminator c). }
    rewrite Ht. cbn [andb negb]. now apply IH.
Qed.

Lemma matchTarget_paren (bol : bool) (c : ascii) (r : string) :
  negb (bol && Ascii.eqb c "(") = true -> matchTarget bol (String c r) = None.
Proof.
  intros H. unfold matchTarget. destruct bol; [|reflexivity].
  cbn [negb andb] in H. cbn [negb stripPrefix].
  rewrite Ascii.eqb_sym. now destruct (Ascii.eqb c "(").
Qed.

Section TargetPass.
Context {St : Type}.
Variable f : string * string * string -> St -> string * St.

Lemma replaceLinesGo_plain (pre rest : string) :
  forall bol st,
    plainLines bol pre = true ->
    replaceLinesGo matchTarget f 0 bol (pre ++ rest) st =
    (pre ++ fst (replaceLinesGo matchTarget f 0 (endsLine bol pre) rest st),
     snd (replaceLinesGo matchTarget f 0 (endsLine bol pre) rest st)).
Proof.
  induction pre as [|c pre IH]; intros bol st H.
  - cbn [append endsLine]. now destruct (replaceLinesGo matchTarget f 0 bol rest st).
  - cbn [plainLines] in H. apply andb_true_iff in H as [Hc Hp].
    cbn [append endsLine replaceLinesGo].
    rewrite (matchTarget_paren bol c (pre ++ rest) Hc).
    now rewrite (IH _ st Hp).
Qed.

Lemma replaceLinesGo_rest (s : string) (bol : bool) (st : St) :
  plainLines bol s = true -> replaceLinesGo matchTarget f 0 bol s st = (s, st).
Proof.
  intros H. pose proof (replaceLinesGo_plain s "" bol st H) as E.
  rewrite append_nil_r in E. rewrite E.
  cbn [replaceLinesGo].
  replace (matchTarget (endsLine bol s) "") with (@None (string * string * string * string))
    by (now destruct (endsLine bol s)).
  cbn [fst snd]. now rewrite append_nil_r.
Qed.

Lemma replaceLinesGo_skip (x rest : string) :
  forall bol st,
    replaceLinesGo matchTarget f (String.length x) bol (x ++ rest) st =
    replaceLinesGo matchTarget f 0 (endsLine bol x) rest st.
Proof.
  induction x as [|c x IH]; intros bol st.
  - reflexivity.
  - cbn [String.length append endsLine replaceLinesGo]. apply IH.
Qed.

Lemma replaceLinesGo_match (bol : bool) (a : ascii) (r rest : string)
  (c : string * string * string) (st : St) :
  matchTarget bol (String a r ++ rest) = Some (c, rest) ->
  replaceLinesGo matchTarget f 0 bol (String a r ++ rest) st =
  (fst (f c st) ++
     fst (replaceLinesGo matchTarget f 0 (endsLine (isLineTerminator a) r) rest
            (snd (f c st))),
   snd (replaceLinesGo matchTarget f 0 (endsLine (isLineTerminator a) r) rest
          (snd (f c st)))).
Proof.
  intros Hm. cbn [append] in *. cbn [replaceLinesGo]. rewrite Hm.
  destruct (f c st) as [out st1]. cbn [fst snd].
  replace (String.length (String a (r ++ rest)) - String.length rest)
    with (S (String.length r))
    by (cbn [String.length]; rewrite length_append; lia).
  rewrite replaceLinesGo_skip.
  now destruct (replaceLinesGo matchTarget f 0 (endsLine (isLineTerminator a) r) rest st1).
Qed.

End TargetPass.

(** A definition line [(name)=![alt](source)] and a figure that refers to
    it. *)
Definition targetLine (name altText source : string) : string :=
  "(" ++ name ++ ")=![" ++ altText ++ "](" ++ source ++ ")".

Definition targetComment (name : string) : string :=
  "<!-- target:" ++ name ++ " defined -->".

Definition figureRef (name body : string) : string :=
  "```{figure} #" ++ name ++ nl ++ body ++ "```".

(** The characters of a target name that a figure can refer to. *)
Definition nameChar (c : ascii) : bool :=
  negb (isSpace c) && isNot ")" c && isNot "`" c.

(** The source stored for a target (lines 241-246). *)
Definition rawSource (source : string) : string :=
  if includes "github.com" source && includes "/blob/" source
  then replaceFirstStr "/blob/" "/"
         (replaceFirstStr "github.com" "raw.githubusercontent.com" source)
  else source.

(** The image markup of line 305 for a source and a default alternative
    text. *)
Definition imageFigure (imageSrc defaultAlt body : string) : string :=
  let '(options, captionLines) := figureLines (lines body) [] [] in
  let caption := trim (join nl captionLines) in
  "<figure class=" ++ dq ++ "myst-figure" ++
  (if truthy (optGet options "align") then " align-" ++ optGet options "align" else "") ++
  dq ++
  (if truthy (optGet options "label") then " id=" ++ quoted (optGet options "label")
   else if truthy (optGet options "name") then " id=" ++ quoted (optGet options "name")
   else "") ++
  "><img src=" ++ quoted imageSrc ++
  " alt=" ++
  quoted (orElse (optGet options "alt")
            (orElse defaultAlt
               (takeStr 100
                  (mapStr (fun c => if Ascii.eqb c LF then " "%char else c) caption)))) ++
  (if truthy (optGet options "width")
   then " width=" ++ quoted (optGet options "width") else "") ++
  " loading=" ++ quoted "lazy" ++ " />" ++
  (if truthy caption then "<figcaption>" ++ caption ++ "</figcaption>" else "") ++
  "</figure>".

Definition startsLineBreak (s : string) : bool :=
  match s with "" => false | String c _ => isLineTerminator c end.

Lemma span_stop (g : ascii -> bool) (a b : string) (x : ascii) :
  allStr g a = true -> g x = false ->
  span g (a ++ String x b) = (a, String x b).
Proof. intros Ha Hx. now apply span_app. Qed.

Lemma matchTarget_line (name altText source post : string) :
  name <> "" -> allStr (isNot ")") name = true ->
  allStr (isNot "]") altText = true ->
  source <> "" -> allStr (isNot ")") source = true ->
  (post = "" \/ startsLineBreak post = true) ->
  matchTarget true (targetLine name altText source ++ post) =
  Some ((name, altText, source), post).
Proof.
  intros Hn Hname Halt Hs Hsource Hpost.
  unfold matchTarget, targetLine. cbn [negb].
  rewrite !append_assoc. rewrite stripPrefix_app.
  change (")=![" ++ altText ++ "](" ++ source ++ ")" ++ post)
    with (String ")" ("=![" ++ altText ++ "](" ++ source ++ ")" ++ post)).
  rewrite (span_stop _ name _ ")" Hname eq_refl).
  destruct name as [|n0 name]; [contradiction|]. cbn [isEmpty].
  change (String ")" ("=![" ++ altText ++ "](" ++ source ++ ")" ++ post))
    with (")=![" ++ altText ++ "](" ++ source ++ ")" ++ post).
  rewrite stripPrefix_app.
  change ("](" ++ source ++ ")" ++ post)
    with (String "]" ("(" ++ source ++ ")" ++ post)).
  rewrite (span_stop _ altText _ "]" Halt eq_refl).
  change (String "]" ("(" ++ source ++ ")" ++ post))
    with ("](" ++ source ++ ")" ++ post).
  rewrite stripPrefix_app.
  change (")" ++ post) with (String ")" post).
  rewrite (span_stop _ source _ ")" Hsource eq_refl).
  destruct source as [|s0 source]; [contradiction|]. cbn [isEmpty].
  change (String ")" post) with (")" ++ post).
  rewrite stripPrefix_app.
  destruct Hpost as [->|Hpost]; [reflexivity|].
  destruct post as [|x post]; [reflexivity|]. cbn [startsLineBreak] in Hpost.
  now rewrite Hpost.
Qed.

Lemma targetLine_cons (name altText source : string) :
  targetLine name altText source =
  String "(" ((name ++ ")=![" ++ altText ++ "](" ++ source) ++ ")").
Proof. unfold targetLine. rewrite !append_assoc. reflexivity. Qed.

Lemma endsLine_paren (bol : bool) (x : string) : endsLine bol (x ++ ")") = false.
Proof. rewrite endsLine_app. reflexivity. Qed.

Lemma nameChar_parts (name : string) :
  allStr nameChar name = true ->
  allStr (fun c => negb (isSpace c)) name = true /\
  allStr (isNot ")") name = true /\ allStr (isNot "`") name = true.
Proof.
  intros H. repeat split; revert H; apply allStr_impl; intros c Hc;
    unfold nameChar in Hc; apply andb_true_iff in Hc as [Hc H3];
    apply andb_true_iff in Hc as [H1 H2]; assumption.
Qed.

(** The figure itself has no line that could be taken for a definition, and
    does not end a line. *)
Lemma plainLines_figureRef (bol : bool) (name body : string) :
  allStr nameChar name = true -> plainLines true body = true ->
  plainLines bol (figureRef name body) = true /\
  endsLine bol (figureRef name body) = false.
Proof.
  intros Hname Hbody. apply nameChar_parts in Hname as (Hsp & _ & _).
  destruct (plainLines_inline name Hsp) as [Hp He].
  unfold figureRef.
  change ("```{figure} #" ++ name ++ nl ++ body ++ "```")
    with ("```{figure} #" ++ (name ++ nl ++ body ++ "```")).
  split.
  - rewrite plainLines_app.
    replace (plainLines bol "```{figure} #") with true by now destruct bol.
    change (endsLine bol "```{figure} #") with false.
    rewrite plainLines_app, Hp, He.
    change (nl ++ body ++ "```") with (String LF (body ++ "```")).
    cbn [plainLines andb negb]. change (isLineTerminator LF) with true.
    rewrite plainLines_app, Hbody.
    now destruct (endsLine true body).
  - rewrite !endsLine_app. reflexivity.
Qed.

Lemma matchFigure_start (x : ascii) (r : string) :
  isNot "`" x = true -> matchFigure (String x r) = None.
Proof.
  unfold isNot, matchFigure. intros H. cbn [stripPrefix].
  rewrite Ascii.eqb_sym. now destruct (Ascii.eqb x "`").
Qed.

Lemma matchFigure_ref (name body rest : string) :
  allStr nameChar name = true ->
  match body with "" => True | String c _ => isSpace c = false end ->
  findSub "```" (body ++ "```") = Some (body, "") ->
  matchFigure (figureRef name body ++ rest) = Some (("#" ++ name, body), rest).
Proof.
  intros Hname Hb Hfind. apply nameChar_parts in Hname as (Hsp & _ & _).
  unfold matchFigure, figureRef. rewrite !append_assoc.
  change ("```{figure} #" ++ name ++ nl ++ body ++ "```" ++ rest)
    with ("```{figure}" ++ String " " (String "#" (name ++ nl ++ body ++ "```" ++ rest))).
  rewrite stripPrefix_app.
  unfold dropWhile. cbn [span].
  change (isSpace " ") with true. change (isSpace "#") with false. cbn [snd].
  change (String "#" (name ++ nl ++ body ++ "```" ++ rest))
    with (("#" ++ name) ++ String LF (body ++ "```" ++ rest)).
  rewrite (span_stop (fun c => negb (isSpace c)) ("#" ++ name) _ LF);
    [| cbn [append allStr]; now rewrite Hsp | reflexivity].
  change (isEmpty ("#" ++ name)) with false. cbv iota.
  change (String LF (body ++ "```" ++ rest)) with (nl ++ body ++ "```" ++ rest).
  rewrite spacesThenLF_line by (now destruct body).
  now rewrite (findSub_app "```" body rest Hfind).
Qed.

Lemma replaceAll_block {C : Type} (m : string -> option (C * string))
  (f : C -> string) (g : ascii -> bool) (pre a post : string) (c : C) :
  (forall x r, g x = true -> m (String x r) = None) -> m "" = None ->
  allStr g pre = true -> allStr g post = true ->
  m (a ++ post) = Some (c, post) -> a <> "" ->
  replaceAll m f (pre ++ a ++ post) = pre ++ f c ++ post.
Proof.
  intros Hgate Hnil Hpre Hpost Hm Ha. unfold replaceAll.
  rewrite (replaceSt_block _ _ pre a post c tt); [reflexivity | | assumption.. |].
  - intros p q -> Hq. apply allStr_suffix in Hpre.
    destruct q as [|x q]; [contradiction|].
    cbn [allStr] in Hpre. apply andb_true_iff in Hpre as [Hx _].
    cbn [append]. now apply Hgate.
  - intros p q ->. apply allStr_suffix in Hpost.
    destruct q as [|x q]; [assumption|].
    cbn [allStr] in Hpost. apply andb_true_iff in Hpost as [Hx _]. now apply Hgate.
Qed.

Lemma replaceFirstStr_truthy (pat rep s : string) :
  truthy rep = true -> truthy s = true -> truthy (replaceFirstStr pat rep s) = true.
Proof.
  intros Hr Hs. unfold replaceFirstStr.
  destruct (findSub pat s) as [[pre post]|]; [|assumption].
  destruct pre; [|reflexivity]. now destruct rep.
Qed.

Lemma rawSource_truthy (source : string) :
  source <> "" -> truthy (rawSource source) = true.
Proof.
  intros H. assert (Hs : truthy source = true) by now destruct source.
  unfold rawSource.
  destruct (includes "github.com" source && includes "/blob/" source); [|assumption].
  now repeat apply replaceFirstStr_truthy.
Qed.

(** The callback with the table that holds the definition. *)
Lemma figureDirective_defined (name altText source body : string) :
  source <> "" ->
  existsb (fun ext => endsWith ext (toLowerCase (rawSource source))) videoExtensions = false ->
  figureDirective
    (snd (targetDefinition (name, altText, source) []))
    ("#" ++ name) body =
  imageFigure (rawSource source) altText body.
Proof.
  intros Hs Hv. unfold figureDirective, imageFigure, targetDefinition.
  fold (rawSource source). cbn [snd].
  destruct (figureLines (lines body) [] []) as [options captionLines].
  change (startsWith "#" ("#" ++ name)) with true.
  change (dropStr 1 ("#" ++ name)) with name.
  unfold objGet, objSet. cbn [app assocLast]. rewrite String.eqb_refl.
  cbn [src alt]. rewrite (rawSource_truthy source Hs). cbn [negb].
  rewrite Hv.
  replace (orElse altText "") with altText by (now destruct altText).
  assert (Hor : forall s, orElse s "" = s) by (now intros [|? ?]).
  rewrite Hor. unfold figureAlignClass, figureIdAttr, figcaption.
  assert (Hid : orElse
                  (if truthy (optGet options "label")
                   then " id=" ++ quoted (optGet options "label") else "")
                  (if truthy (optGet options "name")
                   then " id=" ++ quoted (optGet options "name") else "") =
                (if truthy (optGet options "label")
                 then " id=" ++ quoted (optGet options "label")
                 else if truthy (optGet options "name")
                      then " id=" ++ quoted (optGet options "name") else ""))
    by (unfold orElse; destruct (truthy (optGet options "label")); reflexivity).
  now rewrite Hid.
Qed.

(** X20: a figure that names a target is drawn from the definition of that
    target, whether the definition line stands above or below the figure.
    The definition line [(name)=![alt](source)] stands on a line of its
    own and becomes a comment; the figure [```{figure} #name] becomes the
    image markup with the stored source (a GitHub blob address turned into
    its raw address) and with the alternative text of the definition as
    the default.  The texts [a], [b] and [c] around them hold no backtick and
    no line that starts with an opening parenthesis, and the source is no
    video. *)
Theorem figure_target_defined_anywhere
  (a b c name altText source body : string) :
  name <> "" -> allStr nameChar name = true ->
  allStr (isNot "]") altText = true ->
  source <> "" -> allStr (isNot ")") source = true ->
  existsb (fun ext => endsWith ext (toLowerCase (rawSource source)))
    videoExtensions = false ->
  match body with "" => True | String x _ => isSpace x = false end ->
  findSub "```" (body ++ "```") = Some (body, "") ->
  plainLines true body = true ->
  allStr (isNot "`") a = true -> plainLines true a = true ->
  endsLine true a = true ->
  allStr (isNot "`") b = true -> plainLines false b = true ->
  startsLineBreak b = true -> endsLine false b = true ->
  allStr (isNot "`") c = true -> plainLines false c = true ->
  (c = "" \/ startsLineBreak c = true) ->
  parseMystFigures (a ++ targetLine name altText source ++ b ++ figureRef name body ++ c) =
    a ++ targetComment name ++ b ++ imageFigure (rawSource source) altText body ++ c /\
  parseMystFigures (a ++ figureRef name body ++ b ++ targetLine name altText source ++ c) =
    a ++ imageFigure (rawSource source) altText body ++ b ++ targetComment name ++ c.
Proof.
  intros Hn Hname Halt Hs Hsource Hvideo Hbody Hfind Hbp
    Ha Hap Hae Hb Hbq Hbs Hbe Hc Hcp Hcs.
  destruct (nameChar_parts name Hname) as (Hsp & Hparen & Htick).
  assert (Hcomment : allStr (isNot "`") (targetComment name) = true).
  { unfold targetComment. rewrite !allStr_app, Htick. reflexivity. }
  assert (Href : figureRef name body <> "") by discriminate.
  split.
  - unfold parseMystFigures, replaceLinesSt.
    rewrite (replaceLinesGo_plain targetDefinition a _ true [] Hap), Hae.
    rewrite targetLine_cons.
    rewrite (replaceLinesGo_match targetDefinition true "(" _ _ (name, altText, source));
      [| rewrite <- targetLine_cons; apply matchTarget_line; try assumption;
         right; destruct b; [discriminate | exact Hbs] ].
    rewrite endsLine_paren.
    assert (Hplain : plainLines false (b ++ figureRef name body ++ c) = true).
    { rewrite !plainLines_app, Hbq, Hbe.
      destruct (plainLines_figureRef true name body Hname Hbp) as [-> ->].
      now rewrite Hcp. }
    rewrite (replaceLinesGo_rest targetDefinition _ false _ Hplain). cbn [fst snd].
    change (fst (targetDefinition (name, altText, source) [])) with (targetComment name).
    replace (a ++ targetComment name ++ b ++ figureRef name body ++ c)
      with ((a ++ targetComment name ++ b) ++ figureRef name body ++ c)
      by now rewrite !append_assoc.
    rewrite (replaceAll_block matchFigure _ (isNot "`") _ (figureRef name body) c
               ("#" ++ name, body));
      [ | apply matchFigure_start | reflexivity
        | now rewrite !allStr_app, Ha, Hcomment, Hb | assumption
        | now apply matchFigure_ref | assumption ].
    cbn [fst snd]. rewrite (figureDirective_defined name altText source body Hs Hvideo).
    now rewrite !append_assoc.
  - unfold parseMystFigures, replaceLinesSt.
    replace (a ++ figureRef name body ++ b ++ targetLine name altText source ++ c)
      with ((a ++ figureRef name body ++ b) ++ targetLine name altText source ++ c)
      by now rewrite !append_assoc.
    rewrite (replaceLinesGo_plain targetDefinition (a ++ figureRef name body ++ b) _ true []).
    2:{ rewrite !plainLines_app.
        destruct (plainLines_figureRef (endsLine true a) name body Hname Hbp) as [-> ->].
        now rewrite Hap, Hbq. }
    rewrite !endsLine_app.
    destruct (plainLines_figureRef (endsLine true a) name body Hname Hbp) as [_ ->].
    rewrite Hbe. rewrite targetLine_cons.
    rewrite (replaceLinesGo_match targetDefinition true "(" _ _ (name, altText, source));
      [| rewrite <- targetLine_cons; apply matchTarget_line; assumption ].
    rewrite endsLine_paren.
    rewrite (replaceLinesGo_rest targetDefinition _ false _ Hcp). cbn [fst snd].
    change (fst (targetDefinition (name, altText, source) [])) with (targetComment name).
    rewrite !append_assoc.
    rewrite (replaceAll_block matchFigure _ (isNot "`") a (figureRef name body)
               (b ++ targetComment name ++ c) ("#" ++ name, body));
      [ | apply matchFigure_start | reflexivity | assumption
        | now rewrite !allStr_app, Hb, Hcomment, Hc
        | now apply matchFigure_ref | assumption ].
    cbn [fst snd]. now rewrite (figureDirective_defined name altText source body Hs Hvideo).
Qed.

Lemma figure_target_defined_anywhere_witness :
  parseMystFigures
    (("Intro" ++ nl) ++
     targetLine "arch" "Architecture" "https://github.com/o/r/blob/main/a.png" ++
     (nl ++ "Text" ++ nl) ++
     figureRef "arch" (":width: 400" ++ nl ++ "The layers" ++ nl) ++ "") =
    ("Intro" ++ nl) ++ targetComment "arch" ++ (nl ++ "Text" ++ nl) ++
    imageFigure (rawSource "https://github.com/o/r/blob/main/a.png") "Architecture"
      (":width: 400" ++ nl ++ "The layers" ++ nl) ++ "" /\
  parseMystFigures
    (("Intro" ++ nl) ++
     figureRef "arch" (":width: 400" ++ nl ++ "The layers" ++ nl) ++
     (nl ++ "Text" ++ nl) ++
     targetLine "arch" "Architecture" "https://github.com/o/r/blob/main/a.png" ++ "") =
    ("Intro" ++ nl) ++
    imageFigure (rawSource "https://github.com/o/r/blob/main/a.png") "Architecture"
      (":width: 400" ++ nl ++ "The layers" ++ nl) ++
    (nl ++ "Text" ++ nl) ++ targetComment "arch" ++ "".
Proof.
  apply (figure_target_defined_anywhere ("Intro" ++ nl) (nl ++ "Text" ++ nl) ""
           "arch" "Architecture" "https://github.com/o/r/blob/main/a.png"
           (":width: 400" ++ nl ++ "The layers" ++ nl));
    try reflexivity; try discriminate; try (now left); exact I.
Defined.

(** The markup of the witness: the blob address has become a raw address. *)
Example figure_target_markup :
  imageFigure (rawSource "https://github.com/o/r/blob/main/a.png") "Architecture"
    (":width: 400" ++ nl ++ "The layers" ++ nl) =
  "<figure class=" ++ quoted "myst-figure" ++ "><img src=" ++
  quoted "https://raw.githubusercontent.com/o/r/main/a.png" ++
  " alt=" ++ quoted "Architecture" ++ " width=" ++ quoted "400" ++
  " loading=" ++ quoted "lazy" ++ " /><figcaption>The layers</figcaption></figure>".
Proof. reflexivity. Qed.

(** ** The table wrapper *)

(** A page is cut at every [<]: the text before the first one, and then the
    texts that follow each [<], in their order. *)
Fixpoint tagsText (f : string -> string) (segs : list string) : string :=
  match segs with
  | [] => ""
  | t :: rest => f t ++ tagsText f rest
  end.

Definition openTag (t : string) : string := "<" ++ t.

(** What the wrapper makes of one [<] and the text [t] after it. *)
Definition wrapTag (t : string) : string :=
  match stripPrefix "table" t with
  | Some t' => "<div class=" ++ quoted "table-wrapper" ++ "><table" ++ t'
  | None =>
      match stripPrefix "/table>" t with
      | Some t' => "</table></div>" ++ t'
      | None => "<" ++ t
      end
  end.

Lemma tagsText_start (segs : list string) :
  tagsText openTag segs = "" \/
  exists r, tagsText openTag segs = String "<" r.
Proof.
  destruct segs as [|t segs]; [now left|]. right.
  now exists (t ++ tagsText openTag segs).
Qed.

Section LiteralByTags.
Variables name tpl : string.
Hypothesis name_ok : allStr (isNot "<") name = true.
Hypothesis tpl_ok : allStr (isNot "$") tpl = true.

(** Text without [<] is copied. *)
Lemma replaceLiteralGo_text (t : string) :
  allStr (isNot "<") t = true ->
  forall before s,
    replaceLiteralGo ("<" ++ name) tpl 0 before (t ++ s) =
    t ++ replaceLiteralGo ("<" ++ name) tpl 0 (before ++ t) s.
Proof.
  induction t as [|x t IH]; intros Ht before s.
  - cbn [append]. now rewrite append_nil_r.
  - cbn [allStr] in Ht. apply andb_true_iff in Ht as [Hx Ht].
    unfold isNot in Hx. apply negb_true_iff in Hx.
    cbn [append replaceLiteralGo stripPrefix].
    rewrite Ascii.eqb_sym, Hx, (IH Ht).
    now rewrite append_assoc.
Qed.

(** The name of a tag is looked for within the text up to the next [<]. *)
Lemma stripPrefix_tag (l t rest : string) :
  allStr (isNot "<") l = true ->
  (rest = "" \/ exists r, rest = String "<" r) ->
  stripPrefix l (t ++ rest) =
  match stripPrefix l t with Some t' => Some (t' ++ rest) | None => None end.
Proof.
  intros Hl Hrest. revert t. induction l as [|a l IH]; intros t; [reflexivity|].
  cbn [allStr] in Hl. apply andb_true_iff in Hl as [Ha Hl].
  destruct t as [|x t].
  - cbn [append stripPrefix]. destruct Hrest as [->|(r & ->)]; [reflexivity|].
    unfold isNot in Ha. apply negb_true_iff in Ha. now rewrite Ha.
  - cbn [append stripPrefix]. destruct (Ascii.eqb a x); [now apply IH | reflexivity].
Qed.

Definition replacedTag (t : string) : string :=
  match stripPrefix name t with
  | Some t' => tpl ++ t'
  | None => "<" ++ t
  end.

Lemma replaceLiteralGo_tags (segs : list string) :
  Forall (fun t => allStr (isNot "<") t = true) segs ->
  forall before,
    replaceLiteralGo ("<" ++ name) tpl 0 before (tagsText openTag segs) =
    tagsText replacedTag segs.
Proof.
  induction segs as [|t segs IH]; intros Hsegs before; [reflexivity|].
  inversion Hsegs as [|? ? Ht Hrest]; subst.
  cbn [tagsText]. unfold openTag at 1. rewrite append_assoc.
  change ("<" ++ t ++ tagsText openTag segs)
    with (String "<" (t ++ tagsText openTag segs)).
  cbn [append replaceLiteralGo stripPrefix]. rewrite Ascii.eqb_refl.
  rewrite (stripPrefix_tag name t _ name_ok (tagsText_start segs)).
  unfold replacedTag at 1.
  destruct (stripPrefix name t) as [t'|] eqn:E.
  - apply stripPrefix_Some in E. subst t.
    rewrite allStr_app in Ht. apply andb_true_iff in Ht as [_ Ht'].
    rewrite (expandTemplate_plain _ _ _ _ tpl_ok).
    cbn [String.length Nat.sub]. rewrite Nat.sub_0_r.
    rewrite append_assoc, replaceLiteralGo_skip.
    rewrite (replaceLiteralGo_text t' Ht'), (IH Hrest).
    now rewrite !append_assoc.
  - rewrite (replaceLiteralGo_text t Ht), (IH Hrest). reflexivity.
Qed.

Lemma replaceLiteral_tags (first : string) (segs : list string) :
  allStr (isNot "<") first = true ->
  Forall (fun t => allStr (isNot "<") t = true) segs ->
  replaceLiteral ("<" ++ name) tpl (first ++ tagsText openTag segs) =
  first ++ tagsText replacedTag segs.
Proof.
  intros Hfirst Hsegs. unfold replaceLiteral.
  now rewrite (replaceLiteralGo_text first Hfirst), (replaceLiteralGo_tags segs Hsegs).
Qed.

End LiteralByTags.

(** The tags of the page after the first replacement. *)
Definition wrapperOpen : string := "div class=" ++ quoted "table-wrapper" ++ ">".

Definition openedTags (t : string) : list string :=
  match stripPrefix "table" t with
  | Some t' => [wrapperOpen; "table" ++ t']
  | None => [t]
  end.

Lemma tagsText_app (f : string -> string) (a b : list string) :
  tagsText f (a ++ b)%list = tagsText f a ++ tagsText f b.
Proof.
  induction a as [|t a IH]; [reflexivity|].
  cbn [app tagsText]. now rewrite IH, append_assoc.
Qed.

Lemma tagsText_flat_map (f : string -> string) (g : string -> list string)
  (segs : list string) :
  tagsText f (flat_map g segs) = tagsText (fun t => tagsText f (g t)) segs.
Proof.
  induction segs as [|t segs IH]; [reflexivity|].
  cbn [flat_map tagsText]. now rewrite tagsText_app, IH.
Qed.

Lemma tagsText_ext (f g : string -> string) (segs : list string) :
  (forall t, f t = g t) -> tagsText f segs = tagsText g segs.
Proof.
  intros H. induction segs as [|t segs IH]; [reflexivity|].
  cbn [tagsText]. now rewrite H, IH.
Qed.

(** X21: the table wrapper, tag by tag.  Cut the page at every [<]: the
    text before the first one is kept; a [<] followed by [table] gets the
    opening of the wrapper before it, whatever follows the five letters; a
    [<] followed by [/table>] gets the closing of the wrapper after the
    tag; every other [<] and its text are kept. *)
Theorem wrapTables_tag_by_tag (first : string) (segs : list string) :
  allStr (isNot "<") first = true ->
  Forall (fun t => allStr (isNot "<") t = true) segs ->
  wrapTables (first ++ tagsText openTag segs) = first ++ tagsText wrapTag segs.
Proof.
  intros Hfirst Hsegs. unfold wrapTables.
  change (replaceLiteral "<table" ("<div class=" ++ quoted "table-wrapper" ++ "><table")
            (first ++ tagsText openTag segs))
    with (replaceLiteral ("<" ++ "table") ("<div class=" ++ quoted "table-wrapper" ++ "><table")
            (first ++ tagsText openTag segs)).
  rewrite (replaceLiteral_tags "table" ("<div class=" ++ quoted "table-wrapper" ++ "><table")
             eq_refl eq_refl first segs Hfirst Hsegs).
  assert (E : tagsText (replacedTag "table" ("<div class=" ++ quoted "table-wrapper" ++ "><table")) segs
              = tagsText openTag (flat_map openedTags segs)).
  { rewrite tagsText_flat_map. apply tagsText_ext. intros t.
    unfold replacedTag, openedTags.
    destruct (stripPrefix "table" t) as [t'|];
      cbn [tagsText]; now rewrite append_nil_r. }
  rewrite E.
  change "</table>" with ("<" ++ "/table>").
  rewrite (replaceLiteral_tags "/table>" "</table></div>" eq_refl eq_refl first
             (flat_map openedTags segs) Hfirst).
  - f_equal. rewrite tagsText_flat_map. apply tagsText_ext. intros t.
    unfold openedTags, wrapTag.
    destruct (stripPrefix "table" t) as [t'|] eqn:Et.
    + cbn [tagsText]. now rewrite append_nil_r.
    + cbn [tagsText]. unfold replacedTag. now rewrite append_nil_r.
  - apply Forall_flat_map. revert Hsegs. apply Forall_impl. intros t Ht.
    unfold openedTags. destruct (stripPrefix "table" t) as [t'|] eqn:Et.
    + apply stripPrefix_Some in Et. subst t.
      rewrite allStr_app in Ht. apply andb_true_iff in Ht as [_ Ht'].
      apply Forall_cons; [reflexivity|]. apply Forall_cons; [|apply Forall_nil].
      rewrite allStr_app. now rewrite Ht'.
    + apply Forall_cons; [assumption | apply Forall_nil].
Qed.

Lemma wrapTables_tag_by_tag_witness :
  wrapTables
    ("Results: " ++
     tagsText openTag
       [ "table class=" ++ quoted "wide" ++ ">"; "tr>"; "td>1"; "/td>"; "/tr>";
         "/table> and "; "tablet>" ]) =
  "Results: " ++
  tagsText wrapTag
    [ "table class=" ++ quoted "wide" ++ ">"; "tr>"; "td>1"; "/td>"; "/tr>";
      "/table> and "; "tablet>" ].
Proof.
  apply (wrapTables_tag_by_tag "Results: "); [reflexivity|].
  repeat (apply Forall_cons; [reflexivity|]). apply Forall_nil.
Defined.

(** The page of the witness written out: the tag [<tablet>] has the
    wrapper opened before it as well. *)
Example wrapTables_page :
  wrapTables
    ("Results: <table class=" ++ quoted "wide" ++
     "><tr><td>1</td></tr></table> and <tablet>") =
  "Results: <div class=" ++ quoted "table-wrapper" ++ "><table class=" ++ quoted "wide" ++
  "><tr><td>1</td></tr></table></div> and <div class=" ++ quoted "table-wrapper" ++
  "><tablet>".
Proof. reflexivity. Qed.

(** ** A figure that refers to a target without definition *)

(** The parts of a document around a figure: a text in which no line starts
    with an opening parenthesis, or the definition line of a target. *)
Inductive Part : Type :=
  | Text (t : string)
  | Target (name altText source : string).

Definition written (p : Part) : string :=
  match p with
  | Text t => t
  | Target name altText source => targetLine name altText source
  end.

(** What the resolver makes of a part: a definition line becomes a
    comment. *)
Definition resolved (p : Part) : string :=
  match p with
  | Text t => t
  | Target name _ _ => targetComment name
  end.

Definition partOk (p : Part) : bool :=
  match p with
  | Text t => plainLines true t && allStr (isNot "`") t
  | Target name altText source =>
      negb (isEmpty name) && allStr (isNot ")") name && allStr (isNot "`") name
      && allStr (isNot "]") altText
      && negb (isEmpty source) && allStr (isNot ")") source
  end.

Definition definedNames (ps : list Part) : list string :=
  flat_map (fun p => match p with Target name _ _ => [name] | Text _ => [] end) ps.

(** The parts before the figure, each on lines of its own, and the parts
    after it. *)
Fixpoint linesBefore (f : Part -> string) (ps : list Part) : string :=
  match ps with
  | [] => ""
  | p :: rest => f p ++ nl ++ linesBefore f rest
  end.

Fixpoint linesAfter (f : Part -> string) (ps : list Part) : string :=
  match ps with
  | [] => ""
  | p :: rest => nl ++ f p ++ linesAfter f rest
  end.

(** The figure of line 294, as a page holds it: the placeholder, and the
    class, the id and the caption that the body of the directive gives. *)
Definition notFoundFigure (body : string) : string :=
  let '(options, captionLines) := figureLines (lines body) [] [] in
  let caption := trim (join nl captionLines) in
  "<figure class=" ++ dq ++ "myst-figure" ++
  (if truthy (optGet options "align") then " align-" ++ optGet options "align" else "") ++
  dq ++
  (if truthy (optGet options "label") then " id=" ++ quoted (optGet options "label")
   else if truthy (optGet options "name") then " id=" ++ quoted (optGet options "name")
   else "") ++
  "><div class=" ++ quoted "figure-error" ++ ">Image target not found</div>" ++
  (if truthy caption then "<figcaption>" ++ caption ++ "</figcaption>" else "") ++
  "</figure>".

(** The table after the definitions of a list of parts. *)
Definition tableOf (ps : list Part) (targets : list (string * FigureTarget))
  : list (string * FigureTarget) :=
  fold_left
    (fun t p =>
       match p with
       | Target name altText source => snd (targetDefinition (name, altText, source) t)
       | Text _ => t
       end)
    ps targets.

Lemma partOk_text (t : string) :
  partOk (Text t) = true -> plainLines true t = true /\ allStr (isNot "`") t = true.
Proof. cbn [partOk]. intros H. now apply andb_true_iff in H. Qed.

Lemma partOk_target (name altText source : string) :
  partOk (Target name altText source) = true ->
  name <> "" /\ allStr (isNot ")") name = true /\ allStr (isNot "`") name = true /\
  allStr (isNot "]") altText = true /\ source <> "" /\ allStr (isNot ")") source = true.
Proof.
  cbn [partOk]. intros H.
  repeat (apply andb_true_iff in H as [H ?]).
  repeat split; try assumption.
  - now destruct name.
  - now destruct source.
Qed.

Lemma linesAfter_start (f : Part -> string) (ps : list Part) :
  linesAfter f ps = "" \/ startsLineBreak (linesAfter f ps) = true.
Proof. destruct ps; [now left | now right]. Qed.

Lemma plainLines_nl (bol : bool) : plainLines bol nl = true /\ endsLine bol nl = true.
Proof. now destruct bol. Qed.

(** The first pass over the parts before the figure. *)
Lemma targets_before (ps : list Part) :
  Forall (fun p => partOk p = true) ps ->
  forall rest targets,
    replaceLinesGo matchTarget targetDefinition 0 true
      (linesBefore written ps ++ rest) targets =
    (linesBefore resolved ps ++
       fst (replaceLinesGo matchTarget targetDefinition 0 true rest (tableOf ps targets)),
     snd (replaceLinesGo matchTarget targetDefinition 0 true rest (tableOf ps targets))).
Proof.
  induction 1 as [|p ps Hp Hps IH]; intros rest targets.
  - cbn [linesBefore append tableOf fold_left].
    now destruct (replaceLinesGo matchTarget targetDefinition 0 true rest targets).
  - cbn [linesBefore]. rewrite !append_assoc.
    destruct p as [t | name altText source].
    + apply partOk_text in Hp as [Hplain _]. cbn [written resolved].
      rewrite (replaceLinesGo_plain targetDefinition t _ true targets Hplain).
      rewrite (replaceLinesGo_plain targetDefinition nl _ (endsLine true t) targets
                 (proj1 (plainLines_nl _))).
      rewrite (proj2 (plainLines_nl _)). cbn [fst snd].
      rewrite IH. cbn [fst snd tableOf fold_left]. rewrite ?append_assoc. reflexivity.
    + apply partOk_target in Hp as (Hn & Hname & _ & Halt & Hs & Hsource).
      cbn [written resolved]. rewrite targetLine_cons.
      rewrite (replaceLinesGo_match targetDefinition true "(" _ _ (name, altText, source));
        [| rewrite <- targetLine_cons; apply matchTarget_line; try assumption; now right ].
      rewrite endsLine_paren.
      rewrite (replaceLinesGo_plain targetDefinition nl _ false _ (proj1 (plainLines_nl _))).
      rewrite (proj2 (plainLines_nl _)). cbn [fst snd].
      rewrite IH. cbn [fst snd tableOf fold_left].
      change (fst (targetDefinition (name, altText, source) targets))
        with (targetComment name).
      rewrite ?append_assoc. reflexivity.
Qed.

(** The first pass over the parts after the figure. *)
Lemma targets_after (ps : list Part) :
  Forall (fun p => partOk p = true) ps ->
  forall bol targets,
    replaceLinesGo matchTarget targetDefinition 0 bol (linesAfter written ps) targets =
    (linesAfter resolved ps, tableOf ps targets).
Proof.
  induction 1 as [|p ps Hp Hps IH]; intros bol targets.
  - now destruct bol.
  - cbn [linesAfter].
    rewrite (replaceLinesGo_plain targetDefinition nl _ bol targets (proj1 (plainLines_nl _))).
    rewrite (proj2 (plainLines_nl _)).
    destruct p as [t | name altText source].
    + apply partOk_text in Hp as [Hplain _]. cbn [written resolved].
      rewrite (replaceLinesGo_plain targetDefinition t _ true targets Hplain).
      rewrite IH. reflexivity.
    + apply partOk_target in Hp as (Hn & Hname & _ & Halt & Hs & Hsource).
      cbn [written resolved]. rewrite targetLine_cons.
      rewrite (replaceLinesGo_match targetDefinition true "(" _ _ (name, altText, source));
        [| rewrite <- targetLine_cons; apply matchTarget_line; try assumption;
           apply linesAfter_start ].
      rewrite endsLine_paren, IH. reflexivity.
Qed.

Lemma tableOf_app (a b : list Part) (targets : list (string * FigureTarget)) :
  tableOf (a ++ b) targets = tableOf b (tableOf a targets).
Proof. apply fold_left_app. Qed.

Lemma tableOf_keys (ps : list Part) :
  forall targets,
    map fst (tableOf ps targets) = (map fst targets ++ definedNames ps)%list.
Proof.
  induction ps as [|p ps IH]; intros targets.
  - cbn. now rewrite app_nil_r.
  - cbn [tableOf fold_left definedNames flat_map].
    change (fold_left _ ps ?t) with (tableOf ps t). rewrite IH.
    destruct p as [t | name altText source]; [reflexivity|].
    cbn [targetDefinition snd]. unfold objSet. rewrite map_app, <- app_assoc. reflexivity.
Qed.

Lemma resolved_ticks (ps : list Part) :
  Forall (fun p => partOk p = true) ps ->
  allStr (isNot "`") (linesBefore resolved ps) = true /\
  allStr (isNot "`") (linesAfter resolved ps) = true.
Proof.
  induction 1 as [|p ps Hp Hps [IHb IHa]]; [now split|].
  assert (Hr : allStr (isNot "`") (resolved p) = true).
  { destruct p as [t | name altText source].
    - now apply partOk_text in Hp.
    - apply partOk_target in Hp as (_ & _ & Hname & _).
      cbn [resolved]. unfold targetComment. now rewrite !allStr_app, Hname. }
  cbn [linesBefore linesAfter]. rewrite !allStr_app, Hr, IHb, IHa. now split.
Qed.

Lemma figureError_notFound (body : string) :
  figureError
    (figureAlignClass (fst (figureLines (lines body) [] [])))
    (figureIdAttr (fst (figureLines (lines body) [] [])))
    (trim (join nl (snd (figureLines (lines body) [] [])))) =
  notFoundFigure body.
Proof.
  unfold notFoundFigure, figureError, figureAlignClass, figureIdAttr, figcaption.
  destruct (figureLines (lines body) [] []) as [options captionLines]. cbn [fst snd].
  assert (Hid : orElse
                  (if truthy (optGet options "label")
                   then " id=" ++ quoted (optGet options "label") else "")
                  (if truthy (optGet options "name")
                   then " id=" ++ quoted (optGet options "name") else "") =
                (if truthy (optGet options "label")
                 then " id=" ++ quoted (optGet options "label")
                 else if truthy (optGet options "name")
                      then " id=" ++ quoted (optGet options "name") else ""))
    by (unfold orElse; destruct (truthy (optGet options "label")); reflexivity).
  now rewrite Hid.
Qed.

(** The options and the caption of a figure hold only characters of its
    body. *)
Lemma matchOption_value (g : ascii -> bool) (trimmed k v : string) :
  allStr g trimmed = true -> matchOption trimmed = Some (k, v) -> allStr g v = true.
Proof.
  intros Hg. unfold matchOption.
  destruct (stripPrefix ":" trimmed) as [s1|] eqn:E1; [|discriminate].
  apply stripPrefix_Some in E1. subst trimmed. apply allStr_suffix in Hg.
  pose proof (span_spec isWord s1) as Hs.
  destruct (span isWord s1) as [key s2]. destruct Hs as (-> & _).
  apply allStr_suffix in Hg.
  destruct (isEmpty key); [discriminate|].
  destruct (stripPrefix ":" s2) as [s3|] eqn:E3; [|discriminate].
  apply stripPrefix_Some in E3. subst s2. apply allStr_suffix in Hg.
  unfold dropWhile. pose proof (span_spec isSpace s3) as Hs.
  destruct (span isSpace s3) as [ws value]. destruct Hs as (-> & _).
  apply allStr_suffix in Hg. cbn [snd].
  destruct (allStr (fun c => negb (isLineTerminator c)) value); [|discriminate].
  intros E. inversion E; subst. assumption.
Qed.

Lemma figureLines_chars (g : ascii -> bool) (ls : list string) :
  Forall (fun l => allStr g l = true) ls ->
  forall options captionLines,
    Forall (fun kv => allStr g (snd kv) = true) options ->
    Forall (fun l => allStr g l = true) captionLines ->
    Forall (fun kv => allStr g (snd kv) = true) (fst (figureLines ls options captionLines)) /\
    Forall (fun l => allStr g l = true) (snd (figureLines ls options captionLines)).
Proof.
  induction 1 as [|line ls Hline Hls IH]; intros options captionLines Ho Hc; [now split|].
  cbn [figureLines].
  destruct (matchOption (trim line)) as [[k v]|] eqn:E.
  - apply IH; [|assumption]. apply Forall_app. split; [assumption|].
    apply Forall_cons; [|apply Forall_nil]. cbn [snd].
    apply (matchOption_value g (trim line) k v); [now apply allStr_trim | assumption].
  - assert (Hc' : Forall (fun l => allStr g l = true) (captionLines ++ [line]))
      by (apply Forall_app; split; [assumption | now repeat constructor]).
    destruct (truthy (trim line)); [now apply IH|].
    destruct (0 <? List.length captionLines)%nat; now apply IH.
Qed.

Lemma optGet_chars (g : ascii -> bool) (options : list (string * string)) (k : string) :
  Forall (fun kv => allStr g (snd kv) = true) options -> allStr g (optGet options k) = true.
Proof.
  unfold optGet. induction 1 as [|[k' v] options Hv Ho IH]; [reflexivity|].
  cbn [assocLast]. destruct (assocLast k options) as [w|]; [exact IH|].
  destruct (String.eqb k' k); [exact Hv | reflexivity].
Qed.

Lemma avoids_includes (N s : string) : avoids N s -> includes N s = false.
Proof.
  intros H. unfold includes, findSub.
  rewrite findFirst_none; [reflexivity|].
  intros p q Hpq. unfold litK. now rewrite (H p q Hpq).
Qed.

(** A placeholder figure holds no image element, when the body of the
    directive holds no [<]. *)
Lemma notFoundFigure_no_image (body : string) :
  allStr (isNot "<") body = true -> includes "<img" (notFoundFigure body) = false.
Proof.
  intros Hbody. apply avoids_includes. unfold notFoundFigure.
  pose proof (figureLines_chars (isNot "<") (lines body)
                (allStr_splitChar _ LF body Hbody) [] [] (Forall_nil _) (Forall_nil _))
    as [Ho Hc].
  destruct (figureLines (lines body) [] []) as [options captionLines]. cbn [fst snd] in Ho, Hc.
  assert (Hcap : allStr (isNot "<") (trim (join nl captionLines)) = true)
    by (apply allStr_trim, allStr_join; [reflexivity | assumption]).
  pose proof (optGet_chars _ options "align" Ho) as Halign.
  pose proof (optGet_chars _ options "label" Ho) as Hlabel.
  pose proof (optGet_chars _ options "name" Ho) as Hname.
  set (caption := trim (join nl captionLines)) in *.
  assert (Hfree : forall s, allStr (isNot "<") s = true -> avoids "<" s)
    by (intros s Hs; now apply (avoids_chars (isNot "<"))).
  assert (Hweave : forall alignClass idAttr captionPart,
             avoids "<" alignClass -> avoids "<" idAttr ->
             (captionPart = "" \/
              captionPart = "<figcaption>" ++ caption ++ "</figcaption>") ->
             avoids "<img"
               ("<figure class=" ++ dq ++ "myst-figure" ++ alignClass ++ dq ++ idAttr ++
                "><div class=" ++ quoted "figure-error" ++ ">Image target not found</div>" ++
                captionPart ++ "</figure>")).
  { intros alignClass idAttr captionPart Ha Hi [-> | ->].
    - change ("<figure class=" ++ dq ++ "myst-figure" ++ alignClass ++ dq ++ idAttr ++
              "><div class=" ++ quoted "figure-error" ++ ">Image target not found</div>" ++
              "" ++ "</figure>")
        with (weave ""
                [ ("<figure class=" ++ dq ++ "myst-figure", alignClass);
                  (dq, idAttr);
                  ("><div class=" ++ quoted "figure-error" ++
                   ">Image target not found</div></figure>", "") ]).
      apply (avoids_weave "<" "img"); [apply Hfree; reflexivity|].
      repeat (apply Forall_cons; [split; [reflexivity | cbn [snd]; auto]|]).
      apply Forall_nil.
    - replace ("<figure class=" ++ dq ++ "myst-figure" ++ alignClass ++ dq ++ idAttr ++
               "><div class=" ++ quoted "figure-error" ++ ">Image target not found</div>" ++
               ("<figcaption>" ++ caption ++ "</figcaption>") ++ "</figure>")
        with (weave ""
                [ ("<figure class=" ++ dq ++ "myst-figure", alignClass);
                  (dq, idAttr);
                  ("><div class=" ++ quoted "figure-error" ++
                   ">Image target not found</div><figcaption>", caption);
                  ("</figcaption></figure>", "") ])
        by (cbn [weave]; now rewrite !append_assoc).
      apply (avoids_weave "<" "img"); [apply Hfree; reflexivity|].
      repeat (apply Forall_cons; [split; [reflexivity | cbn [snd]; auto]|]).
      apply Forall_nil. }
  apply Hweave.
  - destruct (truthy (optGet options "align")); apply Hfree;
      [now rewrite allStr_app, Halign | reflexivity].
  - destruct (truthy (optGet options "label")); [|destruct (truthy (optGet options "name"))];
      apply Hfree; unfold quoted; rewrite ?allStr_app, ?Hlabel, ?Hname; reflexivity.
  - destruct (truthy caption); [now right | now left].
Qed.

(** C6 (as amended): a figure directive whose argument is [#name], for a
    name that no definition line of the document defines, before or after
    the directive, is rendered as a figure that holds the placeholder
    [Image target not found]; the definition lines of other names become
    comments and the text around stays as it is.  The figure holds no image
    element (the body of the directive holding no [<] of its own).  The
    document is a list of parts before the directive and a list of parts
    after it, each part on lines of its own: texts in which no line starts
    with an opening parenthesis, and definition lines. *)
Theorem figure_without_definition (before after : list Part) (name body : string) :
  Forall (fun p => partOk p = true) before ->
  Forall (fun p => partOk p = true) after ->
  allStr nameChar name = true ->
  ~ In name (definedNames (before ++ after)) ->
  match body with "" => True | String x _ => isSpace x = false end ->
  findSub "```" (body ++ "```") = Some (body, "") ->
  plainLines true body = true ->
  parseMystFigures
    (linesBefore written before ++ figureRef name body ++ linesAfter written after) =
  linesBefore resolved before ++ notFoundFigure body ++ linesAfter resolved after /\
  (allStr (isNot "<") body = true -> includes "<img" (notFoundFigure body) = false).
Proof.
  intros Hbefore Hafter Hname Hundef Hfirst Hfind Hplain.
  split; [|apply notFoundFigure_no_image].
  unfold parseMystFigures, replaceLinesSt.
  rewrite (targets_before before Hbefore).
  destruct (plainLines_figureRef true name body Hname Hplain) as [Hfig Hend].
  rewrite (replaceLinesGo_plain targetDefinition (figureRef name body) _ true _ Hfig).
  rewrite Hend, (targets_after after Hafter). cbn [fst snd].
  rewrite <- tableOf_app.
  destruct (resolved_ticks before Hbefore) as [Hb _].
  destruct (resolved_ticks after Hafter) as [_ Ha].
  rewrite (replaceAll_block matchFigure _ (isNot "`") _ (figureRef name body) _
             ("#" ++ name, body));
    [ | apply matchFigure_start | reflexivity | assumption | assumption
      | now apply matchFigure_ref | discriminate ].
  cbn [fst snd]. rewrite figureDirective_undefined.
  - now rewrite figureError_notFound.
  - apply assocLast_not_in. now rewrite tableOf_keys.
Qed.

Lemma figure_without_definition_witness :
  parseMystFigures
    (linesBefore written [Target "other" "a" "u.png"; Text "Intro (1)"] ++
     figureRef "missing" (":align: left" ++ nl ++ "A caption" ++ nl) ++
     linesAfter written [Text "More"; Target "late" "b" "v.png"]) =
  linesBefore resolved [Target "other" "a" "u.png"; Text "Intro (1)"] ++
  notFoundFigure (":align: left" ++ nl ++ "A caption" ++ nl) ++
  linesAfter resolved [Text "More"; Target "late" "b" "v.png"] /\
  (allStr (isNot "<") (":align: left" ++ nl ++ "A caption" ++ nl) = true ->
   includes "<img" (notFoundFigure (":align: left" ++ nl ++ "A caption" ++ nl)) = false).
Proof.
  apply (figure_without_definition
           [Target "other" "a" "u.png"; Text "Intro (1)"]
           [Text "More"; Target "late" "b" "v.png"]
           "missing" (":align: left" ++ nl ++ "A caption" ++ nl)).
  - repeat (apply Forall_cons; [reflexivity|]). apply Forall_nil.
  - repeat (apply Forall_cons; [reflexivity|]). apply Forall_nil.
  - reflexivity.
  - cbn [definedNames flat_map app In]. intuition discriminate.
  - reflexivity.
  - reflexivity.
  - reflexivity.
Defined.

(** The document of the witness and its page, written out. *)
Example figure_without_definition_page :
  parseMystFigures
    ("(other)=![a](u.png)" ++ nl ++ "Intro (1)" ++ nl ++
     "```{figure} #missing" ++ nl ++ ":align: left" ++ nl ++ "A caption" ++ nl ++ "```" ++
     nl ++ "More" ++ nl ++ "(late)=![b](v.png)") =
  "<!-- target:other defined -->" ++ nl ++ "Intro (1)" ++ nl ++
  "<figure class=" ++ quoted "myst-figure align-left" ++
  "><div class=" ++ quoted "figure-error" ++ ">Image target not found</div>" ++
  "<figcaption>A caption</figcaption></figure>" ++
  nl ++ "More" ++ nl ++ "<!-- target:late defined -->".
Proof. vm_compute. reflexivity. Qed.

(** C6 (counterexample): the target [later] has no definition before the
    figure that refers to it, and the figure is rendered with the image of
    the definition that follows it, not with the placeholder. *)
Lemma later_definition_counterexample :
  parseMystFigures
    ("```{figure} #later" ++ nl ++ "```" ++ nl ++ "(later)=![alt text](pic.png)") =
  "<figure class=" ++ quoted "myst-figure" ++ "><img src=" ++ quoted "pic.png" ++
  " alt=" ++ quoted "alt text" ++ " loading=" ++ quoted "lazy" ++ " /></figure>" ++ nl ++
  "<!-- target:later defined -->".
Proof. vm_compute. reflexivity. Qed.

(** ** Math resolver: the numbers of the equations of a document *)

(** *** A replacement over a document of blocks *)

(** A document of blocks: each block is followed by a line feed. *)
Fixpoint document {A : Type} (form : A -> string) (bs : list A) : string :=
  match bs with
  | [] => ""
  | b :: rest => form b ++ nl ++ document form rest
  end.

Section BlockPass.
Context {A C St : Type}.
Variable m : string -> option (C * string).
Variable f : C -> St -> string * St.
Variable form : A -> string.
Variable act : A -> option C.

(** The blocks that the pattern matches are replaced, from left to right;
    the others are copied. *)
Fixpoint passResult (bs : list A) (st : St) : string * St :=
  match bs with
  | [] => ("", st)
  | b :: rest =>
      match act b with
      | Some c =>
          (fst (f c st) ++ nl ++ fst (passResult rest (snd (f c st))),
           snd (passResult rest (snd (f c st))))
      | None => (form b ++ nl ++ fst (passResult rest st), snd (passResult rest st))
      end
  end.

Definition blockCond (b : A) (rest : string) : Prop :=
  match act b with
  | Some c =>
      form b <> "" /\ m (form b ++ nl ++ rest) = Some (c, nl ++ rest) /\
      m (nl ++ rest) = None
  | None => forall p q, form b ++ nl = p ++ q -> q <> "" -> m (q ++ rest) = None
  end.

Lemma replaceSt_blocks (bs : list A) :
  m "" = None ->
  (forall pre b post, bs = (pre ++ b :: post)%list -> blockCond b (document form post)) ->
  forall st, replaceSt m f (document form bs) st = passResult bs st.
Proof.
  intros Hnil. induction bs as [|b bs IH]; intros Hcond st.
  - now apply replaceSt_nil.
  - assert (IH' : forall st, replaceSt m f (document form bs) st = passResult bs st).
    { apply IH. intros pre b' post E. apply (Hcond (b :: pre) b' post). now rewrite E. }
    pose proof (Hcond [] b bs eq_refl) as Hb. unfold blockCond in Hb.
    cbn [document passResult]. destruct (act b) as [c|].
    + destruct Hb as (Hne & Hm & Hnl).
      rewrite (replaceSt_match m f (form b) _ c st Hm Hne).
      change (nl ++ document form bs) with (String LF (document form bs)) in *.
      rewrite (replaceSt_copy m f LF _ _ Hnl). cbn [fst snd]. now rewrite IH'.
    + rewrite <- append_assoc.
      rewrite (replaceSt_prefix m f (form b ++ nl) _ st Hb).
      now rewrite IH', append_assoc.
Qed.

End BlockPass.

(** A text that ends a line: an occurrence of a text without line feed
    that starts in it ends in it. *)
Lemma suffix_of_line (s p q : string) :
  s ++ nl = p ++ q -> q <> "" -> exists q', q = q' ++ nl.
Proof.
  revert p. induction s as [|c s IH]; intros p E Hq.
  - destruct p as [|x p].
    + exists "". cbn in E |- *. congruence.
    + cbn in E. inversion E as [[Hx E']].
      destruct p; destruct q; cbn in E'; congruence.
  - destruct p as [|x p].
    + exists (String c s). cbn in E |- *. congruence.
    + cbn in E. inversion E as [[Hx E']]. now apply (IH p).
Qed.

Lemma guarded (L s rest : string) :
  allStr (isNot LF) L = true -> avoids L (s ++ nl) ->
  forall p q, s ++ nl = p ++ q -> q <> "" -> stripPrefix L (q ++ rest) = None.
Proof.
  intros HL Hs p q E Hq.
  destruct (stripPrefix L (q ++ rest)) as [z|] eqn:Hz; [|reflexivity]. exfalso.
  destruct (suffix_of_line s p q E Hq) as (q' & ->).
  destruct (stripPrefix_app_inv _ _ _ _ Hz) as [(L2 & HL2 & _) | (q2 & Hq2)].
  - rewrite HL2, !allStr_app in HL. cbn in HL. rewrite andb_false_r in HL. discriminate.
  - pose proof (Hs p (q' ++ nl) E) as Hn. rewrite Hq2, stripPrefix_app in Hn. discriminate.
Qed.

(** *** The equations of a document *)

(** The five ways of writing a labelled equation. *)
Inductive Syntax : Type :=
  | BacktickDirective
  | DollarSuffix
  | Environment (name : string)
  | DollarLabel
  | ColonDirective.

(** The names of the environments, as a document writes them. *)
Definition environments : list string :=
  [ "equation"; "equation*"; "align"; "align*"; "gather"; "gather*";
    "multline"; "multline*"; "alignat"; "alignat*"; "split" ].

Definition writtenEquation (s : Syntax) (label math : string) : string :=
  match s with
  | BacktickDirective =>
      "```{math}" ++ nl ++ ":label: " ++ label ++ nl ++ math ++ nl ++ "```"
  | DollarSuffix => "$$" ++ math ++ "$$ (" ++ label ++ ")"
  | Environment name =>
      "\begin{" ++ name ++ "}\label{" ++ label ++ "}" ++ math ++ "\end{" ++ name ++ "}"
  | DollarLabel => "$$\label{" ++ label ++ "}" ++ math ++ "$$"
  | ColonDirective =>
      ":::{math}" ++ nl ++ ":label: " ++ label ++ nl ++ math ++ nl ++ ":::"
  end.

(** A number as it is printed. *)
Definition decimal (n : nat) : string := NilEmpty.string_of_uint (Nat.to_uint n).

(** The element of a numbered equation, as a page holds it. *)
Definition renderedEquation (s : Syntax) (label math : string) (n : nat) : string :=
  match s with
  | Environment name =>
      "<div class=" ++ quoted "equation-block ams-env" ++ " id=" ++ quoted label ++
      ">\[\begin{" ++ name ++ "}\label{" ++ label ++ "}" ++ math ++
      "\end{" ++ name ++ "}\]<span class=" ++ quoted "equation-number" ++ ">(" ++
      decimal n ++ ")</span></div>"
  | _ =>
      "<div class=" ++ quoted "equation-block" ++ " id=" ++ quoted label ++ ">\[" ++
      math ++ "\]<span class=" ++ quoted "equation-number" ++ ">(" ++ decimal n ++
      ")</span></div>"
  end.

(** An item of a document: a paragraph of text without math, or a labelled
    equation. *)
Inductive Item : Type :=
  | Prose (text : string)
  | Labelled (syntax : Syntax) (label math : string).

Definition writtenItem (b : Item) : string :=
  match b with
  | Prose text => text
  | Labelled s label math => writtenEquation s label math
  end.

Definition renderedItem (bn : Item * nat) : string :=
  match fst bn with
  | Prose text => text
  | Labelled s label math => renderedEquation s label math (snd bn)
  end.

(** The place of a syntax in the order of the passes. *)
Fixpoint indexOf (name : string) (l : list string) : nat :=
  match l with
  | [] => 0
  | x :: rest => if String.eqb x name then 0 else S (indexOf name rest)
  end.

Definition rank (s : Syntax) : nat :=
  match s with
  | BacktickDirective => 0
  | DollarSuffix => 1
  | Environment name => 2 + indexOf name environments
  | DollarLabel => 13
  | ColonDirective => 14
  end.

Definition rankOf (b : Item) : option nat :=
  match b with
  | Prose _ => None
  | Labelled s _ _ => Some (rank s)
  end.

Definition earlierPass (k : nat) (b : Item) : bool :=
  match rankOf b with Some r => (r <? k)%nat | None => false end.

Definition samePass (k : nat) (b : Item) : bool :=
  match rankOf b with Some r => (r =? k)%nat | None => false end.

Definition isEquation (b : Item) : bool :=
  match b with Prose _ => false | Labelled _ _ _ => true end.

Definition count (p : Item -> bool) (bs : list Item) : nat :=
  List.length (filter p bs).

(** The number of an equation: one more than the number of equations that
    an earlier pass handles, wherever they stand, plus the number of
    equations of its own pass that stand before it. *)
Fixpoint numberGo (before rest : list Item) : list (Item * nat) :=
  match rest with
  | [] => []
  | b :: rest' =>
      (b, match rankOf b with
          | Some k =>
              S (count (earlierPass k) (before ++ rest) + count (samePass k) before)
          | None => 0
          end) :: numberGo (before ++ [b]) rest'
  end.

Definition numbered (bs : list Item) : list (Item * nat) := numberGo [] bs.

(** The registry: pass after pass, the equations of the pass in the order
    of the document. *)
Definition entriesOf (k : nat) (nbs : list (Item * nat)) : list (string * Equation) :=
  flat_map
    (fun bn =>
       match fst bn with
       | Labelled s label _ =>
           if (rank s =? k)%nat then [(label, {| number := snd bn; id := label |})] else []
       | Prose _ => []
       end)
    nbs.

Definition registry (nbs : list (Item * nat)) : list (string * Equation) :=
  flat_map (fun k => entriesOf k nbs) (seq 0 15).

(** *** The numbering, pass by pass *)

Fixpoint consistent (k c : nat) (nbs : list (Item * nat)) : Prop :=
  match nbs with
  | [] => True
  | bn :: rest =>
      if samePass k (fst bn) then snd bn = S c /\ consistent k (S c) rest
      else consistent k c rest
  end.

Lemma count_app (p : Item -> bool) (a b : list Item) :
  count p (a ++ b) = count p a + count p b.
Proof. unfold count. now rewrite filter_app, length_app. Qed.

Lemma samePass_rank (k : nat) (b : Item) :
  samePass k b = true -> rankOf b = Some k.
Proof.
  unfold samePass. destruct (rankOf b) as [r|]; [|discriminate].
  intros H. apply Nat.eqb_eq in H. now subst.
Qed.

Lemma numberGo_consistent (k : nat) (rest : list Item) :
  forall before,
    consistent k (count (earlierPass k) (before ++ rest) + count (samePass k) before)
      (numberGo before rest).
Proof.
  induction rest as [|b rest IH]; intros before; [exact I|].
  cbn [numberGo consistent fst snd].
  specialize (IH (before ++ [b])%list).
  rewrite <- app_assoc in IH. cbn [app] in IH.
  rewrite (count_app (samePass k) before [b]) in IH.
  unfold count at 3 in IH. cbn [filter] in IH.
  destruct (samePass k b) eqn:Hk.
  - rewrite (samePass_rank k b Hk). split; [reflexivity|].
    cbn [List.length] in IH.
    replace (S (count (earlierPass k) (before ++ b :: rest) + count (samePass k) before))
      with (count (earlierPass k) (before ++ b :: rest) + (count (samePass k) before + 1))
      by lia.
    exact IH.
  - cbn [List.length] in IH. now rewrite Nat.add_0_r in IH.
Qed.

Lemma numberGo_blocks (rest : list Item) :
  forall before, map fst (numberGo before rest) = rest.
Proof.
  induction rest as [|b rest IH]; intros before; [reflexivity|].
  cbn [numberGo map fst]. now rewrite IH.
Qed.

(** *** The documents of the theorem *)

(** A label is made of letters, digits, [_], [-], [.] and [:], without
    three colons in a row. *)
Definition labelChar (c : ascii) : bool :=
  isWord c || Ascii.eqb c "-" || Ascii.eqb c "." || Ascii.eqb c ":".

Definition labelOk (label : string) : bool :=
  negb (isEmpty label) && allStr labelChar label && negb (includes ":::" label).

(** The math of an equation is one line without dollar, backtick or hash;
    it starts with neither white space nor a colon, does not end with
    white space, and holds no [\begin{], [\end{] or three colons. *)
Definition mathChar (c : ascii) : bool := plainChar c && negb (isLineTerminator c).

Definition mathOk (math : string) : bool :=
  match math with
  | "" => false
  | String c _ => negb (isSpace c) && isNot ":" c
  end
  && allStr mathChar math && String.eqb (trimEnd math) math
  && negb (includes "\begin{" math) && negb (includes "\end{" math)
  && negb (includes ":::" math).

(** A paragraph is empty, or starts with neither white space nor an
    opening parenthesis; it holds no dollar, backtick or hash, no
    [\begin{] and no [:::{math}]. *)
Definition proseOk (text : string) : bool :=
  match text with
  | "" => true
  | String c _ => negb (isSpace c) && isNot "(" c
  end
  && plainText text.

Definition itemOk (b : Item) : bool :=
  match b with
  | Prose text => proseOk text
  | Labelled s label math =>
      labelOk label && mathOk math &&
      match s with
      | Environment name => existsb (String.eqb name) environments
      | _ => true
      end
  end.

(** No equation written [$$\label{..}..$$] stands before one written
    [$$..$$ (label)]. *)
Fixpoint suffixFirst (bs : list Item) : bool :=
  match bs with
  | [] => true
  | b :: rest =>
      (negb (samePass 13 b) || negb (existsb (samePass 1) rest)) && suffixFirst rest
  end.

(** The text of an item when the passes before pass [k] have run. *)
Definition formAt (k : nat) (bn : Item * nat) : string :=
  match fst bn with
  | Prose text => text
  | Labelled s label math =>
      if (rank s <? k)%nat then renderedEquation s label math (snd bn)
      else writtenEquation s label math
  end.

(** The state when the passes before pass [k] have run. *)
Definition stateAt (k : nat) (nbs : list (Item * nat)) : MathState :=
  {| eqCounter := count (earlierPass k) (map fst nbs);
     equations := flat_map (fun j => entriesOf j nbs) (seq 0 k) |}.

Lemma formAt_equation (k : nat) (s : Syntax) (label math : string) (n : nat) :
  formAt k (Labelled s label math, n) =
  if (rank s <? k)%nat then renderedEquation s label math n
  else writtenEquation s label math.
Proof. reflexivity. Qed.

Section MathPass.
Context {C : Type}.
Variable k : nat.
Variable m : string -> option (C * string).
Variable f : C -> MathState -> string * MathState.
Variable capture : Syntax -> string -> string -> C.

Definition actAt (bn : Item * nat) : option C :=
  match fst bn with
  | Labelled s label math =>
      if (rank s =? k)%nat then Some (capture s label math) else None
  | Prose _ => None
  end.

Hypothesis callback : forall s label math st,
  rank s = k -> itemOk (Labelled s label math) = true ->
  f (capture s label math) st =
  (renderedEquation s label math (S (eqCounter st)), register label st).

Lemma passResult_numbered (nbs : list (Item * nat)) :
  Forall (fun bn => itemOk (fst bn) = true) nbs ->
  forall st, consistent k (eqCounter st) nbs ->
  passResult f (formAt k) actAt nbs st =
  (document (formAt (S k)) nbs,
   {| eqCounter := eqCounter st + List.length (entriesOf k nbs);
      equations := (equations st ++ entriesOf k nbs)%list |}).
Proof.
  induction 1 as [|[b n] nbs Hb Hnbs IH]; intros st Hc.
  - destruct st as [c eqs]. cbn. now rewrite Nat.add_0_r, app_nil_r.
  - cbn [fst] in Hb. cbn [passResult document]. unfold actAt at 1.
    unfold entriesOf. cbn [flat_map fst snd]. fold (entriesOf k nbs).
    cbn [consistent fst snd] in Hc. unfold samePass in Hc.
    destruct b as [text | s label math]; cbn [rankOf] in Hc.
    + rewrite (IH st Hc). reflexivity.
    + rewrite !formAt_equation.
      destruct (Nat.eqb_spec (rank s) k) as [Hk | Hk].
      * destruct Hc as [Hn Hc]. rewrite (callback s label math st Hk Hb).
        cbn [fst snd].
        assert (Hc' : consistent k (eqCounter (register label st)) nbs) by exact Hc.
        rewrite (IH _ Hc'). cbn [fst snd].
        assert (Hlt : (rank s <? S k)%nat = true) by (apply Nat.ltb_lt; lia).
        rewrite Hlt, Hn. f_equal. unfold register, objSet. cbn [eqCounter equations].
        f_equal; [cbn [List.length app]; lia | now rewrite <- app_assoc].
      * rewrite (IH st Hc). cbn [fst snd app].
        assert (Hlt : (rank s <? S k)%nat = (rank s <? k)%nat).
        { destruct (Nat.ltb_spec (rank s) k), (Nat.ltb_spec (rank s) (S k));
            try reflexivity; lia. }
        now rewrite Hlt.
Qed.

Hypothesis m_nil : m "" = None.
Hypothesis m_nl : forall rest, m (nl ++ rest) = None.
Hypothesis m_active : forall s label math rest,
  rank s = k -> itemOk (Labelled s label math) = true ->
  m (writtenEquation s label math ++ nl ++ rest) = Some (capture s label math, nl ++ rest).

Lemma writtenEquation_nonempty (s : Syntax) (label math : string) :
  writtenEquation s label math <> "".
Proof. destruct s; discriminate. Qed.

Lemma pass_step (nbs : list (Item * nat)) :
  Forall (fun bn => itemOk (fst bn) = true) nbs ->
  (forall pre bn post, nbs = (pre ++ bn :: post)%list -> actAt bn = None ->
     forall p q, formAt k bn ++ nl = p ++ q -> q <> "" ->
                 m (q ++ document (formAt k) post) = None) ->
  forall st, consistent k (eqCounter st) nbs ->
  replaceSt m f (document (formAt k) nbs) st =
  (document (formAt (S k)) nbs,
   {| eqCounter := eqCounter st + List.length (entriesOf k nbs);
      equations := (equations st ++ entriesOf k nbs)%list |}).
Proof.
  intros Hok Hinert st Hc.
  rewrite (replaceSt_blocks m f (formAt k) actAt nbs m_nil).
  - now apply passResult_numbered.
  - intros pre bn post E. unfold blockCond.
    destruct (actAt bn) as [c|] eqn:Hact; [|now apply (Hinert pre bn post E Hact)].
    assert (Hbn : itemOk (fst bn) = true).
    { rewrite Forall_forall in Hok. apply Hok. rewrite E. apply in_elt. }
    unfold actAt in Hact. unfold formAt.
    destruct (fst bn) as [text | s label math]; [discriminate|].
    destruct (Nat.eqb_spec (rank s) k) as [Hk | Hk]; [|discriminate].
    inversion Hact; subst c.
    assert (Hlt : (rank s <? k)%nat = false) by (apply Nat.ltb_ge; lia).
    rewrite Hlt. split; [apply writtenEquation_nonempty|]. split; [|apply m_nl].
    now apply m_active.
Qed.

End MathPass.

(** *** What the conditions give *)

Lemma class_sub (f g : ascii -> bool) :
  allChars (fun c => implb (f c) (g c)) = true ->
  forall s, allStr f s = true -> allStr g s = true.
Proof.
  intros H s. apply allStr_impl. intros c Hc.
  pose proof (allChars_spec _ H c) as Hi. cbn beta in Hi. now rewrite Hc in Hi.
Qed.

Lemma labelOk_spec (label : string) :
  labelOk label = true ->
  label <> "" /\ allStr labelChar label = true /\ includes ":::" label = false.
Proof.
  unfold labelOk. intros H.
  apply andb_true_iff in H as [H H3]. apply andb_true_iff in H as [H1 H2].
  apply negb_true_iff in H3. repeat split; try assumption.
  now destruct label.
Qed.

Lemma mathOk_spec (math : string) :
  mathOk math = true ->
  (exists c r, math = String c r /\ isSpace c = false /\ isNot ":" c = true) /\
  allStr mathChar math = true /\ trimEnd math = math /\
  includes "\begin{" math = false /\ includes "\end{" math = false /\
  includes ":::" math = false.
Proof.
  unfold mathOk. intros H.
  apply andb_true_iff in H as [H H6]. apply andb_true_iff in H as [H H5].
  apply andb_true_iff in H as [H H4]. apply andb_true_iff in H as [H H3].
  apply andb_true_iff in H as [H1 H2].
  apply negb_true_iff in H4, H5, H6. apply String.eqb_eq in H3.
  repeat split; try assumption.
  destruct math as [|c r]; [discriminate|].
  apply andb_true_iff in H1 as [Hs Hc]. apply negb_true_iff in Hs.
  now exists c, r.
Qed.

Lemma decimal_digits (n : nat) : allStr isDigit (decimal n) = true.
Proof.
  unfold decimal. generalize (Nat.to_uint n). intros u.
  induction u; cbn [NilEmpty.string_of_uint allStr]; try rewrite IHu; reflexivity.
Qed.

Lemma environments_in (name : string) :
  existsb (String.eqb name) environments = true -> In name environments.
Proof.
  intros H. apply existsb_exists in H as (x & Hx & E).
  apply String.eqb_eq in E. now subst.
Qed.

(** The syntaxes of the items of a document. *)
Definition allSyntaxes : list Syntax :=
  ([BacktickDirective; DollarSuffix] ++ map Environment environments ++
   [DollarLabel; ColonDirective])%list.

Lemma itemOk_syntax (s : Syntax) (label math : string) :
  itemOk (Labelled s label math) = true -> In s allSyntaxes.
Proof.
  cbn [itemOk]. intros H. apply andb_true_iff in H as [_ H]. unfold allSyntaxes.
  destruct s as [| |name| |]; cbn [app In]; auto.
  - right. right. apply in_or_app. left. apply in_map. now apply environments_in.
  - right. right. apply in_or_app. right. cbn. auto.
  - right. right. apply in_or_app. right. cbn. auto.
Qed.

(** *** The items, part by part *)

(** An item followed by its line feed: the parts that are written out,
    each before the label, the math or the number. *)
Definition woven (k : nat) (bn : Item * nat) : string * list (string * string) :=
  match fst bn with
  | Prose text => (text, [(nl, "")])
  | Labelled s label math =>
      ("",
       if (rank s <? k)%nat then
         match s with
         | Environment name =>
             [ ("<div class=" ++ quoted "equation-block ams-env" ++ " id=" ++ dq, label);
               (dq ++ ">\[\begin{" ++ name ++ "}\label{", label);
               ("}", math);
               ("\end{" ++ name ++ "}\]<span class=" ++ quoted "equation-number" ++ ">(",
                decimal (snd bn));
               (")</span></div>" ++ nl, "") ]
         | _ =>
             [ ("<div class=" ++ quoted "equation-block" ++ " id=" ++ dq, label);
               (dq ++ ">\[", math);
               ("\]<span class=" ++ quoted "equation-number" ++ ">(", decimal (snd bn));
               (")</span></div>" ++ nl, "") ]
         end
       else
         match s with
         | BacktickDirective =>
             [ ("```{math}" ++ nl ++ ":label: ", label); (nl, math);
               (nl ++ "```" ++ nl, "") ]
         | DollarSuffix => [ ("$$", math); ("$$ (", label); (")" ++ nl, "") ]
         | Environment name =>
             [ ("\begin{" ++ name ++ "}\label{", label); ("}", math);
               ("\end{" ++ name ++ "}" ++ nl, "") ]
         | DollarLabel => [ ("$$\label{", label); ("}", math); ("$$" ++ nl, "") ]
         | ColonDirective =>
             [ (":::{math}" ++ nl ++ ":label: ", label); (nl, math);
               (nl ++ ":::" ++ nl, "") ]
         end)
  end.

Lemma formAt_woven (k : nat) (bn : Item * nat) :
  formAt k bn ++ nl = weave (fst (woven k bn)) (snd (woven k bn)).
Proof.
  unfold formAt, woven. destruct (fst bn) as [text | s label math]; [reflexivity|].
  destruct (rank s <? k)%nat; destruct s;
    unfold renderedEquation, writtenEquation, quoted; cbn [fst snd weave];
    now rewrite ?append_assoc.
Qed.

(** The written parts of an item of syntax [s]. *)
Definition writtenOf (k : nat) (s : Syntax) : list string :=
  map fst (snd (woven k (Labelled s "" "", 0))).

Definition quietFor (N L : string) (k : nat) (s : Syntax) : bool :=
  forallb (fun x => noOverlap N L x && clearOf L x) (writtenOf k s).

Lemma avoids_weave_table (N L' : string) (parts : list (string * string)) (first : string) :
  avoids N first ->
  forallb (fun x => noOverlap N (N ++ L') x && clearOf (N ++ L') x) (map fst parts) = true ->
  Forall (avoids N) (map snd parts) ->
  avoids (N ++ L') (weave first parts).
Proof.
  intros Hfirst Hw Hfree. apply avoids_weave; [assumption|].
  induction parts as [|[x t] parts IH]; [constructor|].
  cbn [map fst snd forallb] in Hw, Hfree. apply andb_true_iff in Hw as [Hx Hw].
  inversion Hfree; subst. constructor; [now split | now apply IH].
Qed.

(** An item in which the pattern of a pass finds nothing. *)
Lemma inert_avoids (N L' : string) (k : nat) (bn : Item * nat) :
  N <> "" -> allStr isDigit N = false ->
  match fst bn with
  | Prose text => avoids N text /\ noOverlap N (N ++ L') nl && clearOf (N ++ L') nl = true
  | Labelled s label math =>
      quietFor N (N ++ L') k s = true /\ avoids N label /\ avoids N math
  end ->
  avoids (N ++ L') (formAt k bn ++ nl).
Proof.
  intros HN Hd H. rewrite formAt_woven. destruct bn as [b n].
  assert (Hnum : avoids N (decimal n))
    by (apply (avoids_chars isDigit); [assumption | apply decimal_digits]).
  assert (Hnil : avoids N "") by now apply avoids_nil.
  cbn [fst] in H. destruct b as [text | s label math].
  - destruct H as [Ht Hq]. apply avoids_weave_table; [assumption | |].
    + cbn [woven fst snd map forallb]. now rewrite Hq.
    + repeat constructor. assumption.
  - destruct H as (Hq & Hl & Hm). unfold quietFor, writtenOf in Hq.
    apply avoids_weave_table; [assumption | |].
    + unfold woven in *. cbn [fst snd] in *.
      destruct (rank s <? k)%nat; destruct s; exact Hq.
    + unfold woven. cbn [fst snd].
      destruct (rank s <? k)%nat; destruct s; cbn [map snd]; repeat constructor; assumption.
Qed.

Lemma includes_none (N s : string) : includes N s = false -> avoids N s.
Proof. intros H p q. now apply includes_false. Qed.

Lemma label_free (label : string) :
  labelOk label = true ->
  avoids "`" label /\ avoids "$" label /\ avoids "\begin{" label /\ avoids ":::" label.
Proof.
  intros H. apply labelOk_spec in H as (_ & Hc & Hi). repeat split.
  - apply avoids_char. revert Hc. apply class_sub. vm_compute. reflexivity.
  - apply avoids_char. revert Hc. apply class_sub. vm_compute. reflexivity.
  - apply (avoids_chars (isNot "\")); [reflexivity|].
    revert Hc. apply class_sub. vm_compute. reflexivity.
  - now apply includes_none.
Qed.

Lemma math_free (math : string) :
  mathOk math = true ->
  avoids "`" math /\ avoids "$" math /\ avoids "\begin{" math /\ avoids ":::" math.
Proof.
  intros H. apply mathOk_spec in H as (_ & Hc & _ & Hb & _ & Hi). repeat split.
  - apply avoids_char. revert Hc. apply class_sub. vm_compute. reflexivity.
  - apply avoids_char. revert Hc. apply class_sub. vm_compute. reflexivity.
  - now apply includes_none.
  - now apply includes_none.
Qed.

Lemma proseOk_spec (text : string) :
  proseOk text = true ->
  match text with "" => True | String c _ => isSpace c = false /\ isNot "(" c = true end /\
  allStr plainChar text = true /\ avoids "\begin{" text /\ avoids ":::{math}" text.
Proof.
  unfold proseOk. intros H. apply andb_true_iff in H as [H1 H2].
  split; [|now apply plainText_spec].
  destruct text as [|c r]; [exact I|].
  apply andb_true_iff in H1 as [Hs Hc]. now apply negb_true_iff in Hs.
Qed.

Lemma prose_free (text : string) :
  proseOk text = true ->
  avoids "`" text /\ avoids "$" text /\ avoids "\begin{" text /\ avoids ":::{math}" text.
Proof.
  intros H. apply proseOk_spec in H as (_ & Hc & Hb & Hm). repeat split; try assumption.
  - apply avoids_char. revert Hc. apply class_sub. vm_compute. reflexivity.
  - apply avoids_char. revert Hc. apply class_sub. vm_compute. reflexivity.
Qed.

(** What is checked on the written parts, for the pattern [L] of pass [k],
    which starts with [N]: the items of the other passes are quiet. *)
Definition passTable (N L : string) (k : nat) (skip : list nat) : bool :=
  forallb (fun s => existsb (Nat.eqb (rank s)) (k :: skip) || quietFor N L k s) allSyntaxes
  && (noOverlap N L nl && clearOf L nl).

Lemma inert_item (N L' : string) (k : nat) (skip : list nat) (bn : Item * nat) :
  N <> "" -> allStr isDigit N = false -> allStr (isNot LF) (N ++ L') = true ->
  passTable N (N ++ L') k skip = true ->
  itemOk (fst bn) = true ->
  match fst bn with
  | Prose text => avoids N text
  | Labelled s label math => ~ In (rank s) (k :: skip) /\ avoids N label /\ avoids N math
  end ->
  forall rest p q, formAt k bn ++ nl = p ++ q -> q <> "" ->
                   stripPrefix (N ++ L') (q ++ rest) = None.
Proof.
  intros HN Hd HL Ht Hok H rest. apply guarded; [assumption|].
  apply inert_avoids; [assumption | assumption |].
  unfold passTable in Ht. apply andb_true_iff in Ht as [Hs Hnl].
  destruct (fst bn) as [text | s label math]; [now split|].
  destruct H as (Hk & Hl & Hm). repeat split; try assumption.
  rewrite forallb_forall in Hs. specialize (Hs s (itemOk_syntax s label math Hok)).
  apply orb_true_iff in Hs as [Hs | Hs]; [|assumption].
  exfalso. apply Hk. apply existsb_exists in Hs as (x & Hx & E).
  apply Nat.eqb_eq in E. now rewrite E.
Qed.

Lemma table_backtick : passTable "`" "```{math}" 0 [] = true.
Proof. vm_compute. reflexivity. Qed.

Lemma table_suffix : passTable "$" "$$" 1 [13] = true.
Proof. vm_compute. reflexivity. Qed.

Lemma table_environments :
  forallb (fun j => passTable "\begin{" (beginEnv (nth j amsEnvs "")) (2 + j) []) (seq 0 11)
  = true.
Proof. vm_compute. reflexivity. Qed.

Lemma table_dollar : passTable "$" "$$" 13 [] = true.
Proof. vm_compute. reflexivity. Qed.

Lemma table_colon : passTable ":::" ":::{math}" 14 [] = true.
Proof. vm_compute. reflexivity. Qed.

(** *** Lines, white space and the first occurrence of a closing text *)

Lemma trimEnd_spaces (w : string) : allStr isSpace w = true -> trimEnd w = "".
Proof.
  induction w as [|c w IH]; [reflexivity|]. cbn [allStr trimEnd]. intros H.
  apply andb_true_iff in H as [Hc Hw]. now rewrite (IH Hw), Hc.
Qed.

Lemma trimEnd_fixed_tail (c : ascii) (a : string) :
  trimEnd (String c a) = String c a ->
  trimEnd a = a /\ isSpace c && isEmpty a = false.
Proof.
  cbn [trimEnd]. destruct (isSpace c && isEmpty (trimEnd a)) eqn:E; [discriminate|].
  intros H. inversion H as [H1]. rewrite H1 in E. rewrite H1. now split.
Qed.

Lemma trimEnd_then_spaces (a w : string) :
  allStr isSpace w = true -> trimEnd a = a -> trimEnd (a ++ w) = a.
Proof.
  intros Hw. induction a as [|c a IH]; intros Ha.
  - now apply trimEnd_spaces.
  - destruct (trimEnd_fixed_tail c a Ha) as [Ha' Hc].
    cbn [append trimEnd]. rewrite (IH Ha'). now rewrite Hc.
Qed.

Lemma trimEnd_nospace (l : string) :
  allStr (fun c => negb (isSpace c)) l = true -> trimEnd l = l.
Proof.
  induction l as [|c l IH]; [reflexivity|]. cbn [allStr trimEnd]. intros H.
  apply andb_true_iff in H as [Hc Hl]. apply negb_true_iff in Hc.
  now rewrite (IH Hl), Hc.
Qed.

Lemma trim_fixed (s : string) :
  match s with "" => True | String c _ => isSpace c = false end ->
  trimEnd s = s -> trim s = s.
Proof.
  unfold trim, trimStart, dropWhile. destruct s as [|c s]; [reflexivity|].
  intros Hc He. cbn [span]. rewrite Hc. exact He.
Qed.

Lemma findSub_chars (c0 : ascii) (needle c : string) :
  allStr (isNot c0) c = true ->
  findSub (String c0 needle) (c ++ String c0 needle) = Some (c, "").
Proof.
  intros H. unfold findSub.
  rewrite (findFirst_skip (litK (String c0 needle)) c (String c0 needle) tt "").
  - reflexivity.
  - intros p q -> Hq. apply allStr_suffix in H. destruct q as [|x q]; [congruence|].
    cbn [allStr] in H. apply andb_true_iff in H as [Hx _].
    unfold isNot in Hx. apply negb_true_iff in Hx.
    unfold litK. cbn [append stripPrefix]. now rewrite Ascii.eqb_sym, Hx.
  - pose proof (stripPrefix_app (String c0 needle) "") as E.
    rewrite append_nil_r in E. unfold litK. now rewrite E.
Qed.

Lemma findSub_line (needle body : string) :
  allStr (isNot LF) needle = true -> avoids needle (body ++ nl) ->
  findSub needle ((body ++ nl) ++ needle) = Some (body ++ nl, "").
Proof.
  intros HL H. unfold findSub.
  rewrite (findFirst_skip (litK needle) (body ++ nl) needle tt "").
  - reflexivity.
  - intros p q E Hq. unfold litK. now rewrite (guarded needle body needle HL H p q E Hq).
  - pose proof (stripPrefix_app needle "") as E.
    rewrite append_nil_r in E. unfold litK. now rewrite E.
Qed.

Lemma findSub_overlap (N L' c : string) :
  avoids N c -> noOverlap N (N ++ L') (N ++ L') = true ->
  findSub (N ++ L') (c ++ N ++ L') = Some (c, "").
Proof.
  intros Hc Ho. unfold findSub.
  rewrite (findFirst_skip (litK (N ++ L')) c (N ++ L') tt "").
  - reflexivity.
  - intros p q E Hq. unfold litK.
    pose proof (overlap_none N L' c (N ++ L') "" Hc Ho p q E Hq) as Hn.
    rewrite append_nil_r in Hn. now rewrite Hn.
  - pose proof (stripPrefix_app (N ++ L') "") as E.
    rewrite append_nil_r in E. unfold litK. now rewrite E.
Qed.

Lemma first_not_space (f : ascii -> bool) (s : string) :
  allChars (fun c => implb (f c) (negb (isSpace c))) = true ->
  allStr f s = true ->
  match s with "" => True | String c _ => isSpace c = false end.
Proof.
  intros Hf H. destruct s as [|c s]; [exact I|].
  pose proof (class_sub f _ Hf _ H) as Hn. cbn [allStr] in Hn.
  apply andb_true_iff in Hn as [Hc _]. now apply negb_true_iff in Hc.
Qed.

(** The lines of the body of a directive with its label and its math. *)
Lemma lines_of_body (label math : string) :
  labelOk label = true -> mathOk math = true ->
  lines (":label: " ++ label ++ nl ++ math ++ nl) = [":label: " ++ label; math; ""].
Proof.
  intros Hl Hm. apply labelOk_spec in Hl as (_ & Hl & _).
  apply mathOk_spec in Hm as (_ & Hm & _).
  assert (Hl' : allStr (isNot LF) label = true)
    by (revert Hl; apply class_sub; vm_compute; reflexivity).
  assert (Hm' : allStr (isNot LF) math = true)
    by (revert Hm; apply class_sub; vm_compute; reflexivity).
  unfold lines.
  change (":label: " ++ label ++ nl ++ math ++ nl)
    with (":label: " ++ label ++ String LF (math ++ String LF "")).
  rewrite <- append_assoc, splitChar_app by now rewrite allStr_app, Hl'.
  now rewrite splitChar_app by assumption.
Qed.

Lemma labelLine_trim (label : string) :
  labelOk label = true -> trim (":label: " ++ label) = ":label: " ++ label.
Proof.
  intros Hl. apply labelOk_spec in Hl as (Hne & Hl & _).
  apply trim_fixed; [reflexivity|]. apply trimEnd_app; [|assumption].
  apply trimEnd_nospace. revert Hl. apply class_sub. vm_compute. reflexivity.
Qed.

Lemma label_dropWhile (label : string) :
  labelOk label = true -> dropWhile isSpace label = label.
Proof.
  intros Hl. apply labelOk_spec in Hl as (Hne & Hl & _).
  pose proof (first_not_space labelChar label ltac:(vm_compute; reflexivity) Hl) as H.
  destruct label as [|c r]; [reflexivity|]. unfold dropWhile. cbn [span]. now rewrite H.
Qed.

Lemma math_trim (math : string) : mathOk math = true -> trim math = math.
Proof.
  intros Hm. apply mathOk_spec in Hm as ((c & r & -> & Hc & _) & _ & He & _).
  now apply trim_fixed.
Qed.

Lemma math_line_trim (math : string) : mathOk math = true -> trim (math ++ nl) = math.
Proof.
  intros Hm. apply mathOk_spec in Hm as ((c & r & -> & Hc & _) & _ & He & _).
  unfold trim, trimStart, dropWhile. cbn [append span]. rewrite Hc. cbn [snd].
  now apply (trimEnd_then_spaces (String c r) nl).
Qed.

Lemma math_not_option (math : string) :
  mathOk math = true -> stripPrefix ":" math = None.
Proof.
  intros Hm. apply mathOk_spec in Hm as ((c & r & -> & _ & Hc) & _).
  unfold isNot in Hc. apply negb_true_iff in Hc.
  cbn [stripPrefix]. now rewrite Ascii.eqb_sym, Hc.
Qed.

(** *** Pass 1: the backtick directive *)

Lemma matchOption_label (label : string) :
  labelOk label = true -> matchOption (":label: " ++ label) = Some ("label", label).
Proof.
  intros Hl. unfold matchOption.
  assert (E1 : stripPrefix ":" (":label: " ++ label) = Some ("label" ++ ": " ++ label))
    by reflexivity.
  rewrite E1, (span_app isWord "label" (": " ++ label) eq_refl eq_refl).
  cbn [isEmpty].
  assert (E2 : stripPrefix ":" (": " ++ label) = Some (String " " label)) by reflexivity.
  rewrite E2, (dropWhile_cons isSpace " " label eq_refl), (label_dropWhile label Hl).
  apply labelOk_spec in Hl as (_ & Hc & _).
  assert (Hn : allStr (fun c => negb (isLineTerminator c)) label = true)
    by (revert Hc; apply class_sub; vm_compute; reflexivity).
  now rewrite Hn.
Qed.

Lemma backtickMathBlock_numbered (label math : string) (st : MathState) :
  labelOk label = true -> mathOk math = true ->
  backtickMathBlock (":label: " ++ label ++ nl ++ math ++ nl) st =
  (renderedEquation BacktickDirective label math (S (eqCounter st)), register label st).
Proof.
  intros Hl Hm. unfold backtickMathBlock.
  rewrite (lines_of_body label math Hl Hm). cbn [mathDirectiveLines].
  rewrite (labelLine_trim label Hl), (matchOption_label label Hl).
  rewrite (math_trim math Hm). unfold matchOption at 1.
  rewrite (math_not_option math Hm).
  change (matchOption (trim "")) with (@None (string * string)).
  cbn [app]. change (join nl [math; ""]) with (math ++ nl ++ "").
  rewrite append_nil_r, (math_line_trim math Hm).
  change (optGet [("label", label)] "label") with label.
  apply labelOk_spec in Hl as (Hne & _).
  destruct label as [|c r]; [congruence|]. reflexivity.
Qed.

Lemma matchBacktickMath_written (label math rest : string) :
  labelOk label = true -> mathOk math = true ->
  matchBacktickMath (writtenEquation BacktickDirective label math ++ nl ++ rest) =
  Some (":label: " ++ label ++ nl ++ math ++ nl, nl ++ rest).
Proof.
  intros Hl Hm. unfold matchBacktickMath, matchFenced, writtenEquation.
  rewrite !append_assoc, stripPrefix_app.
  rewrite (spacesThenLF_line (":label: " ++ label ++ nl ++ math ++ nl ++ "```" ++ nl ++ rest) eq_refl).
  assert (E : ":label: " ++ label ++ nl ++ math ++ nl ++ "```" ++ nl ++ rest =
              (":label: " ++ label ++ nl ++ math ++ nl) ++ "```" ++ nl ++ rest)
    by now rewrite !append_assoc.
  rewrite E. apply findSub_app. apply findSub_chars.
  apply labelOk_spec in Hl as (_ & Hl & _). apply mathOk_spec in Hm as (_ & Hm & _).
  rewrite !allStr_app.
  rewrite (class_sub labelChar (isNot "`") ltac:(vm_compute; reflexivity) _ Hl).
  now rewrite (class_sub mathChar (isNot "`") ltac:(vm_compute; reflexivity) _ Hm).
Qed.

(** *** The items that a pass leaves alone *)

Definition freeOf (N : string) (b : Item) : Prop :=
  match b with
  | Prose text => avoids N text
  | Labelled _ label math => avoids N label /\ avoids N math
  end.

Lemma item_free (b : Item) :
  itemOk b = true -> freeOf "`" b /\ freeOf "$" b /\ freeOf "\begin{" b.
Proof.
  destruct b as [text | s label math]; cbn [itemOk freeOf]; intros H.
  - now destruct (prose_free text H) as (H1 & H2 & H3 & _).
  - apply andb_true_iff in H as [H _]. apply andb_true_iff in H as [Hl Hm].
    destruct (label_free label Hl) as (L1 & L2 & L3 & _).
    destruct (math_free math Hm) as (M1 & M2 & M3 & _).
    repeat split; assumption.
Qed.

Lemma itemOk_parts (s : Syntax) (label math : string) :
  itemOk (Labelled s label math) = true -> labelOk label = true /\ mathOk math = true.
Proof.
  cbn [itemOk]. intros H. apply andb_true_iff in H as [H _].
  now apply andb_true_iff in H.
Qed.

Lemma actAt_rank {C : Type} (k : nat) (capture : Syntax -> string -> string -> C)
  (bn : Item * nat) :
  actAt k capture bn = None ->
  match fst bn with Labelled s _ _ => rank s <> k | Prose _ => True end.
Proof.
  unfold actAt. destruct (fst bn) as [text | s label math]; [trivial|].
  destruct (Nat.eqb_spec (rank s) k); [discriminate | trivial].
Qed.

Lemma inert_step {C : Type} (capture : Syntax -> string -> string -> C)
  (N L' : string) (k : nat) (bn : Item * nat) :
  N <> "" -> allStr isDigit N = false -> allStr (isNot LF) (N ++ L') = true ->
  passTable N (N ++ L') k [] = true ->
  itemOk (fst bn) = true -> freeOf N (fst bn) -> actAt k capture bn = None ->
  forall rest p q, formAt k bn ++ nl = p ++ q -> q <> "" ->
                   stripPrefix (N ++ L') (q ++ rest) = None.
Proof.
  intros HN Hd HL Ht Hok Hfree Hact. apply (inert_item N L' k []); try assumption.
  apply actAt_rank in Hact.
  destruct (fst bn) as [text | s label math]; [exact Hfree|].
  destruct Hfree as [Hl Hm]. repeat split; try assumption.
  intros [E | []]. now apply Hact.
Qed.

Lemma item_of (nbs pre post : list (Item * nat)) (bn : Item * nat) :
  Forall (fun bn => itemOk (fst bn) = true) nbs ->
  nbs = (pre ++ bn :: post)%list -> itemOk (fst bn) = true.
Proof.
  intros Hok E. rewrite Forall_forall in Hok. apply Hok. rewrite E. apply in_elt.
Qed.

Lemma pass_backtick (nbs : list (Item * nat)) (st : MathState) :
  Forall (fun bn => itemOk (fst bn) = true) nbs ->
  consistent 0 (eqCounter st) nbs ->
  replaceSt matchBacktickMath backtickMathBlock (document (formAt 0) nbs) st =
  (document (formAt 1) nbs,
   {| eqCounter := eqCounter st + List.length (entriesOf 0 nbs);
      equations := (equations st ++ entriesOf 0 nbs)%list |}).
Proof.
  intros Hok Hc.
  apply (pass_step 0 matchBacktickMath backtickMathBlock
           (fun _ label math => ":label: " ++ label ++ nl ++ math ++ nl));
    try assumption; try reflexivity.
  - intros s label math st' Hk Hb. destruct (itemOk_parts s label math Hb) as [Hl Hm].
    destruct s; try discriminate. now apply backtickMathBlock_numbered.
  - intros s label math rest Hk Hb. destruct (itemOk_parts s label math Hb) as [Hl Hm].
    destruct s; try discriminate. now apply matchBacktickMath_written.
  - intros pre bn post E Hact p q Hpq Hq.
    pose proof (item_of nbs pre post bn Hok E) as Hb.
    destruct (item_free (fst bn) Hb) as (Hf & _ & _).
    unfold matchBacktickMath, matchFenced.
    now rewrite (inert_step _ "`" "``{math}" 0 bn ltac:(discriminate) eq_refl eq_refl
                   table_backtick Hb Hf Hact _ p q Hpq Hq).
Qed.

(** *** Pass 4: the dollars with a label command *)

Lemma labelCommand_written (spaces : bool) (label math : string) :
  labelOk label = true ->
  labelCommand spaces ("\label{" ++ label ++ "}" ++ math) = Some (label, math).
Proof.
  intros Hl. apply labelOk_spec in Hl as (Hne & Hc & _). unfold labelCommand.
  assert (E1 : stripPrefix "\label" ("\label{" ++ label ++ "}" ++ math) =
               Some ("{" ++ label ++ "}" ++ math)) by reflexivity.
  rewrite E1.
  assert (E2 : (if spaces then dropWhile isSpace ("{" ++ label ++ "}" ++ math)
                else "{" ++ label ++ "}" ++ math) = "{" ++ label ++ "}" ++ math)
    by now destruct spaces.
  rewrite E2.
  assert (E3 : stripPrefix "{" ("{" ++ label ++ "}" ++ math) = Some (label ++ "}" ++ math))
    by reflexivity.
  rewrite E3.
  rewrite (span_app (isNot "}") label ("}" ++ math)
             (class_sub labelChar (isNot "}") ltac:(vm_compute; reflexivity) _ Hc) eq_refl).
  destruct label as [|c r]; [congruence|]. reflexivity.
Qed.

Lemma dollarBlock_numbered (label math : string) (st : MathState) :
  labelOk label = true -> mathOk math = true ->
  dollarBlock ("\label{" ++ label ++ "}" ++ math) st =
  (renderedEquation DollarLabel label math (S (eqCounter st)), register label st).
Proof.
  intros Hl Hm. unfold dollarBlock.
  rewrite (findFirst_here _ _ _ _ (labelCommand_written true label math Hl)).
  cbn [append]. rewrite (math_trim math Hm).
  apply labelOk_spec in Hl as (Hne & _).
  destruct label as [|c r]; [congruence|]. reflexivity.
Qed.

Lemma command_no_dollar (label math : string) :
  labelOk label = true -> mathOk math = true ->
  allStr (isNot "$") ("\label{" ++ label ++ "}" ++ math) = true.
Proof.
  intros Hl Hm. apply labelOk_spec in Hl as (_ & Hl & _).
  apply mathOk_spec in Hm as (_ & Hm & _). rewrite !allStr_app.
  rewrite (class_sub labelChar (isNot "$") ltac:(vm_compute; reflexivity) _ Hl).
  now rewrite (class_sub mathChar (isNot "$") ltac:(vm_compute; reflexivity) _ Hm).
Qed.

Lemma matchDollar_written (label math rest : string) :
  labelOk label = true -> mathOk math = true ->
  matchDollar (writtenEquation DollarLabel label math ++ nl ++ rest) =
  Some ("\label{" ++ label ++ "}" ++ math, nl ++ rest).
Proof.
  intros Hl Hm. unfold matchDollar, writtenEquation.
  assert (E : ("$$\label{" ++ label ++ "}" ++ math ++ "$$") ++ nl ++ rest =
              "$$" ++ ("\label{" ++ label ++ "}" ++ math) ++ "$$" ++ nl ++ rest)
    by now rewrite !append_assoc.
  rewrite E, stripPrefix_app.
  assert (E2 : dropWhile isSpace (("\label{" ++ label ++ "}" ++ math) ++ "$$" ++ nl ++ rest) =
               ("\label{" ++ label ++ "}" ++ math) ++ "$$" ++ nl ++ rest) by reflexivity.
  rewrite E2. apply findSub_app. apply findSub_chars. now apply command_no_dollar.
Qed.

Lemma indexOf_lt (name : string) (l : list string) :
  In name l -> indexOf name l < List.length l.
Proof.
  induction l as [|x l IH]; [contradiction|]. intros H. cbn [indexOf List.length].
  destruct (String.eqb_spec x name) as [E | E]; [lia|].
  destruct H as [H | H]; [congruence|]. specialize (IH H). lia.
Qed.

Lemma indexOf_nth (name : string) (l : list string) :
  In name l -> nth (indexOf name l) l "" = name.
Proof.
  induction l as [|x l IH]; [contradiction|]. intros H. cbn [indexOf].
  destruct (String.eqb_spec x name) as [E | E]; [exact E|].
  destruct H as [H | H]; [congruence|]. now apply IH.
Qed.

Lemma rank_environment (name label math : string) :
  itemOk (Labelled (Environment name) label math) = true ->
  In name environments /\ rank (Environment name) < 13.
Proof.
  cbn [itemOk]. intros H. apply andb_true_iff in H as [_ H].
  apply environments_in in H. split; [assumption|].
  pose proof (indexOf_lt name environments H) as Hlt.
  cbn [rank]. change (List.length environments) with 11 in Hlt. lia.
Qed.

Lemma pass_dollar (nbs : list (Item * nat)) (st : MathState) :
  Forall (fun bn => itemOk (fst bn) = true) nbs ->
  consistent 13 (eqCounter st) nbs ->
  replaceSt matchDollar dollarBlock (document (formAt 13) nbs) st =
  (document (formAt 14) nbs,
   {| eqCounter := eqCounter st + List.length (entriesOf 13 nbs);
      equations := (equations st ++ entriesOf 13 nbs)%list |}).
Proof.
  intros Hok Hc.
  apply (pass_step 13 matchDollar dollarBlock
           (fun _ label math => "\label{" ++ label ++ "}" ++ math));
    try assumption; try reflexivity.
  - intros s label math st' Hk Hb. destruct (itemOk_parts s label math Hb) as [Hl Hm].
    destruct s; try discriminate;
      [destruct (rank_environment _ _ _ Hb) as [_ Hr]; lia|].
    now apply dollarBlock_numbered.
  - intros s label math rest Hk Hb. destruct (itemOk_parts s label math Hb) as [Hl Hm].
    destruct s; try discriminate;
      [destruct (rank_environment _ _ _ Hb) as [_ Hr]; lia|].
    now apply matchDollar_written.
  - intros pre bn post E Hact p q Hpq Hq.
    pose proof (item_of nbs pre post bn Hok E) as Hb.
    destruct (item_free (fst bn) Hb) as (_ & Hf & _).
    unfold matchDollar.
    now rewrite (inert_step _ "$" "$" 13 bn ltac:(discriminate) eq_refl eq_refl
                   table_dollar Hb Hf Hact _ p q Hpq Hq).
Qed.

(** *** Pass 3: the environments, one after the other *)

(** The environment of the code at each place, and what is checked on its
    two commands. *)
Definition environmentTable : bool :=
  forallb (fun j =>
             let e := nth j amsEnvs "" in
             String.eqb (cleanEnv e) (nth j environments "")
             && noOverlap "\end{" (endEnv e) (endEnv e)
             && allStr (isNot LF) (beginEnv e))
    (seq 0 11).

Lemma environmentTable_ok : environmentTable = true.
Proof. vm_compute. reflexivity. Qed.

Lemma environment_at (j : nat) :
  j < 11 ->
  let e := nth j amsEnvs "" in
  cleanEnv e = nth j environments "" /\
  noOverlap "\end{" (endEnv e) (endEnv e) = true /\
  allStr (isNot LF) (beginEnv e) = true /\
  passTable "\begin{" (beginEnv e) (2 + j) [] = true.
Proof.
  intros Hj e. pose proof environmentTable_ok as H1. pose proof table_environments as H2.
  unfold environmentTable in H1. rewrite forallb_forall in H1, H2.
  assert (Hin : In j (seq 0 11)) by (apply in_seq; lia).
  specialize (H1 j Hin). specialize (H2 j Hin). cbn zeta in H1. fold e in H1, H2.
  apply andb_true_iff in H1 as [H1 Hc]. apply andb_true_iff in H1 as [Ha Hb].
  apply String.eqb_eq in Ha. repeat split; assumption.
Qed.

Lemma command_avoids_end (label math : string) :
  labelOk label = true -> mathOk math = true ->
  avoids "\end{" ("\label{" ++ label ++ "}" ++ math).
Proof.
  intros Hl Hm. apply labelOk_spec in Hl as (_ & Hl & _).
  apply mathOk_spec in Hm as (_ & _ & _ & _ & Hm & _).
  apply (avoids_weave_table "\end{" "" [("\label{", label); ("}", math)] "").
  - now apply avoids_nil.
  - reflexivity.
  - repeat constructor; [|now apply includes_none].
    apply (avoids_chars (isNot "\")); [reflexivity|].
    revert Hl. apply class_sub. vm_compute. reflexivity.
Qed.

Lemma amsBlock_numbered (e name label math : string) (st : MathState) :
  cleanEnv e = name -> labelOk label = true ->
  amsBlock e ("\label{" ++ label ++ "}" ++ math) st =
  (renderedEquation (Environment name) label math (S (eqCounter st)), register label st).
Proof.
  intros He Hl. rewrite amsBlock_spec. unfold amsLabel.
  rewrite (findFirst_here _ _ _ _ (labelCommand_written false label math Hl)).
  unfold amsElement, numberSpanOf, beginEnv, endEnv, renderedEquation, decimal, natToString.
  rewrite He, !append_assoc. reflexivity.
Qed.

Lemma matchAms_written (e name label math rest : string) :
  cleanEnv e = name -> noOverlap "\end{" (endEnv e) (endEnv e) = true ->
  labelOk label = true -> mathOk math = true ->
  matchAms e (writtenEquation (Environment name) label math ++ nl ++ rest) =
  Some ("\label{" ++ label ++ "}" ++ math, nl ++ rest).
Proof.
  intros He Ho Hl Hm. unfold matchAms, writtenEquation.
  assert (E : ("\begin{" ++ name ++ "}\label{" ++ label ++ "}" ++ math ++
               "\end{" ++ name ++ "}") ++ nl ++ rest =
              beginEnv e ++ ("\label{" ++ label ++ "}" ++ math) ++ endEnv e ++ nl ++ rest).
  { unfold beginEnv, endEnv. rewrite He, !append_assoc. reflexivity. }
  rewrite E, stripPrefix_app. apply findSub_app.
  apply (findSub_overlap "\end{" (cleanEnv e ++ "}")); [|exact Ho].
  now apply command_avoids_end.
Qed.

Lemma pass_environment (j : nat) (nbs : list (Item * nat)) (st : MathState) :
  j < 11 ->
  Forall (fun bn => itemOk (fst bn) = true) nbs ->
  consistent (2 + j) (eqCounter st) nbs ->
  amsPass (nth j amsEnvs "") (document (formAt (2 + j)) nbs) st =
  (document (formAt (S (2 + j))) nbs,
   {| eqCounter := eqCounter st + List.length (entriesOf (2 + j) nbs);
      equations := (equations st ++ entriesOf (2 + j) nbs)%list |}).
Proof.
  intros Hj Hok Hc. destruct (environment_at j Hj) as (Hclean & Hover & HLF & Htable).
  set (e := nth j amsEnvs "") in *.
  assert (Hname : forall s label math,
             rank s = 2 + j -> itemOk (Labelled s label math) = true ->
             s = Environment (cleanEnv e)).
  { intros s label math Hk Hb. destruct s as [| |name| |]; cbn [rank] in Hk; try lia.
    destruct (rank_environment _ _ _ Hb) as [Hin _].
    rewrite Hclean. f_equal. rewrite <- (indexOf_nth name environments Hin).
    f_equal. lia. }
  unfold amsPass.
  apply (pass_step (2 + j) (matchAms e) (amsBlock e)
           (fun _ label math => "\label{" ++ label ++ "}" ++ math));
    try assumption; try reflexivity.
  - intros s label math st' Hk Hb. destruct (itemOk_parts s label math Hb) as [Hl Hm].
    rewrite (Hname s label math Hk Hb). now apply amsBlock_numbered.
  - intros s label math rest Hk Hb. destruct (itemOk_parts s label math Hb) as [Hl Hm].
    rewrite (Hname s label math Hk Hb). now apply matchAms_written.
  - intros pre bn post E Hact p q Hpq Hq.
    pose proof (item_of nbs pre post bn Hok E) as Hb.
    destruct (item_free (fst bn) Hb) as (_ & _ & Hf).
    unfold matchAms.
    now rewrite (inert_step _ "\begin{" (cleanEnv e ++ "}") (2 + j) bn ltac:(discriminate)
                   eq_refl HLF Htable Hb Hf Hact _ p q Hpq Hq).
Qed.

(** *** Pass 9: the colon directive *)

Lemma math_not_colon (math rest : string) :
  mathOk math = true -> stripPrefix (String ":" rest) math = None.
Proof.
  intros Hm. apply mathOk_spec in Hm as ((c & r & -> & _ & Hc) & _).
  unfold isNot in Hc. apply negb_true_iff in Hc.
  cbn [stripPrefix]. now rewrite Ascii.eqb_sym, Hc.
Qed.

Lemma math_lines_trim (math w : string) :
  mathOk math = true -> allStr isSpace w = true -> trim (math ++ w) = math.
Proof.
  intros Hm Hw. apply mathOk_spec in Hm as ((c & r & -> & Hc & _) & _ & He & _).
  unfold trim, trimStart, dropWhile. cbn [append span]. rewrite Hc. cbn [snd].
  now apply (trimEnd_then_spaces (String c r) w).
Qed.

Lemma matchLabelOption_label (label : string) :
  labelOk label = true -> matchLabelOption (":label: " ++ label) = Some label.
Proof.
  intros Hl. unfold matchLabelOption.
  assert (E1 : stripPrefix ":label:" (":label: " ++ label) = Some (String " " label))
    by reflexivity.
  rewrite E1, (dropWhile_cons isSpace " " label eq_refl), (label_dropWhile label Hl).
  apply labelOk_spec in Hl as (Hne & Hc & _).
  pose proof (span_app (fun c => negb (isSpace c)) label ""
                (class_sub labelChar (fun c => negb (isSpace c))
                   ltac:(vm_compute; reflexivity) _ Hc) I) as Hs.
  rewrite append_nil_r in Hs. rewrite Hs. cbn [fst].
  destruct label as [|c r]; [congruence|]. reflexivity.
Qed.

Lemma colonMathBlock_numbered (label math : string) (st : MathState) :
  labelOk label = true -> mathOk math = true ->
  colonMathBlock (":label: " ++ label ++ nl ++ math ++ nl) st =
  (renderedEquation ColonDirective label math (S (eqCounter st)), register label st).
Proof.
  intros Hl Hm. unfold colonMathBlock.
  rewrite (lines_of_body label math Hl Hm). cbn [colonMathLines].
  rewrite (labelLine_trim label Hl), (matchLabelOption_label label Hl).
  rewrite (math_trim math Hm).
  assert (E1 : matchLabelOption math = None)
    by (unfold matchLabelOption; now rewrite (math_not_colon math _ Hm)).
  assert (E2 : matchEnumeratedOption math = None)
    by (unfold matchEnumeratedOption; now rewrite (math_not_colon math _ Hm)).
  rewrite E1, E2.
  change (matchLabelOption (trim "")) with (@None string).
  change (matchEnumeratedOption (trim "")) with (@None bool).
  cbn iota beta.
  assert (E : ("" ++ math ++ nl) ++ "" ++ nl = math ++ nl ++ nl)
    by (cbn [append]; now rewrite append_assoc).
  rewrite E, (math_lines_trim math (nl ++ nl) Hm eq_refl).
  apply labelOk_spec in Hl as (Hne & _).
  destruct label as [|c r]; [congruence|]. reflexivity.
Qed.

Lemma body_avoids_colons (label math : string) :
  labelOk label = true -> mathOk math = true ->
  avoids ":::" ((":label: " ++ label ++ nl ++ math) ++ nl).
Proof.
  intros Hl Hm. destruct (label_free label Hl) as (_ & _ & _ & Hl').
  destruct (math_free math Hm) as (_ & _ & _ & Hm').
  rewrite !append_assoc. apply avoids_written; [reflexivity|].
  apply (avoids_weave_table ":::" "" [(nl, math); (nl, "")] label); [assumption | reflexivity|].
  repeat constructor; [assumption | now apply avoids_nil].
Qed.

Lemma matchColonMath_written (label math rest : string) :
  labelOk label = true -> mathOk math = true ->
  matchColonMath (writtenEquation ColonDirective label math ++ nl ++ rest) =
  Some (":label: " ++ label ++ nl ++ math ++ nl, nl ++ rest).
Proof.
  intros Hl Hm. unfold matchColonMath, matchFenced, writtenEquation.
  rewrite !append_assoc, stripPrefix_app.
  rewrite (spacesThenLF_line (":label: " ++ label ++ nl ++ math ++ nl ++ ":::" ++ nl ++ rest) eq_refl).
  assert (E : ":label: " ++ label ++ nl ++ math ++ nl ++ ":::" ++ nl ++ rest =
              ((":label: " ++ label ++ nl ++ math) ++ nl) ++ ":::" ++ nl ++ rest)
    by now rewrite !append_assoc.
  assert (E' : ":label: " ++ label ++ nl ++ math ++ nl =
               (":label: " ++ label ++ nl ++ math) ++ nl)
    by now rewrite !append_assoc.
  rewrite E, E'. apply findSub_app. apply findSub_line; [reflexivity|].
  now apply body_avoids_colons.
Qed.

Lemma pass_colon (nbs : list (Item * nat)) (st : MathState) :
  Forall (fun bn => itemOk (fst bn) = true) nbs ->
  consistent 14 (eqCounter st) nbs ->
  replaceSt matchColonMath colonMathBlock (document (formAt 14) nbs) st =
  (document (formAt 15) nbs,
   {| eqCounter := eqCounter st + List.length (entriesOf 14 nbs);
      equations := (equations st ++ entriesOf 14 nbs)%list |}).
Proof.
  intros Hok Hc.
  apply (pass_step 14 matchColonMath colonMathBlock
           (fun _ label math => ":label: " ++ label ++ nl ++ math ++ nl));
    try assumption; try reflexivity.
  - intros s label math st' Hk Hb. destruct (itemOk_parts s label math Hb) as [Hl Hm].
    destruct s; try discriminate;
      [destruct (rank_environment _ _ _ Hb) as [_ Hr]; lia|].
    now apply colonMathBlock_numbered.
  - intros s label math rest Hk Hb. destruct (itemOk_parts s label math Hb) as [Hl Hm].
    destruct s; try discriminate;
      [destruct (rank_environment _ _ _ Hb) as [_ Hr]; lia|].
    now apply matchColonMath_written.
  - intros pre bn post E Hact p q Hpq Hq.
    pose proof (item_of nbs pre post bn Hok E) as Hb.
    unfold matchColonMath, matchFenced.
    destruct bn as [[text | s label math] n]; cbn [fst] in Hb.
    + apply proseOk_spec in Hb as (_ & _ & _ & Hb).
      assert (Hav : avoids ":::{math}" (text ++ nl)).
      { apply (avoids_weave_table ":::{math}" "" [(nl, "")] text);
          [assumption | reflexivity|].
        repeat constructor. now apply avoids_nil. }
      now rewrite (guarded ":::{math}" text _ eq_refl Hav p q Hpq Hq).
    + destruct (itemOk_parts s label math Hb) as [Hl Hm].
      destruct (label_free label Hl) as (_ & _ & _ & Hl').
      destruct (math_free math Hm) as (_ & _ & _ & Hm').
      now rewrite (inert_step _ ":::" "{math}" 14 (Labelled s label math, n)
                     ltac:(discriminate) eq_refl eq_refl table_colon Hb (conj Hl' Hm')
                     Hact _ p q Hpq Hq).
Qed.

(** *** Pass 2: the dollars with a label after them *)

Lemma labelSuffix_written (label rest : string) :
  labelOk label = true ->
  labelSuffix ("$$ (" ++ label ++ ")" ++ rest) = Some (label, rest).
Proof.
  intros Hl. apply labelOk_spec in Hl as (Hne & Hc & _). unfold labelSuffix.
  assert (E1 : stripPrefix "$$" ("$$ (" ++ label ++ ")" ++ rest) =
               Some (String " " ("(" ++ label ++ ")" ++ rest))) by reflexivity.
  rewrite E1, (dropWhile_cons isSpace " " _ eq_refl).
  assert (E2 : dropWhile isSpace ("(" ++ label ++ ")" ++ rest) = "(" ++ label ++ ")" ++ rest)
    by reflexivity.
  rewrite E2.
  assert (E3 : stripPrefix "(" ("(" ++ label ++ ")" ++ rest) = Some (label ++ ")" ++ rest))
    by reflexivity.
  rewrite E3.
  rewrite (span_app (isNot ")") label (")" ++ rest)
             (class_sub labelChar (isNot ")") ltac:(vm_compute; reflexivity) _ Hc) eq_refl).
  destruct label as [|c r]; [congruence|]. reflexivity.
Qed.

Lemma first_not_dollar (q rest : string) :
  allStr (isNot "$") q = true -> q <> "" -> stripPrefix "$$" (q ++ rest) = None.
Proof.
  intros H Hq. destruct q as [|x q]; [congruence|].
  cbn [allStr] in H. apply andb_true_iff in H as [Hx _].
  unfold isNot in Hx. apply negb_true_iff in Hx.
  cbn [append stripPrefix]. now rewrite Ascii.eqb_sym, Hx.
Qed.

Lemma math_dropWhile (math rest : string) :
  mathOk math = true -> dropWhile isSpace (math ++ rest) = math ++ rest.
Proof.
  intros Hm. apply mathOk_spec in Hm as ((c & r & -> & Hc & _) & _).
  unfold dropWhile. cbn [append span]. now rewrite Hc.
Qed.

Lemma matchDollarLabel_written (label math rest : string) :
  labelOk label = true -> mathOk math = true ->
  matchDollarLabel (writtenEquation DollarSuffix label math ++ nl ++ rest) =
  Some ((math, label), nl ++ rest).
Proof.
  intros Hl Hm. unfold matchDollarLabel, writtenEquation.
  rewrite !append_assoc, stripPrefix_app, (math_dropWhile math _ Hm).
  rewrite (findFirst_skip labelSuffix math _ label (nl ++ rest)); [reflexivity | |].
  - intros p q E Hq. unfold labelSuffix. rewrite first_not_dollar; [reflexivity | | assumption].
    apply mathOk_spec in Hm as (_ & Hm & _).
    pose proof (class_sub mathChar (isNot "$") ltac:(vm_compute; reflexivity) _ Hm) as Hd.
    rewrite E in Hd. now apply allStr_suffix in Hd.
  - now apply labelSuffix_written.
Qed.

Lemma dollarLabelBlock_numbered (label math : string) (st : MathState) :
  mathOk math = true ->
  dollarLabelBlock (math, label) st =
  (renderedEquation DollarSuffix label math (S (eqCounter st)), register label st).
Proof. intros Hm. unfold dollarLabelBlock. now rewrite (math_trim math Hm). Qed.

(** A text in which no closing dollars are followed by a label. *)
Definition noSuffix (t : string) : Prop :=
  forall p q, t = p ++ q -> labelSuffix q = None.

Lemma append_split (a r p q : string) :
  a ++ r = p ++ q ->
  (exists q1, a = p ++ q1 /\ q = q1 ++ r) \/ (exists p2, p = a ++ p2 /\ r = p2 ++ q).
Proof.
  revert p. induction a as [|x a IH]; intros p E.
  - right. now exists p.
  - destruct p as [|y p].
    + left. now exists (String x a).
    + cbn [append] in E. inversion E as [[Hx E']]. subst y.
      destruct (IH p E') as [(q1 & -> & ->) | (p2 & -> & ->)].
      * left. now exists q1.
      * right. now exists p2.
Qed.

Lemma noSuffix_nil : noSuffix "".
Proof. intros p q E. destruct p, q; try discriminate. reflexivity. Qed.

Lemma noSuffix_cons (x : ascii) (t : string) :
  labelSuffix (String x t) = None -> noSuffix t -> noSuffix (String x t).
Proof.
  intros Hx Ht p q E. destruct p as [|y p].
  - cbn [append] in E. now subst q.
  - cbn [append] in E. inversion E as [[Hy E']]. now apply (Ht p q).
Qed.

Lemma noSuffix_inert (a r : string) :
  (forall p q, a = p ++ q -> q <> "" -> stripPrefix "$$" (q ++ r) = None) ->
  noSuffix r -> noSuffix (a ++ r).
Proof.
  intros Ha Hr p q E. destruct (append_split a r p q E) as [(q1 & E1 & ->) | (p2 & _ & E2)].
  - destruct q1 as [|x q1]; [now apply (Hr "" r)|].
    unfold labelSuffix. now rewrite (Ha p (String x q1) E1).
  - now apply (Hr p2 q).
Qed.

Lemma matchDollarLabel_noSuffix (t : string) :
  noSuffix t -> forall p q, t = p ++ q -> matchDollarLabel q = None.
Proof.
  intros Ht p q E. unfold matchDollarLabel.
  destruct (stripPrefix "$$" q) as [s1|] eqn:E1; [|reflexivity].
  apply stripPrefix_Some in E1. unfold dropWhile.
  pose proof (span_spec isSpace s1) as Hs. destruct (span isSpace s1) as [a b].
  destruct Hs as (Hs & _). cbn [snd].
  rewrite findFirst_none; [reflexivity|].
  intros p' q' E'. apply (Ht (p ++ "$$" ++ a ++ p') q').
  rewrite E, E1, Hs, E'. now rewrite !append_assoc.
Qed.

(** The start of an item. *)
Lemma formAt_first (k : nat) (bn : Item * nat) :
  itemOk (fst bn) = true ->
  match formAt k bn with
  | "" => True
  | String x _ => isSpace x = false /\ isNot "(" x = true
  end.
Proof.
  unfold formAt. destruct (fst bn) as [text | s label math]; cbn [itemOk]; intros H.
  - now apply proseOk_spec in H as (H & _).
  - destruct (rank s <? k)%nat; destruct s; cbn; now split.
Qed.

Lemma document_start (k : nat) (nbs : list (Item * nat)) :
  Forall (fun bn => itemOk (fst bn) = true) nbs ->
  stripPrefix "(" (dropWhile isSpace (document (formAt k) nbs)) = None.
Proof.
  induction 1 as [|bn nbs Hb Hnbs IH]; [reflexivity|].
  cbn [document]. pose proof (formAt_first k bn Hb) as Hf.
  destruct (formAt k bn) as [|x r].
  - change ("" ++ nl ++ document (formAt k) nbs) with (String LF (document (formAt k) nbs)).
    now rewrite (dropWhile_cons isSpace LF _ eq_refl).
  - destruct Hf as [Hs Hp]. unfold dropWhile. cbn [append span]. rewrite Hs. cbn [snd].
    unfold isNot in Hp. apply negb_true_iff in Hp.
    cbn [stripPrefix]. now rewrite Ascii.eqb_sym, Hp.
Qed.

Lemma noSuffix_command (label math rest : string) :
  labelOk label = true -> mathOk math = true ->
  stripPrefix "(" (dropWhile isSpace rest) = None -> noSuffix rest ->
  noSuffix ((writtenEquation DollarLabel label math ++ nl) ++ rest).
Proof.
  intros Hl Hm Hstart Hrest. unfold writtenEquation.
  assert (E : (("$$\label{" ++ label ++ "}" ++ math ++ "$$") ++ nl) ++ rest =
              String "$" (String "$" (("\label{" ++ label ++ "}" ++ math) ++
                String "$" (String "$" (String LF rest)))))
    by (rewrite !append_assoc; reflexivity).
  rewrite E. clear E.
  assert (H1 : noSuffix (String LF rest)) by (apply noSuffix_cons; [reflexivity | assumption]).
  assert (H2 : noSuffix (String "$" (String LF rest)))
    by (apply noSuffix_cons; [reflexivity | assumption]).
  assert (H3 : noSuffix (String "$" (String "$" (String LF rest)))).
  { apply noSuffix_cons; [|assumption]. unfold labelSuffix.
    assert (E : stripPrefix "$$" (String "$" (String "$" (String LF rest))) =
                Some (String LF rest)) by reflexivity.
    now rewrite E, (dropWhile_cons isSpace LF rest eq_refl), Hstart. }
  assert (H4 : noSuffix (("\label{" ++ label ++ "}" ++ math) ++
                         String "$" (String "$" (String LF rest)))).
  { apply noSuffix_inert; [|assumption]. intros p q E Hq.
    apply first_not_dollar; [|assumption].
    pose proof (command_no_dollar label math Hl Hm) as Hd.
    rewrite E in Hd. now apply allStr_suffix in Hd. }
  apply noSuffix_cons; [reflexivity|]. apply noSuffix_cons; [reflexivity | assumption].
Qed.

Lemma document_noSuffix (nbs : list (Item * nat)) :
  Forall (fun bn => itemOk (fst bn) = true) nbs ->
  existsb (samePass 1) (map fst nbs) = false ->
  noSuffix (document (formAt 1) nbs).
Proof.
  induction 1 as [|bn nbs Hb Hnbs IH]; intros Hno; [exact noSuffix_nil|].
  cbn [map existsb] in Hno. apply orb_false_iff in Hno as [Hbn Hno].
  specialize (IH Hno). cbn [document]. rewrite <- append_assoc.
  destruct bn as [[text | s label math] n].
  - apply noSuffix_inert; [|assumption]. intros p q E Hq.
    destruct (item_free _ Hb) as (_ & Hf & _).
    apply (inert_item "$" "$" 1 [13] (Prose text, n) ltac:(discriminate) eq_refl eq_refl
             table_suffix Hb Hf _ p q E Hq).
  - destruct (Nat.eq_dec (rank s) 13) as [H13 | H13].
    + destruct (itemOk_parts s label math Hb) as [Hl Hm].
      assert (Hs : s = DollarLabel).
      { destruct s; try discriminate; try reflexivity.
        destruct (rank_environment _ _ _ Hb) as [_ Hr]. lia. }
      subst s. rewrite formAt_equation. cbn [rank Nat.ltb Nat.leb].
      apply noSuffix_command; try assumption. now apply document_start.
    + apply noSuffix_inert; [|assumption]. intros p q E Hq.
      destruct (item_free _ Hb) as (_ & Hf & _).
      assert (Hcond : ~ In (rank s) [1; 13] /\ avoids "$" label /\ avoids "$" math).
      { destruct Hf as [Hf1 Hf2]. repeat split; try assumption.
        unfold samePass in Hbn. cbn [fst rankOf] in Hbn. apply Nat.eqb_neq in Hbn.
        intros [H | [H | []]]; congruence. }
      exact (inert_item "$" "$" 1 [13] (Labelled s label math, n) ltac:(discriminate)
               eq_refl eq_refl table_suffix Hb Hcond _ p q E Hq).
Qed.

Lemma suffixFirst_at (bs pre post : list Item) (b : Item) :
  suffixFirst bs = true -> bs = (pre ++ b :: post)%list -> samePass 13 b = true ->
  existsb (samePass 1) post = false.
Proof.
  revert bs. induction pre as [|x pre IH]; intros bs H E Hb; subst bs.
  - cbn [app suffixFirst] in H. apply andb_true_iff in H as [H _].
    rewrite Hb in H. cbn [negb orb] in H. now apply negb_true_iff in H.
  - cbn [app suffixFirst] in H. apply andb_true_iff in H as [_ H].
    now apply (IH _ H eq_refl).
Qed.

Lemma pass_suffix (nbs : list (Item * nat)) (st : MathState) :
  Forall (fun bn => itemOk (fst bn) = true) nbs ->
  suffixFirst (map fst nbs) = true ->
  consistent 1 (eqCounter st) nbs ->
  replaceSt matchDollarLabel dollarLabelBlock (document (formAt 1) nbs) st =
  (document (formAt 2) nbs,
   {| eqCounter := eqCounter st + List.length (entriesOf 1 nbs);
      equations := (equations st ++ entriesOf 1 nbs)%list |}).
Proof.
  intros Hok Hsf Hc.
  apply (pass_step 1 matchDollarLabel dollarLabelBlock (fun _ label math => (math, label)));
    try assumption; try reflexivity.
  - intros s label math st' Hk Hb. destruct (itemOk_parts s label math Hb) as [Hl Hm].
    destruct s; try discriminate. now apply dollarLabelBlock_numbered.
  - intros s label math rest Hk Hb. destruct (itemOk_parts s label math Hb) as [Hl Hm].
    destruct s; try discriminate. now apply matchDollarLabel_written.
  - intros pre bn post E Hact p q Hpq Hq.
    pose proof (item_of nbs pre post bn Hok E) as Hb.
    destruct (samePass 13 (fst bn)) eqn:H13.
    + assert (Hpost : Forall (fun bn => itemOk (fst bn) = true) post).
      { rewrite E in Hok. apply Forall_app in Hok as [_ Hok]. now inversion Hok. }
      assert (Hno : existsb (samePass 1) (map fst post) = false).
      { apply (suffixFirst_at (map fst nbs) (map fst pre) (map fst post) (fst bn) Hsf);
          [|assumption]. rewrite E, map_app. reflexivity. }
      assert (Hall : noSuffix ((formAt 1 bn ++ nl) ++ document (formAt 1) post)).
      { rewrite append_assoc.
        apply (document_noSuffix (bn :: post)); [now constructor|].
        cbn [map existsb]. rewrite Hno.
        unfold samePass in *. destruct (rankOf (fst bn)) as [r|]; [|reflexivity].
        apply Nat.eqb_eq in H13. now subst r. }
      apply (matchDollarLabel_noSuffix _ Hall p). rewrite Hpq. now rewrite append_assoc.
    + destruct (item_free (fst bn) Hb) as (_ & Hf & _).
      unfold matchDollarLabel.
      rewrite (inert_item "$" "$" 1 [13] bn ltac:(discriminate) eq_refl eq_refl
                 table_suffix Hb) with (p := p); [reflexivity | | exact Hpq | exact Hq].
      apply actAt_rank in Hact. unfold samePass in H13.
      destruct (fst bn) as [text | s label math]; [exact Hf|].
      cbn [rankOf] in H13. apply Nat.eqb_neq in H13.
      destruct Hf as [Hf1 Hf2]. repeat split; try assumption.
      intros [H | [H | []]]; congruence.
Qed.

(** *** The passes of the references and of the inline math *)

Lemma form_chars (g : ascii -> bool) (k : nat) (bn : Item * nat) :
  g LF = true -> allStr g (decimal (snd bn)) = true ->
  match fst bn with
  | Prose text => allStr g text = true
  | Labelled s label math =>
      forallb (allStr g) (writtenOf k s) = true /\
      allStr g label = true /\ allStr g math = true
  end ->
  allStr g (formAt k bn ++ nl) = true.
Proof.
  intros Hnl Hn H. rewrite formAt_woven. destruct bn as [[text | s label math] n].
  - cbn [fst snd woven weave] in *.
    assert (Hnl' : allStr g nl = true) by (unfold nl; cbn [allStr]; now rewrite Hnl).
    now rewrite !allStr_app, H, Hnl'.
  - cbn [fst snd] in H, Hn. destruct H as (Hw & Hl & Hm).
    unfold writtenOf in Hw. apply allStr_weave; [reflexivity|].
    unfold woven in *. cbn [fst snd] in *.
    destruct (rank s <? k)%nat; destruct s; cbn [map fst forallb] in Hw;
      repeat match goal with
             | H : _ && _ = true |- _ => apply andb_true_iff in H as [? ?]
             end;
      repeat (apply Forall_cons; [split; cbn [fst snd]; try assumption; reflexivity|]);
      apply Forall_nil.
Qed.

Definition plainTable : bool :=
  forallb (fun s => forallb (allStr plainChar) (writtenOf 14 s)) allSyntaxes.

Lemma plainTable_ok : plainTable = true.
Proof. vm_compute. reflexivity. Qed.

Lemma document_plain (nbs : list (Item * nat)) :
  Forall (fun bn => itemOk (fst bn) = true) nbs ->
  allStr plainChar (document (formAt 14) nbs) = true.
Proof.
  induction 1 as [|bn nbs Hb Hnbs IH]; [reflexivity|].
  cbn [document]. rewrite <- append_assoc, allStr_app, IH, andb_true_r.
  apply form_chars; [reflexivity | |].
  - apply (class_sub isDigit plainChar); [vm_compute; reflexivity | apply decimal_digits].
  - destruct (fst bn) as [text | s label math] eqn:E.
    + now apply proseOk_spec in Hb as (_ & Hb & _).
    + pose proof plainTable_ok as Ht. unfold plainTable in Ht. rewrite forallb_forall in Ht.
      split; [apply Ht; now apply (itemOk_syntax s label math)|].
      destruct (itemOk_parts s label math Hb) as [Hl Hm].
      apply labelOk_spec in Hl as (_ & Hl & _). apply mathOk_spec in Hm as (_ & Hm & _).
      split; [revert Hl | revert Hm]; apply class_sub; vm_compute; reflexivity.
Qed.

(** *** The state, pass after pass *)

Lemma pass_cases (k : nat) (b : Item) :
  earlierPass (S k) b = earlierPass k b || samePass k b /\
  earlierPass k b && samePass k b = false.
Proof.
  unfold earlierPass, samePass. destruct (rankOf b) as [r|]; [|now split].
  destruct (Nat.ltb_spec r (S k)), (Nat.ltb_spec r k), (Nat.eqb_spec r k);
    try lia; now split.
Qed.

Lemma count_earlier_S (k : nat) (bs : list Item) :
  count (earlierPass (S k)) bs = count (earlierPass k) bs + count (samePass k) bs.
Proof.
  unfold count. induction bs as [|b bs IH]; [reflexivity|]. cbn [filter].
  destruct (pass_cases k b) as [E1 E2]. rewrite E1.
  destruct (earlierPass k b), (samePass k b); try discriminate;
    cbn [orb List.length]; lia.
Qed.

Lemma length_entriesOf (k : nat) (nbs : list (Item * nat)) :
  List.length (entriesOf k nbs) = count (samePass k) (map fst nbs).
Proof.
  unfold count, entriesOf. induction nbs as [|[b n] nbs IH]; [reflexivity|].
  cbn [flat_map map filter fst snd]. rewrite length_app, IH.
  destruct b as [text | s label math]; [reflexivity|].
  change (samePass k (Labelled s label math)) with (rank s =? k)%nat.
  now destruct (rank s =? k)%nat.
Qed.

Lemma stateAt_S (k : nat) (nbs : list (Item * nat)) :
  {| eqCounter := eqCounter (stateAt k nbs) + List.length (entriesOf k nbs);
     equations := (equations (stateAt k nbs) ++ entriesOf k nbs)%list |} =
  stateAt (S k) nbs.
Proof.
  unfold stateAt. cbn [eqCounter equations].
  rewrite count_earlier_S, length_entriesOf, seq_S, flat_map_app.
  cbn [flat_map Nat.add]. now rewrite app_nil_r.
Qed.

Lemma numbered_consistent (k : nat) (bs : list Item) :
  consistent k (eqCounter (stateAt k (numbered bs))) (numbered bs).
Proof.
  pose proof (numberGo_consistent k bs []) as H. unfold count at 2 in H.
  cbn [app filter List.length] in H. rewrite Nat.add_0_r in H.
  unfold stateAt, numbered. cbn [eqCounter]. now rewrite numberGo_blocks.
Qed.

Lemma run_step (pass : string -> MathState -> string * MathState) (k : nat)
  (bs : list Item) :
  (forall st, consistent k (eqCounter st) (numbered bs) ->
     pass (document (formAt k) (numbered bs)) st =
     (document (formAt (S k)) (numbered bs),
      {| eqCounter := eqCounter st + List.length (entriesOf k (numbered bs));
         equations := (equations st ++ entriesOf k (numbered bs))%list |})) ->
  pass (document (formAt k) (numbered bs)) (stateAt k (numbered bs)) =
  (document (formAt (S k)) (numbered bs), stateAt (S k) (numbered bs)).
Proof.
  intros H. rewrite (H _ (numbered_consistent k bs)). now rewrite stateAt_S.
Qed.

Lemma numbered_ok (bs : list Item) :
  forallb itemOk bs = true -> Forall (fun bn => itemOk (fst bn) = true) (numbered bs).
Proof.
  intros H. rewrite forallb_forall in H. apply Forall_forall. intros bn Hin.
  apply H. unfold numbered in Hin. rewrite <- (numberGo_blocks bs []).
  now apply in_map.
Qed.

Lemma firstn_amsEnvs (j : nat) :
  j < 11 -> firstn (S j) amsEnvs = (firstn j amsEnvs ++ [nth j amsEnvs ""])%list.
Proof. intros H. do 11 (destruct j as [|j]; [reflexivity|]). lia. Qed.

Lemma run_environments (bs : list Item) (j : nat) :
  forallb itemOk bs = true -> j <= 11 ->
  runPasses (map amsPass (firstn j amsEnvs))
    (document (formAt 2) (numbered bs), stateAt 2 (numbered bs)) =
  (document (formAt (2 + j)) (numbered bs), stateAt (2 + j) (numbered bs)).
Proof.
  intros Hok. induction j as [|j IH]; intros Hj; [reflexivity|].
  rewrite (firstn_amsEnvs j) by lia. rewrite map_app, runPasses_app, IH by lia.
  cbn [map]. rewrite runPasses_cons. cbn [fst snd runPasses fold_left].
  apply (run_step (amsPass (nth j amsEnvs "")) (2 + j) bs).
  intros st Hc. apply pass_environment; [lia | now apply numbered_ok | assumption].
Qed.

Lemma document_written (nbs : list (Item * nat)) :
  document (formAt 0) nbs = document writtenItem (map fst nbs).
Proof.
  induction nbs as [|[b n] nbs IH]; [reflexivity|].
  cbn [document map fst]. rewrite IH. now destruct b.
Qed.

Lemma document_rendered (nbs : list (Item * nat)) :
  Forall (fun bn => itemOk (fst bn) = true) nbs ->
  document (formAt 15) nbs = document renderedItem nbs.
Proof.
  induction 1 as [|[b n] nbs Hb Hnbs IH]; [reflexivity|].
  cbn [document]. rewrite IH. f_equal. cbn [fst] in Hb.
  destruct b as [text | s label math]; [reflexivity|].
  rewrite formAt_equation. unfold renderedItem. cbn [fst snd].
  assert (Hr : (rank s <? 15)%nat = true).
  { apply Nat.ltb_lt. destruct s; cbn [rank]; try lia.
    destruct (rank_environment _ _ _ Hb) as [_ Hr]. cbn [rank] in Hr. lia. }
  now rewrite Hr.
Qed.

Lemma count_none (bs : list Item) : count (earlierPass 0) bs = 0.
Proof.
  unfold count. induction bs as [|b bs IH]; [reflexivity|]. cbn [filter].
  assert (E : earlierPass 0 b = false) by (unfold earlierPass; now destruct (rankOf b)).
  now rewrite E.
Qed.

Lemma count_all (bs : list Item) :
  forallb itemOk bs = true -> count (earlierPass 15) bs = count isEquation bs.
Proof.
  unfold count. induction bs as [|b bs IH]; [reflexivity|]. cbn [forallb filter].
  intros H. apply andb_true_iff in H as [Hb Hbs]. specialize (IH Hbs).
  destruct b as [text | s label math]; [exact IH|].
  change (earlierPass 15 (Labelled s label math)) with (rank s <? 15)%nat.
  assert (Hr : (rank s <? 15)%nat = true).
  { apply Nat.ltb_lt. destruct s; cbn [rank]; try lia.
    destruct (rank_environment _ _ _ Hb) as [_ Hr]. cbn [rank] in Hr. lia. }
  rewrite Hr. cbn [isEquation List.length]. now rewrite IH.
Qed.

(** The whole resolver on a document of items. *)
Lemma resolver_on_items (bs : list Item) :
  forallb itemOk bs = true -> suffixFirst bs = true ->
  parseMystMathSt (document writtenItem bs) =
  (document renderedItem (numbered bs),
   {| eqCounter := count isEquation bs; equations := registry (numbered bs) |}).
Proof.
  intros Hok Hsf. pose proof (numbered_ok bs Hok) as Hall.
  assert (Hblocks : map fst (numbered bs) = bs) by apply numberGo_blocks.
  assert (Hstart : (document writtenItem bs, initialMathState) =
                   (document (formAt 0) (numbered bs), stateAt 0 (numbered bs))).
  { rewrite document_written, Hblocks. unfold stateAt, initialMathState.
    now rewrite Hblocks, count_none. }
  assert (Hend : (document (formAt 15) (numbered bs), stateAt 15 (numbered bs)) =
                 (document renderedItem (numbered bs),
                  {| eqCounter := count isEquation bs;
                     equations := registry (numbered bs) |})).
  { rewrite (document_rendered _ Hall). unfold stateAt.
    now rewrite Hblocks, (count_all bs Hok). }
  unfold parseMystMathSt. rewrite Hstart, <- Hend. unfold mathPasses.
  cbn [app]. rewrite !runPasses_cons. cbn [fst snd].
  rewrite (run_step _ 0 bs) by (intros st Hc; now apply pass_backtick).
  rewrite (run_step _ 1 bs)
    by (intros st Hc; apply pass_suffix; [assumption | now rewrite Hblocks | assumption]).
  rewrite runPasses_app.
  change (map amsPass amsEnvs) with (map amsPass (firstn 11 amsEnvs)).
  rewrite (run_environments bs 11 Hok (le_n 11)).
  cbn [Nat.add]. rewrite !runPasses_cons. cbn [fst snd].
  rewrite (run_step _ 13 bs) by (intros st Hc; now apply pass_dollar).
  cbn [fst snd].
  destruct (charPasses_idle (document (formAt 14) (numbered bs)) (stateAt 14 (numbered bs))
              (document_plain _ Hall)) as (_ & _ & _ & H5 & H6 & H7 & H8).
  rewrite H5. cbn [fst snd]. rewrite H6. cbn [fst snd]. rewrite H7. cbn [fst snd].
  rewrite H8. cbn [fst snd].
  rewrite (run_step _ 14 bs) by (intros st Hc; now apply pass_colon).
  reflexivity.
Qed.

(** *** The numbers *)

Lemma entries_numbers (k : nat) (nbs : list (Item * nat)) :
  forall c, consistent k c nbs ->
  map (fun e => number (snd e)) (entriesOf k nbs) =
  seq (S c) (List.length (entriesOf k nbs)).
Proof.
  unfold entriesOf. induction nbs as [|[b n] nbs IH]; intros c Hc; [reflexivity|].
  cbn [consistent fst snd] in Hc. unfold samePass in Hc.
  cbn [flat_map fst snd]. destruct b as [text | s label math]; cbn [rankOf] in Hc.
  - now apply IH.
  - destruct (rank s =? k)%nat.
    + destruct Hc as [Hn Hc]. cbn [app map List.length seq snd number].
      now rewrite (IH _ Hc), Hn.
    + now apply IH.
Qed.

Lemma registry_numbers (bs : list Item) (K : nat) :
  map (fun e => number (snd e)) (flat_map (fun j => entriesOf j (numbered bs)) (seq 0 K)) =
  seq 1 (count (earlierPass K) bs).
Proof.
  induction K as [|K IH]; [now rewrite count_none|].
  rewrite seq_S, flat_map_app, map_app, IH. cbn [flat_map Nat.add]. rewrite app_nil_r.
  pose proof (numbered_consistent K bs) as Hc. unfold stateAt in Hc. cbn [eqCounter] in Hc.
  unfold numbered in Hc at 1. rewrite numberGo_blocks in Hc.
  rewrite (entries_numbers K _ _ Hc), length_entriesOf.
  unfold numbered at 1. rewrite numberGo_blocks.
  now rewrite count_earlier_S, seq_app.
Qed.

Lemma same_numbers (k : nat) (nbs : list (Item * nat)) :
  forall c, consistent k c nbs ->
  map snd (filter (fun bn => samePass k (fst bn)) nbs) =
  seq (S c) (count (samePass k) (map fst nbs)).
Proof.
  unfold count. induction nbs as [|[b n] nbs IH]; intros c Hc; [reflexivity|].
  cbn [consistent fst snd] in Hc. cbn [filter map fst].
  destruct (samePass k b).
  - destruct Hc as [Hn Hc]. cbn [map snd List.length seq]. now rewrite (IH _ Hc), Hn.
  - now apply IH.
Qed.

Lemma one_pass_numbers (k : nat) (bs : list Item) :
  forallb (fun b => negb (isEquation b) || samePass k b) bs = true ->
  count (earlierPass k) bs = 0 /\ count (samePass k) bs = count isEquation bs /\
  forall nbs : list (Item * nat), map fst nbs = bs ->
    filter (fun bn => isEquation (fst bn)) nbs = filter (fun bn => samePass k (fst bn)) nbs.
Proof.
  unfold count. induction bs as [|b bs IH]; intros H.
  - repeat split. intros nbs E. now destruct nbs.
  - cbn [forallb] in H. apply andb_true_iff in H as [Hb Hbs].
    destruct (IH Hbs) as (H1 & H2 & H3).
    assert (Hcase : earlierPass k b = false /\ samePass k b = isEquation b).
    { unfold earlierPass, samePass in *. destruct b as [text | s label math]; [now split|].
      cbn [isEquation negb orb rankOf] in *. apply Nat.eqb_eq in Hb as Hr.
      rewrite Hb. split; [apply Nat.ltb_ge; lia | reflexivity]. }
    destruct Hcase as [E1 E2]. cbn [filter]. rewrite E1, E2. repeat split.
    + exact H1.
    + destruct (isEquation b); cbn [List.length]; now rewrite H2.
    + intros nbs E. destruct nbs as [|bn nbs]; [discriminate|].
      cbn [map] in E. inversion E as [[Eb Ebs]]. cbn [filter].
      rewrite Eb, E2, (H3 nbs Ebs). reflexivity.
Qed.

(** C1 (as amended): the numbers follow the passes of the resolver, not the
    document.  Take a document of items, each followed by a line feed: a
    paragraph without math (empty, or starting with neither white space
    nor an opening parenthesis, without dollar, backtick, hash, [\begin{]
    or [:::{math}]), or an equation with a label (letters, digits, [_],
    [-], [.] and [:], never three colons in a row) and one line of math
    (without dollar, backtick or hash, starting with neither white space
    nor a colon, not ending with white space, without [\begin{], [\end{]
    or three colons), written in one of the five syntaxes: the backtick
    directive with a [:label:] line, [$$math$$ (label)], an environment
    [\begin{name}\label{label}math\end{name}] for one of the eleven names,
    [$$\label{label}math$$], or the colon directive with a [:label:] line;
    and no equation written [$$\label{..}..$$] stands before one written
    [$$..$$ (label)].  Then the resolver gives the page in which every
    equation is the equation-block element with its id, its math and its
    number, and the paragraphs are unchanged; the counter ends at the
    number N of equations, and the registry holds the labels with these
    numbers.  The numbers are these: first the backtick directives, then
    the equations [$$..$$ (label)], then the environments, name by name
    in the order equation, equation*, align, align*, gather, gather*,
    multline, multline*, alignat, alignat*, split, then the equations
    [$$\label{..}..$$], then the colon directives; within one of these
    fifteen passes, in the order of the document.  So the registry lists
    the numbers 1 to N in the order of its entries; the equations of one
    pass carry, in the order of the document, the consecutive numbers
    that follow the equations of the earlier passes; and when all the
    equations of the document belong to one pass, they are numbered 1 to
    N in the order of the document. *)
Theorem equations_numbered_pass_by_pass (bs : list Item) :
  forallb itemOk bs = true -> suffixFirst bs = true ->
  parseMystMathSt (document writtenItem bs) =
  (document renderedItem (numbered bs),
   {| eqCounter := count isEquation bs; equations := registry (numbered bs) |}) /\
  map (fun e => number (snd e)) (registry (numbered bs)) = seq 1 (count isEquation bs) /\
  (forall k, map snd (filter (fun bn => samePass k (fst bn)) (numbered bs)) =
             seq (S (count (earlierPass k) bs)) (count (samePass k) bs)) /\
  (forall k, forallb (fun b => negb (isEquation b) || samePass k b) bs = true ->
             map snd (filter (fun bn => isEquation (fst bn)) (numbered bs)) =
             seq 1 (count isEquation bs)).
Proof.
  intros Hok Hsf.
  assert (Hsame : forall k, map snd (filter (fun bn => samePass k (fst bn)) (numbered bs)) =
                            seq (S (count (earlierPass k) bs)) (count (samePass k) bs)).
  { intros k. pose proof (numbered_consistent k bs) as Hc.
    unfold stateAt in Hc. cbn [eqCounter] in Hc.
    rewrite (same_numbers k _ _ Hc). unfold numbered. now rewrite numberGo_blocks. }
  split; [now apply resolver_on_items|]. split; [|split; [exact Hsame|]].
  - unfold registry. now rewrite registry_numbers, (count_all bs Hok).
  - intros k Hk. destruct (one_pass_numbers k bs Hk) as (H1 & H2 & H3).
    rewrite (H3 (numbered bs) (numberGo_blocks bs [])), Hsame. now rewrite H1, H2.
Qed.

(** A document with the five syntaxes and two environments, none in the
    place of its pass. *)
Definition sixEquations : list Item :=
  [ Prose "Six equations.";
    Labelled ColonDirective "eq:colon" "f = 6";
    Labelled (Environment "align") "eq:align" "d = 4";
    Labelled (Environment "equation") "eq:equation" "c = 3";
    Prose "";
    Labelled DollarSuffix "eq:suffix" "b = 2";
    Labelled DollarLabel "eq:command" "e = 5";
    Labelled BacktickDirective "eq:backtick" "a = 1" ].

Definition equationElement (classes label math number : string) : string :=
  "<div class=" ++ quoted classes ++ " id=" ++ quoted label ++ ">\[" ++ math ++
  "\]<span class=" ++ quoted "equation-number" ++ ">(" ++ number ++ ")</span></div>".

Lemma equations_numbered_pass_by_pass_witness :
  parseMystMathSt
    ("Six equations." ++ nl ++
     ":::{math}" ++ nl ++ ":label: eq:colon" ++ nl ++ "f = 6" ++ nl ++ ":::" ++ nl ++
     "\begin{align}\label{eq:align}d = 4\end{align}" ++ nl ++
     "\begin{equation}\label{eq:equation}c = 3\end{equation}" ++ nl ++
     nl ++
     "$$b = 2$$ (eq:suffix)" ++ nl ++
     "$$\label{eq:command}e = 5$$" ++ nl ++
     "```{math}" ++ nl ++ ":label: eq:backtick" ++ nl ++ "a = 1" ++ nl ++ "```" ++ nl) =
  ("Six equations." ++ nl ++
   equationElement "equation-block" "eq:colon" "f = 6" "6" ++ nl ++
   equationElement "equation-block ams-env" "eq:align"
     "\begin{align}\label{eq:align}d = 4\end{align}" "4" ++ nl ++
   equationElement "equation-block ams-env" "eq:equation"
     "\begin{equation}\label{eq:equation}c = 3\end{equation}" "3" ++ nl ++
   nl ++
   equationElement "equation-block" "eq:suffix" "b = 2" "2" ++ nl ++
   equationElement "equation-block" "eq:command" "e = 5" "5" ++ nl ++
   equationElement "equation-block" "eq:backtick" "a = 1" "1" ++ nl,
   {| eqCounter := 6;
      equations :=
        [ ("eq:backtick", {| number := 1; id := "eq:backtick" |});
          ("eq:suffix", {| number := 2; id := "eq:suffix" |});
          ("eq:equation", {| number := 3; id := "eq:equation" |});
          ("eq:align", {| number := 4; id := "eq:align" |});
          ("eq:command", {| number := 5; id := "eq:command" |});
          ("eq:colon", {| number := 6; id := "eq:colon" |}) ] |}).
Proof.
  exact (proj1 (equations_numbered_pass_by_pass sixEquations eq_refl eq_refl)).
Defined.
